(** * Magic File Transfer: the upload coordinator, embedded in Rocq

    A shallow embedding of [src/uploadManager.js] (class [UploadManager]),
    of the [DataStore] class it is built on, and of the handlers of the
    HTTP server ([server.js]), followed by the properties of the
    specification that were checked against them, and by further
    properties of the code.

    Conventions of the embedding.
    - JavaScript objects that are only ever read from and written to the
      JSON state file are values: records and stdpp finite maps.
    - Objects that live in the manager's memory (the ephemeral bucket, and
      every object an operation returns to its caller) are cells of an
      explicit heap, addressed by location, so that aliasing between what is
      stored and what is returned can be stated.
    - Effects are a state monad with exceptions, [ST S]: a thrown error keeps
      the state reached so far, as in JavaScript.
    - The wall clock and nanoid's random generators are oracles: the n-th
      reading of each is given by a function, and the state counts readings.
    - Numbers are integers ([Z]): sizes, counts and chunk indices.  The
      sizes of a new upload are covered up to [2^53] in magnitude, where
      every integer is a double and the chunk count the code computes with
      doubles is the one computed with integers.  Greater sizes, sizes
      that are no integers and a chunk size of zero leave this domain, and
      a few control paths leave the object model (property names inherited
      from [Object.prototype]); these end in the outcome [Stuck].  The
      theorems that say that a call returns, throws or is answered name
      the conditions under which it does not end there; the others say
      what holds when it returns or throws. *)

From stdpp Require Import gmap strings list fin_maps sorting pretty.
From Stdlib Require Import ZArith Lia Ascii.

Open Scope Z_scope.

(** ** Errors and outcomes *)

(** The messages of the [Error] objects the code throws.  [missing_chunk i]
    is the message [`missing_chunk_${i}`]. *)
Inductive Error : Type :=
| upload_not_found
| user_not_found
| chunk_out_of_range
| missing_fields
| invalid_sizes
| missing_chunk (i : Z).

#[global] Instance Error_eq_dec : EqDecision Error.
Proof. solve_decision. Defined.

(** How a call ends: it returns, it throws, or it leaves the embedding. *)
Inductive Outcome (A : Type) : Type :=
| Ok (a : A)
| Throw (e : Error)
| Stuck.
Arguments Ok {A} a.
Arguments Throw {A} e.
Arguments Stuck {A}.

(** ** The monad of stateful, throwing code *)

Definition ST (S A : Type) : Type := S → Outcome A * S.

Definition ret {S A} (a : A) : ST S A := λ s, (Ok a, s).

Definition bind {S A B} (m : ST S A) (k : A → ST S B) : ST S B := λ s,
  match m s with
  | (Ok a, s') => k a s'
  | (Throw e, s') => (Throw e, s')
  | (Stuck, s') => (Stuck, s')
  end.

Definition throw {S A} (e : Error) : ST S A := λ s, (Throw e, s).
Definition stuck {S A} : ST S A := λ s, (Stuck, s).
Definition gets {S A} (f : S → A) : ST S A := λ s, (Ok (f s), s).
Definition modify {S} (f : S → S) : ST S unit := λ s, (Ok tt, f s).

(** Code that only touches the second component of a paired state. *)
Definition lift {D E A} (m : ST E A) : ST (D * E) A := λ '(d, e),
  let '(r, e') := m e in (r, (d, e')).

#[global] Instance ST_ret {S} : MRet (ST S) := λ A, ret.
#[global] Instance ST_bind {S} : MBind (ST S) := λ A B k m, bind m k.
#[global] Instance ST_fmap {S} : FMap (ST S) := λ A B f m, bind m (λ a, ret (f a)).

(** A loop over a list, in order (a [for ... of] or [forEach]). *)
Fixpoint forEach {S A B} (f : A → ST S B) (l : list A) : ST S (list B) :=
  match l with
  | [] => ret []
  | x :: l' => y ← f x; ys ← forEach f l'; ret (y :: ys)
  end.

(** ** The data model *)

(** An instant as [new Date().toISOString()] renders it; the rendering is
    never the empty string, so a timestamp is always truthy. *)
Definition Timestamp : Type := Z.

Inductive Status : Type := active | paused | completed.

#[global] Instance Status_eq_dec : EqDecision Status.
Proof. solve_decision. Defined.

(** A location of the heap of in-memory objects. *)
Abbreviation loc := nat.

(** Upload metadata: the fields of [baseMetadata] in [createUpload], the
    [completedAt] that [finalizeUpload] adds and the [missingChunks] that
    [_decorateUpload] adds.  A field that an object may lack is an option.
    [R] is how the nested [receivedChunks] object is held and [A] how the
    nested [missingChunks] array is: by value in JSON, by location in
    memory. *)
Module Upload.
Record t (R A : Type) : Type := mk {
  id : string;
  userKey : string;
  fileName : string;
  fileSize : Z;
  chunkSize : Z;
  totalChunks : Z;
  persist : bool;
  status : Status;
  receivedChunks : R;
  receivedCount : option Z;
  createdAt : Timestamp;
  updatedAt : Timestamp;
  completedAt : option Timestamp;
  missingChunks : option A;
}.
Arguments mk {R A}.
Arguments id {R A}.
Arguments userKey {R A}.
Arguments fileName {R A}.
Arguments fileSize {R A}.
Arguments chunkSize {R A}.
Arguments totalChunks {R A}.
Arguments persist {R A}.
Arguments status {R A}.
Arguments receivedChunks {R A}.
Arguments receivedCount {R A}.
Arguments createdAt {R A}.
Arguments updatedAt {R A}.
Arguments completedAt {R A}.
Arguments missingChunks {R A}.

Section setters.
Context {R A : Type}.
Implicit Type u : t R A.

Definition set_status (v : Status) u : t R A :=
  mk (id u) (userKey u) (fileName u) (fileSize u) (chunkSize u) (totalChunks u)
     (persist u) v (receivedChunks u) (receivedCount u) (createdAt u)
     (updatedAt u) (completedAt u) (missingChunks u).

Definition set_receivedCount (v : option Z) u : t R A :=
  mk (id u) (userKey u) (fileName u) (fileSize u) (chunkSize u) (totalChunks u)
     (persist u) (status u) (receivedChunks u) v (createdAt u)
     (updatedAt u) (completedAt u) (missingChunks u).

Definition set_updatedAt (v : Timestamp) u : t R A :=
  mk (id u) (userKey u) (fileName u) (fileSize u) (chunkSize u) (totalChunks u)
     (persist u) (status u) (receivedChunks u) (receivedCount u) (createdAt u)
     v (completedAt u) (missingChunks u).

Definition set_completedAt (v : option Timestamp) u : t R A :=
  mk (id u) (userKey u) (fileName u) (fileSize u) (chunkSize u) (totalChunks u)
     (persist u) (status u) (receivedChunks u) (receivedCount u) (createdAt u)
     (updatedAt u) v (missingChunks u).

End setters.

(** Replacing the two nested objects, which may change their representation. *)
Definition with_nested {R A R' A'} (r : R') (a : option A') (u : t R A) : t R' A' :=
  mk (id u) (userKey u) (fileName u) (fileSize u) (chunkSize u) (totalChunks u)
     (persist u) (status u) r (receivedCount u) (createdAt u)
     (updatedAt u) (completedAt u) a.

End Upload.

(** Upload metadata as JSON text holds it.  [receivedChunks] is an object
    whose keys are chunk indices and whose values are all [true] (the only
    value the code ever stores), hence a finite set of indices. *)
Abbreviation UploadJ := (Upload.t (gset Z) (list Z)).

(** Upload metadata as an object in memory: the nested object and array are
    objects of their own. *)
Abbreviation UploadObj := (Upload.t loc loc).

Module HistoryEntry.
Record t : Type := mk {
  id : string;
  fileName : string;
  fileSize : Z;
  completedAt : Timestamp;
  chunkSize : Z;
  totalChunks : Z;
  persist : bool;
}.
End HistoryEntry.

(** A user record of the state document.  [identifyUser] and
    [_ensureUserRecord] always write [uploads] and [history], so the
    defaults [user.uploads || {}] and [user.history || []] are the
    identity. *)
Module UserRecord.
Record t : Type := mk {
  key : string;
  createdAt : Timestamp;
  uploads : gmap string UploadJ;
  history : list HistoryEntry.t;
}.
Definition set_uploads (v : gmap string UploadJ) (u : t) : t :=
  mk (key u) (createdAt u) v (history u).
Definition set_history (v : list HistoryEntry.t) (u : t) : t :=
  mk (key u) (createdAt u) (uploads u) v.
End UserRecord.

(** The state document [{ users: { <userKey>: UserRecord } }]. *)
Record Doc : Type := mkDoc { users : gmap string UserRecord.t }.

(** ** Property access on plain objects

    [state.users] and [user.uploads] are plain objects, so a lookup also
    finds the properties inherited from [Object.prototype]. *)
Definition inherited (k : string) : bool :=
  bool_decide (k ∈ [ "constructor"; "__proto__"; "hasOwnProperty"; "isPrototypeOf";
                     "propertyIsEnumerable"; "toLocaleString"; "toString"; "valueOf";
                     "__defineGetter__"; "__defineSetter__";
                     "__lookupGetter__"; "__lookupSetter__" ]%string).

(** [obj[k] ? true : false], for an object whose own values are all truthy. *)
Definition truthy_at {V} (obj : gmap string V) (k : string) : bool :=
  bool_decide (is_Some (obj !! k)) || inherited k.

(** [obj[k]] where the code goes on to use the value as a record of the
    model: an own property, or [undefined]; what an inherited property
    would do next is outside the embedding. *)
Definition prop {S V} (obj : gmap string V) (k : string) : ST S (option V) :=
  match obj !! k with
  | Some v => ret (Some v)
  | None => if inherited k then stuck else ret None
  end.

(** [obj[k] = v]: an own property, except for [__proto__], which is a setter. *)
Definition assign {S V} (obj : gmap string V) (k : string) (v : V) : ST S (gmap string V) :=
  if bool_decide (k = "__proto__"%string) then stuck else ret (<[k := v]> obj).

(** ** DataStore ([datastore.js])

    [file] is the content of the JSON file at [filePath] ([None]: the file
    does not exist).  [_lock] is the promise at the tail of the chain:
    fulfilled ([None]) or rejected with an error ([Some e]).  Every call
    replaces [_lock] by [_lock.then(job)]; JavaScript runs the jobs of one
    chain one after the other in the order of the calls, so a call is
    embedded as the function that runs its job to completion. *)
Module DataStore.
Record t : Type := mk { file : option Doc; _lock : option Error }.

(** [_read]: the parsed file, or the empty document when it is missing. *)
Definition _read (s : t) : Doc :=
  match file s with
  | Some d => d
  | None => mkDoc ∅
  end.

(** [_write]: the file is replaced by the document. *)
Definition _write (state : Doc) (s : t) : t := mk (Some state) (_lock s).

Section calls.
Context {E A : Type}.

(** [withState(mutator)].  [_lock.then(job)] with a rejected [_lock] does
    not run [job]: the new promise is rejected with the same error.
    Otherwise the job reads the file, runs the mutator on the parsed
    document and writes the document back; when the mutator throws, the
    write is skipped and the new [_lock] is the rejected promise. *)
Definition withState (mutator : ST (Doc * E) A) : ST (t * E) A := λ '(s, env),
  match _lock s with
  | Some e => (Throw e, (s, env))
  | None =>
      match mutator (_read s, env) with
      | (Ok result, (state, env')) => (Ok result, (_write state s, env'))
      | (Throw e, (_, env')) => (Throw e, (mk (file s) (Some e), env'))
      | (Stuck, (_, env')) => (Stuck, (s, env'))
      end
  end.

(** [readState(selector)], for the calls that pass a selector (all calls of
    the manager do).  Same chain, no write. *)
Definition readState (selector : ST (Doc * E) A) : ST (t * E) A := λ '(s, env),
  match _lock s with
  | Some e => (Throw e, (s, env))
  | None =>
      match selector (_read s, env) with
      | (Ok finalResult, (_, env')) => (Ok finalResult, (s, env'))
      | (Throw e, (_, env')) => (Throw e, (mk (file s) (Some e), env'))
      | (Stuck, (_, env')) => (Stuck, (s, env'))
      end
  end.

End calls.
End DataStore.

(** ** The manager's memory and the disk *)

Inductive Cell : Type :=
| ObjUpload (o : UploadObj)
| ObjChunks (received : gset Z)
| ObjArray (items : list Z).

Abbreviation bytes := (list Byte.byte).

(** The state of an [UploadManager] besides its store.
    - [ephemeral]: the [Map] from user key to [{ uploads: Map }], each inner
      map from upload id to the metadata object;
    - [heap]: the upload objects in memory, with their nested objects;
    - [clockReads], [userIdDraws], [fileIdDraws]: how often the clock and
      the two nanoid generators have been consulted;
    - [uploadDir]: the scratch directories, by upload id, each with its
      [<i>.part] files by index; [finalDir]: the assembled files by name. *)
Module Manager.
Record t : Type := mk {
  ephemeral : gmap string (gmap string loc);
  heap : list Cell;
  clockReads : nat;
  userIdDraws : nat;
  fileIdDraws : nat;
  uploadDir : gmap string (gmap Z bytes);
  finalDir : gmap string bytes;
}.
Definition set_ephemeral v (m : t) : t :=
  mk v (heap m) (clockReads m) (userIdDraws m) (fileIdDraws m) (uploadDir m) (finalDir m).
Definition set_heap v (m : t) : t :=
  mk (ephemeral m) v (clockReads m) (userIdDraws m) (fileIdDraws m) (uploadDir m) (finalDir m).
Definition set_clockReads v (m : t) : t :=
  mk (ephemeral m) (heap m) v (userIdDraws m) (fileIdDraws m) (uploadDir m) (finalDir m).
Definition set_userIdDraws v (m : t) : t :=
  mk (ephemeral m) (heap m) (clockReads m) v (fileIdDraws m) (uploadDir m) (finalDir m).
Definition set_fileIdDraws v (m : t) : t :=
  mk (ephemeral m) (heap m) (clockReads m) (userIdDraws m) v (uploadDir m) (finalDir m).
Definition set_uploadDir v (m : t) : t :=
  mk (ephemeral m) (heap m) (clockReads m) (userIdDraws m) (fileIdDraws m) v (finalDir m).
Definition set_finalDir v (m : t) : t :=
  mk (ephemeral m) (heap m) (clockReads m) (userIdDraws m) (fileIdDraws m) (uploadDir m) v.
(** [new UploadManager(...)] over empty data directories. *)
Definition init : t := mk ∅ [] 0 0 0 ∅ ∅.
End Manager.

(** The whole program state: [manager.store] and the rest of the manager. *)
Abbreviation World := (DataStore.t * Manager.t)%type.

(** *** Heap primitives *)

(** A new object: the next free location. *)
Definition alloc (c : Cell) : ST Manager.t loc := λ m,
  (Ok (length (Manager.heap m)), Manager.set_heap (Manager.heap m ++ [c]) m).

(** The JSON value of the upload object at [l]: its fields, with the nested
    object and array read through their locations. *)
Definition load (h : list Cell) (l : loc) : option UploadJ :=
  match h !! l with
  | Some (ObjUpload o) =>
      match h !! Upload.receivedChunks o with
      | Some (ObjChunks received) =>
          match Upload.missingChunks o with
          | None => Some (Upload.with_nested received None o)
          | Some la =>
              match h !! la with
              | Some (ObjArray items) => Some (Upload.with_nested received (Some items) o)
              | _ => None
              end
          end
      | _ => None
      end
  | _ => None
  end.

(** [JSON.stringify(upload)] for an upload object in memory. *)
Definition stringify (upload : loc) : ST Manager.t UploadJ := λ m,
  match load (Manager.heap m) upload with
  | Some u => (Ok u, m)
  | None => (Stuck, m)
  end.

(** [JSON.parse(text)] for the text of an upload: new objects throughout.
    An object literal with the fields of [u] is built the same way. *)
Definition parse (u : UploadJ) : ST Manager.t loc :=
  lr ← alloc (ObjChunks (Upload.receivedChunks u));
  la ← match Upload.missingChunks u with
       | Some items => l ← alloc (ObjArray items); ret (Some l)
       | None => ret None
       end;
  alloc (ObjUpload (Upload.with_nested lr la u)).

(** Assignments to fields of the upload object at [l], given as the value
    [u] the object is to hold afterwards: the scalar fields are written to
    the object and the received set to its nested object, both in place.
    (No caller assigns [missingChunks] of a stored object.) *)
Definition assignFields (l : loc) (u : UploadJ) : ST Manager.t unit := λ m,
  match Manager.heap m !! l with
  | Some (ObjUpload o) =>
      match Manager.heap m !! Upload.receivedChunks o with
      | Some (ObjChunks _) =>
          let h1 := <[Upload.receivedChunks o := ObjChunks (Upload.receivedChunks u)]>
                      (Manager.heap m) in
          let o' := Upload.with_nested (Upload.receivedChunks o) (Upload.missingChunks o) u in
          (Ok tt, Manager.set_heap (<[l := ObjUpload o']> h1) m)
      | _ => (Stuck, m)
      end
  | _ => (Stuck, m)
  end.

(** An assignment to scalar fields or nested references of the upload
    object at [l]. *)
Definition updateObject (l : loc) (f : UploadObj → UploadObj) : ST Manager.t unit := λ m,
  match Manager.heap m !! l with
  | Some (ObjUpload o) => (Ok tt, Manager.set_heap (<[l := ObjUpload (f o)]> (Manager.heap m)) m)
  | _ => (Stuck, m)
  end.

(** *** The parsed state inside a store job *)

(** A mutator or selector runs on the pair of the parsed document, which
    it may mutate, and the manager's state. *)
Definition getState {E} : ST (Doc * E) Doc := gets fst.
Definition putState {E} (state : Doc) : ST (Doc * E) unit :=
  modify (λ '(_, env), (state, env)).

(** The effect, on the document, of having mutated the user record that
    [state.users[userKey]] refers to. *)
Definition setUser {E} (userKey : string) (user : UserRecord.t) : ST (Doc * E) unit :=
  modify (λ '(state, env), (mkDoc (<[userKey := user]> (users state)), env)).

(** *** The ephemeral bucket *)

(** [this.ephemeral.get(userKey)] and then [.uploads.get(uploadId)], when
    both exist. *)
Definition ephemeralUpload (userKey uploadId : string) : ST Manager.t (option loc) :=
  gets (λ m, Manager.ephemeral m !! userKey ≫= (.!! uploadId)).

Definition setEphemeralUpload (userKey uploadId : string) (upload : loc) : ST Manager.t unit :=
  modify (λ m, Manager.set_ephemeral
    (<[userKey := <[uploadId := upload]> (default ∅ (Manager.ephemeral m !! userKey))]>
       (Manager.ephemeral m)) m).

Definition deleteEphemeralUpload (userKey uploadId : string) : ST Manager.t unit :=
  modify (λ m, Manager.set_ephemeral
    (<[userKey := delete uploadId (default ∅ (Manager.ephemeral m !! userKey))]>
       (Manager.ephemeral m)) m).

(** [_ensureEphemeralUser]. *)
Definition _ensureEphemeralUser (userKey : string) : ST Manager.t unit :=
  modify (λ m,
    match Manager.ephemeral m !! userKey with
    | Some _ => m
    | None => Manager.set_ephemeral (<[userKey := ∅]> (Manager.ephemeral m)) m
    end).

(** *** Arithmetic and strings *)

(** *** Doubles

    The sizes of an upload are JavaScript numbers, and the chunk count is
    computed with them.  A finite double is given here as the integer it
    is in units of [2^(-1074)], the least positive double: the doubles are
    the numbers [m * 2^j] of these units with [|m| < 2^53] and
    [0 ≤ j ≤ 2045]. *)
Definition isDouble (z : Z) : Prop :=
  ∃ m j, z = m * 2 ^ j ∧ Z.abs m < 2 ^ 53 ∧ 0 ≤ j ≤ 2045.

(** [z] is a double nearest to the quotient [a / b] of two integers:
    what the division of doubles returns for the doubles [a] and [b],
    however it breaks ties. *)
Definition nearestDouble (a b z : Z) : Prop :=
  isDouble z ∧
  ∀ z', isDouble z' → Z.abs (z * b - a * 2 ^ 1074) ≤ Z.abs (z' * b - a * 2 ^ 1074).

(** [Math.ceil(x)] of a double, as an integer. *)
Definition Math_ceil (z : Z) : Z := - ((- z) / 2 ^ 1074).

(** The integers up to [2^53] in magnitude are doubles, each of them. *)
Definition MAX_EXACT_INTEGER : Z := 9007199254740992.

Definition exactInteger (z : Z) : bool := Z.abs z <=? MAX_EXACT_INTEGER.

(** [Math.ceil(a / b)], where [a / b] is the division of doubles, for
    doubles [a] and [b] that are integers of magnitude at most [2^53].
    There the ceiling of the rounded quotient is the ceiling of the exact
    one, which is computed here: see [Math_ceil_div_doubles].  Past
    [2^53] the rounded quotient can be an integer when the exact one is
    just above it, as for [13510798882111492 / 4503599627370497], which is
    above [3] and is rounded to [3].  Such sizes, and [b = 0], where the
    quotient is [Infinity], [-Infinity] or [NaN], are outside the
    embedding: [None]. *)
Definition Math_ceil_div (a b : Z) : option Z :=
  if (b =? 0) || negb (exactInteger a) || negb (exactInteger b) then None
  else Some (- ((- a) / b)).

(** [history.unshift(entry)] followed by the cut to 200 entries. *)
Definition unshiftCapped (entry : HistoryEntry.t) (history : list HistoryEntry.t)
  : list HistoryEntry.t :=
  let history' := entry :: history in
  if (200 <? Z.of_nat (length history')) then take 200 history' else history'.

(** [path.basename] (POSIX): trailing slashes are dropped, then what
    follows the last remaining slash is kept.  A file name is a string of
    8-bit characters here. *)
Fixpoint dropSlashes (l : list Ascii.ascii) : list Ascii.ascii :=
  match l with
  | c :: l' => if Ascii.eqb c "/"%char then dropSlashes l' else l
  | [] => []
  end.

Fixpoint untilSlash (l : list Ascii.ascii) : list Ascii.ascii :=
  match l with
  | c :: l' => if Ascii.eqb c "/"%char then [] else c :: untilSlash l'
  | [] => []
  end.

Definition basename (name : string) : string :=
  String.string_of_list_ascii
    (reverse (untilSlash (dropSlashes (reverse (String.list_ascii_of_string name))))).

(** The characters of the class [[A-Za-z0-9._-]]. *)
Definition safeChar (c : Ascii.ascii) : bool :=
  let n := Ascii.N_of_ascii c in
  ((48 <=? n) && (n <=? 57) || (65 <=? n) && (n <=? 90) || (97 <=? n) && (n <=? 122)
   || (n =? 46) || (n =? 95) || (n =? 45))%N.

(** [_safeFileName]. *)
Definition _safeFileName (name : string) : string :=
  String.string_of_list_ascii
    ((λ c, if safeChar c then c else "_"%char) <$> String.list_ascii_of_string (basename name)).

(** ** UploadManager ([uploadManager.js]) *)

Module Identity.
Record t : Type := mk { userKey : string; created : bool }.
End Identity.

Module Recorded.
Record t : Type := mk { upload : loc; completed : bool }.
End Recorded.

Inductive Location : Type := memory | persistent.

Module Found.
Record t : Type := mk { location : Location; upload : loc }.
End Found.

Module Snapshot.
Record t : Type := mk {
  active : list loc;
  paused : list loc;
  history : list HistoryEntry.t;
}.
End Snapshot.

(** A request number after [Number(...)]: a finite one that is the
    integer [z], a finite one that is no integer, of which the embedding
    keeps whether it is above zero, or one of [NaN], [Infinity],
    [-Infinity]. *)
Inductive Number : Type :=
| Finite (z : Z)
| Fraction (aboveZero : bool)
| NonFinite.

(** [Number.isFinite(x)]. *)
Definition isFinite (x : Number) : bool :=
  match x with
  | Finite _ | Fraction _ => true
  | NonFinite => false
  end.

(** [x <= 0], which the code evaluates for a finite [x] only. *)
Definition atMostZero (x : Number) : bool :=
  match x with
  | Finite z => z <=? 0
  | Fraction aboveZero => negb aboveZero
  | NonFinite => false
  end.

(** A value used as a condition: [undefined] and the empty string are falsy. *)
Definition truthy (v : option string) : option string :=
  match v with
  | Some s => if bool_decide (s = ""%string) then None else Some s
  | None => None
  end.

(** The calls a client of the manager makes: its public methods, and the
    saving of a chunk by the chunk handler. *)
Inductive Call : Type :=
| IdentifyUser (fuel : nat) (requestedKey : option string)
| GetUserSnapshot (userKey : string)
| CreateUpload (userKey fileName : string) (fileSize chunkSize : Z) (persist : bool)
| GetUpload (userKey uploadId : string)
| RecordChunk (userKey uploadId : string) (chunkIndex : Z)
| UpdateStatus (userKey uploadId : string) (status : Status)
| FinalizeUpload (userKey uploadId : string)
| ClearHistory (userKey : string)
| RemoveUpload (userKey uploadId : string) (forget : bool)
| AssembleFile (upload : loc)
| SaveChunk (uploadId : string) (index : Z) (data : bytes).

(** What a call returns. *)
Inductive Reply : Type :=
| Identified (r : Identity.t)
| Snapshotted (r : option Snapshot.t)
| Uploaded (upload : loc)
| Looked (r : option Found.t)
| Marked (r : Recorded.t)
| Cleared (history : list HistoryEntry.t)
| Assembled (finalPath : string)
| Saved.

(** The upload objects a reply hands to the caller. *)
Definition returnedUploads (r : Reply) : list loc :=
  match r with
  | Snapshotted (Some snapshot) => Snapshot.active snapshot ++ Snapshot.paused snapshot
  | Uploaded upload => [upload]
  | Looked (Some found) => [Found.upload found]
  | Marked recorded => [Recorded.upload recorded]
  | _ => []
  end.

Section UploadManager.

(** The n-th reading of the clock, and the n-th identifier from each of
    the two nanoid generators. *)
Context (dateAt : nat → Timestamp) (userIdAt fileIdAt : nat → string).

Definition _now : ST Manager.t Timestamp := λ m,
  (Ok (dateAt (Manager.clockReads m)),
   Manager.set_clockReads (S (Manager.clockReads m)) m).

Definition _createUserId : ST Manager.t string := λ m,
  (Ok (userIdAt (Manager.userIdDraws m)),
   Manager.set_userIdDraws (S (Manager.userIdDraws m)) m).

Definition _createFileId : ST Manager.t string := λ m,
  (Ok (fileIdAt (Manager.fileIdDraws m)),
   Manager.set_fileIdDraws (S (Manager.fileIdDraws m)) m).

(** [_ensureUserRecord(state, userKey)]; the caller writes the record back
    with [setUser] after mutating it. *)
Definition _ensureUserRecord (userKey : string) : ST (Doc * Manager.t) UserRecord.t :=
  state ← getState;
  match users state !! userKey with
  | Some user => ret user
  | None =>
      if inherited userKey then stuck
      else
        now ← lift _now;
        let user := UserRecord.mk userKey now ∅ [] in
        setUser userKey user;;
        ret user
  end.

(** The loop [do { candidate = this._createUserId(); } while (state.users[candidate])],
    cut after [fuel] draws. *)
Fixpoint drawUserId (fuel : nat) (usersObj : gmap string UserRecord.t) : ST Manager.t string :=
  match fuel with
  | O => stuck
  | S fuel' =>
      candidate ← _createUserId;
      if truthy_at usersObj candidate then drawUserId fuel' usersObj else ret candidate
  end.

(** The mutator of [identifyUser]. *)
Definition identifyUser_mutator (fuel : nat) (requestedKey : option string)
  : ST (Doc * Manager.t) Identity.t :=
  state ← getState;
  candidate ←
    match truthy requestedKey with
    | Some k =>
        if truthy_at (users state) k then lift (drawUserId fuel (users state)) else ret k
    | None => lift (drawUserId fuel (users state))
    end;
  (if truthy_at (users state) candidate then ret tt
   else
     now ← lift _now;
     users' ← assign (users state) candidate (UserRecord.mk candidate now ∅ []);
     putState (mkDoc users'));;
  ret (Identity.mk candidate true).

(** The first job [identifyUser] gives the store, for a truthy
    [requestedKey]: whether the key names a user. *)
Definition identifyUser_exists (requestedKey : string) : ST World bool :=
  DataStore.readState (state ← getState; ret (truthy_at (users state) requestedKey)).

(** What [identifyUser] does once no user was found under the key, or
    no key was given: the second job it gives the store, which runs the
    mutator, and the bucket of the resulting key. *)
Definition identifyUser_register (fuel : nat) (requestedKey : option string)
  : ST World Identity.t :=
  result ← DataStore.withState (identifyUser_mutator fuel requestedKey);
  lift (_ensureEphemeralUser (Identity.userKey result));;
  ret result.

(** [identifyUser(requestedKey)], when other calls are served between its
    two jobs of the store: the second job is only queued when the first
    has been awaited, behind whatever jobs other calls have queued by
    then.  [between] is what those calls do. *)
Definition identifyUser_interleaved (fuel : nat) (requestedKey : option string)
    (between : ST World unit) : ST World Identity.t :=
  known ←
    match truthy requestedKey with
    | Some k => identifyUser_exists k
    | None => ret false
    end;
  match truthy requestedKey, known with
  | Some k, true =>
      lift (_ensureEphemeralUser k);;
      ret (Identity.mk k false)
  | _, _ => between;; identifyUser_register fuel requestedKey
  end.

(** [identifyUser(requestedKey)], when no other call is served between
    its two jobs.  [_ensureIdFactories] only loads the generators, which
    are the oracles here. *)
Definition identifyUser (fuel : nat) (requestedKey : option string) : ST World Identity.t :=
  known ←
    match truthy requestedKey with
    | Some k => identifyUser_exists k
    | None => ret false
    end;
  match truthy requestedKey, known with
  | Some k, true =>
      lift (_ensureEphemeralUser k);;
      ret (Identity.mk k false)
  | _, _ => identifyUser_register fuel requestedKey
  end.

(** [_missingChunks(upload)]. *)
Definition _missingChunks (upload : UploadJ) : list Z :=
  filter (λ i, i ∉ Upload.receivedChunks upload) (seqZ 0 (Upload.totalChunks upload)).

(** [_deepClone(upload)] is [parse] of the JSON value of [upload]. *)
Definition _deepClone (upload : UploadJ) : ST Manager.t loc := parse upload.

(** [_decorateUpload(upload)], given the JSON value of [upload]: the clone
    holds that value, so [_missingChunks(clone)] is computed from it. *)
Definition _decorateUpload (upload : UploadJ) : ST Manager.t loc :=
  clone ← _deepClone upload;
  let missing := _missingChunks upload in
  la ← alloc (ObjArray missing);
  updateObject clone (λ o,
    Upload.set_receivedCount (Some (Upload.totalChunks o - Z.of_nat (length missing)))
      (Upload.with_nested (Upload.receivedChunks o) (Some la) o));;
  ret clone.

(** [decorated.status] and [decorated.missingChunks] of an upload object. *)
Definition statusOf (upload : loc) : ST Manager.t Status :=
  u ← stringify upload; ret (Upload.status u).

Definition missingOf (upload : loc) : ST Manager.t (list Z) :=
  u ← stringify upload; ret (default [] (Upload.missingChunks u)).

(** [_markChunk(upload, chunkIndex)], from the JSON value of [upload] to
    the value it holds afterwards. *)
Definition _markChunk (upload : UploadJ) (chunkIndex : Z) : ST Manager.t UploadJ :=
  if (chunkIndex <? 0) || (chunkIndex >=? Upload.totalChunks upload)
  then throw chunk_out_of_range
  else
    let received :=
      if bool_decide (chunkIndex ∈ Upload.receivedChunks upload)
      then Upload.receivedChunks upload
      else {[chunkIndex]} ∪ Upload.receivedChunks upload in
    now ← _now;
    ret (Upload.set_updatedAt now
          (Upload.set_status active
            (Upload.set_receivedCount (Some (Z.of_nat (size received)))
              (Upload.with_nested received (Upload.missingChunks upload) upload)))).

(** [_toHistoryEntry(upload)]. *)
Definition _toHistoryEntry (upload : UploadJ) : ST Manager.t HistoryEntry.t :=
  completedAt ← match Upload.completedAt upload with
                | Some t => ret t
                | None => _now
                end;
  ret (HistoryEntry.mk (Upload.id upload) (Upload.fileName upload) (Upload.fileSize upload)
         completedAt (Upload.chunkSize upload) (Upload.totalChunks upload)
         (Upload.persist upload)).

(** A mutation of the upload object at [upload], written as a function of
    its JSON value. *)
Definition mutateObject (upload : loc) (f : UploadJ → ST Manager.t UploadJ)
  : ST Manager.t unit :=
  u ← stringify upload; u' ← f u; assignFields upload u'.

(** [this._decorateUpload(upload)] for an upload object in memory. *)
Definition decorateObject (upload : loc) : ST Manager.t loc :=
  u ← stringify upload; _decorateUpload u.

(** The guard [!user || !user.uploads || !user.uploads[uploadId]] of the
    persistent paths: the user record and the upload, or [upload_not_found]. *)
Definition findUpload (userKey uploadId : string)
  : ST (Doc * Manager.t) (UserRecord.t * UploadJ) :=
  state ← getState;
  user ← prop (users state) userKey;
  match user with
  | None => throw upload_not_found
  | Some user =>
      upload ← prop (UserRecord.uploads user) uploadId;
      match upload with
      | None => throw upload_not_found
      | Some upload => ret (user, upload)
      end
  end.

(** [getUserSnapshot(userKey)]; [None] is [null]. *)
Definition getUserSnapshot (userKey : string) : ST World (option Snapshot.t) :=
  persistentUser ← DataStore.readState (state ← getState; prop (users state) userKey);
  ephemeralUser ← lift (gets (λ m, Manager.ephemeral m !! userKey));
  match persistentUser, ephemeralUser with
  | None, None => ret None
  | _, _ =>
      let history := from_option UserRecord.history [] persistentUser in
      let uploads := from_option (λ u, (map_to_list (UserRecord.uploads u)).*2) [] persistentUser in
      fromState ← lift (forEach (λ upload,
        decorated ← _decorateUpload upload; s ← statusOf decorated; ret (decorated, s)) uploads);
      fromMemory ← lift (forEach (λ upload,
        decorated ← decorateObject upload; s ← statusOf decorated; ret (decorated, s))
        (from_option (λ b, (map_to_list b).*2) [] ephemeralUser));
      let all := fromState ++ fromMemory in
      ret (Some (Snapshot.mk
        (filter (λ d, d.2 ≠ paused) all).*1
        (filter (λ d, d.2 = paused) all).*1
        history))
  end.

(** [fs.ensureDir(path.join(this.uploadDir, uploadId))]. *)
Definition ensureScratchDir (uploadId : string) : ST Manager.t unit :=
  modify (λ m,
    match Manager.uploadDir m !! uploadId with
    | Some _ => m
    | None => Manager.set_uploadDir (<[uploadId := ∅]> (Manager.uploadDir m)) m
    end).

(** [createUpload(userKey, { fileName, fileSize, chunkSize, persist })],
    for sizes that are integers; see [Math_ceil_div] for the sizes
    covered. *)
Definition createUpload (userKey fileName : string) (fileSize chunkSize : Z) (persist : bool)
  : ST World loc :=
  match Math_ceil_div fileSize chunkSize with
  | None => stuck
  | Some totalChunks =>
      uploadId ← lift _createFileId;
      now ← lift _now;
      baseMetadata ← lift (parse
        (Upload.mk uploadId userKey fileName fileSize chunkSize totalChunks persist
           active ∅ (Some 0) now now None None));
      (if persist then
         DataStore.withState (
           user ← _ensureUserRecord userKey;
           value ← lift (stringify baseMetadata);
           uploads' ← assign (UserRecord.uploads user) uploadId value;
           setUser userKey (UserRecord.set_uploads uploads' user))
       else
         lift (_ensureEphemeralUser userKey;;
               setEphemeralUpload userKey uploadId baseMetadata));;
      lift (ensureScratchDir uploadId);;
      lift (decorateObject baseMetadata)
  end.

(** [getUpload(userKey, uploadId)]; [None] is [null]. *)
Definition getUpload (userKey uploadId : string) : ST World (option Found.t) :=
  inMemory ← lift (ephemeralUpload userKey uploadId);
  match inMemory with
  | Some upload =>
      decorated ← lift (decorateObject upload);
      ret (Some (Found.mk memory decorated))
  | None =>
      exists_ ← DataStore.readState (
        state ← getState;
        user ← prop (users state) userKey;
        match user with
        | None => ret None
        | Some user =>
            upload ← prop (UserRecord.uploads user) uploadId;
            match upload with
            | Some upload => decorated ← lift (_decorateUpload upload); ret (Some decorated)
            | None => ret None
            end
        end);
      ret (Found.mk persistent <$> exists_)
  end.

(** [recordChunk(userKey, uploadId, chunkIndex)]. *)
Definition recordChunk (userKey uploadId : string) (chunkIndex : Z) : ST World Recorded.t :=
  inMemory ← lift (ephemeralUpload userKey uploadId);
  match inMemory with
  | Some upload =>
      lift (mutateObject upload (λ u, _markChunk u chunkIndex));;
      decorated ← lift (decorateObject upload);
      missing ← lift (missingOf decorated);
      ret (Recorded.mk decorated (bool_decide (length missing = 0%nat)))
  | None =>
      DataStore.withState (
        '(user, upload) ← findUpload userKey uploadId;
        upload' ← lift (_markChunk upload chunkIndex);
        setUser userKey
          (UserRecord.set_uploads (<[uploadId := upload']> (UserRecord.uploads user)) user);;
        decorated ← lift (_decorateUpload upload');
        missing ← lift (missingOf decorated);
        ret (Recorded.mk decorated (bool_decide (length missing = 0%nat))))
  end.

(** [updateStatus(userKey, uploadId, status)]. *)
Definition updateStatus (userKey uploadId : string) (status : Status) : ST World loc :=
  inMemory ← lift (ephemeralUpload userKey uploadId);
  match inMemory with
  | Some upload =>
      lift (mutateObject upload (λ u,
        now ← _now; ret (Upload.set_updatedAt now (Upload.set_status status u))));;
      lift (decorateObject upload)
  | None =>
      DataStore.withState (
        '(user, upload) ← findUpload userKey uploadId;
        now ← lift _now;
        let upload' := Upload.set_updatedAt now (Upload.set_status status upload) in
        setUser userKey
          (UserRecord.set_uploads (<[uploadId := upload']> (UserRecord.uploads user)) user);;
        lift (_decorateUpload upload'))
  end.

(** The mutator that files a history entry for an upload object of the
    ephemeral bucket (in [finalizeUpload] and [removeUpload]). *)
Definition historyMutator (userKey : string) (upload : loc) : ST (Doc * Manager.t) unit :=
  user ← _ensureUserRecord userKey;
  u ← lift (stringify upload);
  entry ← lift (_toHistoryEntry u);
  setUser userKey (UserRecord.set_history (unshiftCapped entry (UserRecord.history user)) user).

(** [finalizeUpload(userKey, uploadId)]. *)
Definition finalizeUpload (userKey uploadId : string) : ST World loc :=
  inMemory ← lift (ephemeralUpload userKey uploadId);
  match inMemory with
  | Some upload =>
      lift (mutateObject upload (λ u,
        now ← _now; ret (Upload.set_completedAt (Some now) (Upload.set_status completed u))));;
      lift (deleteEphemeralUpload userKey uploadId);;
      DataStore.withState (historyMutator userKey upload);;
      lift (decorateObject upload)
  | None =>
      DataStore.withState (
        '(user, upload) ← findUpload userKey uploadId;
        now ← lift _now;
        let upload' := Upload.set_completedAt (Some now) (Upload.set_status completed upload) in
        decorated ← lift (_decorateUpload upload');
        entry ← lift (_toHistoryEntry upload');
        setUser userKey
          (UserRecord.set_uploads (delete uploadId (UserRecord.uploads user))
             (UserRecord.set_history (unshiftCapped entry (UserRecord.history user)) user));;
        ret decorated)
  end.

(** [clearHistory(userKey)]: returns the empty list. *)
Definition clearHistory (userKey : string) : ST World (list HistoryEntry.t) :=
  DataStore.withState (
    state ← getState;
    user ← prop (users state) userKey;
    match user with
    | None => throw user_not_found
    | Some user => setUser userKey (UserRecord.set_history [] user);; ret []
    end).

(** [removeUpload(userKey, uploadId, { forget })]. *)
Definition removeUpload (userKey uploadId : string) (forget : bool) : ST World loc :=
  inMemory ← lift (ephemeralUpload userKey uploadId);
  match inMemory with
  | Some upload =>
      lift (deleteEphemeralUpload userKey uploadId);;
      (if forget then ret tt else DataStore.withState (historyMutator userKey upload));;
      lift (decorateObject upload)
  | None =>
      DataStore.withState (
        '(user, upload) ← findUpload userKey uploadId;
        decorated ← lift (_decorateUpload upload);
        history' ←
          (if forget then ret (UserRecord.history user)
           else entry ← lift (_toHistoryEntry upload);
                ret (unshiftCapped entry (UserRecord.history user)));
        setUser userKey
          (UserRecord.set_uploads (delete uploadId (UserRecord.uploads user))
             (UserRecord.set_history history' user));;
        ret decorated)
  end.

(** The loop of [assembleFile] over the chunk indices: a missing part
    destroys the write stream and throws; a part that exists is piped to
    the output file.  The file is given what has been piped as soon as it
    is piped; this is what the file holds once the stream has finished.
    What of it has reached the file when the stream is destroyed instead,
    the code does not determine, and the properties of the failing path
    only speak of the file being there. *)
Fixpoint pipeParts (uploadId finalName : string) (indices : list Z) : ST Manager.t unit :=
  match indices with
  | [] => ret tt
  | i :: rest =>
      chunk ← gets (λ m, Manager.uploadDir m !! uploadId ≫= (.!! i));
      match chunk with
      | None => throw (missing_chunk i)
      | Some data =>
          modify (λ m, Manager.set_finalDir
            (<[finalName := default [] (Manager.finalDir m !! finalName) ++ data]>
               (Manager.finalDir m)) m);;
          pipeParts uploadId finalName rest
      end
  end.

(** [assembleFile(upload)]: only scalar fields of [upload] are read.  The
    result is the name of the output file within [finalDir].
    [fs.createWriteStream(finalPath)] creates the file, or empties it. *)
Definition assembleFile {R A} (upload : Upload.t R A) : ST Manager.t string :=
  let safeName := _safeFileName (Upload.fileName upload) in
  let finalName := (Upload.id upload +:+ "-" +:+ safeName)%string in
  modify (λ m, Manager.set_finalDir (<[finalName := []]> (Manager.finalDir m)) m);;
  pipeParts (Upload.id upload) finalName (seqZ 0 (Upload.totalChunks upload));;
  modify (λ m, Manager.set_uploadDir (delete (Upload.id upload) (Manager.uploadDir m)) m);;
  ret finalName.

(** ** The handlers of [server.js] *)

(** A name that [path.join(UPLOAD_DIR, name)] turns into the entry of
    that name in the upload directory: it is not empty, is neither [.] nor
    [..], and holds no path separator ([/], or [\] on Windows) and no NUL
    character.  The ids the generators yield are of this kind; the
    [uploadId] of a request path need not be. *)
Definition plainName (name : string) : bool :=
  negb (bool_decide (name ∈ [""; "."; ".."]%string)) &&
  forallb (λ c, negb (bool_decide (c ∈ ["/"; "092"; "000"]%char)))
    (String.list_ascii_of_string name).

(** The part of the [POST /api/uploads/:uploadId/chunk] handler that saves
    the chunk: [ensureChunkDirectory(uploadId)], then the part file is
    written unless it exists.  The scratch directories are keyed by their
    names, on a file system that tells upper case from lower case: the
    directory the code writes to is the one of key [uploadId] when
    [uploadId] is a [plainName]. *)
Definition saveChunk (uploadId : string) (index : Z) (data : bytes) : ST Manager.t unit :=
  ensureScratchDir uploadId;;
  modify (λ m,
    let dir := default ∅ (Manager.uploadDir m !! uploadId) in
    match dir !! index with
    | Some _ => m
    | None => Manager.set_uploadDir (<[uploadId := <[index := data]> dir]> (Manager.uploadDir m)) m
    end).

(** The handler of [POST /api/uploads].  The arguments are the fields
    of the request body: [userKey] and [fileName] as sent, [fileSize] and [chunkSize] after [Number(...)],
    [persist] after [persist !== false && persist !== 'false'].  An error
    passed to [next] is a throw; the result is the [upload] of the
    response.  What [createUpload] computes from a positive size that is
    no integer is outside the embedding. *)
Definition postUploads (userKey fileName : option string) (fileSize chunkSize : Number)
    (persist : bool) : ST World loc :=
  match truthy userKey, truthy fileName with
  | Some userKey, Some fileName =>
      if negb (isFinite fileSize) || negb (isFinite chunkSize)
         || atMostZero fileSize || atMostZero chunkSize
      then throw invalid_sizes
      else
        match fileSize, chunkSize with
        | Finite size, Finite chunk => createUpload userKey fileName size chunk persist
        | _, _ => stuck
        end
  | _, _ => throw missing_fields
  end.

(** Running a call. *)
Definition run (call : Call) : ST World Reply :=
  match call with
  | IdentifyUser fuel requestedKey => Identified <$> identifyUser fuel requestedKey
  | GetUserSnapshot userKey => Snapshotted <$> getUserSnapshot userKey
  | CreateUpload userKey fileName fileSize chunkSize persist =>
      Uploaded <$> createUpload userKey fileName fileSize chunkSize persist
  | GetUpload userKey uploadId => Looked <$> getUpload userKey uploadId
  | RecordChunk userKey uploadId chunkIndex => Marked <$> recordChunk userKey uploadId chunkIndex
  | UpdateStatus userKey uploadId status => Uploaded <$> updateStatus userKey uploadId status
  | FinalizeUpload userKey uploadId => Uploaded <$> finalizeUpload userKey uploadId
  | ClearHistory userKey => Cleared <$> clearHistory userKey
  | RemoveUpload userKey uploadId forget => Uploaded <$> removeUpload userKey uploadId forget
  | AssembleFile upload => Assembled <$> lift (u ← stringify upload; assembleFile u)
  | SaveChunk uploadId index data => lift (saveChunk uploadId index data);; ret Saved
  end.

(** A restart of the server: the files stay, the memory starts afresh
    ([new UploadManager], [new DataStore]); the clock and the generators
    go on. *)
Definition restart (w : World) : World :=
  (DataStore.mk (DataStore.file w.1) None,
   Manager.set_heap [] (Manager.set_ephemeral ∅ w.2)).

(** The states the program can be in: started on empty data directories,
    it has served calls, none of which left the embedding, and has been
    restarted any number of times. *)
Inductive reachable : World → Prop :=
| reachable_start : reachable (DataStore.mk None None, Manager.init)
| reachable_restart w : reachable w → reachable (restart w)
| reachable_returned w call reply w' :
    reachable w → run call w = (Ok reply, w') → reachable w'
| reachable_thrown w call e w' :
    reachable w → run call w = (Throw e, w') → reachable w'.

End UploadManager.

(** * The HTTP server ([server.js])

    A handler is embedded as the function from the parsed request to the
    response it sends.  Request fields are given as the handler reads
    them: a string field that may be missing is an option; numbers are
    given after [Number(...)] or [Number.parseInt(..., 10)].  Upload
    objects in a response body are locations of the heap, as returned by
    the manager.

    Outside the embedding: requests that the body parsers or multer
    refuse before a handler runs, fields of a JSON body that are present
    but are no strings, an upload id in the URL that is not the name of
    an entry of the upload directory (one that holds a path separator,
    or is [.] or [..]), and the [/api/network/probe] route, which only
    measures the time a request took. *)

(** ** Errors and responses *)

(** The message of an error of the manager. *)
Definition messageOf (e : Error) : string :=
  match e with
  | upload_not_found => "upload_not_found"
  | user_not_found => "user_not_found"
  | chunk_out_of_range => "chunk_out_of_range"
  | missing_fields => "missing_fields"
  | invalid_sizes => "invalid_sizes"
  | missing_chunk i => "missing_chunk_" +:+ pretty i
  end.

(** An [Error] object as the error middleware receives it: the message,
    and [statusCode] and [details] when they are set. *)
Module HttpError.
Record t : Type := mk {
  message : string;
  statusCode : option Z;
  details : option string;
}.
End HttpError.

(** The body of a response: the JSON object of each handler's
    [res.json], and that of the error middleware. *)
Inductive Body : Type :=
| ErrorBody (error : string) (details : option string)
| IdentifyBody (userKey : string) (created : bool) (uploads : Snapshot.t)
| SnapshotBody (snapshot : option Snapshot.t)
| FoundBody (upload : loc) (location : Location)
| CreatedBody (upload : loc)
| ChunkOkBody (upload : loc)
| ChunkCompletedBody (upload : loc) (uploads : option Snapshot.t)
| StateBody (upload : loc) (uploads : option Snapshot.t).

Module Response.
Record t : Type := mk { status : Z; body : Body }.
End Response.

(** A request, by route. *)
Inductive Request : Type :=
| PostIdentify (fuel : nat) (bodyUserKey queryUserKey : option string)
| GetUploads (userKey : option string)
| GetUpload_ (uploadId : string) (userKey : option string)
| PostUploads (userKey fileName : option string) (fileSize chunkSize : Number)
    (persist : bool)
| PostChunk (uploadId : string) (userKey : option string) (file : option bytes)
    (chunkIndex : option Z)
| PostState (uploadId : string) (action userKey : option string)
| DeleteHistory (bodyUserKey queryUserKey : option string).

(** [a || b] on optional strings. *)
Definition orElse (a b : option string) : option string :=
  match truthy a with
  | Some s => Some s
  | None => b
  end.

Section server.

(** Whether [process.env.NODE_ENV] is ['production'], and the oracles of
    the manager. *)
Context (production : bool).
Context (dateAt : nat → Timestamp) (userIdAt fileIdAt : nat → string).

(** [sanitizeError(err)]: an error with a truthy [statusCode] is passed
    on; any other becomes [internal_error] with status 500, and carries
    the original message as [details] unless in production. *)
Definition sanitizeError (err : HttpError.t) : HttpError.t :=
  let internal :=
    HttpError.mk "internal_error" (Some 500)
      (if production then None else Some (HttpError.message err)) in
  match HttpError.statusCode err with
  | Some code => if code =? 0 then internal else err
  | None => internal
  end.

(** The error middleware, [app.use((err, req, res, next) => ...)]. *)
Definition errorMiddleware (err : HttpError.t) : Response.t :=
  let error := sanitizeError err in
  Response.mk
    (match HttpError.statusCode error with
     | Some code => if code =? 0 then 500 else code
     | None => 500
     end)
    (ErrorBody (HttpError.message error) (HttpError.details error)).

(** [next(err)]. *)
Definition next (err : HttpError.t) : ST World Response.t := ret (errorMiddleware err).

(** A [throw] of the handler itself: an error with the given status
    code, caught by the handler's [catch] and passed to [next]. *)
Definition raise (message : string) (statusCode : Z) : ST World Response.t :=
  next (HttpError.mk message (Some statusCode) None).

(** [try { body } catch (err) { next(err) }], for what the manager throws:
    an error with no status code. *)
Definition try_ (body : ST World Response.t) : ST World Response.t := λ w,
  match body w with
  | (Throw e, w') => next (HttpError.mk (messageOf e) None None) w'
  | r => r
  end.

(** [res.json(body)]. *)
Definition json (body : Body) : ST World Response.t := ret (Response.mk 200 body).

(** [parseInteger(value, fieldName)], given [Number.parseInt(value, 10)]
    ([None] is [NaN]). *)
Definition parseInteger (parsed : option Z) (fieldName : string)
    (k : Z → ST World Response.t) : ST World Response.t :=
  match parsed with
  | Some result => k result
  | None => raise ("invalid_" +:+ fieldName) 400
  end.

(** [fs.remove(path.join(UPLOAD_DIR, uploadId))]. *)
Definition removeScratchDir (uploadId : string) : ST Manager.t unit :=
  modify (λ m, Manager.set_uploadDir (delete uploadId (Manager.uploadDir m)) m).

(** [POST /api/users/identify]. *)
Definition identifyRoute (fuel : nat) (bodyUserKey queryUserKey : option string)
  : ST World Response.t :=
  try_ (
    let requestedKey := orElse bodyUserKey queryUserKey in
    result ← identifyUser dateAt userIdAt fuel requestedKey;
    snapshot ← getUserSnapshot (Identity.userKey result);
    json (IdentifyBody (Identity.userKey result) (Identity.created result)
            (default (Snapshot.mk [] [] []) snapshot))).

(** [GET /api/uploads]. *)
Definition listRoute (userKey : option string) : ST World Response.t :=
  try_ (
    match truthy userKey with
    | None => raise "missing_user_key" 400
    | Some userKey =>
        snapshot ← getUserSnapshot userKey;
        match snapshot with
        | None => raise "user_not_found" 404
        | Some snapshot => json (SnapshotBody (Some snapshot))
        end
    end).

(** [GET /api/uploads/:uploadId]. *)
Definition uploadRoute (uploadId : string) (userKey : option string) : ST World Response.t :=
  try_ (
    match truthy userKey with
    | None => raise "missing_user_key" 400
    | Some userKey =>
        uploadResult ← getUpload userKey uploadId;
        match uploadResult with
        | None => raise "upload_not_found" 404
        | Some found => json (FoundBody (Found.upload found) (Found.location found))
        end
    end).

(** [POST /api/uploads], with its response. *)
Definition createRoute (userKey fileName : option string) (fileSize chunkSize : Number)
    (persist : bool) : ST World Response.t :=
  try_ (
    match truthy userKey, truthy fileName with
    | Some userKey, Some fileName =>
        if negb (isFinite fileSize) || negb (isFinite chunkSize)
           || atMostZero fileSize || atMostZero chunkSize
        then raise "invalid_sizes" 400
        else
          match fileSize, chunkSize with
          | Finite size, Finite chunk =>
              upload ← createUpload dateAt fileIdAt userKey fileName size chunk persist;
              json (CreatedBody upload)
          | _, _ => stuck
          end
    | _, _ => raise "missing_fields" 400
    end).

(** [POST /api/uploads/:uploadId/chunk]; [file] is [req.file.buffer]. *)
Definition chunkRoute (uploadId : string) (userKey : option string) (file : option bytes)
    (chunkIndex : option Z) : ST World Response.t :=
  try_ (
    match truthy userKey with
    | None => raise "missing_user_key" 400
    | Some userKey =>
        match file with
        | None => raise "missing_chunk" 400
        | Some buffer =>
            parseInteger chunkIndex "chunk_index" (λ index,
              lift (saveChunk uploadId index buffer);;
              record ← recordChunk dateAt userKey uploadId index;
              if Recorded.completed record then
                let finalizedUpload := Recorded.upload record in
                lift (u ← stringify finalizedUpload; assembleFile u);;
                finalizeUpload dateAt userKey uploadId;;
                snapshot ← getUserSnapshot userKey;
                json (ChunkCompletedBody finalizedUpload snapshot)
              else json (ChunkOkBody (Recorded.upload record)))
        end
    end).

(** [POST /api/uploads/:uploadId/state]. *)
Definition stateRoute (uploadId : string) (action userKey : option string)
  : ST World Response.t :=
  try_ (
    match truthy userKey, truthy action with
    | Some userKey, Some action =>
        let respond (response : loc) : ST World Response.t :=
          snapshot ← getUserSnapshot userKey;
          json (StateBody response snapshot) in
        if bool_decide (action = "pause"%string) then
          response ← updateStatus dateAt userKey uploadId paused; respond response
        else if bool_decide (action = "resume"%string) then
          response ← updateStatus dateAt userKey uploadId active; respond response
        else if bool_decide (action = "cancel"%string) then
          response ← removeUpload dateAt userKey uploadId false;
          lift (removeScratchDir uploadId);;
          respond response
        else if bool_decide (action = "forget"%string) then
          response ← removeUpload dateAt userKey uploadId true;
          lift (removeScratchDir uploadId);;
          respond response
        else raise "invalid_action" 400
    | _, _ => raise "missing_fields" 400
    end).

(** [DELETE /api/uploads/history]. *)
Definition historyRoute (bodyUserKey queryUserKey : option string) : ST World Response.t :=
  try_ (
    match truthy (orElse bodyUserKey queryUserKey) with
    | None => raise "missing_user_key" 400
    | Some userKey =>
        clearHistory userKey;;
        snapshot ← getUserSnapshot userKey;
        json (SnapshotBody snapshot)
    end).

(** The server, on one request. *)
Definition serve (request : Request) : ST World Response.t :=
  match request with
  | PostIdentify fuel bodyUserKey queryUserKey => identifyRoute fuel bodyUserKey queryUserKey
  | GetUploads userKey => listRoute userKey
  | GetUpload_ uploadId userKey => uploadRoute uploadId userKey
  | PostUploads userKey fileName fileSize chunkSize persist =>
      createRoute userKey fileName fileSize chunkSize persist
  | PostChunk uploadId userKey file chunkIndex => chunkRoute uploadId userKey file chunkIndex
  | PostState uploadId action userKey => stateRoute uploadId action userKey
  | DeleteHistory bodyUserKey queryUserKey => historyRoute bodyUserKey queryUserKey
  end.

(** The server on a list of requests that arrive one after the other,
    each answered before the next is sent. *)
Definition serveAll (requests : list Request) : ST World (list Response.t) :=
  forEach serve requests.

(** The states the server can be in: started on empty data directories,
    it has answered requests, one after the other, and has been restarted
    any number of times. *)
Inductive served : World → Prop :=
| served_start : served (DataStore.mk None None, Manager.init)
| served_restart w : served w → served (restart w)
| served_answered w request response w' :
    served w → serve request w = (Ok response, w') → served w'.

End server.

(** * Properties *)

(** ** Reasoning about [ST] code *)

Ltac st_unfold :=
  unfold mbind, mret, ST_bind, ST_ret, bind, ret, throw, stuck, gets, modify, lift,
    getState, putState, setUser in *.

Lemma bind_eq {S A B} (m : ST S A) (k : A → ST S B) s :
  (m ≫= k) s =
  match m s with
  | (Ok a, s') => k a s'
  | (Throw e, s') => (Throw e, s')
  | (Stuck, s') => (Stuck, s')
  end.
Proof. reflexivity. Qed.

Lemma bind_Ok {S A B} (m : ST S A) (k : A → ST S B) s b s2 :
  (m ≫= k) s = (Ok b, s2) → ∃ a s1, m s = (Ok a, s1) ∧ k a s1 = (Ok b, s2).
Proof.
  rewrite bind_eq. destruct (m s) as [[a|e|] s1]; [eauto | discriminate..].
Qed.

Lemma bind_Throw {S A B} (m : ST S A) (k : A → ST S B) s e s2 :
  (m ≫= k) s = (Throw e, s2) →
  m s = (Throw e, s2) ∨ ∃ a s1, m s = (Ok a, s1) ∧ k a s1 = (Throw e, s2).
Proof.
  rewrite bind_eq. destruct (m s) as [[a|e'|] s1]; [eauto | | discriminate].
  intros [= -> ->]. by left.
Qed.

Lemma bind_run {S A B} (m : ST S A) (k : A → ST S B) s a s1 :
  m s = (Ok a, s1) → (m ≫= k) s = k a s1.
Proof. intros H. by rewrite bind_eq, H. Qed.

Lemma bind_run_Throw {S A B} (m : ST S A) (k : A → ST S B) s e s1 :
  m s = (Throw e, s1) → (m ≫= k) s = (Throw e, s1).
Proof. intros H. by rewrite bind_eq, H. Qed.

Lemma lift_eq {D E A} (m : ST E A) (d : D) (e : E) :
  lift m (d, e) = ((m e).1, (d, (m e).2)).
Proof. unfold lift. by destruct (m e). Qed.

Lemma lift_Ok {D E A} (m : ST E A) (d d' : D) (e e' : E) a :
  lift m (d, e) = (Ok a, (d', e')) → d' = d ∧ m e = (Ok a, e').
Proof. rewrite lift_eq. destruct (m e). by intros [= -> -> ->]. Qed.

Lemma lift_run {D E A} (m : ST E A) (d : D) (e e' : E) r :
  m e = (r, e') → lift m (d, e) = (r, (d, e')).
Proof. intros H. by rewrite lift_eq, H. Qed.

(** ** The store *)

Section store_facts.
Context {E A : Type}.
Implicit Types (job : ST (Doc * E) A) (s : DataStore.t) (env : E).

Lemma withState_Ok job s env r s' env' :
  DataStore.withState job (s, env) = (Ok r, (s', env')) →
  DataStore._lock s = None ∧
  ∃ state, job (DataStore._read s, env) = (Ok r, (state, env')) ∧
           s' = DataStore._write state s.
Proof.
  unfold DataStore.withState. destruct (DataStore._lock s); [discriminate |].
  destruct (job _) as [[a|e|] [state env1]]; [| discriminate..].
  intros [= -> <- ->]. eauto.
Qed.

Lemma withState_run job s env r state env' :
  DataStore._lock s = None →
  job (DataStore._read s, env) = (Ok r, (state, env')) →
  DataStore.withState job (s, env) = (Ok r, (DataStore._write state s, env')).
Proof. intros Hl Hj. unfold DataStore.withState. by rewrite Hl, Hj. Qed.

Lemma withState_run_Throw job s env e state env' :
  DataStore._lock s = None →
  job (DataStore._read s, env) = (Throw e, (state, env')) →
  DataStore.withState job (s, env)
  = (Throw e, (DataStore.mk (DataStore.file s) (Some e), env')).
Proof. intros Hl Hj. unfold DataStore.withState. by rewrite Hl, Hj. Qed.

Lemma readState_Ok job s env r s' env' :
  DataStore.readState job (s, env) = (Ok r, (s', env')) →
  DataStore._lock s = None ∧ s' = s ∧
  ∃ state, job (DataStore._read s, env) = (Ok r, (state, env')).
Proof.
  unfold DataStore.readState. destruct (DataStore._lock s); [discriminate |].
  destruct (job _) as [[a|e|] [state env1]]; [| discriminate..].
  intros [= -> <- ->]. eauto.
Qed.

Lemma readState_run job s env r state env' :
  DataStore._lock s = None →
  job (DataStore._read s, env) = (Ok r, (state, env')) →
  DataStore.readState job (s, env) = (Ok r, (s, env')).
Proof. intros Hl Hj. unfold DataStore.readState. by rewrite Hl, Hj. Qed.

(** Once [_lock] is a rejected promise, no later job runs: every call is
    answered with the error of the call that failed. *)
Lemma rejected_lock_skips_withState job s env e :
  DataStore._lock s = Some e → DataStore.withState job (s, env) = (Throw e, (s, env)).
Proof. intros H. unfold DataStore.withState. by rewrite H. Qed.

Lemma rejected_lock_skips_readState job s env e :
  DataStore._lock s = Some e → DataStore.readState job (s, env) = (Throw e, (s, env)).
Proof. intros H. unfold DataStore.readState. by rewrite H. Qed.

(** No call of the store changes the file unless it returns. *)
Lemma withState_file job s env r s' env' :
  DataStore.withState job (s, env) = (r, (s', env')) →
  (∀ a, r ≠ Ok a) → DataStore.file s' = DataStore.file s.
Proof.
  unfold DataStore.withState. destruct (DataStore._lock s).
  - by intros [= <- <- <-].
  - destruct (job _) as [[a|e|] [state env1]]; intros [= <- <- <-]; intros Hr;
      [by destruct (Hr a) | done..].
Qed.

Lemma readState_file job s env r s' env' :
  DataStore.readState job (s, env) = (r, (s', env')) →
  DataStore.file s' = DataStore.file s.
Proof.
  unfold DataStore.readState. destruct (DataStore._lock s).
  - by intros [= <- <- <-].
  - by destruct (job _) as [[a|e|] [state env1]]; intros [= <- <- <-].
Qed.

End store_facts.

(** C6.  When the mutator of a [withState] call throws, whatever it had
    already changed in the parsed document ([partial]) is dropped: the call
    fails with the mutator's error, the backing file is what it was, and so
    is the document a later read of the file yields. *)
Theorem withState_throw_persists_nothing {E A} (mutator : ST (Doc * E) A)
    (s : DataStore.t) (env env' : E) (e : Error) (partial : Doc) :
  DataStore._lock s = None →
  mutator (DataStore._read s, env) = (Throw e, (partial, env')) →
  ∃ s', DataStore.withState mutator (s, env) = (Throw e, (s', env')) ∧
        DataStore.file s' = DataStore.file s ∧
        DataStore._read s' = DataStore._read s.
Proof.
  intros Hlock Hthrow. eexists. split.
  - by apply withState_run_Throw with (state := partial).
  - done.
Qed.

(** A failing mutator that first registers a user in the parsed document. *)
Definition scribbleThenThrow : ST (Doc * unit) unit :=
  putState (mkDoc {[ "ghost"%string := UserRecord.mk "ghost" 0 ∅ [] ]});;
  throw user_not_found.

Lemma withState_throw_persists_nothing_witness :
  ∃ s', DataStore.withState scribbleThenThrow (DataStore.mk None None, tt)
        = (Throw user_not_found, (s', tt)) ∧
        DataStore.file s' = None ∧
        DataStore._read s' = mkDoc ∅.
Proof.
  apply (withState_throw_persists_nothing scribbleThenThrow (DataStore.mk None None) tt tt
           user_not_found (mkDoc {[ "ghost"%string := UserRecord.mk "ghost" 0 ∅ [] ]})).
  - reflexivity.
  - reflexivity.
Defined.

(** C3 (the code departs from the claim).  Two calls submitted one after
    the other to a fresh store: a [withState] whose mutator throws
    [upload_not_found], then a [readState] whose selector counts its runs
    in the environment and returns 7.  The second caller receives the first
    call's error and the selector has not run. *)
Theorem rejected_lock_fails_next_call :
  let first : ST (DataStore.t * nat) unit := DataStore.withState (throw upload_not_found) in
  let second : ST (DataStore.t * nat) Z :=
    DataStore.readState (modify (λ '(state, runs), (state, S runs));; ret 7) in
  ∃ s1, first (DataStore.mk None None, 0%nat) = (Throw upload_not_found, (s1, 0%nat)) ∧
        second (s1, 0%nat) = (Throw upload_not_found, (s1, 0%nat)).
Proof. eexists. split; reflexivity. Qed.

(** ** Sample oracles and keys, for the closed examples *)

Definition sampleDate (n : nat) : Timestamp := 1700000000000 + Z.of_nat n.

Definition sampleUserId (n : nat) : string :=
  match n with
  | O => "A1b2C3d4E5f6G7h8"
  | 1%nat => "Z9y8X7w6V5u4T3s2"
  | _ => "Q1w2E3r4T5y6U7i8"
  end.

Definition sampleFileId (n : nat) : string :=
  match n with
  | O => "f0f0f0f0f0f0f0f0f0f0"
  | 1%nat => "g1g1g1g1g1g1g1g1g1g1"
  | _ => "h2h2h2h2h2h2h2h2h2h2"
  end.

(** A key a client may send: it has the shape of a user id. *)
Definition aliceKey : string := "K7mPq2Xw9Rt4Lc8V".

(** The program right after start, on empty data directories. *)
Definition initialWorld : World := (DataStore.mk None None, Manager.init).

(** ** identifyUser *)

Lemma truthy_Some k : k ≠ ""%string → truthy (Some k) = Some k.
Proof. intros H. unfold truthy. by rewrite bool_decide_eq_false_2. Qed.

Lemma truthy_at_false {V} (obj : gmap string V) k :
  obj !! k = None → inherited k = false → truthy_at obj k = false.
Proof.
  intros H1 H2. unfold truthy_at. rewrite H1, H2.
  rewrite bool_decide_eq_false_2; [done |]. by intros [? ?].
Qed.

Lemma inherited_proto k :
  inherited k = false → bool_decide (k = "__proto__"%string) = false.
Proof. intros H. apply bool_decide_eq_false_2. intros ->. discriminate. Qed.

Lemma truthy_at_insert {V} (obj : gmap string V) k v : truthy_at (<[k := v]> obj) k = true.
Proof.
  unfold truthy_at. rewrite lookup_insert_eq. by rewrite bool_decide_eq_true_2.
Qed.

Lemma truthy_at_free {V} (obj : gmap string V) k :
  truthy_at obj k = false → obj !! k = None ∧ inherited k = false.
Proof.
  unfold truthy_at. intros H. apply orb_false_iff in H as [H1 H2].
  split; [| done]. apply bool_decide_eq_false in H1.
  destruct (obj !! k); [| done]. exfalso. apply H1. eauto.
Qed.

Section identifyUser_facts.
Context (dateAt : nat → Timestamp) (userIdAt : nat → string).

(** The loop of the mutator: it returns the first identifier of the
    generator that is no property of [state.users]. *)
Lemma drawUserId_run fuel (usersObj : gmap string UserRecord.t) m (n : nat) :
  (n < fuel)%nat →
  (∀ j, (j < n)%nat → truthy_at usersObj (userIdAt (Manager.userIdDraws m + j)%nat) = true) →
  truthy_at usersObj (userIdAt (Manager.userIdDraws m + n)%nat) = false →
  drawUserId userIdAt fuel usersObj m
  = (Ok (userIdAt (Manager.userIdDraws m + n)%nat),
     Manager.set_userIdDraws (S (Manager.userIdDraws m + n)) m).
Proof.
  revert m n. induction fuel as [|fuel IH]; intros m n Hn Htaken Hfree; [lia |].
  simpl. unfold _createUserId. st_unfold.
  destruct n as [|n].
  - rewrite Nat.add_0_r in *. by rewrite Hfree.
  - pose proof (Htaken 0%nat ltac:(lia)) as H0. rewrite Nat.add_0_r in H0. rewrite H0.
    rewrite (IH _ n); simpl.
    + replace (Manager.userIdDraws m + S n)%nat with (S (Manager.userIdDraws m + n))%nat
        by lia.
      by destruct m.
    + lia.
    + intros j Hj. simpl.
      replace (S (Manager.userIdDraws m + j))%nat with (Manager.userIdDraws m + S j)%nat
        by lia.
      apply Htaken. lia.
    + simpl.
      replace (S (Manager.userIdDraws m + n))%nat with (Manager.userIdDraws m + S n)%nat
        by lia.
      done.
Qed.

Lemma identifyUser_exists_run k s m :
  DataStore._lock s = None →
  identifyUser_exists k (s, m) = (Ok (truthy_at (users (DataStore._read s)) k), (s, m)).
Proof.
  intros Hlock. unfold identifyUser_exists.
  eapply readState_run; [done |]. st_unfold. simpl. reflexivity.
Qed.

(** The second job, when the candidate it starts from is free. *)
Lemma identifyUser_register_free fuel k s m :
  k ≠ ""%string → DataStore._lock s = None →
  truthy_at (users (DataStore._read s)) k = false →
  ∃ w' : World,
    identifyUser_register dateAt userIdAt fuel (Some k) (s, m)
    = (Ok (Identity.mk k true), w') ∧
    users (DataStore._read w'.1)
    = <[k := UserRecord.mk k (dateAt (Manager.clockReads m)) ∅ []]>
        (users (DataStore._read s)) ∧
    DataStore._lock w'.1 = None ∧
    Manager.userIdDraws w'.2 = Manager.userIdDraws m.
Proof.
  intros Hk Hlock Hfree. destruct (truthy_at_free _ _ Hfree) as [Hnone Hinh].
  unfold identifyUser_register.
  erewrite bind_run; last first.
  { eapply withState_run; [done |]. unfold identifyUser_mutator.
    rewrite (truthy_Some k Hk). st_unfold. simpl.
    rewrite Hfree. simpl.
    unfold assign. rewrite (inherited_proto _ Hinh). st_unfold. simpl.
    rewrite ?Hfree. simpl. reflexivity. }
  eexists. split; [reflexivity |]. simpl. split; [done |]. split; [done |].
  by destruct (Manager.ephemeral _ !! k).
Qed.

(** The second job, when it has to draw: no key was given, or the key
    given is taken by now. *)
Lemma identifyUser_register_drawn fuel (n : nat) requestedKey s m :
  match truthy requestedKey with
  | Some k => truthy_at (users (DataStore._read s)) k = true
  | None => True
  end →
  DataStore._lock s = None →
  (n < fuel)%nat →
  (∀ j, (j < n)%nat →
     truthy_at (users (DataStore._read s)) (userIdAt (Manager.userIdDraws m + j)%nat) = true) →
  truthy_at (users (DataStore._read s)) (userIdAt (Manager.userIdDraws m + n)%nat) = false →
  let userKey := userIdAt (Manager.userIdDraws m + n)%nat in
  ∃ w' : World,
    identifyUser_register dateAt userIdAt fuel requestedKey (s, m)
    = (Ok (Identity.mk userKey true), w') ∧
    users (DataStore._read w'.1)
    = <[userKey := UserRecord.mk userKey (dateAt (Manager.clockReads m)) ∅ []]>
        (users (DataStore._read s)) ∧
    DataStore._lock w'.1 = None ∧
    Manager.userIdDraws w'.2 = S (Manager.userIdDraws m + n).
Proof.
  intros Hkey Hlock Hn Htaken Hfree. simpl.
  destruct (truthy_at_free _ _ Hfree) as [Hnone Hinh].
  unfold identifyUser_register.
  erewrite bind_run; last first.
  { eapply withState_run; [done |]. unfold identifyUser_mutator.
    rewrite (bind_run _ _ _ (DataStore._read s) (DataStore._read s, m)) by reflexivity.
    erewrite bind_run; last first.
    { destruct (truthy requestedKey) as [k|]; [rewrite Hkey |];
        apply lift_run; by apply (drawUserId_run fuel _ m n). }
    rewrite Hfree. st_unfold. simpl.
    unfold assign. rewrite (inherited_proto _ Hinh). st_unfold. simpl. reflexivity. }
  eexists. split; [reflexivity |]. simpl. split; [done |]. split; [done |].
  by destruct (Manager.ephemeral _ !! _).
Qed.

(** C1, as the code has it.  Take a requested key that is not empty and
    is no property of [state.users] (own or inherited) when the first job
    of [identifyUser] reads the state, the store accepting calls.  When no
    other call is served between the two jobs, the key is registered as it
    stands: [identifyUser] returns that very key with [created: true], the
    new user record is filed under it, and no identifier is drawn from the
    generator.  When other calls are served in between, the same holds as
    long as the key is still no property of [state.users] when the second
    job runs.  If the key has been registered by then, the mutator draws
    identifiers until one is no property of [state.users], files the new
    record under that one and returns it with [created: true]; the record
    under the requested key stays as it is.  If the store has come to
    reject calls by then, [identifyUser] fails with the error it rejects
    them with. *)
Theorem identifyUser_registers_requested_key (fuel : nat) (k : string) (w : World) :
  k ≠ ""%string →
  DataStore._lock w.1 = None →
  truthy_at (users (DataStore._read w.1)) k = false →
  (∃ w' : World,
     identifyUser dateAt userIdAt fuel (Some k) w = (Ok (Identity.mk k true), w') ∧
     users (DataStore._read w'.1)
     = <[k := UserRecord.mk k (dateAt (Manager.clockReads w.2)) ∅ []]>
         (users (DataStore._read w.1)) ∧
     Manager.userIdDraws w'.2 = Manager.userIdDraws w.2) ∧
  ∀ (between : ST World unit) (w1 : World),
    between w = (Ok tt, w1) →
    (∀ e, DataStore._lock w1.1 = Some e →
       identifyUser_interleaved dateAt userIdAt fuel (Some k) between w = (Throw e, w1)) ∧
    (DataStore._lock w1.1 = None →
     truthy_at (users (DataStore._read w1.1)) k = false →
     ∃ w' : World,
       identifyUser_interleaved dateAt userIdAt fuel (Some k) between w
       = (Ok (Identity.mk k true), w') ∧
       users (DataStore._read w'.1)
       = <[k := UserRecord.mk k (dateAt (Manager.clockReads w1.2)) ∅ []]>
           (users (DataStore._read w1.1)) ∧
       Manager.userIdDraws w'.2 = Manager.userIdDraws w1.2) ∧
    (DataStore._lock w1.1 = None →
     truthy_at (users (DataStore._read w1.1)) k = true →
     ∀ n : nat,
       (n < fuel)%nat →
       (∀ j, (j < n)%nat →
          truthy_at (users (DataStore._read w1.1))
            (userIdAt (Manager.userIdDraws w1.2 + j)%nat) = true) →
       truthy_at (users (DataStore._read w1.1))
         (userIdAt (Manager.userIdDraws w1.2 + n)%nat) = false →
       let generated := userIdAt (Manager.userIdDraws w1.2 + n)%nat in
       ∃ w' : World,
         identifyUser_interleaved dateAt userIdAt fuel (Some k) between w
         = (Ok (Identity.mk generated true), w') ∧
         generated ≠ k ∧
         users (DataStore._read w'.1)
         = <[generated := UserRecord.mk generated (dateAt (Manager.clockReads w1.2)) ∅ []]>
             (users (DataStore._read w1.1)) ∧
         Manager.userIdDraws w'.2 = S (Manager.userIdDraws w1.2 + n)).
Proof.
  destruct w as [s m]. cbn [fst snd]. intros Hk Hlock Hfree. split.
  - destruct (identifyUser_register_free fuel k s m Hk Hlock Hfree)
      as (w' & Hrun & Husers & _ & Hdraws).
    exists w'. split; [| done]. unfold identifyUser. rewrite (truthy_Some k Hk).
    rewrite (bind_run _ _ _ _ _ (identifyUser_exists_run k s m Hlock)).
    by rewrite Hfree.
  - intros between [s1 m1] Hbetween. cbn [fst snd].
    assert (Hstep : identifyUser_interleaved dateAt userIdAt fuel (Some k) between (s, m)
                    = identifyUser_register dateAt userIdAt fuel (Some k) (s1, m1)).
    { unfold identifyUser_interleaved. rewrite (truthy_Some k Hk).
      rewrite (bind_run _ _ _ _ _ (identifyUser_exists_run k s m Hlock)).
      rewrite Hfree. by rewrite (bind_run _ _ _ _ _ Hbetween). }
    rewrite Hstep. split_and!.
    + intros e He. unfold identifyUser_register.
      apply bind_run_Throw. by apply rejected_lock_skips_withState.
    + intros Hlock1 Hfree1.
      destruct (identifyUser_register_free fuel k s1 m1 Hk Hlock1 Hfree1)
        as (w' & Hrun & Husers & _ & Hdraws).
      by exists w'.
    + intros Hlock1 Htaken1 n Hn Htaken Hfreen.
      destruct (identifyUser_register_drawn fuel n (Some k) s1 m1) as
        (w' & Hrun & Husers & _ & Hdraws); try done.
      { by rewrite (truthy_Some k Hk). }
      exists w'. split_and!; try done.
      intros Heq. rewrite Heq in Hfreen. congruence.
Qed.

End identifyUser_facts.

(** C1 as stated fails: on the fresh program, the requested key is not in
    [state.users], and [identifyUser] answers with the requested key itself
    rather than with a different, newly generated one. *)
Lemma identifyUser_unknown_key_is_honoured :
  users (DataStore._read initialWorld.1) !! aliceKey = None ∧
  (identifyUser sampleDate sampleUserId 8 (Some aliceKey) initialWorld).1
    = Ok (Identity.mk aliceKey true).
Proof. split; vm_compute; reflexivity. Qed.

(** ** The heap *)

Lemma lookup_app_at {X} (h cells : list X) (i : nat) :
  (h ++ cells) !! (length h + i)%nat = cells !! i.
Proof.
  rewrite lookup_app_r by lia. f_equal. lia.
Qed.

Lemma lookup_app_at0 {X} (h cells : list X) :
  (h ++ cells) !! length h = cells !! 0%nat.
Proof. rewrite <- (Nat.add_0_r (length h)) at 1. apply lookup_app_at. Qed.

Lemma with_nested_id (u : UploadJ) :
  Upload.with_nested (Upload.receivedChunks u) (Upload.missingChunks u) u = u.
Proof. by destruct u. Qed.

Lemma with_nested_twice {R A R' A' R'' A''} (u : Upload.t R A)
    (r : R') (a : option A') (r' : R'') (a' : option A'') :
  Upload.with_nested r' a' (Upload.with_nested r a u) = Upload.with_nested r' a' u.
Proof. reflexivity. Qed.

(** Objects are read the same after more objects have been created. *)
Lemma load_app h cells l u : load h l = Some u → load (h ++ cells) l = Some u.
Proof.
  unfold load. intros H.
  destruct (h !! l) as [[o| |]|] eqn:Hl; try discriminate.
  rewrite (lookup_app_l_Some _ _ _ _ Hl).
  destruct (h !! Upload.receivedChunks o) as [[|received|]|] eqn:Hr; try discriminate.
  rewrite (lookup_app_l_Some _ _ _ _ Hr).
  destruct (Upload.missingChunks o) as [la|]; [| done].
  destruct (h !! la) as [[| |items]|] eqn:Ha; try discriminate.
  by rewrite (lookup_app_l_Some _ _ _ _ Ha).
Qed.

(** The cells [parse u] appends to a heap of [n] cells, and the location
    of the new upload object. *)
Definition parse_cells (n : nat) (u : UploadJ) : list Cell :=
  match Upload.missingChunks u with
  | None =>
      [ObjChunks (Upload.receivedChunks u); ObjUpload (Upload.with_nested n None u)]
  | Some items =>
      [ObjChunks (Upload.receivedChunks u); ObjArray items;
       ObjUpload (Upload.with_nested n (Some (n + 1)%nat) u)]
  end.

Definition parse_loc (n : nat) (u : UploadJ) : loc :=
  match Upload.missingChunks u with
  | None => (n + 1)%nat
  | Some _ => (n + 2)%nat
  end.

Lemma parse_run u m :
  parse u m = (Ok (parse_loc (length (Manager.heap m)) u),
               Manager.set_heap
                 (Manager.heap m ++ parse_cells (length (Manager.heap m)) u) m).
Proof.
  unfold parse, parse_cells, parse_loc, alloc. st_unfold. destruct m as [eph h ? ? ? ? ?].
  destruct u as [? ? ? ? ? ? ? ? rc ? ? ? ? [items|]]; simpl;
    rewrite ?length_app, <- ?app_assoc; simpl; unfold Manager.set_heap; simpl;
    rewrite <- ?Nat.add_assoc; reflexivity.
Qed.

Lemma load_parse h u :
  load (h ++ parse_cells (length h) u) (parse_loc (length h) u) = Some u.
Proof.
  unfold load, parse_cells, parse_loc.
  destruct u as [? ? ? ? ? ? ? ? rc ? ? ? ? [items|]]; simpl.
  - rewrite lookup_app_at. simpl. rewrite lookup_app_at0. simpl.
    rewrite lookup_app_at. simpl. reflexivity.
  - rewrite lookup_app_at. simpl. rewrite lookup_app_at0. simpl. reflexivity.
Qed.

Lemma stringify_run l m u :
  load (Manager.heap m) l = Some u → stringify l m = (Ok u, m).
Proof. intros H. unfold stringify. by rewrite H. Qed.

Lemma stringify_Ok l m u m' :
  stringify l m = (Ok u, m') → m' = m ∧ load (Manager.heap m) l = Some u.
Proof.
  unfold stringify. destruct (load _ _); [| discriminate]. by intros [= -> ->].
Qed.

(** The JSON value of the object [_decorateUpload] returns. *)
Definition decorated (u : UploadJ) : UploadJ :=
  Upload.set_receivedCount
    (Some (Upload.totalChunks u - Z.of_nat (length (_missingChunks u))))
    (Upload.with_nested (Upload.receivedChunks u) (Some (_missingChunks u)) u).

(** The cells [_decorateUpload u] appends to a heap of [n] cells; the
    clone is at [parse_loc n u]. *)
Definition decorate_cells (n : nat) (u : UploadJ) : list Cell :=
  let count := Some (Upload.totalChunks u - Z.of_nat (length (_missingChunks u))) in
  match Upload.missingChunks u with
  | None =>
      [ObjChunks (Upload.receivedChunks u);
       ObjUpload (Upload.set_receivedCount count
                    (Upload.with_nested n (Some (n + 2)%nat) u));
       ObjArray (_missingChunks u)]
  | Some items =>
      [ObjChunks (Upload.receivedChunks u); ObjArray items;
       ObjUpload (Upload.set_receivedCount count
                    (Upload.with_nested n (Some (n + 3)%nat) u));
       ObjArray (_missingChunks u)]
  end.

Lemma _decorateUpload_run u m :
  _decorateUpload u m
  = (Ok (parse_loc (length (Manager.heap m)) u),
     Manager.set_heap (Manager.heap m ++ decorate_cells (length (Manager.heap m)) u) m).
Proof.
  unfold _decorateUpload, _deepClone. rewrite (bind_run _ _ _ _ _ (parse_run u m)).
  unfold alloc, updateObject, parse_loc, parse_cells, decorate_cells.
  destruct m as [eph h ? ? ? ? ?].
  destruct u as [? ? ? ? ? ? ? ? rc ? ? ? ? [items|]]; st_unfold; simpl;
    rewrite ?length_app, <- ?app_assoc; simpl;
    rewrite lookup_app_at; simpl; rewrite insert_app_r; simpl;
    unfold Manager.set_heap; simpl; rewrite <- ?Nat.add_assoc; reflexivity.
Qed.

Lemma load_decorate h u :
  load (h ++ decorate_cells (length h) u) (parse_loc (length h) u) = Some (decorated u).
Proof.
  unfold load, decorate_cells, parse_loc, decorated.
  destruct u as [? ? ? ? ? ? ? ? rc ? ? ? ? [items|]]; simpl;
    rewrite lookup_app_at; simpl; rewrite lookup_app_at0; simpl;
    rewrite lookup_app_at; simpl; reflexivity.
Qed.

(** Every cell the clone consists of is new. *)
Lemma decorate_footprint h u :
  ∃ o la, (h ++ decorate_cells (length h) u) !! parse_loc (length h) u = Some (ObjUpload o) ∧
          Upload.missingChunks o = Some la ∧
          (length h ≤ parse_loc (length h) u)%nat ∧
          (length h ≤ Upload.receivedChunks o)%nat ∧
          (length h ≤ la)%nat.
Proof.
  unfold decorate_cells, parse_loc.
  destruct u as [? ? ? ? ? ? ? ? rc ? ? ? ? [items|]]; simpl;
    rewrite lookup_app_at; simpl; do 2 eexists; (split; [reflexivity |]); simpl;
    (split; [reflexivity |]); lia.
Qed.

Lemma decorateObject_run l m u :
  load (Manager.heap m) l = Some u →
  decorateObject l m
  = (Ok (parse_loc (length (Manager.heap m)) u),
     Manager.set_heap (Manager.heap m ++ decorate_cells (length (Manager.heap m)) u) m).
Proof.
  intros H. unfold decorateObject.
  rewrite (bind_run _ _ _ _ _ (stringify_run _ _ _ H)). apply _decorateUpload_run.
Qed.

Lemma decorateObject_Ok l m r m' :
  decorateObject l m = (Ok r, m') →
  ∃ u, load (Manager.heap m) l = Some u ∧
       r = parse_loc (length (Manager.heap m)) u ∧
       m' = Manager.set_heap
              (Manager.heap m ++ decorate_cells (length (Manager.heap m)) u) m.
Proof.
  unfold decorateObject. intros H. apply bind_Ok in H as (u & m1 & H1 & H2).
  apply stringify_Ok in H1 as [-> H1]. rewrite _decorateUpload_run in H2.
  injection H2 as <- <-. eauto.
Qed.

Lemma missingOf_decorated h u m :
  Manager.heap m = h ++ decorate_cells (length h) u →
  missingOf (parse_loc (length h) u) m = (Ok (_missingChunks u), m).
Proof.
  intros Hh. unfold missingOf.
  rewrite (bind_run _ _ m (decorated u) m); [reflexivity |].
  apply stringify_run. rewrite Hh. apply load_decorate.
Qed.

(** Assigning fields in place: the object then holds the assigned value. *)
Lemma assignFields_run l (u u' : UploadJ) m :
  load (Manager.heap m) l = Some u →
  Upload.missingChunks u' = Upload.missingChunks u →
  ∃ h', assignFields l u' m = (Ok tt, Manager.set_heap h' m) ∧
        length h' = length (Manager.heap m) ∧
        load h' l = Some u'.
Proof.
  unfold assignFields, load. intros Hload Hmiss.
  destruct (Manager.heap m !! l) as [[o| |]|] eqn:Hl; try discriminate.
  destruct (Manager.heap m !! Upload.receivedChunks o) as [[|received|]|] eqn:Hr;
    try discriminate.
  assert (l ≠ Upload.receivedChunks o) as Hne by (intros Heq; congruence).
  assert (l < length (Manager.heap m))%nat as Hlt by (by eapply lookup_lt_Some).
  assert (Upload.receivedChunks o < length (Manager.heap m))%nat as Hrt
    by (by eapply lookup_lt_Some).
  eexists. split; [reflexivity |]. split; [by rewrite !length_insert |].
  rewrite list_lookup_insert_eq by (by rewrite length_insert). simpl.
  rewrite list_lookup_insert_ne by done.
  rewrite list_lookup_insert_eq by done. simpl.
  destruct (Upload.missingChunks o) as [la|] eqn:Hla.
  - destruct (Manager.heap m !! la) as [[| |items]|] eqn:Ha; try discriminate.
    rewrite list_lookup_insert_ne by (intros Heq; congruence).
    rewrite list_lookup_insert_ne by (intros Heq; congruence).
    rewrite Ha. injection Hload as <-. simpl in Hmiss.
    destruct u'; simpl in *. by subst.
  - injection Hload as <-. simpl in Hmiss. destruct u'; simpl in *. by subst.
Qed.

(** ** recordChunk *)

(** The metadata the manager holds for an upload: the object in the
    ephemeral bucket when there is one, else the entry of the user's
    [uploads] in the state file (the order of [getUpload]). *)
Definition storedUpload (w : World) (userKey uploadId : string) : option UploadJ :=
  match Manager.ephemeral w.2 !! userKey ≫= (.!! uploadId) with
  | Some l => load (Manager.heap w.2) l
  | None =>
      users (DataStore._read w.1) !! userKey ≫= λ user, UserRecord.uploads user !! uploadId
  end.

(** The value [_markChunk] leaves in an upload, at time [now]. *)
Definition marked (u : UploadJ) (i : Z) (now : Timestamp) : UploadJ :=
  let received :=
    if bool_decide (i ∈ Upload.receivedChunks u)
    then Upload.receivedChunks u else {[i]} ∪ Upload.receivedChunks u in
  Upload.set_updatedAt now
    (Upload.set_status active
      (Upload.set_receivedCount (Some (Z.of_nat (size received)))
        (Upload.with_nested received (Upload.missingChunks u) u))).

Lemma storedUpload_memory s m userKey uploadId l :
  Manager.ephemeral m !! userKey ≫= (.!! uploadId) = Some l →
  storedUpload (s, m) userKey uploadId = load (Manager.heap m) l.
Proof. intros H. unfold storedUpload. simpl fst. simpl snd. by rewrite H. Qed.

Lemma storedUpload_persistent s m userKey uploadId user :
  Manager.ephemeral m !! userKey ≫= (.!! uploadId) = None →
  users (DataStore._read s) !! userKey = Some user →
  storedUpload (s, m) userKey uploadId = UserRecord.uploads user !! uploadId.
Proof. intros H Hu. unfold storedUpload. simpl fst. simpl snd. by rewrite H, Hu. Qed.

Lemma prop_own {S V} (obj : gmap string V) k v (s : S) :
  obj !! k = Some v → prop obj k s = (Ok (Some v), s).
Proof. intros H. unfold prop. by rewrite H. Qed.

Lemma prop_Ok {S V} (obj : gmap string V) k r (s s' : S) :
  prop obj k s = (Ok r, s') → s' = s ∧ r = obj !! k.
Proof.
  unfold prop. destruct (obj !! k).
  - by intros [= <- <-].
  - destruct (inherited k); [discriminate |]. by intros [= <- <-].
Qed.

Section recordChunk_facts.
Context (dateAt : nat → Timestamp).

Lemma _markChunk_out_of_range u i m :
  i < 0 ∨ Upload.totalChunks u ≤ i →
  _markChunk dateAt u i m = (Throw chunk_out_of_range, m).
Proof.
  intros H. unfold _markChunk.
  replace ((i <? 0) || (i >=? Upload.totalChunks u)) with true; [done |].
  symmetry. apply orb_true_iff. destruct H; [left | right]; lia.
Qed.

Lemma _markChunk_in_range u i m :
  0 ≤ i < Upload.totalChunks u →
  _markChunk dateAt u i m
  = (Ok (marked u i (dateAt (Manager.clockReads m))),
     Manager.set_clockReads (S (Manager.clockReads m)) m).
Proof.
  intros H. unfold _markChunk.
  replace ((i <? 0) || (i >=? Upload.totalChunks u)) with false; [done |].
  symmetry. apply orb_false_iff. lia.
Qed.

Lemma _markChunk_Ok u i m u' m' :
  _markChunk dateAt u i m = (Ok u', m') →
  0 ≤ i < Upload.totalChunks u ∧
  u' = marked u i (dateAt (Manager.clockReads m)) ∧
  m' = Manager.set_clockReads (S (Manager.clockReads m)) m.
Proof.
  intros H. destruct (decide (0 ≤ i < Upload.totalChunks u)) as [Hin|Hout].
  - rewrite (_markChunk_in_range _ _ _ Hin) in H. by injection H as <- <-.
  - rewrite _markChunk_out_of_range in H by lia. discriminate.
Qed.

Lemma findUpload_run userKey uploadId (state : Doc) (m : Manager.t) user u :
  users state !! userKey = Some user →
  UserRecord.uploads user !! uploadId = Some u →
  findUpload userKey uploadId (state, m) = (Ok (user, u), (state, m)).
Proof.
  intros Hu Hup. unfold findUpload. st_unfold. simpl.
  rewrite (prop_own _ _ _ _ Hu). by rewrite (prop_own _ _ _ _ Hup).
Qed.

Lemma findUpload_Ok userKey uploadId (s s' : Doc * Manager.t) user u :
  findUpload userKey uploadId s = (Ok (user, u), s') →
  s' = s ∧ users s.1 !! userKey = Some user ∧
  UserRecord.uploads user !! uploadId = Some u.
Proof.
  unfold findUpload. intros H.
  apply bind_Ok in H as (state & s1 & H1 & H). st_unfold. injection H1 as <- <-.
  apply bind_Ok in H as ([user'|] & s1 & H1 & H); apply prop_Ok in H1 as [-> H1];
    [| discriminate].
  apply bind_Ok in H as ([u'|] & s2 & H2 & H); apply prop_Ok in H2 as [-> H2];
    [| discriminate].
  injection H as <- <- <-. by destruct s.
Qed.


Lemma marked_missingChunks u i now :
  Upload.missingChunks (marked u i now) = Upload.missingChunks u.
Proof. reflexivity. Qed.

Lemma marked_totalChunks u i now :
  Upload.totalChunks (marked u i now) = Upload.totalChunks u.
Proof. reflexivity. Qed.

Lemma marked_elem u i now : i ∈ Upload.receivedChunks (marked u i now).
Proof. simpl. case_bool_decide; set_solver. Qed.

(** Marking an index that is already marked changes neither the set nor
    the count. *)
Lemma marked_again u i now now' :
  Upload.receivedChunks (marked (marked u i now) i now')
    = Upload.receivedChunks (marked u i now) ∧
  Upload.receivedCount (marked (marked u i now) i now')
    = Upload.receivedCount (marked u i now).
Proof.
  pose proof (marked_elem u i now) as Hin.
  unfold marked at 1 3. simpl Upload.receivedChunks at 1. simpl Upload.receivedCount at 1.
  rewrite (bool_decide_eq_true_2 _ Hin). done.
Qed.

(** [recordChunk] on an upload of the ephemeral bucket. *)
Lemma recordChunk_memory_run s m userKey uploadId l u i :
  Manager.ephemeral m !! userKey ≫= (.!! uploadId) = Some l →
  load (Manager.heap m) l = Some u →
  0 ≤ i < Upload.totalChunks u →
  let u' := marked u i (dateAt (Manager.clockReads m)) in
  ∃ r m', recordChunk dateAt userKey uploadId i (s, m) = (Ok r, (s, m')) ∧
          Manager.ephemeral m' = Manager.ephemeral m ∧
          load (Manager.heap m') l = Some u' ∧
          load (Manager.heap m') (Recorded.upload r) = Some (decorated u') ∧
          Recorded.completed r = bool_decide (length (_missingChunks u') = 0%nat).
Proof.
  intros Hmem Hload Hin u'. unfold recordChunk.
  rewrite (bind_run _ _ (s, m) (Some l) (s, m)) by (by unfold ephemeralUpload; st_unfold; rewrite Hmem).
  destruct (assignFields_run l u u' (Manager.set_clockReads (S (Manager.clockReads m)) m)
              Hload eq_refl) as (h' & Hassign & Hlen & Hload').
  erewrite bind_run; last first.
  { apply lift_run. unfold mutateObject.
    rewrite (bind_run _ _ _ _ _ (stringify_run _ _ _ Hload)).
    rewrite (bind_run _ _ _ _ _ (_markChunk_in_range _ _ _ Hin)). exact Hassign. }
  erewrite bind_run; last first.
  { apply lift_run. by apply decorateObject_run. }
  erewrite bind_run; last first.
  { apply lift_run. by apply (missingOf_decorated h' u'). }
  do 2 eexists. split; [reflexivity |]. simpl.
  split; [done |]. split; [by apply load_app |]. split; [apply load_decorate | done].
Qed.

(** [recordChunk] on an upload of the state file. *)
Lemma recordChunk_persistent_run s m userKey uploadId user u i :
  Manager.ephemeral m !! userKey ≫= (.!! uploadId) = None →
  DataStore._lock s = None →
  users (DataStore._read s) !! userKey = Some user →
  UserRecord.uploads user !! uploadId = Some u →
  0 ≤ i < Upload.totalChunks u →
  let u' := marked u i (dateAt (Manager.clockReads m)) in
  let user' := UserRecord.set_uploads (<[uploadId := u']> (UserRecord.uploads user)) user in
  ∃ r m', recordChunk dateAt userKey uploadId i (s, m)
          = (Ok r, (DataStore.mk (Some (mkDoc (<[userKey := user']> (users (DataStore._read s)))))
                      None, m')) ∧
          Manager.ephemeral m' = Manager.ephemeral m ∧
          load (Manager.heap m') (Recorded.upload r) = Some (decorated u') ∧
          Recorded.completed r = bool_decide (length (_missingChunks u') = 0%nat).
Proof.
  intros Hmem Hlock Huser Hup Hin u' user'. unfold recordChunk.
  rewrite (bind_run _ _ (s, m) None (s, m)) by (by unfold ephemeralUpload; st_unfold; rewrite Hmem).
  do 2 eexists. split.
  - erewrite withState_run; [| done |].
    + unfold DataStore._write. rewrite Hlock. reflexivity.
    + rewrite (bind_run _ _ _ _ _ (findUpload_run _ _ _ _ _ _ Huser Hup)).
      erewrite bind_run; last first.
      { apply lift_run. by apply _markChunk_in_range. }
      st_unfold. simpl.
      rewrite _decorateUpload_run. simpl.
      erewrite (missingOf_decorated (Manager.heap m) u'); [| reflexivity].
      simpl. reflexivity.
  - simpl. split; [done |]. split; [apply load_decorate | done].
Qed.

(** What a successful [recordChunk] implies about the state it started in. *)
Lemma recordChunk_Ok s m userKey uploadId i r w' :
  recordChunk dateAt userKey uploadId i (s, m) = (Ok r, w') →
  (∃ l u, Manager.ephemeral m !! userKey ≫= (.!! uploadId) = Some l ∧
          load (Manager.heap m) l = Some u ∧ 0 ≤ i < Upload.totalChunks u) ∨
  (∃ user u, Manager.ephemeral m !! userKey ≫= (.!! uploadId) = None ∧
             DataStore._lock s = None ∧
             users (DataStore._read s) !! userKey = Some user ∧
             UserRecord.uploads user !! uploadId = Some u ∧
             0 ≤ i < Upload.totalChunks u).
Proof.
  unfold recordChunk.
  rewrite (bind_run _ _ (s, m) (Manager.ephemeral m !! userKey ≫= (.!! uploadId)) (s, m))
    by reflexivity.
  destruct (Manager.ephemeral m !! userKey ≫= (.!! uploadId)) as [l|] eqn:Hmem; intros H.
  - left. apply bind_Ok in H as ([] & [s1 m1] & H & _).
    apply lift_Ok in H as [-> H]. unfold mutateObject in H.
    apply bind_Ok in H as (u & m2 & H1 & H). apply stringify_Ok in H1 as [-> H1].
    apply bind_Ok in H as (u' & m3 & H2 & _). apply _markChunk_Ok in H2 as [H2 _].
    eauto.
  - right. destruct w' as [s' m']. apply withState_Ok in H as (Hlock & state & H & _).
    apply bind_Ok in H as ([user u] & s1 & H1 & H).
    apply findUpload_Ok in H1 as (-> & Huser & Hup).
    apply bind_Ok in H as (u' & [d2 m2] & H2 & _).
    apply lift_Ok in H2 as [_ H2]. apply _markChunk_Ok in H2 as [H2 _].
    exists user, u. eauto.
Qed.

(** C7.  Whenever a [recordChunk] call has succeeded, a second call with
    the same index succeeds as well, and the upload's [receivedChunks] and
    [receivedCount] after it are what they were after the first call; the
    decorated copy it returns reports the same [receivedCount] and
    [missingChunks], and the same [completed]. *)
Theorem recordChunk_idempotent (w w1 : World) (userKey uploadId : string)
    (chunkIndex : Z) (r1 : Recorded.t) :
  recordChunk dateAt userKey uploadId chunkIndex w = (Ok r1, w1) →
  ∃ (r2 : Recorded.t) (w2 : World) (u1 u2 d1 d2 : UploadJ),
    recordChunk dateAt userKey uploadId chunkIndex w1 = (Ok r2, w2) ∧
    storedUpload w1 userKey uploadId = Some u1 ∧
    storedUpload w2 userKey uploadId = Some u2 ∧
    chunkIndex ∈ Upload.receivedChunks u1 ∧
    Upload.receivedChunks u2 = Upload.receivedChunks u1 ∧
    Upload.receivedCount u2 = Upload.receivedCount u1 ∧
    load (Manager.heap w1.2) (Recorded.upload r1) = Some d1 ∧
    load (Manager.heap w2.2) (Recorded.upload r2) = Some d2 ∧
    Upload.receivedCount d2 = Upload.receivedCount d1 ∧
    Upload.missingChunks d2 = Upload.missingChunks d1 ∧
    Recorded.completed r2 = Recorded.completed r1.
Proof.
  destruct w as [s m]. intros H1.
  destruct (recordChunk_Ok _ _ _ _ _ _ _ H1)
    as [(l & u & Hmem & Hload & Hin) | (user & u & Hmem & Hlock & Huser & Hup & Hin)].
  - destruct (recordChunk_memory_run s m _ _ _ _ _ Hmem Hload Hin)
      as (r1' & m1 & Hrun1 & Heph1 & Hl1 & Hd1 & Hc1).
    rewrite Hrun1 in H1. injection H1 as <- <-.
    set (u1 := marked u chunkIndex (dateAt (Manager.clockReads m))) in *.
    assert (Manager.ephemeral m1 !! userKey ≫= (.!! uploadId) = Some l) as Hmem1
      by (by rewrite Heph1).
    destruct (recordChunk_memory_run s m1 _ _ _ u1 chunkIndex Hmem1 Hl1 Hin)
      as (r2 & m2 & Hrun2 & Heph2 & Hl2 & Hd2 & Hc2).
    set (u2 := marked u1 chunkIndex (dateAt (Manager.clockReads m1))) in *.
    destruct (marked_again u chunkIndex (dateAt (Manager.clockReads m))
                (dateAt (Manager.clockReads m1))) as [Hrc Hcount].
    exists r2, (s, m2), u1, u2, (decorated u1), (decorated u2).
    split; [done |]. unfold storedUpload. simpl. rewrite Heph2, Hmem1.
    assert (_missingChunks u2 = _missingChunks u1) as Hmiss
      by (unfold _missingChunks; fold u1 in Hrc; fold u2 in Hrc; by rewrite Hrc).
    split_and!; try done.
    + exact (marked_elem u chunkIndex 0).
    + unfold decorated. simpl Upload.receivedCount. by rewrite Hmiss.
    + unfold decorated. simpl Upload.missingChunks. by rewrite Hmiss.
    + by rewrite Hc1, Hc2, Hmiss.
  - destruct (recordChunk_persistent_run s m _ _ _ _ _ Hmem Hlock Huser Hup Hin)
      as (r1' & m1 & Hrun1 & Heph1 & Hd1 & Hc1).
    rewrite Hrun1 in H1. injection H1 as <- <-.
    set (u1 := marked u chunkIndex (dateAt (Manager.clockReads m))) in *.
    set (user1 := UserRecord.set_uploads (<[uploadId := u1]> (UserRecord.uploads user)) user) in *.
    set (s1 := DataStore.mk (Some (mkDoc (<[userKey := user1]> (users (DataStore._read s))))) None).
    assert (Manager.ephemeral m1 !! userKey ≫= (.!! uploadId) = None) as Hmem1
      by (by rewrite Heph1).
    assert (users (DataStore._read s1) !! userKey = Some user1) as Huser1
      by apply lookup_insert_eq.
    assert (UserRecord.uploads user1 !! uploadId = Some u1) as Hup1
      by apply lookup_insert_eq.
    destruct (recordChunk_persistent_run s1 m1 _ _ _ _ chunkIndex Hmem1 eq_refl Huser1 Hup1 Hin)
      as (r2 & m2 & Hrun2 & Heph2 & Hd2 & Hc2).
    set (u2 := marked u1 chunkIndex (dateAt (Manager.clockReads m1))) in *.
    destruct (marked_again u chunkIndex (dateAt (Manager.clockReads m))
                (dateAt (Manager.clockReads m1))) as [Hrc Hcount].
    assert (_missingChunks u2 = _missingChunks u1) as Hmiss
      by (unfold _missingChunks; fold u1 in Hrc; fold u2 in Hrc; by rewrite Hrc).
    eexists r2, _, u1, u2, (decorated u1), (decorated u2).
    split; [exact Hrun2 |]. unfold storedUpload. simpl. rewrite Heph2, Hmem1.
    split_and!; try done.
    + unfold DataStore._read. simpl. rewrite lookup_insert_eq. simpl.
      apply lookup_insert_eq.
    + unfold DataStore._read. simpl. rewrite lookup_insert_eq. simpl.
      apply lookup_insert_eq.
    + exact (marked_elem u chunkIndex 0).
    + unfold decorated. simpl Upload.receivedCount. by rewrite Hmiss.
    + unfold decorated. simpl Upload.missingChunks. by rewrite Hmiss.
    + by rewrite Hc1, Hc2, Hmiss.
Qed.

End recordChunk_facts.

(** ** History *)

Lemma read_write state s : DataStore._read (DataStore._write state s) = state.
Proof. reflexivity. Qed.

(** The history entry of an upload, completed at [t]. *)
Definition entryOf (u : UploadJ) (t : Timestamp) : HistoryEntry.t :=
  HistoryEntry.mk (Upload.id u) (Upload.fileName u) (Upload.fileSize u) t
    (Upload.chunkSize u) (Upload.totalChunks u) (Upload.persist u).

(** The history of a user in the state file; empty without a record. *)
Definition historyOf (w : World) (userKey : string) : list HistoryEntry.t :=
  from_option UserRecord.history [] (users (DataStore._read w.1) !! userKey).

Lemma unshiftCapped_take entry history :
  unshiftCapped entry history = take 200 (entry :: history).
Proof.
  unfold unshiftCapped. case_match eqn:Hlen; [done |].
  symmetry. apply firstn_all2. apply Z.ltb_ge in Hlen. lia.
Qed.

Lemma unshiftCapped_head entry history :
  unshiftCapped entry history !! 0%nat = Some entry.
Proof. by rewrite unshiftCapped_take. Qed.

Lemma unshiftCapped_length entry history :
  (length (unshiftCapped entry history) ≤ 200)%nat.
Proof. rewrite unshiftCapped_take, length_take. lia. Qed.

Lemma mutateObject_Ok l f m m' :
  mutateObject l f m = (Ok tt, m') →
  ∃ u u' m1, load (Manager.heap m) l = Some u ∧ f u m = (Ok u', m1) ∧
             assignFields l u' m1 = (Ok tt, m').
Proof.
  unfold mutateObject. intros H.
  apply bind_Ok in H as (u & m0 & H0 & H). apply stringify_Ok in H0 as [-> H0].
  apply bind_Ok in H as (u' & m1 & H1 & H). eauto 10.
Qed.

Lemma assignFields_ephemeral l u m m' :
  assignFields l u m = (Ok tt, m') → Manager.ephemeral m' = Manager.ephemeral m.
Proof.
  unfold assignFields. destruct (Manager.heap m !! l) as [[o| |]|]; try discriminate.
  destruct (Manager.heap m !! Upload.receivedChunks o) as [[| |]|]; try discriminate.
  by intros [= <-].
Qed.

Section history_facts.
Context (dateAt : nat → Timestamp).

Lemma _toHistoryEntry_Ok u m entry m' :
  _toHistoryEntry dateAt u m = (Ok entry, m') →
  ∃ t, entry = entryOf u t ∧ Manager.heap m' = Manager.heap m ∧
       Manager.ephemeral m' = Manager.ephemeral m.
Proof.
  unfold _toHistoryEntry. intros H. apply bind_Ok in H as (t & m1 & H1 & H).
  injection H as <- <-. exists t. split; [done |].
  destruct (Upload.completedAt u); [by injection H1 as <- <- |].
  unfold _now in H1. by injection H1 as <- <-.
Qed.

Lemma _ensureUserRecord_Ok userKey (state state' : Doc) (m m' : Manager.t) user :
  _ensureUserRecord dateAt userKey (state, m) = (Ok user, (state', m')) →
  UserRecord.history user = from_option UserRecord.history [] (users state !! userKey) ∧
  Manager.heap m' = Manager.heap m ∧ Manager.ephemeral m' = Manager.ephemeral m.
Proof.
  unfold _ensureUserRecord. rewrite (bind_run _ _ _ state (state, m)) by reflexivity.
  destruct (users state !! userKey) as [user0|].
  - by intros [= <- <- <-].
  - destruct (inherited userKey); [discriminate |]. by intros [= <- <- <-].
Qed.

(** What the history mutator leaves in the document. *)
Lemma historyMutator_Ok userKey l (state state' : Doc) (m m' : Manager.t) :
  historyMutator dateAt userKey l (state, m) = (Ok tt, (state', m')) →
  ∃ u t, load (Manager.heap m) l = Some u ∧
         from_option UserRecord.history [] (users state' !! userKey)
           = unshiftCapped (entryOf u t)
               (from_option UserRecord.history [] (users state !! userKey)) ∧
         Manager.heap m' = Manager.heap m ∧ Manager.ephemeral m' = Manager.ephemeral m.
Proof.
  unfold historyMutator. intros H.
  apply bind_Ok in H as (user & [state1 m1] & H1 & H).
  apply _ensureUserRecord_Ok in H1 as (Hhist & Hheap1 & Heph1).
  apply bind_Ok in H as (u & [state2 m2] & H2 & H).
  apply lift_Ok in H2 as [-> H2]. apply stringify_Ok in H2 as [-> H2].
  apply bind_Ok in H as (entry & [state3 m3] & H3 & H).
  apply lift_Ok in H3 as [-> H3]. apply _toHistoryEntry_Ok in H3 as (t & -> & Hheap3 & Heph3).
  st_unfold. injection H as <- <-. exists u, t. simpl.
  rewrite lookup_insert_eq. simpl. rewrite Hhist.
  split_and!; [by rewrite <- Hheap1 | done | congruence | congruence].
Qed.

(** The upload object an ephemeral path retires, and the entry filed for it. *)
Lemma retire_memory_history userKey l s (m2 m3 : Manager.t) s' :
  DataStore.withState (historyMutator dateAt userKey l) (s, m2) = (Ok tt, (s', m3)) →
  ∃ u t, load (Manager.heap m2) l = Some u ∧
         historyOf (s', m3) userKey = unshiftCapped (entryOf u t) (historyOf (s, m2) userKey) ∧
         Manager.heap m3 = Manager.heap m2.
Proof.
  intros H. apply withState_Ok in H as (Hlock & state' & H & ->).
  apply historyMutator_Ok in H as (u & t & Hload & Hhist & Hheap & _).
  exists u, t. unfold historyOf. simpl. by rewrite read_write, Hhist.
Qed.

(** [finalizeUpload] files the entry of the upload it retires. *)
Lemma finalizeUpload_history w userKey uploadId r w' :
  finalizeUpload dateAt userKey uploadId w = (Ok r, w') →
  ∃ u t, storedUpload w userKey uploadId = Some u ∧
         historyOf w' userKey = unshiftCapped (entryOf u t) (historyOf w userKey).
Proof.
  destruct w as [s m]. unfold finalizeUpload.
  rewrite (bind_run _ _ (s, m) (Manager.ephemeral m !! userKey ≫= (.!! uploadId)) (s, m))
    by reflexivity.
  destruct w' as [s' m'].
  destruct (Manager.ephemeral m !! userKey ≫= (.!! uploadId)) as [l|] eqn:Hmem; intros H.
  - apply bind_Ok in H as ([] & [s1 m1] & H1 & H). apply lift_Ok in H1 as [-> H1].
    apply mutateObject_Ok in H1 as (u & u' & m0 & Hload & Hf & Hassign).
    apply bind_Ok in Hf as (now & m0' & Hnow & Hf). injection Hf as <- <-.
    unfold _now in Hnow. injection Hnow as <- <-.
    destruct (assignFields_run l u
                (Upload.set_completedAt (Some (dateAt (Manager.clockReads m)))
                   (Upload.set_status completed u))
                (Manager.set_clockReads (S (Manager.clockReads m)) m) Hload eq_refl)
      as (h' & Hassign' & _ & Hload').
    rewrite Hassign' in Hassign. injection Hassign as <-.
    apply bind_Ok in H as ([] & [s2 m2] & H2 & H). apply lift_Ok in H2 as [-> H2].
    unfold deleteEphemeralUpload, modify in H2. injection H2 as <-.
    apply bind_Ok in H as ([] & [s3 m3] & H3 & H).
    apply retire_memory_history in H3 as (u2 & t & Hload2 & Hhist & Hheap).
    simpl in Hload2. rewrite Hload' in Hload2. injection Hload2 as <-.
    apply lift_Ok in H as [-> H]. apply decorateObject_Ok in H as (? & _ & _ & ->).
    exists u, t. rewrite (storedUpload_memory _ _ _ _ _ Hmem). split; [done |].
    unfold historyOf in *. simpl in *. by rewrite Hhist.
  - apply withState_Ok in H as (Hlock & state' & H & ->).
    apply bind_Ok in H as ([user u] & s1 & H1 & H).
    apply findUpload_Ok in H1 as (-> & Huser & Hup). simpl in Huser.
    apply bind_Ok in H as (now & [d2 m2] & H2 & H). apply lift_Ok in H2 as [-> _].
    apply bind_Ok in H as (decorated_ & [d3 m3] & H3 & H). apply lift_Ok in H3 as [-> _].
    apply bind_Ok in H as (entry & [d4 m4] & H4 & H). apply lift_Ok in H4 as [-> H4].
    apply _toHistoryEntry_Ok in H4 as (t & -> & _).
    apply bind_Ok in H as ([] & [d5 m5] & H5 & H). st_unfold.
    injection H5 as <- <-. injection H as <- <- <-.
    exists u, t. rewrite (storedUpload_persistent _ _ _ _ _ Hmem Huser).
    split; [done |]. unfold historyOf. simpl. rewrite ?read_write. simpl.
    rewrite lookup_insert_eq. simpl. by rewrite Huser.
Qed.

(** So does [removeUpload] unless told to forget. *)
Lemma removeUpload_history w userKey uploadId r w' :
  removeUpload dateAt userKey uploadId false w = (Ok r, w') →
  ∃ u t, storedUpload w userKey uploadId = Some u ∧
         historyOf w' userKey = unshiftCapped (entryOf u t) (historyOf w userKey).
Proof.
  destruct w as [s m]. unfold removeUpload.
  rewrite (bind_run _ _ (s, m) (Manager.ephemeral m !! userKey ≫= (.!! uploadId)) (s, m))
    by reflexivity.
  destruct w' as [s' m'].
  destruct (Manager.ephemeral m !! userKey ≫= (.!! uploadId)) as [l|] eqn:Hmem; intros H.
  - apply bind_Ok in H as ([] & [s2 m2] & H2 & H). apply lift_Ok in H2 as [-> H2].
    unfold deleteEphemeralUpload, modify in H2. injection H2 as <-.
    apply bind_Ok in H as ([] & [s3 m3] & H3 & H).
    apply retire_memory_history in H3 as (u & t & Hload & Hhist & Hheap).
    exists u, t. rewrite (storedUpload_memory _ _ _ _ _ Hmem). split; [done |].
    apply lift_Ok in H as [-> H]. apply decorateObject_Ok in H as (? & _ & _ & ->).
    unfold historyOf in *. simpl in *. by rewrite Hhist.
  - apply withState_Ok in H as (Hlock & state' & H & ->).
    apply bind_Ok in H as ([user u] & s1 & H1 & H).
    apply findUpload_Ok in H1 as (-> & Huser & Hup). simpl in Huser.
    apply bind_Ok in H as (decorated_ & [d3 m3] & H3 & H). apply lift_Ok in H3 as [-> _].
    apply bind_Ok in H as (history' & [d4 m4] & H4 & H).
    apply bind_Ok in H4 as (entry & [d4' m4'] & H4 & H4'). apply lift_Ok in H4 as [-> H4].
    apply _toHistoryEntry_Ok in H4 as (t & -> & _). st_unfold. injection H4' as <- <- <-.
    apply bind_Ok in H as ([] & [d5 m5] & H5 & H). st_unfold.
    injection H5 as <- <-. injection H as <- <- <-.
    exists u, t. rewrite (storedUpload_persistent _ _ _ _ _ Hmem Huser).
    split; [done |]. unfold historyOf. simpl. rewrite ?read_write. simpl.
    rewrite lookup_insert_eq. simpl. by rewrite Huser.
Qed.

(** [removeUpload] with [forget] leaves every history as it was. *)
Lemma removeUpload_forget w userKey uploadId r w' :
  removeUpload dateAt userKey uploadId true w = (Ok r, w') →
  ∀ k, historyOf w' k = historyOf w k.
Proof.
  destruct w as [s m]. unfold removeUpload.
  rewrite (bind_run _ _ (s, m) (Manager.ephemeral m !! userKey ≫= (.!! uploadId)) (s, m))
    by reflexivity.
  destruct w' as [s' m'].
  destruct (Manager.ephemeral m !! userKey ≫= (.!! uploadId)) as [l|] eqn:Hmem; intros H k.
  - apply bind_Ok in H as ([] & [s2 m2] & H2 & H). apply lift_Ok in H2 as [-> _].
    apply bind_Ok in H as ([] & [s3 m3] & H3 & H). injection H3 as <- <-.
    apply lift_Ok in H as [-> _]. done.
  - apply withState_Ok in H as (Hlock & state' & H & ->).
    apply bind_Ok in H as ([user u] & s1 & H1 & H).
    apply findUpload_Ok in H1 as (-> & Huser & Hup). simpl in Huser.
    apply bind_Ok in H as (decorated_ & [d3 m3] & H3 & H). apply lift_Ok in H3 as [-> _].
    apply bind_Ok in H as (history' & [d4 m4] & H4 & H). st_unfold. injection H4 as <- <- <-.
    apply bind_Ok in H as ([] & [d5 m5] & H5 & H). st_unfold.
    injection H5 as <- <-. injection H as <- <- <-.
    unfold historyOf. simpl. rewrite ?read_write. simpl.
    destruct (decide (k = userKey)) as [->|Hne].
    + rewrite lookup_insert_eq. simpl. by rewrite Huser.
    + by rewrite lookup_insert_ne.
Qed.

(** C8.  After a [finalizeUpload], and after a [removeUpload] without
    [forget], the user's history in the state file is the entry of the
    retired upload followed by the earlier history, cut to 200 entries: the
    entry is at index 0 and the list has at most 200 entries.  A
    [removeUpload] with [forget] changes no history. *)
Theorem history_newest_first_capped (w w' : World) (userKey uploadId : string) (r : loc) :
  (finalizeUpload dateAt userKey uploadId w = (Ok r, w') ∨
   removeUpload dateAt userKey uploadId false w = (Ok r, w') →
   ∃ (u : UploadJ) (t : Timestamp),
     storedUpload w userKey uploadId = Some u ∧
     historyOf w' userKey = take 200 (entryOf u t :: historyOf w userKey) ∧
     historyOf w' userKey !! 0%nat = Some (entryOf u t) ∧
     (length (historyOf w' userKey) ≤ 200)%nat) ∧
  (removeUpload dateAt userKey uploadId true w = (Ok r, w') →
   ∀ k, historyOf w' k = historyOf w k).
Proof.
  split.
  - intros H.
    assert (∃ u t, storedUpload w userKey uploadId = Some u ∧
              historyOf w' userKey = unshiftCapped (entryOf u t) (historyOf w userKey))
      as (u & t & Hstored & Hhist).
    { destruct H as [H | H];
        [by eapply finalizeUpload_history | by eapply removeUpload_history]. }
    exists u, t. rewrite Hhist.
    split_and!; [done | apply unshiftCapped_take | apply unshiftCapped_head
                | apply unshiftCapped_length].
  - apply removeUpload_forget.
Qed.

End history_facts.

(** ** assembleFile *)

(** The part file [<uploadDir>/<uploadId>/<i>.part], when it exists. *)
Definition partFile (m : Manager.t) (uploadId : string) (i : Z) : option bytes :=
  Manager.uploadDir m !! uploadId ≫= (.!! i).

(** The name of the output file within [finalDir]. *)
Definition finalName {R A} (upload : Upload.t R A) : string :=
  (Upload.id upload +:+ "-" +:+ _safeFileName (Upload.fileName upload))%string.

Lemma seqZ_split (n i : Z) :
  0 ≤ i < n → seqZ 0 n = seqZ 0 i ++ i :: seqZ (i + 1) (n - i - 1).
Proof.
  intros H. transitivity (seqZ 0 (i + (n - i))); [f_equal; lia |].
  rewrite seqZ_app by lia. f_equal. rewrite seqZ_cons by lia.
  replace (Z.succ (0 + i)) with (i + 1) by lia.
  replace (Z.pred (n - i)) with (n - i - 1) by lia. done.
Qed.

Lemma pipeParts_missing uploadId name (before after : list Z) (i : Z) (m : Manager.t) :
  (∀ j, j ∈ before → is_Some (partFile m uploadId j)) →
  partFile m uploadId i = None →
  is_Some (Manager.finalDir m !! name) →
  ∃ m', pipeParts uploadId name (before ++ i :: after) m = (Throw (missing_chunk i), m') ∧
        is_Some (Manager.finalDir m' !! name) ∧
        Manager.uploadDir m' = Manager.uploadDir m.
Proof.
  revert m. induction before as [|j before IH]; intros m Hbefore Hi Hfinal; simpl.
  - exists m. split; [| done]. unfold partFile in Hi.
    rewrite (bind_run _ _ m None m); [done |]. unfold gets. by rewrite Hi.
  - destruct (Hbefore j) as [data Hj]; [set_solver |]. unfold partFile in Hj.
    rewrite (bind_run _ _ m (Some data) m) by (unfold gets; by rewrite Hj).
    set (m1 := Manager.set_finalDir
                 (<[name := default [] (Manager.finalDir m !! name) ++ data]>
                    (Manager.finalDir m)) m).
    rewrite (bind_run _ _ m tt m1) by reflexivity.
    destruct (IH m1) as (m' & Hrun & Hfinal' & Hdir).
    + intros j' Hj'. apply Hbefore. set_solver.
    + done.
    + simpl. rewrite lookup_insert_eq. eauto.
    + exists m'. by rewrite Hrun.
Qed.

(** C2, as the code has it.  When [i] is the first index in
    [0, totalChunks) whose part file is absent, [assembleFile] fails with
    [missing_chunk_<i>]; the scratch directory is kept, and the output
    file, which was opened before the loop, is left at the final path. *)
Theorem assembleFile_first_missing_chunk {R A} (upload : Upload.t R A)
    (m : Manager.t) (i : Z) :
  0 ≤ i < Upload.totalChunks upload →
  partFile m (Upload.id upload) i = None →
  (∀ j, 0 ≤ j < i → is_Some (partFile m (Upload.id upload) j)) →
  ∃ m' : Manager.t,
    assembleFile upload m = (Throw (missing_chunk i), m') ∧
    is_Some (Manager.finalDir m' !! finalName upload) ∧
    Manager.uploadDir m' = Manager.uploadDir m.
Proof.
  intros Hi Hnone Hbefore. unfold assembleFile. fold (finalName upload).
  set (m0 := Manager.set_finalDir (<[finalName upload := []]> (Manager.finalDir m)) m).
  rewrite (bind_run _ _ m tt m0) by reflexivity.
  rewrite (seqZ_split _ i Hi).
  destruct (pipeParts_missing (Upload.id upload) (finalName upload) (seqZ 0 i)
                (seqZ (i + 1) (Upload.totalChunks upload - i - 1)) i m0)
      as (m' & Hrun & Hfinal & Hdir).
  - intros j Hj. apply elem_of_seqZ in Hj. apply (Hbefore j). lia.
  - done.
  - simpl. rewrite lookup_insert_eq. eauto.
  - exists m'. split; [| done]. by apply bind_run_Throw.
Qed.

(** A scratch directory holding part 0 of three. *)
Definition partZeroOnly : Manager.t :=
  Manager.set_uploadDir
    {[ sampleFileId 0 := {[ 0 := [Byte.x41; Byte.x42] ]} ]} Manager.init.

Definition threeChunkUpload : UploadJ :=
  Upload.mk (sampleFileId 0) aliceKey "notes.txt" 6 2 3 true active {[ 0 ]} (Some 1)
    (sampleDate 0) (sampleDate 1) None None.

Lemma assembleFile_first_missing_chunk_witness :
  ∃ m' : Manager.t,
    assembleFile threeChunkUpload partZeroOnly = (Throw (missing_chunk 1), m') ∧
    is_Some (Manager.finalDir m' !! finalName threeChunkUpload) ∧
    Manager.uploadDir m' = Manager.uploadDir partZeroOnly.
Proof.
  apply (assembleFile_first_missing_chunk threeChunkUpload partZeroOnly 1).
  - simpl. lia.
  - vm_compute. reflexivity.
  - intros j Hj. assert (j = 0) as -> by lia. vm_compute. eauto.
Defined.

(** C2 as stated fails.  Part 2 of the upload is absent, yet
    [assembleFile] does not fail with [missing_chunk_2] but with
    [missing_chunk_1]; and there was no file at the final path before,
    and there is one afterwards. *)
Lemma assembleFile_leaves_output_file :
  partFile partZeroOnly (Upload.id threeChunkUpload) 2 = None ∧
  (assembleFile threeChunkUpload partZeroOnly).1 = Throw (missing_chunk 1) ∧
  Manager.finalDir partZeroOnly !! finalName threeChunkUpload = None ∧
  is_Some (Manager.finalDir (assembleFile threeChunkUpload partZeroOnly).2
             !! finalName threeChunkUpload).
Proof. vm_compute. split_and!; [reflexivity.. | eauto]. Qed.

(** ** Sample runs, for the closed examples *)

(** The fresh program after one user has identified with [aliceKey]. *)
Definition identified : World :=
  (identifyUser sampleDate sampleUserId 8 (Some aliceKey) initialWorld).2.

(** ... and after that user has created a two-chunk upload. *)
Definition withUpload (persist : bool) : World :=
  (createUpload sampleDate sampleFileId aliceKey "report.pdf" 10 6 persist identified).2.

(** The metadata of that upload. *)
Definition reportUpload (persist : bool) : UploadJ :=
  Upload.mk (sampleFileId 0) aliceKey "report.pdf" 10 6 2 persist active ∅ (Some 0)
    (sampleDate 1) (sampleDate 1) None None.

(** Two clients identify with the same new key, and the calls overlap:
    the one whose second job runs first is given the key, the other one a
    generated key. *)
Lemma identifyUser_registers_requested_key_witness :
  (∃ w' : World,
     identifyUser sampleDate sampleUserId 8 (Some aliceKey) initialWorld
     = (Ok (Identity.mk aliceKey true), w') ∧
     users (DataStore._read w'.1)
     = <[aliceKey := UserRecord.mk aliceKey (sampleDate 0) ∅ []]>
         (users (DataStore._read initialWorld.1)) ∧
     Manager.userIdDraws w'.2 = Manager.userIdDraws initialWorld.2) ∧
  ∃ w' : World,
    identifyUser_interleaved sampleDate sampleUserId 8 (Some aliceKey)
      (identifyUser sampleDate sampleUserId 8 (Some aliceKey);; ret tt) initialWorld
    = (Ok (Identity.mk (sampleUserId 0) true), w') ∧
    sampleUserId 0 ≠ aliceKey ∧
    users (DataStore._read w'.1)
    = <[sampleUserId 0 := UserRecord.mk (sampleUserId 0) (sampleDate 1) ∅ []]>
        (users (DataStore._read identified.1)) ∧
    Manager.userIdDraws w'.2 = 1%nat.
Proof.
  destruct (identifyUser_registers_requested_key sampleDate sampleUserId 8 aliceKey
              initialWorld) as [Halone Hbetween].
  - discriminate.
  - reflexivity.
  - vm_compute. reflexivity.
  - split; [exact Halone |].
    destruct (Hbetween (identifyUser sampleDate sampleUserId 8 (Some aliceKey);; ret tt)
                identified) as (_ & _ & Htaken).
    + vm_compute. reflexivity.
    + apply (Htaken eq_refl eq_refl 0%nat).
      * lia.
      * intros j Hj. lia.
      * vm_compute. reflexivity.
Defined.


(** The state after a call for an upload that does not exist has failed
    in the store, with the persistent upload above in the state file. *)
Definition rejectedWithUpload : World :=
  (recordChunk sampleDate aliceKey (sampleFileId 1) 0 (withUpload true)).2.

Lemma recordChunk_idempotent_witness :
  ∃ (r2 : Recorded.t) (w2 : World) (u1 u2 d1 d2 : UploadJ),
    recordChunk sampleDate aliceKey (sampleFileId 0) 1
      (recordChunk sampleDate aliceKey (sampleFileId 0) 1 (withUpload false)).2 = (Ok r2, w2) ∧
    storedUpload (recordChunk sampleDate aliceKey (sampleFileId 0) 1 (withUpload false)).2
      aliceKey (sampleFileId 0) = Some u1 ∧
    storedUpload w2 aliceKey (sampleFileId 0) = Some u2 ∧
    1 ∈ Upload.receivedChunks u1 ∧
    Upload.receivedChunks u2 = Upload.receivedChunks u1 ∧
    Upload.receivedCount u2 = Upload.receivedCount u1 ∧
    load (Manager.heap
            (recordChunk sampleDate aliceKey (sampleFileId 0) 1 (withUpload false)).2.2) 6%nat
      = Some d1 ∧
    load (Manager.heap w2.2) (Recorded.upload r2) = Some d2 ∧
    Upload.receivedCount d2 = Upload.receivedCount d1 ∧
    Upload.missingChunks d2 = Upload.missingChunks d1 ∧
    Recorded.completed r2 = false.
Proof.
  apply (recordChunk_idempotent sampleDate (withUpload false)
           (recordChunk sampleDate aliceKey (sampleFileId 0) 1 (withUpload false)).2
           aliceKey (sampleFileId 0) 1 (Recorded.mk 6 false)).
  vm_compute. reflexivity.
Defined.

Lemma history_newest_first_capped_witness :
  (∃ (u : UploadJ) (t : Timestamp),
     storedUpload (withUpload true) aliceKey (sampleFileId 0) = Some u ∧
     historyOf (finalizeUpload sampleDate aliceKey (sampleFileId 0) (withUpload true)).2 aliceKey
       = take 200 (entryOf u t :: historyOf (withUpload true) aliceKey) ∧
     historyOf (finalizeUpload sampleDate aliceKey (sampleFileId 0) (withUpload true)).2 aliceKey
       !! 0%nat = Some (entryOf u t) ∧
     (length (historyOf (finalizeUpload sampleDate aliceKey (sampleFileId 0)
                           (withUpload true)).2 aliceKey) ≤ 200)%nat) ∧
  (∀ k, historyOf (removeUpload sampleDate aliceKey (sampleFileId 0) true (withUpload false)).2 k
        = historyOf (withUpload false) k).
Proof.
  split.
  - apply (proj1 (history_newest_first_capped sampleDate (withUpload true)
                    (finalizeUpload sampleDate aliceKey (sampleFileId 0) (withUpload true)).2
                    aliceKey (sampleFileId 0) 6%nat)).
    left. vm_compute. reflexivity.
  - apply (proj2 (history_newest_first_capped sampleDate (withUpload false)
                    (removeUpload sampleDate aliceKey (sampleFileId 0) true (withUpload false)).2
                    aliceKey (sampleFileId 0) 6%nat)).
    vm_compute. reflexivity.
Defined.

(** ** Weakest preconditions

    [wp c Q X s]: run from [s], [c] either returns a value and a state
    that satisfy [Q], or throws in a state that satisfies [X], or leaves
    the embedding. *)
Definition wp {S A} (c : ST S A) (Q : A → S → Prop) (X : S → Prop) (s : S) : Prop :=
  match c s with
  | (Ok a, s') => Q a s'
  | (Throw _, s') => X s'
  | (Stuck, _) => True
  end.

Section wp_rules.
Context {S : Type}.
Implicit Types (s : S) (X : S → Prop).

Lemma wp_ret {A} (a : A) (Q : A → S → Prop) X s : Q a s → wp (ret a) Q X s.
Proof. done. Qed.

Lemma wp_throw {A} e (Q : A → S → Prop) X s : X s → wp (throw e) Q X s.
Proof. done. Qed.

Lemma wp_stuck {A} (Q : A → S → Prop) X s : wp stuck Q X s.
Proof. done. Qed.

Lemma wp_gets {A} (f : S → A) (Q : A → S → Prop) X s : Q (f s) s → wp (gets f) Q X s.
Proof. done. Qed.

Lemma wp_modify (f : S → S) (Q : unit → S → Prop) X s : Q tt (f s) → wp (modify f) Q X s.
Proof. done. Qed.

Lemma wp_bind {A B} (c : ST S A) (k : A → ST S B) (Q : B → S → Prop) X s :
  wp c (λ a s', wp (k a) Q X s') X s → wp (c ≫= k) Q X s.
Proof. unfold wp. rewrite bind_eq. by destruct (c s) as [[a|e|] s']. Qed.

Lemma wp_mono {A} (c : ST S A) (Q Q' : A → S → Prop) X X' s :
  wp c Q X s → (∀ a s', Q a s' → Q' a s') → (∀ s', X s' → X' s') → wp c Q' X' s.
Proof. unfold wp. destruct (c s) as [[a|e|] s']; eauto. Qed.

Lemma wp_Ok {A} (c : ST S A) (Q : A → S → Prop) X s a s' :
  wp c Q X s → c s = (Ok a, s') → Q a s'.
Proof. unfold wp. intros H Heq. by rewrite Heq in H. Qed.

Lemma wp_Throw {A} (c : ST S A) (Q : A → S → Prop) X s e s' :
  wp c Q X s → c s = (Throw e, s') → X s'.
Proof. unfold wp. intros H Heq. by rewrite Heq in H. Qed.

Lemma wp_run {A} (c : ST S A) (Q : A → S → Prop) X s a s' :
  c s = (Ok a, s') → Q a s' → wp c Q X s.
Proof. unfold wp. by intros ->. Qed.

End wp_rules.

Lemma wp_lift {D E A} (c : ST E A) (Q : A → D * E → Prop) (X : D * E → Prop) d e :
  wp c (λ a e', Q a (d, e')) (λ e', X (d, e')) e → wp (lift c) Q X (d, e).
Proof. unfold wp. rewrite lift_eq. by destruct (c e) as [[a|err|] e']. Qed.

Lemma wp_withState {E A} (mutator : ST (Doc * E) A) (Q : A → DataStore.t * E → Prop)
    (X : DataStore.t * E → Prop) s env :
  (∀ e, DataStore._lock s = Some e → X (s, env)) →
  (DataStore._lock s = None →
   wp mutator (λ r '(state, env'), Q r (DataStore._write state s, env'))
     (λ '(_, env'), ∀ e, X (DataStore.mk (DataStore.file s) (Some e), env'))
     (DataStore._read s, env)) →
  wp (DataStore.withState mutator) Q X (s, env).
Proof.
  unfold wp, DataStore.withState. intros Hrej Hrun.
  destruct (DataStore._lock s) as [e|]; [by eapply Hrej |].
  specialize (Hrun eq_refl).
  by destruct (mutator _) as [[a|e|] [state env']].
Qed.

Lemma wp_readState {E A} (selector : ST (Doc * E) A) (Q : A → DataStore.t * E → Prop)
    (X : DataStore.t * E → Prop) s env :
  (∀ e, DataStore._lock s = Some e → X (s, env)) →
  (DataStore._lock s = None →
   wp selector (λ r '(_, env'), Q r (s, env'))
     (λ '(_, env'), ∀ e, X (DataStore.mk (DataStore.file s) (Some e), env'))
     (DataStore._read s, env)) →
  wp (DataStore.readState selector) Q X (s, env).
Proof.
  unfold wp, DataStore.readState. intros Hrej Hrun.
  destruct (DataStore._lock s) as [e|]; [by eapply Hrej |].
  specialize (Hrun eq_refl).
  by destruct (selector _) as [[a|e|] [state env']].
Qed.

(** ** Code that keeps a relation on the manager's memory *)

(** The manager's memory within a state. *)
Class HasManager (S : Type) := mgr : S → Manager.t.
#[global] Instance manager_self : HasManager Manager.t := λ m, m.
#[global] Instance manager_snd {D} : HasManager (D * Manager.t) := snd.

(** [Keeps R c]: whatever the outcome, [c] leaves the manager's memory
    related by [R] to what it was. *)
Definition Keeps (R : relation Manager.t) {S A} `{HasManager S} (c : ST S A) : Prop :=
  ∀ s, R (mgr s) (mgr (c s).2).

Section keeps_rules.
Context (R : relation Manager.t) `{!PreOrder R}.

Lemma Keeps_ret {S A} `{HasManager S} (a : A) : Keeps R (ret a : ST S A).
Proof. intros s. simpl. reflexivity. Qed.

Lemma Keeps_throw {S A} `{HasManager S} e : Keeps R (throw e : ST S A).
Proof. intros s. simpl. reflexivity. Qed.

Lemma Keeps_stuck {S A} `{HasManager S} : Keeps R (stuck : ST S A).
Proof. intros s. simpl. reflexivity. Qed.

Lemma Keeps_gets {S A} `{HasManager S} (f : S → A) : Keeps R (gets f).
Proof. intros s. simpl. reflexivity. Qed.

Lemma Keeps_bind {S A B} `{HasManager S} (c : ST S A) (k : A → ST S B) :
  Keeps R c → (∀ a, Keeps R (k a)) → Keeps R (c ≫= k).
Proof.
  intros Hc Hk s. rewrite bind_eq. specialize (Hc s).
  destruct (c s) as [[a|e|] s']; simpl in *; [| done..].
  etransitivity; [exact Hc | apply Hk].
Qed.

Lemma Keeps_lift {D A} (c : ST Manager.t A) : Keeps R c → Keeps R (lift c : ST (D * _) A).
Proof. intros Hc [d m]. rewrite lift_eq. apply Hc. Qed.

(** Code that only touches the first component of a paired state. *)
Lemma Keeps_modify_fst {D} (f : D → D) :
  Keeps R (modify (λ '(d, m), (f d, m)) : ST (D * Manager.t) unit).
Proof. intros [d m]. simpl. reflexivity. Qed.

Lemma Keeps_modify (f : Manager.t → Manager.t) :
  (∀ m, R m (f m)) → Keeps R (modify f).
Proof. intros Hf m. apply Hf. Qed.

Lemma Keeps_withState {A} (mutator : ST (Doc * Manager.t) A) :
  Keeps R mutator → Keeps R (DataStore.withState mutator).
Proof.
  intros Hm [s m]. unfold DataStore.withState.
  destruct (DataStore._lock s); [simpl; reflexivity |].
  specialize (Hm (DataStore._read s, m)).
  by destruct (mutator _) as [[a|e|] [state m']].
Qed.

Lemma Keeps_readState {A} (selector : ST (Doc * Manager.t) A) :
  Keeps R selector → Keeps R (DataStore.readState selector).
Proof.
  intros Hm [s m]. unfold DataStore.readState.
  destruct (DataStore._lock s); [simpl; reflexivity |].
  specialize (Hm (DataStore._read s, m)).
  by destruct (selector _) as [[a|e|] [state m']].
Qed.

Lemma Keeps_forEach {S A B} `{HasManager S} (f : A → ST S B) (l : list A) :
  (∀ x, Keeps R (f x)) → Keeps R (forEach f l).
Proof.
  intros Hf. induction l as [|x l IH]; simpl.
  - apply Keeps_ret.
  - apply Keeps_bind; [apply Hf |]. intros y.
    apply Keeps_bind; [apply IH |]. intros ys. apply Keeps_ret.
Qed.

Lemma Keeps_prop {S V} `{HasManager S} (obj : gmap string V) k : Keeps R (prop obj k : ST S _).
Proof.
  unfold prop. destruct (obj !! k); [apply Keeps_ret |].
  destruct (inherited k); [apply Keeps_stuck | apply Keeps_ret].
Qed.

Lemma Keeps_assign {S V} `{HasManager S} (obj : gmap string V) k v :
  Keeps R (assign obj k v : ST S _).
Proof. unfold assign. case_bool_decide; [apply Keeps_stuck | apply Keeps_ret]. Qed.

(** Running code that keeps [R]: nothing is known of its result but that
    the memory is related to the memory before. *)
Lemma wp_keeps {S A} `{HasManager S} (c : ST S A) (Q : A → S → Prop) (X : S → Prop) s :
  Keeps R c →
  (∀ a s', R (mgr s) (mgr s') → Q a s') →
  (∀ s', R (mgr s) (mgr s') → X s') →
  wp c Q X s.
Proof.
  intros Hc HQ HX. unfold wp. specialize (Hc s).
  destruct (c s) as [[a|e|] s']; simpl in *; eauto.
Qed.

End keeps_rules.

(** ** The shape of the heap

    What kind of object each cell holds and which cells it refers to. *)
Inductive Shape : Type :=
| ShUpload (received : loc) (missing : option loc)
| ShChunks
| ShArray.

Definition shape (c : Cell) : Shape :=
  match c with
  | ObjUpload o => ShUpload (Upload.receivedChunks o) (Upload.missingChunks o)
  | ObjChunks _ => ShChunks
  | ObjArray _ => ShArray
  end.

(** The cells of the object tree rooted at [l]: the upload object, its
    [receivedChunks] object and its [missingChunks] array. *)
Definition footprint (h : list Cell) (l : loc) : list loc :=
  match shape <$> h !! l with
  | Some (ShUpload lr lm) => l :: lr :: option_list lm
  | _ => [l]
  end.

(** [l] is an upload object whose nested objects are in place. *)
Definition loadable (sh : list Shape) (l : loc) : Prop :=
  ∃ lr lm, sh !! l = Some (ShUpload lr lm) ∧ sh !! lr = Some ShChunks ∧
           ∀ la, lm = Some la → sh !! la = Some ShArray.

Lemma load_loadable h l : is_Some (load h l) ↔ loadable (shape <$> h) l.
Proof.
  unfold load, loadable. setoid_rewrite list_lookup_fmap. split.
  - intros [u Hu].
    destruct (h !! l) as [[o| |]|]; try discriminate.
    destruct (h !! Upload.receivedChunks o) as [[|received|]|] eqn:Hr; try discriminate.
    exists (Upload.receivedChunks o), (Upload.missingChunks o). rewrite Hr.
    split_and!; [done.. |]. intros la Hla. rewrite Hla in Hu.
    by destruct (h !! la) as [[| |items]|].
  - intros (lr & lm & Hl & Hr & Ha).
    destruct (h !! l) as [[o| |]|]; try discriminate. simpl in Hl. injection Hl as <- <-.
    destruct (h !! Upload.receivedChunks o) as [[|received|]|]; try discriminate.
    destruct (Upload.missingChunks o) as [la|]; [| eauto].
    specialize (Ha la eq_refl). destruct (h !! la) as [[| |items]|]; try discriminate. eauto.
Qed.

Lemma loadable_prefix sh sh' l : loadable sh l → sh `prefix_of` sh' → loadable sh' l.
Proof.
  intros (lr & lm & Hl & Hr & Ha) Hpre. exists lr, lm.
  split_and!; [by eapply prefix_lookup_Some.. |].
  intros la Hla. eapply prefix_lookup_Some; eauto.
Qed.

Lemma footprint_prefix h h' l :
  is_Some (h !! l) → (shape <$> h) `prefix_of` (shape <$> h') →
  footprint h' l = footprint h l.
Proof.
  intros [c Hc] Hpre. unfold footprint.
  assert ((shape <$> h) !! l = Some (shape c)) as Hs by (by rewrite list_lookup_fmap, Hc).
  rewrite <- !list_lookup_fmap. by rewrite (prefix_lookup_Some _ _ _ _ Hs Hpre), Hs.
Qed.

Lemma footprint_loadable h l x :
  loadable (shape <$> h) l → x ∈ footprint h l → (x < length h)%nat.
Proof.
  intros (lr & lm & Hl & Hr & Ha). unfold footprint.
  rewrite <- list_lookup_fmap, Hl. rewrite <- (length_fmap shape h).
  intros Hx. apply elem_of_cons in Hx as [-> | Hx]; [by eapply lookup_lt_Some |].
  apply elem_of_cons in Hx as [-> | Hx]; [by eapply lookup_lt_Some |].
  destruct lm as [la|]; simpl in Hx; [| by apply elem_of_nil in Hx].
  apply list_elem_of_singleton in Hx as ->. eapply lookup_lt_Some. by apply Ha.
Qed.

Lemma loadable_lookup sh l : loadable sh l → is_Some (sh !! l).
Proof. intros (lr & lm & Hl & _). eauto. Qed.

(** Writing a cell outside an object tree does not change what the tree
    holds. *)
Lemma load_insert_outside h l x c :
  x ∉ footprint h l → load (<[x := c]> h) l = load h l.
Proof.
  unfold footprint, load. intros Hx.
  destruct (decide (x = l)) as [-> | Hxl].
  { destruct (h !! l) as [[o| |]|]; simpl in Hx; set_solver. }
  rewrite (list_lookup_insert_ne h x l c Hxl).
  destruct (h !! l) as [[o| |]|]; [| done..]. simpl in Hx.
  rewrite list_lookup_insert_ne by set_solver.
  destruct (h !! Upload.receivedChunks o) as [[|received|]|]; [done | | done..].
  destruct (Upload.missingChunks o) as [la|]; [| done]. simpl in Hx.
  rewrite list_lookup_insert_ne by set_solver. done.
Qed.

(** ** Relations between memories *)

(** Objects were only created: the bucket is the same and every earlier
    cell holds what it held. *)
Definition extends (m m' : Manager.t) : Prop :=
  Manager.ephemeral m' = Manager.ephemeral m ∧
  Manager.heap m `prefix_of` Manager.heap m'.

(** Objects were created or assigned to in place: the bucket is the same
    and every earlier cell has the shape it had. *)
Definition grows (m m' : Manager.t) : Prop :=
  Manager.ephemeral m' = Manager.ephemeral m ∧
  (shape <$> Manager.heap m) `prefix_of` (shape <$> Manager.heap m').

#[global] Instance extends_preorder : PreOrder extends.
Proof.
  split.
  - by intros m.
  - intros m1 m2 m3 [He1 Hh1] [He2 Hh2]. split; [congruence | by etransitivity].
Qed.

#[global] Instance grows_preorder : PreOrder grows.
Proof.
  split.
  - by intros m.
  - intros m1 m2 m3 [He1 Hh1] [He2 Hh2]. split; [congruence | by etransitivity].
Qed.

Lemma extends_grows m m' : extends m m' → grows m m'.
Proof.
  intros [He [cells Hh]]. split; [done |]. rewrite Hh, fmap_app. by apply prefix_app_r.
Qed.

Lemma Keeps_extends_grows {S A} `{HasManager S} (c : ST S A) :
  Keeps extends c → Keeps grows c.
Proof. intros Hc s. apply extends_grows, Hc. Qed.

(** ** The bucket's objects *)

(** Every upload of the ephemeral bucket is an upload object whose nested
    objects are in place. *)
Definition wf (m : Manager.t) : Prop :=
  ∀ k b id l, Manager.ephemeral m !! k = Some b → b !! id = Some l →
              is_Some (load (Manager.heap m) l).

(** The cell [x] belongs to an upload of the ephemeral bucket. *)
Definition owned (m : Manager.t) (x : loc) : Prop :=
  ∃ k b id l, Manager.ephemeral m !! k = Some b ∧ b !! id = Some l ∧
              x ∈ footprint (Manager.heap m) l.

(** The object tree at [r] lies above every cell of the bucket. *)
Definition aboveBucket (m : Manager.t) (r : loc) : Prop :=
  is_Some (load (Manager.heap m) r) ∧
  ∃ n : nat, (∀ x, owned m x → (x < n)%nat) ∧
             (∀ x, x ∈ footprint (Manager.heap m) r → (n ≤ x)%nat).

Lemma wf_grows m m' : wf m → grows m m' → wf m'.
Proof.
  intros Hwf [He Hh] k b id l Hk Hid. rewrite He in Hk.
  apply load_loadable. eapply loadable_prefix; [| exact Hh].
  apply load_loadable. by eapply Hwf.
Qed.

Lemma owned_grows m m' x : wf m → grows m m' → owned m' x → owned m x.
Proof.
  intros Hwf [He Hh] (k & b & id & l & Hk & Hid & Hx). rewrite He in Hk.
  exists k, b, id, l. split_and!; [done.. |].
  rewrite (footprint_prefix (Manager.heap m)) in Hx; [done | | done].
  destruct (Hwf k b id l Hk Hid) as [u Hu]. unfold load in Hu.
  destruct (Manager.heap m !! l); [eauto | done].
Qed.

Lemma owned_below m x : wf m → owned m x → (x < length (Manager.heap m))%nat.
Proof.
  intros Hwf (k & b & id & l & Hk & Hid & Hx).
  eapply footprint_loadable; [| exact Hx]. apply load_loadable. by eapply Hwf.
Qed.

Lemma aboveBucket_grows m m' r : wf m → aboveBucket m r → grows m m' → aboveBucket m' r.
Proof.
  intros Hwf [Hload (n & Hbelow & Habove)] Hg. split.
  - apply load_loadable. eapply loadable_prefix; [by apply load_loadable | apply Hg].
  - exists n. split.
    + intros x Hx. apply Hbelow. by eapply owned_grows.
    + intros x Hx. apply Habove.
      rewrite (footprint_prefix (Manager.heap m)) in Hx; [done | | apply Hg].
      apply load_loadable, loadable_lookup in Hload.
      rewrite list_lookup_fmap in Hload. destruct (Manager.heap m !! r); [eauto |].
      by destruct Hload.
Qed.

(** The clone [_decorateUpload] creates lies above the bucket. *)
Lemma decorate_aboveBucket m u :
  wf m →
  aboveBucket
    (Manager.set_heap (Manager.heap m ++ decorate_cells (length (Manager.heap m)) u) m)
    (parse_loc (length (Manager.heap m)) u).
Proof.
  intros Hwf.
  set (m' := Manager.set_heap _ m).
  assert (grows m m') as Hg.
  { apply extends_grows. split; [done |]. simpl. by apply prefix_app_r. }
  split; [simpl; rewrite load_decorate; eauto |].
  exists (length (Manager.heap m)). split.
  - intros x Hx. apply owned_below; [done |]. by eapply owned_grows.
  - intros x. unfold footprint. simpl.
    destruct (decorate_footprint (Manager.heap m) u) as (o & la & Hl & Hla & H1 & H2 & H3).
    rewrite Hl. simpl. rewrite Hla. simpl. set_unfold. lia.
Qed.

(** A write to a cell of a tree above the bucket changes no upload of the
    bucket. *)
Lemma aboveBucket_frame m r x c k b id l :
  wf m → aboveBucket m r → x ∈ footprint (Manager.heap m) r →
  Manager.ephemeral m !! k = Some b → b !! id = Some l →
  load (<[x := c]> (Manager.heap m)) l = load (Manager.heap m) l.
Proof.
  intros Hwf [_ (n & Hbelow & Habove)] Hx Hk Hid.
  apply load_insert_outside. intros Hin.
  assert (x < n)%nat by (apply Hbelow; by exists k, b, id, l).
  specialize (Habove x Hx). lia.
Qed.

(** ** What the manager's code keeps *)

Create HintDb keeps discriminated.

Lemma extends_same m m' :
  Manager.ephemeral m' = Manager.ephemeral m → Manager.heap m' = Manager.heap m →
  extends m m'.
Proof. intros He Hh. split; [done |]. by rewrite Hh. Qed.

Lemma Keeps_getState {R : relation Manager.t} `{!PreOrder R} :
  Keeps R (getState : ST (Doc * Manager.t) Doc).
Proof. apply Keeps_gets; apply _. Qed.

Lemma Keeps_putState {R : relation Manager.t} `{!PreOrder R} state :
  Keeps R (putState state : ST (Doc * Manager.t) unit).
Proof. intros [d m]. simpl. reflexivity. Qed.

Lemma Keeps_setUser {R : relation Manager.t} `{!PreOrder R} userKey user :
  Keeps R (setUser userKey user : ST (Doc * Manager.t) unit).
Proof. intros [d m]. simpl. reflexivity. Qed.

Lemma Keeps_now dateAt : Keeps extends (_now dateAt).
Proof. intros m. by apply extends_same. Qed.

Lemma Keeps_createUserId userIdAt : Keeps extends (_createUserId userIdAt).
Proof. intros m. by apply extends_same. Qed.

Lemma Keeps_createFileId fileIdAt : Keeps extends (_createFileId fileIdAt).
Proof. intros m. by apply extends_same. Qed.

Lemma Keeps_parse u : Keeps extends (parse u).
Proof. intros m. rewrite parse_run. split; [done |]. simpl. by apply prefix_app_r. Qed.

Lemma Keeps_stringify l : Keeps extends (stringify l).
Proof. intros m. unfold stringify. destruct (load _ _); simpl; reflexivity. Qed.

Lemma Keeps_decorateUpload u : Keeps extends (_decorateUpload u).
Proof.
  intros m. rewrite _decorateUpload_run. split; [done |]. simpl. by apply prefix_app_r.
Qed.

Lemma Keeps_ensureScratchDir uploadId : Keeps extends (ensureScratchDir uploadId).
Proof.
  intros m. unfold ensureScratchDir. simpl.
  by destruct (Manager.uploadDir m !! uploadId); apply extends_same.
Qed.

Lemma Keeps_ephemeralUpload userKey uploadId : Keeps extends (ephemeralUpload userKey uploadId).
Proof. apply Keeps_gets; apply _. Qed.

(** Assignments in place keep the shape of the heap. *)
Lemma Keeps_assignFields l u : Keeps grows (assignFields l u).
Proof.
  intros m. unfold assignFields.
  destruct (Manager.heap m !! l) as [[o| |]|] eqn:Hl; try reflexivity.
  destruct (Manager.heap m !! Upload.receivedChunks o) as [[|received|]|] eqn:Hr;
    try reflexivity.
  split; [done |]. simpl. rewrite !list_fmap_insert. simpl.
  rewrite (list_insert_id (shape <$> Manager.heap m) (Upload.receivedChunks o))
    by (by rewrite list_lookup_fmap, Hr).
  rewrite list_insert_id; [done |]. by rewrite list_lookup_fmap, Hl.
Qed.

#[global] Hint Resolve Keeps_now Keeps_createUserId Keeps_createFileId Keeps_parse
  Keeps_stringify Keeps_decorateUpload Keeps_ensureScratchDir Keeps_ephemeralUpload
  Keeps_assignFields : keeps.

(** One step of a proof that a piece of code keeps a relation: the rule
    for the construct at its head, or a lemma of the database. *)
Ltac keeps_apply lem := first [apply lem; [apply _ | ..] | apply lem].

Ltac keeps_step :=
  first
    [ keeps_apply Keeps_ret
    | keeps_apply Keeps_throw
    | keeps_apply Keeps_stuck
    | apply Keeps_getState
    | apply Keeps_putState
    | apply Keeps_setUser
    | keeps_apply Keeps_prop
    | keeps_apply Keeps_assign
    | solve [eauto with keeps]
    | apply Keeps_extends_grows; solve [eauto with keeps]
    | keeps_apply Keeps_lift
    | keeps_apply Keeps_withState
    | keeps_apply Keeps_readState
    | keeps_apply Keeps_forEach; intros ?
    | keeps_apply Keeps_bind; [| intros ?]
    | keeps_apply Keeps_gets
    | match goal with
      | |- Keeps _ (match ?x with _ => _ end) => destruct x
      | |- Keeps _ (if ?x then _ else _) => destruct x
      end ].

Ltac solve_keeps := repeat keeps_step.

Section keeps_manager.
Context (dateAt : nat → Timestamp) (userIdAt fileIdAt : nat → string).

Lemma Keeps_decorateObject l : Keeps extends (decorateObject l).
Proof. unfold decorateObject. solve_keeps. Qed.

Lemma Keeps_statusOf l : Keeps extends (statusOf l).
Proof. unfold statusOf. solve_keeps. Qed.

Lemma Keeps_missingOf l : Keeps extends (missingOf l).
Proof. unfold missingOf. solve_keeps. Qed.

Lemma Keeps_markChunk u i : Keeps extends (_markChunk dateAt u i).
Proof. unfold _markChunk. solve_keeps. Qed.

Lemma Keeps_toHistoryEntry u : Keeps extends (_toHistoryEntry dateAt u).
Proof. unfold _toHistoryEntry. solve_keeps. Qed.

Lemma Keeps_drawUserId fuel usersObj : Keeps extends (drawUserId userIdAt fuel usersObj).
Proof. induction fuel as [|fuel IH]; simpl; solve_keeps. Qed.

Lemma Keeps_pipeParts uploadId name indices : Keeps extends (pipeParts uploadId name indices).
Proof.
  induction indices as [|i indices IH]; simpl; solve_keeps.
  apply Keeps_modify. intros m. by apply extends_same.
Qed.

Lemma Keeps_assembleFile {R A} (upload : Upload.t R A) : Keeps extends (assembleFile upload).
Proof.
  unfold assembleFile. solve_keeps.
  - apply Keeps_modify. intros m. by apply extends_same.
  - apply Keeps_pipeParts.
  - apply Keeps_modify. intros m. by apply extends_same.
Qed.

Lemma Keeps_mutateObject l (f : UploadJ → ST Manager.t UploadJ) :
  (∀ u, Keeps grows (f u)) → Keeps grows (mutateObject l f).
Proof. intros Hf. unfold mutateObject. solve_keeps. Qed.

Lemma Keeps_ensureUserRecord userKey : Keeps extends (_ensureUserRecord dateAt userKey).
Proof. unfold _ensureUserRecord. solve_keeps. Qed.

Lemma Keeps_findUpload userKey uploadId : Keeps extends (findUpload userKey uploadId).
Proof. unfold findUpload. solve_keeps. Qed.

Lemma Keeps_historyMutator userKey l : Keeps extends (historyMutator dateAt userKey l).
Proof. unfold historyMutator. solve_keeps. Qed.

Lemma Keeps_identifyUser_mutator fuel requestedKey :
  Keeps extends (identifyUser_mutator dateAt userIdAt fuel requestedKey).
Proof. unfold identifyUser_mutator. solve_keeps; apply Keeps_drawUserId. Qed.

End keeps_manager.

#[global] Hint Resolve Keeps_decorateObject Keeps_statusOf Keeps_missingOf Keeps_markChunk
  Keeps_toHistoryEntry Keeps_drawUserId Keeps_pipeParts Keeps_assembleFile
  Keeps_ensureUserRecord Keeps_findUpload Keeps_historyMutator
  Keeps_identifyUser_mutator : keeps.

(** ** Weakest preconditions on the manager's memory

    [mwp c Q X s] is [wp] for conditions that only speak of the manager's
    memory within the state. *)
Definition mwp {S A} `{HasManager S} (c : ST S A) (Q : A → Manager.t → Prop)
    (X : Manager.t → Prop) (s : S) : Prop :=
  wp c (λ a s', Q a (mgr s')) (λ s', X (mgr s')) s.

Section mwp_rules.
Context {S : Type} `{HasManager S}.
Implicit Types (s : S) (X : Manager.t → Prop).

Lemma mwp_ret {A} (a : A) (Q : A → Manager.t → Prop) X s :
  Q a (mgr s) → mwp (ret a) Q X s.
Proof. done. Qed.

Lemma mwp_throw {A} e (Q : A → Manager.t → Prop) X s : X (mgr s) → mwp (throw e) Q X s.
Proof. done. Qed.

Lemma mwp_stuck {A} (Q : A → Manager.t → Prop) X s : mwp stuck Q X s.
Proof. done. Qed.

Lemma mwp_bind {A B} (c : ST S A) (k : A → ST S B) (Q : B → Manager.t → Prop) X s :
  mwp c (λ a m', ∀ s', mgr s' = m' → mwp (k a) Q X s') X s → mwp (c ≫= k) Q X s.
Proof.
  unfold mwp. intros Hc. apply wp_bind. eapply wp_mono; [exact Hc | | done].
  intros a s' Hk. by apply Hk.
Qed.

Lemma mwp_fmap {A B} (f : A → B) (c : ST S A) (Q : B → Manager.t → Prop) X s :
  mwp c (λ a m', Q (f a) m') X s → mwp (f <$> c) Q X s.
Proof.
  intros Hc. apply (mwp_bind c (λ a, ret (f a))).
  eapply wp_mono; [exact Hc | | done]. intros a s' HQ s'' Heq.
  apply mwp_ret. by rewrite Heq.
Qed.

Lemma mwp_mono {A} (c : ST S A) (Q Q' : A → Manager.t → Prop) X X' s :
  mwp c Q X s → (∀ a m', Q a m' → Q' a m') → (∀ m', X m' → X' m') → mwp c Q' X' s.
Proof. intros Hc HQ HX. eapply wp_mono; [exact Hc | |]; eauto. Qed.

Lemma mwp_Ok {A} (c : ST S A) (Q : A → Manager.t → Prop) X s a s' :
  mwp c Q X s → c s = (Ok a, s') → Q a (mgr s').
Proof. intros Hc Heq. exact (wp_Ok _ _ _ _ _ _ Hc Heq). Qed.

Lemma mwp_Throw {A} (c : ST S A) (Q : A → Manager.t → Prop) X s e s' :
  mwp c Q X s → c s = (Throw e, s') → X (mgr s').
Proof. intros Hc Heq. exact (wp_Throw _ _ _ _ _ _ Hc Heq). Qed.

(** A step that keeps the heap's shape and the bucket. *)
Lemma mwp_grows {A} (c : ST S A) (Q : A → Manager.t → Prop) X s :
  Keeps grows c → wf (mgr s) →
  (∀ a m', wf m' → grows (mgr s) m' → Q a m') →
  (∀ m', wf m' → X m') →
  mwp c Q X s.
Proof.
  intros Hc Hwf HQ HX. apply (wp_keeps grows); [done | |].
  - intros a s' Hg. apply HQ; [by eapply wf_grows | done].
  - intros s' Hg. apply HX. by eapply wf_grows.
Qed.

End mwp_rules.

Lemma mwp_lift {D A} (c : ST Manager.t A) (Q : A → Manager.t → Prop) X (d : D) m :
  mwp c Q X m → mwp (lift c) Q X (d, m).
Proof. intros Hc. by apply wp_lift. Qed.

Lemma mwp_withState {A} (mutator : ST (Doc * Manager.t) A) (Q : A → Manager.t → Prop)
    (X : Manager.t → Prop) s m :
  X m → mwp mutator Q X (DataStore._read s, m) → mwp (DataStore.withState mutator) Q X (s, m).
Proof.
  intros HX Hm. apply wp_withState; [done |]. intros _.
  eapply wp_mono; [exact Hm | |].
  - by intros a [state m'].
  - by intros [state m'].
Qed.

Lemma mwp_readState {A} (selector : ST (Doc * Manager.t) A) (Q : A → Manager.t → Prop)
    (X : Manager.t → Prop) s m :
  X m → mwp selector Q X (DataStore._read s, m) → mwp (DataStore.readState selector) Q X (s, m).
Proof.
  intros HX Hm. apply wp_readState; [done |]. intros _.
  eapply wp_mono; [exact Hm | |].
  - by intros a [state m'].
  - by intros [state m'].
Qed.

Lemma mwp_modify (f : Manager.t → Manager.t) (Q : unit → Manager.t → Prop) X m :
  Q tt (f m) → mwp (modify f) Q X m.
Proof. done. Qed.

Lemma mwp_gets {A} (f : Manager.t → A) (Q : A → Manager.t → Prop) X m :
  Q (f m) m → mwp (gets f) Q X m.
Proof. done. Qed.

(** The clone made by [_decorateUpload] is above the bucket. *)
Lemma mwp_decorateUpload u (Q : loc → Manager.t → Prop) X m :
  wf m →
  (∀ r m', wf m' → grows m m' → aboveBucket m' r → Q r m') →
  mwp (_decorateUpload u) Q X m.
Proof.
  intros Hwf HQ. eapply wp_run; [apply _decorateUpload_run |].
  assert (grows m (Manager.set_heap
            (Manager.heap m ++ decorate_cells (length (Manager.heap m)) u) m)) as Hg.
  { apply extends_grows. split; [done |]. simpl. by apply prefix_app_r. }
  apply HQ; [by eapply wf_grows | done | by apply decorate_aboveBucket].
Qed.

Lemma mwp_decorateObject l (Q : loc → Manager.t → Prop) X m :
  wf m →
  (∀ r m', wf m' → grows m m' → aboveBucket m' r → Q r m') →
  mwp (decorateObject l) Q X m.
Proof.
  intros Hwf HQ. unfold decorateObject. apply mwp_bind.
  unfold mwp, wp, stringify. destruct (load (Manager.heap m) l) as [u|]; [| done].
  intros s' Heq. unfold mgr, manager_self in Heq. subst s'. by apply mwp_decorateUpload.
Qed.

(** ** Returned uploads are clones *)

(** The bucket is well formed and the upload objects [ls] lie above it. *)
Definition isolated (ls : list loc) (m : Manager.t) : Prop :=
  wf m ∧ ∀ r, r ∈ ls → aboveBucket m r.

(** Introducing the state a continuation starts in, given its memory. *)
Ltac mgr_intro :=
  let s' := fresh "s" in let Heq := fresh "Heq" in
  intros s' Heq;
  lazymatch type of s' with
  | Manager.t => unfold mgr, manager_self in Heq; subst s'
  | _ => destruct s' as [? ?]; unfold mgr, manager_snd in Heq; simpl in Heq; subst
  end.

(** A step of which only what it keeps matters. *)
Ltac mwp_pass :=
  apply mwp_bind; apply mwp_grows;
  [ solve_keeps | simpl; assumption | | intros; simpl; assumption ];
  let a := fresh "a" in let m' := fresh "m" in let Hwf := fresh "Hwf" in
  let Hg := fresh "Hg" in let s' := fresh "s" in let Heq := fresh "Heq" in
  intros a m' Hwf Hg; unfold mgr, manager_snd, manager_self in Hg; simpl in Hg; mgr_intro.

Lemma isolated_one r m : wf m → aboveBucket m r → isolated [r] m.
Proof. intros Hwf Hr. split; [done |]. intros r' Hr'. by apply list_elem_of_singleton in Hr' as ->. Qed.

Lemma isolated_nil m : wf m → isolated [] m.
Proof. intros Hwf. split; [done |]. intros r Hr. by apply elem_of_nil in Hr. Qed.

Lemma wf_setEphemeralUpload m userKey uploadId l :
  wf m → is_Some (load (Manager.heap m) l) →
  wf (Manager.set_ephemeral
        (<[userKey := <[uploadId := l]> (default ∅ (Manager.ephemeral m !! userKey))]>
           (Manager.ephemeral m)) m).
Proof.
  intros Hwf Hl k b id l' Hk Hid. simpl in *.
  destruct (decide (userKey = k)) as [-> | Hne].
  - rewrite lookup_insert_eq in Hk. injection Hk as <-.
    destruct (decide (uploadId = id)) as [-> | Hne'].
    + rewrite lookup_insert_eq in Hid. by injection Hid as <-.
    + rewrite lookup_insert_ne in Hid by done.
      destruct (Manager.ephemeral m !! k) as [b|] eqn:Hb; simpl in Hid; [by eapply Hwf | done].
  - rewrite lookup_insert_ne in Hk by done. by eapply Hwf.
Qed.

Lemma wf_deleteEphemeralUpload m userKey uploadId :
  wf m →
  wf (Manager.set_ephemeral
        (<[userKey := delete uploadId (default ∅ (Manager.ephemeral m !! userKey))]>
           (Manager.ephemeral m)) m).
Proof.
  intros Hwf k b id l' Hk Hid. simpl in *.
  destruct (decide (userKey = k)) as [-> | Hne].
  - rewrite lookup_insert_eq in Hk. injection Hk as <-.
    apply lookup_delete_Some in Hid as [_ Hid].
    destruct (Manager.ephemeral m !! k) as [b|] eqn:Hb; simpl in Hid; [by eapply Hwf | done].
  - rewrite lookup_insert_ne in Hk by done. by eapply Hwf.
Qed.

Lemma wf_ensureEphemeralUser m userKey :
  wf m → wf ((_ensureEphemeralUser userKey m).2).
Proof.
  intros Hwf. unfold _ensureEphemeralUser. simpl.
  destruct (Manager.ephemeral m !! userKey) eqn:Hu; [done |].
  intros k b id l Hk Hid. simpl in *.
  destruct (decide (userKey = k)) as [-> | Hne].
  - rewrite lookup_insert_eq in Hk. injection Hk as <-. done.
  - rewrite lookup_insert_ne in Hk by done. by eapply Hwf.
Qed.

Lemma mwp_ensureEphemeralUser userKey (Q : unit → Manager.t → Prop) X m :
  wf m →
  (∀ m', wf m' → Manager.heap m' = Manager.heap m → Q tt m') →
  mwp (_ensureEphemeralUser userKey) Q X m.
Proof.
  intros Hwf HQ. apply mwp_modify. apply HQ.
  - apply (wf_ensureEphemeralUser m userKey Hwf).
  - by destruct (Manager.ephemeral m !! userKey).
Qed.

Lemma mwp_setEphemeralUpload userKey uploadId l (Q : unit → Manager.t → Prop) X m :
  wf m → is_Some (load (Manager.heap m) l) →
  (∀ m', wf m' → Manager.heap m' = Manager.heap m → Q tt m') →
  mwp (setEphemeralUpload userKey uploadId l) Q X m.
Proof.
  intros Hwf Hl HQ. apply mwp_modify. apply HQ; [| done]. by apply wf_setEphemeralUpload.
Qed.

Lemma mwp_deleteEphemeralUpload userKey uploadId (Q : unit → Manager.t → Prop) X m :
  wf m →
  (∀ m', wf m' → Manager.heap m' = Manager.heap m → Q tt m') →
  mwp (deleteEphemeralUpload userKey uploadId) Q X m.
Proof.
  intros Hwf HQ. apply mwp_modify. apply HQ; [| done]. by apply wf_deleteEphemeralUpload.
Qed.

Lemma load_grows m m' l :
  is_Some (load (Manager.heap m) l) → grows m m' → is_Some (load (Manager.heap m') l).
Proof.
  intros Hl [_ Hh]. apply load_loadable. eapply loadable_prefix; [| exact Hh].
  by apply load_loadable.
Qed.

(** [aboveBucket] after a step that grows the memory. *)
Ltac above_grows := eapply aboveBucket_grows; [| eassumption | eassumption]; assumption.

Section isolation.
Context (dateAt : nat → Timestamp) (userIdAt fileIdAt : nat → string).

Lemma getUpload_isolated userKey uploadId s m :
  wf m → mwp (getUpload userKey uploadId) (λ r, isolated (returnedUploads (Looked r))) wf (s, m).
Proof.
  intros Hwf. unfold getUpload.
  apply mwp_bind, mwp_lift, mwp_gets. mgr_intro.
  destruct (Manager.ephemeral m !! userKey ≫= _) as [l|].
  - apply mwp_bind, mwp_lift, mwp_decorateObject; [done |].
    intros r m' Hwf' Hg Habove. mgr_intro.
    apply mwp_ret. split; [done |]. simpl. intros r' Hr'.
    apply list_elem_of_singleton in Hr' as ->. done.
  - apply mwp_bind, mwp_readState; [done |].
    mwp_pass. mwp_pass. destruct a0 as [user|].
    + mwp_pass. destruct a0 as [upload|].
      * apply mwp_bind, mwp_lift, mwp_decorateUpload; [done |].
        intros r m' Hwf' Hg' Habove. mgr_intro.
        apply mwp_ret. mgr_intro. apply mwp_ret. by apply isolated_one.
      * apply mwp_ret. mgr_intro. apply mwp_ret. by apply isolated_nil.
    + apply mwp_ret. mgr_intro. apply mwp_ret. by apply isolated_nil.
Qed.

Lemma recordChunk_isolated userKey uploadId chunkIndex s m :
  wf m →
  mwp (recordChunk dateAt userKey uploadId chunkIndex)
    (λ r, isolated (returnedUploads (Marked r))) wf (s, m).
Proof.
  intros Hwf. unfold recordChunk.
  apply mwp_bind, mwp_lift, mwp_gets. mgr_intro.
  destruct (Manager.ephemeral m !! userKey ≫= _) as [l|].
  - mwp_pass.
    apply mwp_bind, mwp_lift, mwp_decorateObject; [done |].
    intros r m' Hwf' Hg' Habove. mgr_intro.
    mwp_pass. apply mwp_ret. apply isolated_one; [done |]. above_grows.
  - apply mwp_withState; [done |].
    mwp_pass. destruct a as [user upload]. mwp_pass. mwp_pass.
    apply mwp_bind, mwp_lift, mwp_decorateUpload; [done |].
    intros r m' Hwf' Hg' Habove. mgr_intro.
    mwp_pass. apply mwp_ret. apply isolated_one; [done |]. above_grows.
Qed.

Lemma updateStatus_isolated userKey uploadId status s m :
  wf m →
  mwp (updateStatus dateAt userKey uploadId status)
    (λ r, isolated (returnedUploads (Uploaded r))) wf (s, m).
Proof.
  intros Hwf. unfold updateStatus.
  apply mwp_bind, mwp_lift, mwp_gets. mgr_intro.
  destruct (Manager.ephemeral m !! userKey ≫= _) as [l|].
  - mwp_pass.
    apply mwp_lift, mwp_decorateObject; [done |].
    intros r m' Hwf' Hg' Habove. by apply isolated_one.
  - apply mwp_withState; [done |].
    mwp_pass. destruct a as [user upload]. mwp_pass. mwp_pass.
    apply mwp_lift, mwp_decorateUpload; [done |].
    intros r m' Hwf' Hg' Habove. by apply isolated_one.
Qed.

Lemma finalizeUpload_isolated userKey uploadId s m :
  wf m →
  mwp (finalizeUpload dateAt userKey uploadId)
    (λ r, isolated (returnedUploads (Uploaded r))) wf (s, m).
Proof.
  intros Hwf. unfold finalizeUpload.
  apply mwp_bind, mwp_lift, mwp_gets. mgr_intro.
  destruct (Manager.ephemeral m !! userKey ≫= _) as [l|].
  - mwp_pass.
    apply mwp_bind, mwp_lift, mwp_deleteEphemeralUpload; [done |].
    intros m2 Hwf2 _. mgr_intro.
    mwp_pass.
    apply mwp_lift, mwp_decorateObject; [done |].
    intros r m' Hwf' Hg' Habove. by apply isolated_one.
  - apply mwp_withState; [done |].
    mwp_pass. destruct a as [user upload]. mwp_pass.
    apply mwp_bind, mwp_lift, mwp_decorateUpload; [done |].
    intros r m' Hwf' Hg' Habove. mgr_intro.
    mwp_pass. mwp_pass. apply mwp_ret. apply isolated_one; [done |].
    do 2 (eapply aboveBucket_grows; [| | eassumption]; [assumption |]). assumption.
Qed.

Lemma removeUpload_isolated userKey uploadId forget s m :
  wf m →
  mwp (removeUpload dateAt userKey uploadId forget)
    (λ r, isolated (returnedUploads (Uploaded r))) wf (s, m).
Proof.
  intros Hwf. unfold removeUpload.
  apply mwp_bind, mwp_lift, mwp_gets. mgr_intro.
  destruct (Manager.ephemeral m !! userKey ≫= _) as [l|].
  - apply mwp_bind, mwp_lift, mwp_modify. mgr_intro.
    apply wf_deleteEphemeralUpload with (userKey := userKey) (uploadId := uploadId) in Hwf.
    mwp_pass.
    apply mwp_lift, mwp_decorateObject; [done |].
    intros r m' Hwf' Hg' Habove. by apply isolated_one.
  - apply mwp_withState; [done |].
    mwp_pass. destruct a as [user upload].
    apply mwp_bind, mwp_lift, mwp_decorateUpload; [done |].
    intros r m' Hwf' Hg' Habove. mgr_intro.
    mwp_pass. mwp_pass. apply mwp_ret. apply isolated_one; [done |].
    do 2 (eapply aboveBucket_grows; [| | eassumption]; [assumption |]). assumption.
Qed.

Lemma mwp_parse u (Q : loc → Manager.t → Prop) X m :
  wf m →
  (∀ l m', wf m' → grows m m' → is_Some (load (Manager.heap m') l) → Q l m') →
  mwp (parse u) Q X m.
Proof.
  intros Hwf HQ. eapply wp_run; [apply parse_run |].
  assert (grows m (Manager.set_heap
            (Manager.heap m ++ parse_cells (length (Manager.heap m)) u) m)) as Hg.
  { apply extends_grows. split; [done |]. simpl. by apply prefix_app_r. }
  apply HQ; [by eapply wf_grows | done |]. simpl. rewrite load_parse. eauto.
Qed.

Lemma createUpload_isolated userKey fileName fileSize chunkSize persist s m :
  wf m →
  mwp (createUpload dateAt fileIdAt userKey fileName fileSize chunkSize persist)
    (λ r, isolated (returnedUploads (Uploaded r))) wf (s, m).
Proof.
  intros Hwf. unfold createUpload.
  destruct (Math_ceil_div fileSize chunkSize) as [totalChunks|]; [| apply mwp_stuck].
  mwp_pass. mwp_pass.
  apply mwp_bind, mwp_lift, mwp_parse; [done |].
  intros base m' Hwf' Hg' Hbase. mgr_intro.
  destruct persist.
  - mwp_pass. mwp_pass.
    apply mwp_lift, mwp_decorateObject; [done |].
    intros r mr Hwfr Hgr Habove. by apply isolated_one.
  - apply mwp_bind, mwp_lift, mwp_bind, mwp_ensureEphemeralUser; [done |].
    intros m2 Hwf2 Hheap2. mgr_intro.
    apply mwp_setEphemeralUpload; [done | by rewrite Hheap2 |].
    intros m3 Hwf3 Hheap3. mgr_intro.
    mwp_pass.
    apply mwp_lift, mwp_decorateObject; [done |].
    intros r mr Hwfr Hgr Habove. by apply isolated_one.
Qed.

(** Decorating every upload of a list. *)
Lemma mwp_forEach_decorate {A} (f : A → ST Manager.t loc) (l : list A)
    (Q : list (loc * Status) → Manager.t → Prop) m :
  (∀ x (Q' : loc → Manager.t → Prop) m0, wf m0 →
     (∀ r m', wf m' → grows m0 m' → aboveBucket m' r → Q' r m') → mwp (f x) Q' wf m0) →
  wf m →
  (∀ ds m', wf m' → grows m m' → (∀ d, d ∈ ds → aboveBucket m' d.1) → Q ds m') →
  mwp (forEach (λ x, decorated ← f x; s ← statusOf decorated; ret (decorated, s)) l) Q wf m.
Proof.
  intros Hf. revert m Q. induction l as [|x l IH]; intros m Q Hwf HQ; simpl.
  - apply mwp_ret. apply HQ; [done | reflexivity |]. intros d Hd. by apply elem_of_nil in Hd.
  - apply mwp_bind. apply mwp_bind. apply Hf; [done |].
    intros r m1 Hwf1 Hg1 Habove1. mgr_intro.
    mwp_pass. apply mwp_ret. mgr_intro.
    apply mwp_bind. apply IH; [done |].
    intros ds m3 Hwf3 Hg3 Hds. mgr_intro. apply mwp_ret.
    apply HQ; [done | by repeat (etransitivity; [eassumption |]) |].
    intros d Hd. apply elem_of_cons in Hd as [-> | Hd]; [| by apply Hds].
    simpl. eapply aboveBucket_grows; [| | exact Hg3]; [done |]. above_grows.
Qed.

Lemma getUserSnapshot_isolated userKey s m :
  wf m →
  mwp (getUserSnapshot userKey) (λ r, isolated (returnedUploads (Snapshotted r))) wf (s, m).
Proof.
  intros Hwf. unfold getUserSnapshot.
  mwp_pass. mwp_pass.
  assert (∀ (t : DataStore.t) (history : list HistoryEntry.t) (uploads : list UploadJ)
            (objects : list loc),
    mwp (S := World)
      (fromState ← lift (forEach (λ upload,
         decorated ← _decorateUpload upload; s ← statusOf decorated; ret (decorated, s)) uploads);
       fromMemory ← lift (forEach (λ upload,
         decorated ← decorateObject upload; s ← statusOf decorated; ret (decorated, s)) objects);
       let all := fromState ++ fromMemory in
       ret (Some (Snapshot.mk
         (filter (λ d, d.2 ≠ paused) all).*1
         (filter (λ d, d.2 = paused) all).*1
         history)))
      (λ r, isolated (returnedUploads (Snapshotted r))) wf (t, m1)) as Hbody.
  { intros t' history uploads objects.
    apply mwp_bind, mwp_lift, mwp_forEach_decorate; [| done |].
    { intros x Q' m' Hwf' HQ'. by apply mwp_decorateUpload. }
    intros ds1 m2 Hwf2 Hg2 Hds1. mgr_intro.
    apply mwp_bind, mwp_lift, mwp_forEach_decorate; [| done |].
    { intros x Q' m' Hwf' HQ'. by apply mwp_decorateObject. }
    intros ds2 m3 Hwf3 Hg3 Hds2. mgr_intro.
    apply mwp_ret. split; [done |]. simpl. intros r Hr.
    assert (∃ d, d ∈ ds1 ++ ds2 ∧ d.1 = r) as (d & Hd & <-).
    { apply elem_of_app in Hr as [Hr | Hr];
        apply list_elem_of_fmap in Hr as (d & -> & Hd);
        apply list_elem_of_filter in Hd as [_ Hd]; eauto. }
    apply elem_of_app in Hd as [Hd | Hd]; [| by apply Hds2].
    eapply aboveBucket_grows; [| | exact Hg3]; [done | by apply Hds1]. }
  destruct a as [user|], a0 as [bucket|]; try apply Hbody.
  apply mwp_ret. by apply isolated_nil.
Qed.

Lemma identifyUser_wf fuel requestedKey s m :
  wf m → mwp (identifyUser dateAt userIdAt fuel requestedKey) (λ _, wf) wf (s, m).
Proof.
  intros Hwf. unfold identifyUser, identifyUser_exists, identifyUser_register. mwp_pass.
  destruct (truthy requestedKey) as [k|], a.
  - apply mwp_bind, mwp_lift, mwp_ensureEphemeralUser; [done |].
    intros m2 Hwf2 _. mgr_intro. by apply mwp_ret.
  - mwp_pass. apply mwp_bind, mwp_lift, mwp_ensureEphemeralUser; [done |].
    intros m2 Hwf2 _. mgr_intro. by apply mwp_ret.
  - mwp_pass. apply mwp_bind, mwp_lift, mwp_ensureEphemeralUser; [done |].
    intros m2 Hwf2 _. mgr_intro. by apply mwp_ret.
  - mwp_pass. apply mwp_bind, mwp_lift, mwp_ensureEphemeralUser; [done |].
    intros m2 Hwf2 _. mgr_intro. by apply mwp_ret.
Qed.

Lemma Keeps_clearHistory userKey : Keeps grows (clearHistory userKey).
Proof. unfold clearHistory. solve_keeps. Qed.

Lemma Keeps_saveChunk uploadId index data : Keeps grows (saveChunk uploadId index data).
Proof.
  unfold saveChunk. solve_keeps. apply Keeps_extends_grows, Keeps_modify. intros m.
  destruct (default ∅ (Manager.uploadDir m !! uploadId) !! index); by apply extends_same.
Qed.

(** Every call keeps the bucket well formed, and the upload objects it
    returns lie above the bucket. *)
Lemma run_isolated call s m :
  wf m → mwp (run dateAt userIdAt fileIdAt call) (λ r, isolated (returnedUploads r)) wf (s, m).
Proof.
  intros Hwf. destruct call; unfold run; try apply mwp_fmap.
  - eapply mwp_mono; [by apply identifyUser_wf | | done].
    intros r m' Hwf'. by apply isolated_nil.
  - by apply getUserSnapshot_isolated.
  - by apply createUpload_isolated.
  - by apply getUpload_isolated.
  - by apply recordChunk_isolated.
  - by apply updateStatus_isolated.
  - by apply finalizeUpload_isolated.
  - apply mwp_grows; [apply Keeps_clearHistory | done | | done].
    intros r m' Hwf' _. by apply isolated_nil.
  - by apply removeUpload_isolated.
  - apply mwp_grows; [solve_keeps | done | | done].
    intros r m' Hwf' _. by apply isolated_nil.
  - apply mwp_grows; [| done | | done].
    { keeps_apply Keeps_lift. apply Keeps_saveChunk. }
    intros [] m' Hwf' _. by apply isolated_nil.
Qed.

Lemma reachable_wf w : reachable dateAt userIdAt fileIdAt w → wf w.2.
Proof.
  induction 1 as [| w Hw IH | w call reply w' Hw IH Hrun | w call e w' Hw IH Hrun].
  - intros k b id l Hk. simpl in Hk. by rewrite lookup_empty in Hk.
  - intros k b id l Hk. simpl in Hk. by rewrite lookup_empty in Hk.
  - destruct w as [s m], w' as [s' m'].
    exact (proj1 (mwp_Ok _ _ _ _ _ _ (run_isolated call s m IH) Hrun)).
  - destruct w as [s m], w' as [s' m'].
    exact (mwp_Throw _ _ _ _ _ _ (run_isolated call s m IH) Hrun).
Qed.

(** C10.  In any state the program can reach, every upload object a call
    returns ([getUpload], [getUserSnapshot], [createUpload], [recordChunk],
    [updateStatus], [finalizeUpload], [removeUpload]) is an upload object of
    its own: none of its cells (the object, its [receivedChunks] object,
    its [missingChunks] array) belongs to an upload of the ephemeral
    bucket, and overwriting any of them with anything leaves every upload
    the manager holds, in the bucket or in the state file, as it was. *)
Theorem returned_uploads_are_clones (w w' : World) (call : Call) (reply : Reply)
    (r x : loc) (c : Cell) (userKey uploadId : string) :
  reachable dateAt userIdAt fileIdAt w →
  run dateAt userIdAt fileIdAt call w = (Ok reply, w') →
  r ∈ returnedUploads reply →
  x ∈ footprint (Manager.heap w'.2) r →
  is_Some (load (Manager.heap w'.2) r) ∧
  ¬ owned w'.2 x ∧
  storedUpload (w'.1, Manager.set_heap (<[x := c]> (Manager.heap w'.2)) w'.2) userKey uploadId
    = storedUpload w' userKey uploadId.
Proof.
  intros Hreach Hrun Hr Hx. destruct w as [s m], w' as [s' m'].
  pose proof (reachable_wf _ Hreach) as Hwf. simpl in Hwf.
  destruct (mwp_Ok _ _ _ _ _ _ (run_isolated call s m Hwf) Hrun) as [Hwf' Hiso].
  specialize (Hiso r Hr). unfold mgr, manager_snd in Hwf', Hiso. simpl in *.
  split; [apply Hiso |]. split.
  - destruct Hiso as [_ (n & Hbelow & Habove)]. intros Hown.
    specialize (Hbelow x Hown). specialize (Habove x Hx). lia.
  - unfold storedUpload. simpl.
    destruct (Manager.ephemeral m' !! userKey) as [b|] eqn:Hb; simpl; [| done].
    destruct (b !! uploadId) as [l|] eqn:Hl; [| done].
    by eapply aboveBucket_frame.
Qed.

End isolation.

Lemma withUpload_reachable persist :
  reachable sampleDate sampleUserId sampleFileId (withUpload persist).
Proof.
  eapply (reachable_returned _ _ _ identified
            (CreateUpload aliceKey "report.pdf" 10 6 persist) (Uploaded 3%nat)).
  - eapply (reachable_returned _ _ _ initialWorld (IdentifyUser 8 (Some aliceKey))
              (Identified (Identity.mk aliceKey true))).
    + apply reachable_start.
    + vm_compute. reflexivity.
  - destruct persist; vm_compute; reflexivity.
Qed.

Lemma rejectedWithUpload_reachable :
  reachable sampleDate sampleUserId sampleFileId rejectedWithUpload.
Proof.
  eapply (reachable_thrown _ _ _ (withUpload true)
            (RecordChunk aliceKey (sampleFileId 1) 0) upload_not_found).
  - apply withUpload_reachable.
  - vm_compute. reflexivity.
Qed.


Lemma returned_uploads_are_clones_witness :
  is_Some (load (Manager.heap
     (run sampleDate sampleUserId sampleFileId (RecordChunk aliceKey (sampleFileId 0) 1)
        (withUpload false)).2.2) 6%nat) ∧
  ¬ owned (run sampleDate sampleUserId sampleFileId (RecordChunk aliceKey (sampleFileId 0) 1)
             (withUpload false)).2.2 5%nat ∧
  storedUpload
    ((run sampleDate sampleUserId sampleFileId (RecordChunk aliceKey (sampleFileId 0) 1)
        (withUpload false)).2.1,
     Manager.set_heap
       (<[5%nat := ObjChunks {[ 0; 1 ]}]>
          (Manager.heap
             (run sampleDate sampleUserId sampleFileId
                (RecordChunk aliceKey (sampleFileId 0) 1) (withUpload false)).2.2))
       (run sampleDate sampleUserId sampleFileId (RecordChunk aliceKey (sampleFileId 0) 1)
          (withUpload false)).2.2)
    aliceKey (sampleFileId 0)
  = storedUpload
      (run sampleDate sampleUserId sampleFileId (RecordChunk aliceKey (sampleFileId 0) 1)
         (withUpload false)).2
      aliceKey (sampleFileId 0).
Proof.
  apply (returned_uploads_are_clones sampleDate sampleUserId sampleFileId
           (withUpload false)
           (run sampleDate sampleUserId sampleFileId (RecordChunk aliceKey (sampleFileId 0) 1)
              (withUpload false)).2
           (RecordChunk aliceKey (sampleFileId 0) 1)
           (Marked (Recorded.mk 6 false)) 6%nat 5%nat (ObjChunks {[ 0; 1 ]})
           aliceKey (sampleFileId 0)).
  - apply withUpload_reachable.
  - vm_compute. reflexivity.
  - simpl. set_solver.
  - vm_compute. set_solver.
Defined.

(** ** Reasoning about the document of a store job *)

(** The derived fields of a stored upload: no [missingChunks], and a
    [receivedCount] that is the number of keys of [receivedChunks]. *)
Definition uploadOK (u : UploadJ) : Prop :=
  Upload.missingChunks u = None ∧
  Upload.receivedCount u = Some (Z.of_nat (size (Upload.receivedChunks u))).

Definition userOK (user : UserRecord.t) : Prop :=
  map_Forall (λ _ u, uploadOK u) (UserRecord.uploads user).

Definition docOK (d : Doc) : Prop := map_Forall (λ _ user, userOK user) (users d).

(** The same of the document in the state file. *)
Definition fileOK (w : World) : Prop := docOK (DataStore._read w.1).

Lemma docOK_setUser d k user :
  docOK d → userOK user → docOK (mkDoc (<[k := user]> (users d))).
Proof. intros Hd Hu. by apply map_Forall_insert_2. Qed.

Lemma uploadOK_marked u i t : uploadOK u → uploadOK (marked u i t).
Proof. intros [Hm Hc]. split; [done |]. reflexivity. Qed.

Lemma load_extends m m' l u :
  extends m m' → load (Manager.heap m) l = Some u → load (Manager.heap m') l = Some u.
Proof. intros [_ [cells ->]] H. by apply load_app. Qed.

(** Steps whose result does not matter for the document. *)
Lemma lift_any {D E A} (c : ST E A) (Q : A → D * E → Prop) (X : D * E → Prop) d e :
  (∀ a e', Q a (d, e')) → (∀ e', X (d, e')) → wp (lift c) Q X (d, e).
Proof.
  intros HQ HX. apply wp_lift. unfold wp. destruct (c e) as [[a|err|] e']; eauto.
Qed.

Lemma readState_any {E A} (selector : ST (Doc * E) A) (Q : A → DataStore.t * E → Prop)
    (X : DataStore.t * E → Prop) s env :
  (∀ a env', Q a (s, env')) →
  (∀ env', X (s, env')) →
  (∀ e env', X (DataStore.mk (DataStore.file s) (Some e), env')) →
  wp (DataStore.readState selector) Q X (s, env).
Proof.
  intros HQ Hrej HX. unfold wp, DataStore.readState.
  destruct (DataStore._lock s) as [e|]; [apply Hrej |].
  destruct (selector _) as [[a|e|] [state env']]; eauto.
Qed.

Lemma wp_fmap {S A B} (f : A → B) (c : ST S A) (Q : B → S → Prop) X s :
  wp c (λ a s', Q (f a) s') X s → wp (f <$> c) Q X s.
Proof. intros Hc. apply (wp_bind c (λ a, ret (f a))). exact Hc. Qed.

Lemma wp_prop {S V} (obj : gmap string V) k (Q : option V → S → Prop) X (s : S) :
  Q (obj !! k) s → wp (prop obj k) Q X s.
Proof.
  intros HQ. unfold wp, prop. destruct (obj !! k); [done |]. by destruct (inherited k).
Qed.

Lemma wp_assign {S V} (obj : gmap string V) k v (Q : gmap string V → S → Prop) X (s : S) :
  Q (<[k := v]> obj) s → wp (assign obj k v) Q X s.
Proof. intros HQ. unfold wp, assign. by case_bool_decide. Qed.

Lemma wp_findUpload userKey uploadId (Q : UserRecord.t * UploadJ → Doc * Manager.t → Prop) X d e :
  (∀ user upload, users d !! userKey = Some user →
     UserRecord.uploads user !! uploadId = Some upload → Q (user, upload) (d, e)) →
  X (d, e) →
  wp (findUpload userKey uploadId) Q X (d, e).
Proof.
  intros HQ HX. unfold findUpload. apply wp_bind, wp_gets. simpl.
  apply wp_bind, wp_prop. destruct (users d !! userKey) as [user|] eqn:Hu; [| done].
  apply wp_bind, wp_prop.
  destruct (UserRecord.uploads user !! uploadId) as [upload|] eqn:Hup; [| done].
  apply wp_ret. by apply HQ.
Qed.

Section manager_steps.
Context (dateAt : nat → Timestamp).

Lemma wp_markChunk u i (Q : UploadJ → Manager.t → Prop) X m :
  (∀ t m', Q (marked u i t) m') → X m → wp (_markChunk dateAt u i) Q X m.
Proof.
  intros HQ HX. unfold wp.
  destruct (decide (0 ≤ i < Upload.totalChunks u)) as [Hin | Hout].
  - rewrite _markChunk_in_range by done. apply HQ.
  - rewrite _markChunk_out_of_range by lia. done.
Qed.

Lemma wp_ensureUserRecord userKey (Q : UserRecord.t → Doc * Manager.t → Prop) X d e :
  (∀ user d' e',
     users d' !! userKey = Some user → (docOK d → docOK d' ∧ userOK user) → extends e e' →
     Q user (d', e')) →
  wp (_ensureUserRecord dateAt userKey) Q X (d, e).
Proof.
  intros HQ. unfold _ensureUserRecord. apply wp_bind, wp_gets. simpl.
  destruct (users d !! userKey) as [user|] eqn:Hu.
  - apply wp_ret. apply HQ; [done | | reflexivity].
    intros Hd. split; [done | exact (Hd _ _ Hu)].
  - destruct (inherited userKey); [apply wp_stuck |].
    apply wp_bind, wp_lift. unfold wp. simpl.
    apply HQ; [apply lookup_insert_eq | | by apply extends_same].
    intros Hd. split; [| apply map_Forall_empty].
    apply docOK_setUser; [done |]. apply map_Forall_empty.
Qed.

End manager_steps.

(** ** createUpload *)

(** The metadata held for an upload at one of the two places. *)
Definition metadataIn (place : Location) (w : World) (userKey uploadId : string)
  : option UploadJ :=
  match place with
  | memory =>
      (Manager.ephemeral w.2 !! userKey ≫= (.!! uploadId)) ≫= load (Manager.heap w.2)
  | persistent =>
      users (DataStore._read w.1) !! userKey ≫= λ user, UserRecord.uploads user !! uploadId
  end.

(** A request number that is finite and above zero. *)
Definition positive (x : Number) : Prop :=
  match x with
  | Finite z => 0 < z
  | Fraction aboveZero => aboveZero = true
  | NonFinite => False
  end.

Lemma Math_ceil_div_exact a b :
  b ≠ 0 → Z.abs a ≤ MAX_EXACT_INTEGER → Z.abs b ≤ MAX_EXACT_INTEGER →
  Math_ceil_div a b = Some (- ((- a) / b)).
Proof.
  intros Hb Ha Hb'. unfold Math_ceil_div, exactInteger.
  replace (b =? 0) with false by lia.
  replace (Z.abs a <=? MAX_EXACT_INTEGER) with true by lia.
  by replace (Z.abs b <=? MAX_EXACT_INTEGER) with true by lia.
Qed.

Lemma Math_ceil_div_Some a b n :
  Math_ceil_div a b = Some n →
  b ≠ 0 ∧ Z.abs a ≤ MAX_EXACT_INTEGER ∧ Z.abs b ≤ MAX_EXACT_INTEGER ∧ n = - ((- a) / b).
Proof.
  unfold Math_ceil_div, exactInteger.
  destruct (b =? 0) eqn:Hz; [done |].
  destruct (Z.abs a <=? MAX_EXACT_INTEGER) eqn:Ha; [| done].
  destruct (Z.abs b <=? MAX_EXACT_INTEGER) eqn:Hb; [| done].
  simpl. intros [= <-]. lia.
Qed.

Lemma Math_ceil_div_bounds a b n :
  0 < b → Math_ceil_div a b = Some n → (n - 1) * b < a ≤ n * b.
Proof.
  intros Hb Hn. apply Math_ceil_div_Some in Hn as (_ & _ & _ & ->).
  pose proof (Z.div_mod (- a) b ltac:(lia)). pose proof (Z.mod_pos_bound (- a) b Hb). nia.
Qed.

(** ** The chunk count, computed with doubles *)

Lemma isDouble_opp z : isDouble z → isDouble (- z).
Proof.
  intros (m & j & -> & Hm & Hj). exists (- m), j. split; [ring |]. split; [lia | done].
Qed.

Lemma isDouble_le m j : Z.abs m ≤ 2 ^ 53 → 0 ≤ j ≤ 2044 → isDouble (m * 2 ^ j).
Proof.
  intros Hm Hj. destruct (decide (Z.abs m < 2 ^ 53)) as [Hlt | Hge].
  - exists m, j. split; [done |]. split; [done | lia].
  - exists (m / 2), (j + 1). split.
    + rewrite Z.pow_add_r by lia. change (2 ^ 1) with 2.
      assert (m = 2 ^ 53 ∨ m = - 2 ^ 53) as [-> | ->] by lia.
      * change (2 ^ 53 / 2) with (2 ^ 52). change (2 ^ 53) with (2 ^ 52 * 2). ring.
      * change (- 2 ^ 53 / 2) with (- 2 ^ 52). change (2 ^ 53) with (2 ^ 52 * 2). ring.
    + split; [| lia].
      assert (m = 2 ^ 53 ∨ m = - 2 ^ 53) as [-> | ->] by lia; vm_compute; done.
Qed.

Section nearest.
Local Abbreviation U := (2 ^ 1074).

Lemma U_pos : 0 < U.
Proof. by apply Z.pow_pos_nonneg. Qed.

Lemma U_split : U = 2 ^ 53 * 2 ^ 1021.
Proof. rewrite <- Z.pow_add_r by lia. reflexivity. Qed.

(** The double next to the integer [n] above it, and the one next to
    [n + 1] below it: each is less than [2 / b] away, for every [b] with
    [n * b < 2^53]. *)
Lemma double_above n b :
  0 ≤ n → 0 < b ≤ 2 ^ 53 → n * b < 2 ^ 53 →
  ∃ δ, isDouble (n * U + δ) ∧ 0 < δ ∧ δ * b ≤ 2 * U - 2 ^ 1021.
Proof.
  intros Hn Hb Hnb. destruct (decide (n = 0)) as [-> | Hn0].
  - exists (2 ^ 1021). split; [| split].
    + exists 1, 1021. split; [ring |]. split; [vm_compute; done | lia].
    + by apply Z.pow_pos_nonneg.
    + rewrite U_split. assert (0 < 2 ^ 1021) by (by apply Z.pow_pos_nonneg). nia.
  - assert (0 < n) as Hpos by lia.
    pose proof (Z.log2_spec n Hpos) as [Hlo Hhi].
    pose proof (Z.log2_nonneg n) as Hk0.
    set (k := Z.log2 n) in *.
    assert (n < 2 ^ 53) as Hn53 by nia.
    assert (k ≤ 52) as Hk.
    { destruct (decide (k ≤ 52)) as [|Hgt]; [done |]. exfalso.
      assert (2 ^ 53 ≤ 2 ^ k) by (apply Z.pow_le_mono_r; lia). lia. }
    exists (2 ^ (k + 1022)). split; [| split].
    + replace (n * U + 2 ^ (k + 1022)) with ((n * 2 ^ (52 - k) + 1) * 2 ^ (k + 1022)).
      * apply isDouble_le; [| lia].
        assert (0 < 2 ^ (52 - k)) by (apply Z.pow_pos_nonneg; lia).
        assert (2 ^ Z.succ k * 2 ^ (52 - k) = 2 ^ 53) as Hpow.
        { rewrite <- Z.pow_add_r by lia. f_equal. lia. }
        assert (n + 1 ≤ 2 ^ Z.succ k) by lia.
        rewrite Z.abs_eq by nia. nia.
      * rewrite Z.mul_add_distr_r, Z.mul_1_l. f_equal.
        rewrite <- Z.mul_assoc, <- Z.pow_add_r by lia. do 2 f_equal. lia.
    + apply Z.pow_pos_nonneg; lia.
    + replace (2 ^ (k + 1022)) with (2 ^ k * (2 * 2 ^ 1021)); last first.
      { rewrite Z.pow_add_r by lia. f_equal. }
      rewrite U_split. assert (0 < 2 ^ 1021) by (by apply Z.pow_pos_nonneg).
      assert (2 ^ k * b ≤ 2 ^ 53 - 1) by nia. nia.
Qed.

Lemma double_below n b :
  0 ≤ n → 0 < b ≤ 2 ^ 53 → n * b < 2 ^ 53 →
  ∃ δ, isDouble ((n + 1) * U - δ) ∧ 0 < δ ∧ δ * b ≤ 2 * U - 2 ^ 1021.
Proof.
  intros Hn Hb Hnb. destruct (decide (n = 0)) as [-> | Hn0].
  - exists (2 ^ 1021). split; [| split].
    + exists (2 ^ 53 - 1), 1021. split; [rewrite U_split; ring |].
      split; [vm_compute; done | lia].
    + by apply Z.pow_pos_nonneg.
    + rewrite U_split. assert (0 < 2 ^ 1021) by (by apply Z.pow_pos_nonneg). nia.
  - assert (0 < n) as Hpos by lia.
    pose proof (Z.log2_spec n Hpos) as [Hlo Hhi].
    pose proof (Z.log2_nonneg n) as Hk0.
    set (k := Z.log2 n) in *.
    assert (n < 2 ^ 53) as Hn53 by nia.
    assert (k ≤ 52) as Hk.
    { destruct (decide (k ≤ 52)) as [|Hgt]; [done |]. exfalso.
      assert (2 ^ 53 ≤ 2 ^ k) by (apply Z.pow_le_mono_r; lia). lia. }
    exists (2 ^ (k + 1022)). split; [| split].
    + replace ((n + 1) * U - 2 ^ (k + 1022))
        with (((n + 1) * 2 ^ (52 - k) - 1) * 2 ^ (k + 1022)).
      * apply isDouble_le; [| lia].
        assert (0 < 2 ^ (52 - k)) by (apply Z.pow_pos_nonneg; lia).
        assert (2 ^ Z.succ k * 2 ^ (52 - k) = 2 ^ 53) as Hpow.
        { rewrite <- Z.pow_add_r by lia. f_equal. lia. }
        assert (n + 1 ≤ 2 ^ Z.succ k) by lia.
        rewrite Z.abs_eq by nia. nia.
      * rewrite Z.mul_sub_distr_r, Z.mul_1_l. f_equal.
        rewrite <- Z.mul_assoc, <- Z.pow_add_r by lia. do 2 f_equal. lia.
    + apply Z.pow_pos_nonneg; lia.
    + replace (2 ^ (k + 1022)) with (2 ^ k * (2 * 2 ^ 1021)); last first.
      { rewrite Z.pow_add_r by lia. f_equal. }
      rewrite U_split. assert (0 < 2 ^ 1021) by (by apply Z.pow_pos_nonneg).
      assert (2 ^ k * b ≤ 2 ^ 53 - 1) by nia. nia.
Qed.

(** For positive integers of at most [2^53], a double nearest to the
    quotient is the quotient when that is an integer, and lies strictly
    between the integers next to the quotient otherwise. *)
Lemma nearestDouble_between a b z :
  0 < a ≤ 2 ^ 53 → 0 < b ≤ 2 ^ 53 → nearestDouble a b z →
  (a mod b = 0 → z = a / b * U) ∧
  (a mod b ≠ 0 → a / b * U < z < (a / b + 1) * U).
Proof.
  intros Ha Hb [Hz Hnear].
  pose proof (Z.div_mod a b ltac:(lia)) as Hdiv.
  pose proof (Z.mod_pos_bound a b ltac:(lia)) as Hmod.
  pose proof (Z.div_pos a b ltac:(lia) ltac:(lia)) as Hn.
  pose proof U_pos as HU.
  set (n := a / b) in *. set (r := a mod b) in *.
  assert (n * b < 2 ^ 53 ∨ r = 0) as Hnb by (destruct (decide (r = 0)); [by right | left; nia]).
  assert (n ≤ 2 ^ 53) as Hn53 by nia.
  split.
  - intros Hr.
    assert (isDouble (n * U)) as Hd by (apply isDouble_le; lia).
    specialize (Hnear _ Hd).
    replace (n * U * b - a * U) with 0 in Hnear by (rewrite Hdiv, Hr; ring).
    assert (z * b = a * U) as Heq by lia.
    rewrite Hdiv, Hr in Heq. nia.
  - intros Hr. destruct Hnb as [Hnb | ?]; [| done]. split.
    + destruct (double_above n b Hn Hb Hnb) as (δ & Hd & Hδ & Hδb).
      specialize (Hnear _ Hd).
      assert (0 < 2 ^ 1021) by (by apply Z.pow_pos_nonneg).
      replace ((n * U + δ) * b - a * U) with (δ * b - r * U) in Hnear
        by (rewrite Hdiv; ring).
      destruct (decide (n * U < z)) as [|Hle]; [done |]. exfalso.
      assert (z * b - a * U ≤ - (r * U)) by (rewrite Hdiv; nia).
      assert (Z.abs (δ * b - r * U) < r * U) by nia.
      lia.
    + destruct (double_below n b Hn Hb Hnb) as (δ & Hd & Hδ & Hδb).
      specialize (Hnear _ Hd).
      assert (0 < 2 ^ 1021) by (by apply Z.pow_pos_nonneg).
      replace (((n + 1) * U - δ) * b - a * U) with ((b - r) * U - δ * b) in Hnear
        by (rewrite Hdiv; ring).
      destruct (decide (z < (n + 1) * U)) as [|Hge]; [done |]. exfalso.
      assert ((b - r) * U ≤ z * b - a * U) by (rewrite Hdiv; nia).
      assert (Z.abs ((b - r) * U - δ * b) < (b - r) * U) by nia.
      lia.
Qed.

End nearest.

Lemma div_between x u q : 0 < u → q * u ≤ x < (q + 1) * u → x / u = q.
Proof. intros Hu Hx. symmetry. apply (Z.div_unique x u q (x - q * u)); lia. Qed.

Lemma nearestDouble_opp_l a b z : nearestDouble a b z → nearestDouble (- a) b (- z).
Proof.
  intros [Hz Hnear]. split; [by apply isDouble_opp |]. intros z' Hz'.
  specialize (Hnear _ (isDouble_opp _ Hz')).
  replace (- z * b - - a * 2 ^ 1074) with (- (z * b - a * 2 ^ 1074)) by ring.
  replace (z' * b - - a * 2 ^ 1074) with (- (- z' * b - a * 2 ^ 1074)) by ring.
  by rewrite !Z.abs_opp.
Qed.

Lemma nearestDouble_opp_r a b z : nearestDouble a b z → nearestDouble a (- b) (- z).
Proof.
  intros [Hz Hnear]. split; [by apply isDouble_opp |]. intros z' Hz'.
  specialize (Hnear _ (isDouble_opp _ Hz')).
  replace (- z * - b - a * 2 ^ 1074) with (z * b - a * 2 ^ 1074) by ring.
  by replace (z' * - b - a * 2 ^ 1074) with (- z' * b - a * 2 ^ 1074) by ring.
Qed.

(** [Math.ceil] of the quotient of positive doubles, and its floor. *)
Lemma Math_ceil_positive a b z :
  0 < a ≤ 2 ^ 53 → 0 < b ≤ 2 ^ 53 → nearestDouble a b z →
  Math_ceil z = - ((- a) / b) ∧ Math_ceil (- z) = - (a / b).
Proof.
  intros Ha Hb Hz. destruct (nearestDouble_between a b z Ha Hb Hz) as [Hexact Hbetween].
  pose proof (Z.div_mod a b ltac:(lia)) as Hdiv.
  pose proof (Z.mod_pos_bound a b ltac:(lia)) as Hmod.
  pose proof U_pos as HU. unfold Math_ceil. rewrite Z.opp_involutive.
  destruct (decide (a mod b = 0)) as [Hr | Hr].
  - rewrite (Hexact Hr). split.
    + replace (- (a / b * 2 ^ 1074)) with (- (a / b) * 2 ^ 1074) by ring.
      rewrite Z.div_mul by lia. f_equal.
      apply (Z.div_unique (- a) b (- (a / b)) 0); lia.
    + by rewrite Z.div_mul by lia.
  - destruct (Hbetween Hr) as [Hlo Hhi]. split.
    + rewrite (div_between (- z) (2 ^ 1074) (- (a / b + 1))) by lia.
      f_equal.
      apply (Z.div_unique (- a) b (- (a / b + 1)) (b - a mod b)); lia.
    + by rewrite (div_between z (2 ^ 1074) (a / b)) by lia.
Qed.

(** On the sizes it covers, [Math_ceil_div] is [Math.ceil] of the
    quotient of doubles. *)
Theorem Math_ceil_div_doubles (a b n z : Z) :
  Math_ceil_div a b = Some n → nearestDouble a b z → Math_ceil z = n.
Proof.
  intros Hn Hz. apply Math_ceil_div_Some in Hn as (Hb & Ha & Hb' & ->).
  change MAX_EXACT_INTEGER with (2 ^ 53) in *.
  destruct (decide (a = 0)) as [-> | Ha0].
  { destruct Hz as [_ Hnear].
    assert (isDouble 0) as H0 by (exists 0, 0; split; [done |]; split; [done | lia]).
    specialize (Hnear _ H0). simpl in Hnear.
    assert (z = 0) as -> by nia. reflexivity. }
  destruct (decide (0 < a)) as [Hpos | Hneg], (decide (0 < b)) as [Hbpos | Hbneg].
  - apply Math_ceil_positive; [lia | lia | done].
  - destruct (Math_ceil_positive a (- b) (- z)) as [_ H]; [lia | lia | |].
    { by apply nearestDouble_opp_r. }
    rewrite Z.opp_involutive in H. rewrite H. f_equal.
    rewrite <- (Z.div_opp_opp a (- b)) by lia. by rewrite Z.opp_involutive.
  - destruct (Math_ceil_positive (- a) b (- z)) as [_ H]; [lia | lia | |].
    { by apply nearestDouble_opp_l. }
    rewrite Z.opp_involutive in H. exact H.
  - destruct (Math_ceil_positive (- a) (- b) z) as [H _]; [lia | lia | |].
    { apply nearestDouble_opp_l in Hz. apply nearestDouble_opp_r in Hz.
      by rewrite Z.opp_involutive in Hz. }
    rewrite H. f_equal. rewrite Z.opp_involutive.
    rewrite <- (Z.div_opp_opp (- a) b) by lia. by rewrite Z.opp_involutive.
Qed.

(** A quotient that is an integer is its own nearest double. *)
Lemma nearestDouble_exact (q b : Z) :
  Z.abs q ≤ 2 ^ 53 → nearestDouble (q * b) b (q * 2 ^ 1074).
Proof.
  intros Hq. split; [apply isDouble_le; lia |]. intros z' _.
  replace (q * 2 ^ 1074 * b - q * b * 2 ^ 1074) with 0 by ring. lia.
Qed.

Section createUpload_facts.
Context (dateAt : nat → Timestamp) (userIdAt fileIdAt : nat → string).

Lemma createUpload_creates userKey fileName fileSize chunkSize persist n s m :
  Math_ceil_div fileSize chunkSize = Some n →
  wp (createUpload dateAt fileIdAt userKey fileName fileSize chunkSize persist)
    (λ upload w', ∃ now,
       let created := Upload.mk (fileIdAt (Manager.fileIdDraws m)) userKey fileName
                        fileSize chunkSize n persist active ∅ (Some 0) now now None None in
       load (Manager.heap w'.2) upload = Some (decorated created) ∧
       metadataIn (if persist then persistent else memory) w' userKey
         (fileIdAt (Manager.fileIdDraws m)) = Some created)
    (λ _, True) (s, m).
Proof.
  intros Hn. unfold createUpload. rewrite Hn.
  apply wp_bind, wp_lift. unfold wp, _createFileId.
  set (uploadId := fileIdAt _). set (m1 := Manager.set_fileIdDraws _ m).
  apply wp_bind, wp_lift. unfold wp, _now.
  set (now := dateAt _). set (m2 := Manager.set_clockReads _ m1).
  apply wp_bind, wp_lift. unfold wp. rewrite parse_run.
  set (created := Upload.mk _ _ _ _ _ _ _ _ _ _ _ _ _ _).
  set (base := parse_loc _ created).
  set (m3 := Manager.set_heap _ m2).
  assert (Hbase : load (Manager.heap m3) base = Some created) by apply load_parse.
  assert (Htail : ∀ s' m',
    load (Manager.heap m') base = Some created →
    (∀ m'', extends m' m'' →
       metadataIn (if persist then persistent else memory) (s', m'') userKey uploadId
       = Some created) →
    wp (lift (ensureScratchDir uploadId);; lift (decorateObject base))
      (λ upload w', ∃ now,
         let created := Upload.mk uploadId userKey fileName fileSize chunkSize n persist
                          active ∅ (Some 0) now now None None in
         load (Manager.heap w'.2) upload = Some (decorated created) ∧
         metadataIn (if persist then persistent else memory) w' userKey uploadId
         = Some created)
      (λ _, True) (s', m')).
  { intros s' m' Hload Hmeta. apply wp_bind, wp_lift.
    apply (wp_keeps extends); [apply Keeps_ensureScratchDir | | done].
    intros [] m4 Hext. apply wp_lift.
    eapply wp_run; [apply decorateObject_run; by eapply load_extends |].
    exists now. split; [apply load_decorate |].
    apply Hmeta. etrans; [exact Hext |]. split; [done |]. by apply prefix_app_r. }
  apply wp_bind. destruct persist.
  - apply wp_withState; [done |]. intros _.
    apply wp_bind, wp_ensureUserRecord. intros user d' e' Hu _ Hext.
    apply wp_bind, wp_lift.
    eapply wp_run; [apply stringify_run; by eapply load_extends |].
    apply wp_bind, wp_assign. apply wp_modify.
    apply Htail; [by eapply load_extends |].
    intros m'' _. simpl. rewrite lookup_insert_eq. simpl. apply lookup_insert_eq.
  - apply wp_lift. unfold wp. simpl.
    apply Htail.
    + by destruct (Manager.ephemeral m !! userKey).
    + intros m'' [Heph [cells Hcells]]. unfold metadataIn. cbn [snd].
      rewrite Heph, Hcells. simpl. rewrite lookup_insert_eq. simpl.
      rewrite lookup_insert_eq. simpl.
      apply load_app. by destruct (Manager.ephemeral m !! userKey).
Qed.

(** C5 (as amended): the handler of [POST /api/uploads] validates the
    sizes.  With [userKey] and [fileName] given, a request whose
    [fileSize] or [chunkSize] is not a finite number above zero fails with
    [invalid_sizes] and changes nothing, so no upload metadata is created;
    a request with positive sizes that is answered with an upload has
    created metadata whose [totalChunks] is the ceiling of
    [fileSize / chunkSize], in the place [persist] names, and the
    upload of the answer is the decorated copy of that metadata. *)
Theorem postUploads_validates_sizes (w : World) (userKey fileName : string)
    (fileSize chunkSize : Number) (persist : bool) :
  userKey ≠ ""%string → fileName ≠ ""%string →
  (¬ (positive fileSize ∧ positive chunkSize) →
   postUploads dateAt fileIdAt (Some userKey) (Some fileName) fileSize chunkSize persist w
   = (Throw invalid_sizes, w)) ∧
  (∀ size chunk upload w',
     fileSize = Finite size → chunkSize = Finite chunk →
     0 < size ≤ MAX_EXACT_INTEGER → 0 < chunk ≤ MAX_EXACT_INTEGER →
     postUploads dateAt fileIdAt (Some userKey) (Some fileName) fileSize chunkSize persist w
     = (Ok upload, w') →
     ∃ n created,
       (n - 1) * chunk < size ≤ n * chunk ∧
       Upload.totalChunks created = n ∧
       Upload.fileSize created = size ∧ Upload.chunkSize created = chunk ∧
       load (Manager.heap w'.2) upload = Some (decorated created) ∧
       metadataIn (if persist then persistent else memory) w' userKey (Upload.id created)
       = Some created).
Proof.
  intros Hk Hf. unfold postUploads. rewrite !truthy_Some by done. split.
  - intros Hneg.
    destruct (negb (isFinite fileSize) || negb (isFinite chunkSize)
              || atMostZero fileSize || atMostZero chunkSize) eqn:Hbad; [done |].
    exfalso. apply Hneg.
    destruct fileSize as [size|[]|], chunkSize as [chunk|[]|]; simpl in *; try done; lia.
  - intros size chunk upload w' -> -> Hs Hc Hrun. simpl in Hrun.
    destruct (size <=? 0) eqn:Hs'; [lia |]. destruct (chunk <=? 0) eqn:Hc'; [lia |].
    simpl in Hrun.
    destruct (Math_ceil_div size chunk) as [n|] eqn:Hn.
    + destruct w as [s m].
      destruct (wp_Ok _ _ _ _ _ _
                  (createUpload_creates userKey fileName size chunk persist n s m Hn) Hrun)
        as (now & Hload & Hmeta).
      eexists n, _. split; [apply Math_ceil_div_bounds; [lia | done] |].
      split; [| split; [| split; [| split; [exact Hload | exact Hmeta]]]]; reflexivity.
    + unfold createUpload in Hrun. rewrite Hn in Hrun. discriminate.
Qed.

End createUpload_facts.

Lemma postUploads_validates_sizes_witness :
  postUploads sampleDate sampleFileId (Some aliceKey) (Some "report.pdf"%string)
    (Finite 10) (Finite 0) false identified = (Throw invalid_sizes, identified) ∧
  ∃ n created,
    (n - 1) * 6 < 10 ≤ n * 6 ∧
    Upload.totalChunks created = n ∧
    Upload.fileSize created = 10 ∧ Upload.chunkSize created = 6 ∧
    load (Manager.heap (withUpload false).2) 3%nat = Some (decorated created) ∧
    metadataIn memory (withUpload false) aliceKey (Upload.id created) = Some created.
Proof.
  assert (Hk : aliceKey ≠ ""%string) by discriminate.
  assert (Hf : "report.pdf"%string ≠ ""%string) by discriminate.
  split.
  - apply (postUploads_validates_sizes sampleDate sampleFileId identified aliceKey
             "report.pdf" (Finite 10) (Finite 0) false Hk Hf).
    simpl. lia.
  - apply (postUploads_validates_sizes sampleDate sampleFileId identified aliceKey
             "report.pdf" (Finite 10) (Finite 6) false Hk Hf).
    + reflexivity.
    + reflexivity.
    + unfold MAX_EXACT_INTEGER. lia.
    + unfold MAX_EXACT_INTEGER. lia.
    + vm_compute. reflexivity.
Defined.

(** C5 (as stated) fails: [createUpload] itself accepts a
    [fileSize] of zero, and creates metadata with no chunks. *)
Lemma createUpload_accepts_empty_file :
  ∃ upload w' created,
    createUpload sampleDate sampleFileId aliceKey "empty.bin" 0 5 true identified
      = (Ok upload, w') ∧
    metadataIn persistent w' aliceKey (sampleFileId 0) = Some created ∧
    Upload.fileSize created = 0 ∧
    Upload.totalChunks created = 0.
Proof.
  eexists _, _, _. split; [vm_compute; reflexivity |].
  split; [vm_compute; reflexivity |]. split; reflexivity.
Qed.

(** ** What the state file holds *)

Section persisted_fields.
Context (dateAt : nat → Timestamp) (userIdAt fileIdAt : nat → string).

Lemma historyMutator_doc userKey upload d e :
  docOK d →
  wp (historyMutator dateAt userKey upload) (λ _ '(d', _), docOK d') (λ _, True) (d, e).
Proof.
  intros Hd. unfold historyMutator. apply wp_bind, wp_ensureUserRecord.
  intros user d' e' _ Hok _. destruct (Hok Hd) as [Hd' Hu].
  apply wp_bind, lift_any; [| done]. intros u e1.
  apply wp_bind, lift_any; [| done]. intros entry e2.
  apply wp_modify. by apply docOK_setUser.
Qed.

Lemma withState_doc {A} (mutator : ST (Doc * Manager.t) A) (Q : A → World → Prop) s m :
  fileOK (s, m) →
  (∀ a w', fileOK w' → Q a w') →
  (∀ d e, docOK d → wp mutator (λ _ '(d', _), docOK d') (λ _, True) (d, e)) →
  wp (DataStore.withState mutator) Q fileOK (s, m).
Proof.
  intros Hd HQ Hm. apply wp_withState; [done |]. intros _.
  eapply wp_mono; [apply Hm, Hd | |].
  - intros a [d' e'] Hd'. by apply HQ.
  - by intros [d' e'] _ e0.
Qed.

Lemma identifyUser_doc fuel requestedKey w :
  fileOK w → wp (identifyUser dateAt userIdAt fuel requestedKey) (λ _, fileOK) fileOK w.
Proof.
  destruct w as [s m]. intros Hd. unfold identifyUser, identifyUser_exists, identifyUser_register.
  apply wp_bind.
  assert (Hrest : ∀ known m1,
    wp (match truthy requestedKey, known with
        | Some k, true => lift (_ensureEphemeralUser k);; ret (Identity.mk k false)
        | _, _ =>
            result ← DataStore.withState (identifyUser_mutator dateAt userIdAt fuel requestedKey);
            lift (_ensureEphemeralUser (Identity.userKey result));;
            ret result
        end) (λ _, fileOK) fileOK (s, m1)).
  { intros known m1.
    assert (Hmut : wp (result ← DataStore.withState
                         (identifyUser_mutator dateAt userIdAt fuel requestedKey);
                       lift (_ensureEphemeralUser (Identity.userKey result));;
                       ret result) (λ _, fileOK) fileOK (s, m1)).
    { apply wp_bind, withState_doc; [done | |].
      - intros result [s' m'] Hd'. apply wp_bind, lift_any; [| done]. intros [] m2.
        by apply wp_ret.
      - intros d e Hdoc. unfold identifyUser_mutator. apply wp_bind, wp_gets. simpl.
        apply wp_bind.
        assert (Hput : ∀ candidate e1,
          wp ((if truthy_at (users d) candidate then ret tt
               else now ← lift (_now dateAt);
                    users' ← assign (users d) candidate (UserRecord.mk candidate now ∅ []);
                    putState (mkDoc users'));;
              ret (Identity.mk candidate true) : ST (Doc * Manager.t) Identity.t)
            (λ _ '(d', _), docOK d') (λ _, True) (d, e1)).
        { intros candidate e1. apply wp_bind.
          destruct (truthy_at (users d) candidate).
          - apply wp_ret. by apply wp_ret.
          - apply wp_bind, lift_any; [| done]. intros now e2.
            apply wp_bind, wp_assign. apply wp_modify. apply wp_ret.
            apply (docOK_setUser d); [done |]. apply map_Forall_empty. }
        destruct (truthy requestedKey) as [k|].
        + destruct (truthy_at (users d) k).
          * apply lift_any; [| done]. intros candidate e1. apply Hput.
          * apply wp_ret, Hput.
        + apply lift_any; [| done]. intros candidate e1. apply Hput. }
    destruct (truthy requestedKey) as [k|]; [| exact Hmut].
    destruct known; [| exact Hmut].
    apply wp_bind, lift_any; [| done]. intros [] m2. by apply wp_ret. }
  destruct (truthy requestedKey) as [k|] eqn:Hk.
  - apply readState_any; [| done | done]. intros known m1. apply Hrest.
  - apply wp_ret. exact (Hrest false m).
Qed.

Lemma createUpload_doc userKey fileName fileSize chunkSize persist w :
  fileOK w →
  wp (createUpload dateAt fileIdAt userKey fileName fileSize chunkSize persist)
    (λ _, fileOK) fileOK w.
Proof.
  destruct w as [s m]. intros Hd. unfold createUpload.
  destruct (Math_ceil_div fileSize chunkSize) as [totalChunks|]; [| apply wp_stuck].
  apply wp_bind, lift_any; [| done]. intros uploadId m1.
  apply wp_bind, lift_any; [| done]. intros now m2.
  apply wp_bind, wp_lift. unfold wp. rewrite parse_run.
  set (u := Upload.mk _ _ _ _ _ _ _ _ _ _ _ _ _ _).
  set (base := parse_loc _ u).
  set (m3 := Manager.set_heap _ m2).
  assert (Hbase : load (Manager.heap m3) base = Some u) by apply load_parse.
  assert (Htail : ∀ w' : World, fileOK w' →
    wp (lift (ensureScratchDir uploadId);; lift (decorateObject base)) (λ _, fileOK) fileOK w').
  { intros [s' m'] Hd'. apply wp_bind, lift_any; [| done]. intros [] m4.
    by apply lift_any. }
  apply wp_bind. destruct persist.
  - apply wp_withState; [done |]. intros _.
    apply wp_bind, wp_ensureUserRecord. intros user d' e' _ Hok Hext.
    destruct (Hok Hd) as [Hd' Hu].
    apply wp_bind, wp_lift.
    eapply wp_run; [apply stringify_run; by eapply load_extends |].
    apply wp_bind, wp_assign. apply wp_modify.
    apply Htail. unfold fileOK. simpl.
    apply docOK_setUser; [done |]. apply map_Forall_insert_2; [| done].
    by split.
  - apply lift_any; [| done]. intros [] m4. by apply Htail.
Qed.

Lemma getUpload_doc userKey uploadId w :
  fileOK w → wp (getUpload userKey uploadId) (λ _, fileOK) fileOK w.
Proof.
  destruct w as [s m]. intros Hd. unfold getUpload.
  apply wp_bind, lift_any; [| done]. intros [l|] m1.
  - apply wp_bind, lift_any; [| done]. intros r m2. by apply wp_ret.
  - apply wp_bind, readState_any; [| done | done]. intros r m2. by apply wp_ret.
Qed.

Lemma getUserSnapshot_doc userKey w :
  fileOK w → wp (getUserSnapshot userKey) (λ _, fileOK) fileOK w.
Proof.
  destruct w as [s m]. intros Hd. unfold getUserSnapshot.
  apply wp_bind, readState_any; [| done | done]. intros persistentUser m1.
  apply wp_bind, lift_any; [| done]. intros ephemeralUser m2.
  assert (Hrest : ∀ history uploads (bucket : list loc) m3,
    wp (fromState ← lift (forEach (λ upload,
          decorated ← _decorateUpload upload; s ← statusOf decorated; ret (decorated, s)) uploads);
        fromMemory ← lift (forEach (λ upload,
          decorated ← decorateObject upload; s ← statusOf decorated; ret (decorated, s)) bucket);
        let all := fromState ++ fromMemory in
        ret (Some (Snapshot.mk
          (filter (λ d, d.2 ≠ paused) all).*1
          (filter (λ d, d.2 = paused) all).*1
          history))) (λ _, fileOK) fileOK (s, m3)).
  { intros history uploads bucket m3.
    apply wp_bind, lift_any; [| done]. intros fromState m4.
    apply wp_bind, lift_any; [| done]. intros fromMemory m5. by apply wp_ret. }
  destruct persistentUser, ephemeralUser; try apply Hrest. by apply wp_ret.
Qed.

Lemma recordChunk_doc userKey uploadId chunkIndex w :
  fileOK w → wp (recordChunk dateAt userKey uploadId chunkIndex) (λ _, fileOK) fileOK w.
Proof.
  destruct w as [s m]. intros Hd. unfold recordChunk.
  apply wp_bind, lift_any; [| done]. intros [l|] m1.
  - apply wp_bind, lift_any; [| done]. intros [] m2.
    apply wp_bind, lift_any; [| done]. intros r m3.
    apply wp_bind, lift_any; [| done]. intros missing m4. by apply wp_ret.
  - apply withState_doc; [done | done |]. intros d e Hdoc.
    apply wp_bind, wp_findUpload; [| done]. intros user upload Hu Hup.
    apply wp_bind, wp_lift, wp_markChunk; [| done]. intros t m2.
    apply wp_bind, wp_modify.
    apply wp_bind, lift_any; [| done]. intros r m3.
    apply wp_bind, lift_any; [| done]. intros missing m4. apply wp_ret.
    apply docOK_setUser; [done |]. apply map_Forall_insert_2.
    + apply uploadOK_marked. exact (Hdoc _ _ Hu _ _ Hup).
    + exact (Hdoc _ _ Hu).
Qed.

Lemma updateStatus_doc userKey uploadId status w :
  fileOK w → wp (updateStatus dateAt userKey uploadId status) (λ _, fileOK) fileOK w.
Proof.
  destruct w as [s m]. intros Hd. unfold updateStatus.
  apply wp_bind, lift_any; [| done]. intros [l|] m1.
  - apply wp_bind, lift_any; [| done]. intros [] m2. by apply lift_any.
  - apply withState_doc; [done | done |]. intros d e Hdoc.
    apply wp_bind, wp_findUpload; [| done]. intros user upload Hu Hup.
    apply wp_bind, lift_any; [| done]. intros now m2.
    apply wp_bind, wp_modify. apply lift_any; [| done]. intros r m3.
    apply docOK_setUser; [done |]. apply map_Forall_insert_2.
    + exact (Hdoc _ _ Hu _ _ Hup).
    + exact (Hdoc _ _ Hu).
Qed.

Lemma finalizeUpload_doc userKey uploadId w :
  fileOK w → wp (finalizeUpload dateAt userKey uploadId) (λ _, fileOK) fileOK w.
Proof.
  destruct w as [s m]. intros Hd. unfold finalizeUpload.
  apply wp_bind, lift_any; [| done]. intros [l|] m1.
  - apply wp_bind, lift_any; [| done]. intros [] m2.
    apply wp_bind, lift_any; [| done]. intros [] m3.
    apply wp_bind, withState_doc; [done | |].
    + intros [] [s' m'] Hd'. by apply lift_any.
    + intros d e Hdoc. by apply historyMutator_doc.
  - apply withState_doc; [done | done |]. intros d e Hdoc.
    apply wp_bind, wp_findUpload; [| done]. intros user upload Hu Hup.
    apply wp_bind, lift_any; [| done]. intros now m2.
    apply wp_bind, lift_any; [| done]. intros r m3.
    apply wp_bind, lift_any; [| done]. intros entry m4.
    apply wp_bind, wp_modify. apply wp_ret.
    apply docOK_setUser; [done |]. apply map_Forall_delete. exact (Hdoc _ _ Hu).
Qed.

Lemma clearHistory_doc userKey w :
  fileOK w → wp (clearHistory userKey) (λ _, fileOK) fileOK w.
Proof.
  destruct w as [s m]. intros Hd. unfold clearHistory.
  apply withState_doc; [done | done |]. intros d e Hdoc.
  apply wp_bind, wp_gets. apply wp_bind, wp_prop. simpl.
  destruct (users d !! userKey) as [user|] eqn:Hu; [| done].
  apply wp_bind, wp_modify. apply wp_ret.
  apply docOK_setUser; [done |]. exact (Hdoc _ _ Hu).
Qed.

Lemma removeUpload_doc userKey uploadId forget w :
  fileOK w → wp (removeUpload dateAt userKey uploadId forget) (λ _, fileOK) fileOK w.
Proof.
  destruct w as [s m]. intros Hd. unfold removeUpload.
  apply wp_bind, lift_any; [| done]. intros [l|] m1.
  - apply wp_bind, lift_any; [| done]. intros [] m2.
    apply wp_bind. destruct forget.
    + apply wp_ret. by apply lift_any.
    + apply withState_doc; [done | |].
      * intros [] [s' m'] Hd'. by apply lift_any.
      * intros d e Hdoc. by apply historyMutator_doc.
  - apply withState_doc; [done | done |]. intros d e Hdoc.
    apply wp_bind, wp_findUpload; [| done]. intros user upload Hu Hup.
    apply wp_bind, lift_any; [| done]. intros r m2.
    assert (Hset : ∀ history' e1,
      wp (setUser userKey
            (UserRecord.set_uploads (delete uploadId (UserRecord.uploads user))
               (UserRecord.set_history history' user));; ret r : ST (Doc * Manager.t) loc)
         (λ _ '(d', _), docOK d') (λ _, True) (d, e1)).
    { intros history' e1. apply wp_bind, wp_modify. apply wp_ret.
      apply docOK_setUser; [done |]. apply map_Forall_delete. exact (Hdoc _ _ Hu). }
    apply wp_bind. destruct forget.
    + apply wp_ret, Hset.
    + apply wp_bind, lift_any; [| done]. intros entry m3. apply wp_ret, Hset.
Qed.

Lemma run_doc call w :
  fileOK w → wp (run dateAt userIdAt fileIdAt call) (λ _, fileOK) fileOK w.
Proof.
  intros Hd. destruct call; unfold run.
  - by apply wp_fmap, identifyUser_doc.
  - by apply wp_fmap, getUserSnapshot_doc.
  - by apply wp_fmap, createUpload_doc.
  - by apply wp_fmap, getUpload_doc.
  - by apply wp_fmap, recordChunk_doc.
  - by apply wp_fmap, updateStatus_doc.
  - by apply wp_fmap, finalizeUpload_doc.
  - by apply wp_fmap, clearHistory_doc.
  - by apply wp_fmap, removeUpload_doc.
  - destruct w as [s m]. by apply wp_fmap, lift_any.
  - destruct w as [s m]. apply wp_bind, lift_any; [| done]. intros [] m1. by apply wp_ret.
Qed.

Lemma reachable_fileOK w : reachable dateAt userIdAt fileIdAt w → fileOK w.
Proof.
  induction 1 as [| w _ IH | w call reply w' _ IH Hrun | w call e w' _ IH Hrun].
  - apply map_Forall_empty.
  - exact IH.
  - exact (wp_Ok _ _ _ _ _ _ (run_doc call w IH) Hrun).
  - exact (wp_Throw _ _ _ _ _ _ (run_doc call w IH) Hrun).
Qed.

(** C4 (as amended): in every reachable state, an upload stored in the
    state file has no [missingChunks] field, and it does have a
    [receivedCount] field, which holds the number of keys of its
    [receivedChunks]. *)
Theorem persisted_uploads_have_no_missingChunks (w : World) (userKey uploadId : string)
    (user : UserRecord.t) (upload : UploadJ) :
  reachable dateAt userIdAt fileIdAt w →
  users (DataStore._read w.1) !! userKey = Some user →
  UserRecord.uploads user !! uploadId = Some upload →
  Upload.missingChunks upload = None ∧
  Upload.receivedCount upload = Some (Z.of_nat (size (Upload.receivedChunks upload))).
Proof.
  intros Hw Hu Hup. exact (reachable_fileOK w Hw _ _ Hu _ _ Hup).
Qed.

End persisted_fields.

Definition aliceRecord (persist : bool) : UserRecord.t :=
  UserRecord.mk aliceKey (sampleDate 0)
    (if persist then {[sampleFileId 0 := reportUpload true]} else ∅) [].

Lemma persisted_uploads_have_no_missingChunks_witness :
  reachable sampleDate sampleUserId sampleFileId (withUpload true) ∧
  users (DataStore._read (withUpload true).1) !! aliceKey = Some (aliceRecord true) ∧
  UserRecord.uploads (aliceRecord true) !! sampleFileId 0 = Some (reportUpload true) ∧
  Upload.missingChunks (reportUpload true) = None ∧
  Upload.receivedCount (reportUpload true)
    = Some (Z.of_nat (size (Upload.receivedChunks (reportUpload true)))).
Proof.
  assert (Hu : users (DataStore._read (withUpload true).1) !! aliceKey
               = Some (aliceRecord true)) by (vm_compute; reflexivity).
  assert (Hup : UserRecord.uploads (aliceRecord true) !! sampleFileId 0
                = Some (reportUpload true)) by (vm_compute; reflexivity).
  split; [apply withUpload_reachable |]. split; [exact Hu |]. split; [exact Hup |].
  exact (persisted_uploads_have_no_missingChunks sampleDate sampleUserId sampleFileId
           (withUpload true) aliceKey (sampleFileId 0) (aliceRecord true) (reportUpload true)
           (withUpload_reachable true) Hu Hup).
Defined.

(** C4 (as stated) fails: a reachable state whose state file
    holds an upload with a [receivedCount] field. *)
Lemma persisted_upload_has_receivedCount :
  reachable sampleDate sampleUserId sampleFileId (withUpload true) ∧
  ∃ user upload,
    users (DataStore._read (withUpload true).1) !! aliceKey = Some user ∧
    UserRecord.uploads user !! sampleFileId 0 = Some upload ∧
    Upload.receivedCount upload = Some 0.
Proof.
  split; [apply withUpload_reachable |].
  exists (aliceRecord true), (reportUpload true).
  split; [vm_compute; reflexivity |]. split; [vm_compute; reflexivity |]. reflexivity.
Qed.

(** * Further properties of the code *)

(** ** The decorated copy *)

Lemma StronglySorted_seqZ m n : StronglySorted Z.lt (seqZ m n).
Proof.
  destruct (decide (0 ≤ n)) as [Hn|Hn]; [| rewrite seqZ_nil by lia; constructor].
  rewrite <- (Z2Nat.id n Hn). generalize (Z.to_nat n) as k. clear. intros k. revert m.
  induction k as [|k IH]; intros m; [constructor |].
  rewrite seqZ_cons by lia. replace (Z.pred (Z.of_nat (S k))) with (Z.of_nat k) by lia.
  constructor; [apply IH |]. apply Forall_seqZ. lia.
Qed.

Lemma StronglySorted_filter {A} (R : relation A) (P : A → Prop) `{∀ x, Decision (P x)} l :
  StronglySorted R l → StronglySorted R (filter P l).
Proof.
  induction 1 as [|x l Hl IH Hx]; [constructor |].
  rewrite filter_cons. case_decide; [| done].
  constructor; [done |]. apply Forall_forall. intros y Hy.
  apply list_elem_of_filter in Hy as [_ Hy]. by eapply Forall_forall in Hx.
Qed.

(** The received indices that count: those of [0, totalChunks). *)
Definition receivedInRange (u : UploadJ) : gset Z :=
  filter (λ i, 0 ≤ i < Upload.totalChunks u) (Upload.receivedChunks u).

Lemma _missingChunks_elem u i :
  i ∈ _missingChunks u ↔ 0 ≤ i < Upload.totalChunks u ∧ i ∉ Upload.receivedChunks u.
Proof. unfold _missingChunks. rewrite list_elem_of_filter, elem_of_seqZ. intuition lia. Qed.

Lemma _missingChunks_length u :
  0 ≤ Upload.totalChunks u →
  Z.of_nat (length (_missingChunks u)) + Z.of_nat (size (receivedInRange u))
  = Upload.totalChunks u.
Proof.
  intros Hn. unfold _missingChunks, receivedInRange.
  set (n := Upload.totalChunks u) in *. set (rc := Upload.receivedChunks u).
  assert (Hset : filter (λ i, 0 ≤ i < n) rc
                 = list_to_set (filter (λ i, i ∈ rc) (seqZ 0 n))).
  { apply set_eq. intros i.
    rewrite elem_of_filter, elem_of_list_to_set, list_elem_of_filter, elem_of_seqZ.
    intuition lia. }
  rewrite Hset, size_list_to_set by apply NoDup_filter, NoDup_seqZ.
  pose proof (filter_app_complement (λ i, i ∈ rc) (seqZ 0 n)) as Hperm.
  apply Permutation_length in Hperm. rewrite length_app, length_seqZ in Hperm.
  lia.
Qed.

(** The object [_decorateUpload] returns: a new object which has the
    fields of the upload, [missingChunks] set to the indices of
    [0, totalChunks) that were not received, in increasing order, and
    [receivedCount] set to the number of received indices within that
    range (whatever [receivedCount] the upload itself holds). *)
Theorem _decorateUpload_counts (u : UploadJ) (m : Manager.t) :
  0 ≤ Upload.totalChunks u →
  ∃ clone m' missing,
    _decorateUpload u m = (Ok clone, m') ∧
    load (Manager.heap m') clone
    = Some (Upload.set_receivedCount (Some (Z.of_nat (size (receivedInRange u))))
              (Upload.with_nested (Upload.receivedChunks u) (Some missing) u)) ∧
    (∀ i, i ∈ missing ↔ 0 ≤ i < Upload.totalChunks u ∧ i ∉ Upload.receivedChunks u) ∧
    StronglySorted Z.lt missing ∧
    Z.of_nat (length missing) + Z.of_nat (size (receivedInRange u)) = Upload.totalChunks u.
Proof.
  intros Hn. rewrite _decorateUpload_run. eexists _, _, (_missingChunks u).
  split; [reflexivity |]. simpl. rewrite load_decorate.
  pose proof (_missingChunks_length u Hn) as Hlen.
  split_and!.
  - replace (Z.of_nat (size (receivedInRange u)))
      with (Upload.totalChunks u - Z.of_nat (length (_missingChunks u))) by lia.
    reflexivity.
  - apply _missingChunks_elem.
  - apply StronglySorted_filter, StronglySorted_seqZ.
  - exact Hlen.
Qed.

Lemma _decorateUpload_counts_witness :
  ∃ clone m' missing,
    _decorateUpload (marked threeChunkUpload 1 7) Manager.init = (Ok clone, m') ∧
    load (Manager.heap m') clone
    = Some (Upload.set_receivedCount
              (Some (Z.of_nat (size (receivedInRange (marked threeChunkUpload 1 7)))))
              (Upload.with_nested (Upload.receivedChunks (marked threeChunkUpload 1 7))
                 (Some missing) (marked threeChunkUpload 1 7))) ∧
    (∀ i, i ∈ missing ↔ 0 ≤ i < 3 ∧ i ∉ Upload.receivedChunks (marked threeChunkUpload 1 7)) ∧
    StronglySorted Z.lt missing ∧
    Z.of_nat (length missing)
    + Z.of_nat (size (receivedInRange (marked threeChunkUpload 1 7))) = 3.
Proof.
  apply (_decorateUpload_counts (marked threeChunkUpload 1 7) Manager.init). simpl. lia.
Defined.

(** ** _safeFileName *)

Lemma dropSlashes_id l : "/"%char ∉ l → dropSlashes l = l.
Proof.
  destruct l as [|c l]; [done |]. intros Hc. simpl.
  destruct (Ascii.eqb c "/") eqn:Heq; [| done].
  apply Ascii.eqb_eq in Heq. subst. set_solver.
Qed.

Lemma untilSlash_id l : "/"%char ∉ l → untilSlash l = l.
Proof.
  induction l as [|c l IH]; [done |]. intros Hc. simpl.
  destruct (Ascii.eqb c "/") eqn:Heq.
  - apply Ascii.eqb_eq in Heq. subst. set_solver.
  - f_equal. apply IH. set_solver.
Qed.

Lemma basename_id name :
  "/"%char ∉ String.list_ascii_of_string name → basename name = name.
Proof.
  intros H. unfold basename.
  assert ("/"%char ∉ reverse (String.list_ascii_of_string name)) as Hr
    by (by rewrite elem_of_reverse).
  rewrite dropSlashes_id, untilSlash_id, reverse_involutive by done.
  apply String.string_of_list_ascii_of_string.
Qed.

Lemma safeChar_slash c : safeChar c = true → c ≠ "/"%char.
Proof. intros H ->. discriminate. Qed.

(** The name [_safeFileName] returns consists of characters of
    [[A-Za-z0-9._-]] only; in particular it holds no [/], so that
    [<finalDir>/<id>-<name>] names an entry of [finalDir] whenever the id
    holds none.  Applying [_safeFileName] to its result changes nothing. *)
Theorem _safeFileName_safe (name : string) :
  Forall (λ c, safeChar c = true) (String.list_ascii_of_string (_safeFileName name)) ∧
  ("/"%char ∉ String.list_ascii_of_string (_safeFileName name)) ∧
  _safeFileName (_safeFileName name) = _safeFileName name.
Proof.
  assert (Hsafe : Forall (λ c, safeChar c = true)
                    (String.list_ascii_of_string (_safeFileName name))).
  { unfold _safeFileName. rewrite String.list_ascii_of_string_of_list_ascii.
    apply Forall_fmap, Forall_true. intros c. simpl.
    destruct (safeChar c) eqn:Hc; [exact Hc | reflexivity]. }
  assert (Hslash : "/"%char ∉ String.list_ascii_of_string (_safeFileName name)).
  { intros Hin. rewrite Forall_forall in Hsafe. specialize (Hsafe _ Hin).
    vm_compute in Hsafe. discriminate. }
  split; [exact Hsafe |]. split; [exact Hslash |].
  unfold _safeFileName at 1. rewrite basename_id by exact Hslash.
  rewrite <- (String.string_of_list_ascii_of_string (_safeFileName name)) at 2.
  f_equal. clear Hslash. induction Hsafe as [|c l Hc _ IH]; [done |].
  rewrite fmap_cons, Hc. simpl. f_equal. exact IH.
Qed.

(** ** assembleFile, when every part is there *)

Lemma pipeParts_all uploadId name (indices : list Z) (datas : list bytes) old (m : Manager.t) :
  Forall2 (λ i data, partFile m uploadId i = Some data) indices datas →
  Manager.finalDir m !! name = Some old →
  pipeParts uploadId name indices m
  = (Ok tt, Manager.set_finalDir (<[name := old ++ mjoin datas]> (Manager.finalDir m)) m).
Proof.
  revert indices old m.
  induction datas as [|data datas IH]; intros indices old m Hparts Hold.
  - apply Forall2_nil_inv_r in Hparts as ->. simpl.
    rewrite app_nil_r, insert_id by done. by destruct m.
  - apply Forall2_cons_inv_r in Hparts as (i & rest & Hi & Hrest & ->). simpl.
    unfold partFile in Hi.
    rewrite (bind_run _ _ m (Some data) m) by (unfold gets; by rewrite Hi).
    set (m1 := Manager.set_finalDir (<[name := old ++ data]> (Manager.finalDir m)) m).
    rewrite (bind_run _ _ m tt m1) by (unfold modify, m1; by rewrite Hold).
    rewrite (IH rest (old ++ data) m1).
    + unfold m1. simpl. rewrite insert_insert_eq, <- app_assoc. done.
    + exact Hrest.
    + apply lookup_insert_eq.
Qed.

(** [assembleFile] with every part in place. *)
Lemma assembleFile_run {R A} (upload : Upload.t R A) (m : Manager.t)
    (datas : list bytes) :
  Forall2 (λ i data, partFile m (Upload.id upload) i = Some data)
    (seqZ 0 (Upload.totalChunks upload)) datas →
  assembleFile upload m
  = (Ok (finalName upload),
     Manager.set_uploadDir (delete (Upload.id upload) (Manager.uploadDir m))
       (Manager.set_finalDir (<[finalName upload := mjoin datas]> (Manager.finalDir m)) m)).
Proof.
  intros Hparts. unfold assembleFile. fold (finalName upload).
  set (m0 := Manager.set_finalDir (<[finalName upload := []]> (Manager.finalDir m)) m).
  rewrite (bind_run _ _ m tt m0) by reflexivity.
  rewrite (bind_run _ _ m0 tt
             (Manager.set_finalDir (<[finalName upload := [] ++ mjoin datas]>
                                      (Manager.finalDir m0)) m0)).
  - unfold m0. simpl. rewrite insert_insert_eq. reflexivity.
  - apply pipeParts_all; [exact Hparts | apply lookup_insert_eq].
Qed.


(** A scratch directory with the three parts of [threeChunkUpload]. *)
Definition allParts : Manager.t :=
  Manager.set_uploadDir
    {[ sampleFileId 0 := {[ 0 := [Byte.x41]; 1 := [Byte.x42; Byte.x43]; 2 := [Byte.x44] ]} ]}
    Manager.init.


(** ** Saving a chunk *)

(** The write of a part file by the chunk handler. *)
Lemma saveChunk_run (uploadId : string) (index : Z) (data : bytes) (m : Manager.t) :
  ∃ m',
    saveChunk uploadId index data m = (Ok tt, m') ∧
    partFile m' uploadId index = Some (default data (partFile m uploadId index)) ∧
    (∀ uploadId' index', uploadId' ≠ uploadId ∨ index' ≠ index →
       partFile m' uploadId' index' = partFile m uploadId' index') ∧
    Manager.finalDir m' = Manager.finalDir m ∧
    Manager.heap m' = Manager.heap m ∧
    Manager.ephemeral m' = Manager.ephemeral m.
Proof.
  eexists. split; [reflexivity |]. unfold partFile. simpl.
  destruct (Manager.uploadDir m !! uploadId) as [dir|] eqn:Hdir; simpl.
  - rewrite Hdir. simpl. destruct (dir !! index) as [old|] eqn:Hold; simpl.
    + rewrite Hdir. simpl. rewrite Hold. done.
    + rewrite lookup_insert_eq. simpl. rewrite lookup_insert_eq.
      split_and!; try done. intros uploadId' index' Hne.
      destruct (decide (uploadId' = uploadId)) as [->|Hid].
      * rewrite lookup_insert_eq, Hdir. simpl. destruct Hne as [|Hne]; [done |].
        by rewrite lookup_insert_ne.
      * by rewrite lookup_insert_ne.
  - rewrite lookup_insert_eq. simpl. rewrite lookup_empty. simpl.
    rewrite lookup_insert_eq. simpl. rewrite lookup_insert_eq.
    split_and!; try done. intros uploadId' index' Hne.
    destruct (decide (uploadId' = uploadId)) as [->|Hid].
    + rewrite lookup_insert_eq, Hdir. simpl. destruct Hne as [|Hne]; [done |].
      rewrite lookup_insert_ne by done. by rewrite lookup_empty.
    + rewrite !lookup_insert_ne by done. done.
Qed.


(** ** identifyUser: generated keys, and identifying again *)

(** Store calls, when only what they return matters. *)
Lemma wp_withState_returned {E A} (mutator : ST (Doc * E) A)
    (Q : A → DataStore.t * E → Prop) s env :
  (DataStore._lock s = None →
   wp mutator (λ r '(state, env'), Q r (DataStore._write state s, env')) (λ _, True)
     (DataStore._read s, env)) →
  wp (DataStore.withState mutator) Q (λ _, True) (s, env).
Proof.
  intros Hm. apply wp_withState; [done |]. intros Hlock.
  eapply wp_mono; [exact (Hm Hlock) | done |]. by intros [d e].
Qed.

Lemma wp_readState_returned {E A} (selector : ST (Doc * E) A)
    (Q : A → DataStore.t * E → Prop) s env :
  (DataStore._lock s = None →
   wp selector (λ r '(_, env'), Q r (s, env')) (λ _, True) (DataStore._read s, env)) →
  wp (DataStore.readState selector) Q (λ _, True) (s, env).
Proof.
  intros Hm. apply wp_readState; [done |]. intros Hlock.
  eapply wp_mono; [exact (Hm Hlock) | done |]. by intros [d e].
Qed.

Section identifyUser_more.
Context (dateAt : nat → Timestamp) (userIdAt : nat → string).

(** Without a requested key (none, or the empty string), [identifyUser]
    answers with the first identifier the generator yields that is no
    property of [state.users]: the identifiers before it, which are
    taken, are skipped.  The key is new, a user record with no uploads and
    no history is filed under it, no other user record changes, and the
    user's ephemeral bucket exists afterwards. *)
Theorem identifyUser_generates_free_key (fuel n : nat) (requestedKey : option string)
    (w : World) :
  truthy requestedKey = None →
  DataStore._lock w.1 = None →
  (n < fuel)%nat →
  (∀ j, (j < n)%nat →
     truthy_at (users (DataStore._read w.1))
       (userIdAt (Manager.userIdDraws w.2 + j)%nat) = true) →
  truthy_at (users (DataStore._read w.1))
    (userIdAt (Manager.userIdDraws w.2 + n)%nat) = false →
  let userKey := userIdAt (Manager.userIdDraws w.2 + n)%nat in
  ∃ w' : World,
    identifyUser dateAt userIdAt fuel requestedKey w = (Ok (Identity.mk userKey true), w') ∧
    users (DataStore._read w.1) !! userKey = None ∧
    users (DataStore._read w'.1)
    = <[userKey := UserRecord.mk userKey (dateAt (Manager.clockReads w.2)) ∅ []]>
        (users (DataStore._read w.1)) ∧
    DataStore._lock w'.1 = None ∧
    is_Some (Manager.ephemeral w'.2 !! userKey).
Proof.
  destruct w as [s m]. simpl. intros Hkey Hlock Hn Htaken Hfree.
  destruct (truthy_at_free _ _ Hfree) as [Hnone Hinh].
  unfold identifyUser, identifyUser_exists, identifyUser_register. rewrite Hkey.
  rewrite (bind_run _ _ (s, m) false (s, m)) by reflexivity.
  erewrite bind_run; last first.
  { eapply withState_run; [done |]. unfold identifyUser_mutator. rewrite Hkey.
    rewrite (bind_run _ _ _ (DataStore._read s) (DataStore._read s, m)) by reflexivity.
    erewrite bind_run; last first.
    { apply lift_run. by apply (drawUserId_run userIdAt fuel _ m n). }
    rewrite Hfree. st_unfold. simpl.
    unfold assign. rewrite (inherited_proto _ Hinh). st_unfold. simpl. reflexivity. }
  eexists. split; [reflexivity |]. simpl.
  split; [done |]. split; [done |]. split; [done |].
  destruct (Manager.ephemeral m !! _) eqn:He; simpl; [by rewrite He |].
  rewrite lookup_insert_eq. eauto.
Qed.

(** What holds after any successful [identifyUser]. *)
Lemma identifyUser_Ok fuel requestedKey w r w' :
  identifyUser dateAt userIdAt fuel requestedKey w = (Ok r, w') →
  DataStore._lock w'.1 = None ∧
  truthy_at (users (DataStore._read w'.1)) (Identity.userKey r) = true ∧
  is_Some (Manager.ephemeral w'.2 !! Identity.userKey r).
Proof.
  destruct w as [s m]. intros Hrun.
  refine (wp_Ok _ (λ r w', DataStore._lock w'.1 = None ∧
            truthy_at (users (DataStore._read w'.1)) (Identity.userKey r) = true ∧
            is_Some (Manager.ephemeral w'.2 !! Identity.userKey r)) (λ _, True)
            _ _ _ _ Hrun).
  clear Hrun. unfold identifyUser, identifyUser_exists, identifyUser_register.
  assert (Hensure : ∀ k (s' : DataStore.t) m' created,
    DataStore._lock s' = None → truthy_at (users (DataStore._read s')) k = true →
    wp (lift (_ensureEphemeralUser k);; ret (Identity.mk k created))
      (λ r w', DataStore._lock w'.1 = None ∧
         truthy_at (users (DataStore._read w'.1)) (Identity.userKey r) = true ∧
         is_Some (Manager.ephemeral w'.2 !! Identity.userKey r)) (λ _ : World, True) (s', m')).
  { intros k s' m' created Hlock Htruthy. apply wp_bind, wp_lift. unfold wp. simpl.
    split; [done |]. split; [done |].
    destruct (Manager.ephemeral m' !! k) eqn:He; simpl; [by rewrite He |].
    rewrite lookup_insert_eq. eauto. }
  assert (Hmut : ∀ m1,
    wp (result ← DataStore.withState (identifyUser_mutator dateAt userIdAt fuel requestedKey);
        lift (_ensureEphemeralUser (Identity.userKey result));; ret result)
      (λ r w', DataStore._lock w'.1 = None ∧
         truthy_at (users (DataStore._read w'.1)) (Identity.userKey r) = true ∧
         is_Some (Manager.ephemeral w'.2 !! Identity.userKey r)) (λ _ : World, True) (s, m1)).
  { intros m1. apply wp_bind, wp_withState_returned. intros Hlock.
    unfold identifyUser_mutator. apply wp_bind, wp_gets. simpl. apply wp_bind.
    assert (Hput : ∀ candidate e1,
      wp ((if truthy_at (users (DataStore._read s)) candidate then ret tt
           else now ← lift (_now dateAt);
                users' ← assign (users (DataStore._read s)) candidate
                           (UserRecord.mk candidate now ∅ []);
                putState (mkDoc users'));;
          ret (Identity.mk candidate true) : ST (Doc * Manager.t) Identity.t)
        (λ r '(state, env'),
           wp (lift (_ensureEphemeralUser (Identity.userKey r));; ret r)
             (λ r w', DataStore._lock w'.1 = None ∧
                truthy_at (users (DataStore._read w'.1)) (Identity.userKey r) = true ∧
                is_Some (Manager.ephemeral w'.2 !! Identity.userKey r)) (λ _ : World, True)
             (DataStore._write state s, env'))
        (λ _, True) (DataStore._read s, e1)).
    { intros candidate e1. apply wp_bind.
      destruct (truthy_at (users (DataStore._read s)) candidate) eqn:Ht.
      - apply wp_ret. apply wp_ret. by apply (Hensure candidate).
      - apply wp_bind, lift_any; [| done]. intros now e2.
        apply wp_bind, wp_assign. apply wp_modify. apply wp_ret.
        apply (Hensure candidate); [done |]. apply truthy_at_insert. }
    destruct (truthy requestedKey) as [k|].
    - destruct (truthy_at (users (DataStore._read s)) k).
      + apply lift_any; [| done]. intros candidate e1. apply Hput.
      + apply wp_ret, Hput.
    - apply lift_any; [| done]. intros candidate e1. apply Hput. }
  destruct (truthy requestedKey) as [k|] eqn:Hk.
  - apply wp_bind, wp_readState_returned. intros Hlock.
    apply wp_bind, wp_gets. apply wp_ret. simpl.
    destruct (truthy_at (users (DataStore._read s)) k) eqn:Ht; [| apply Hmut].
    by apply Hensure.
  - apply wp_bind, wp_ret. apply Hmut.
Qed.

(** Identifying again with the key an [identifyUser] call has returned
    reports that key with [created: false], and changes nothing at all:
    neither the state file nor the manager's memory. *)
Theorem identifyUser_again (fuel fuel' : nat) (requestedKey : option string)
    (w w' : World) (r : Identity.t) :
  identifyUser dateAt userIdAt fuel requestedKey w = (Ok r, w') →
  Identity.userKey r ≠ ""%string →
  identifyUser dateAt userIdAt fuel' (Some (Identity.userKey r)) w'
  = (Ok (Identity.mk (Identity.userKey r) false), w').
Proof.
  intros Hrun Hne. destruct (identifyUser_Ok _ _ _ _ _ Hrun) as (Hlock & Htruthy & [b Hb]).
  destruct w' as [s' m']. simpl in *.
  unfold identifyUser, identifyUser_exists, identifyUser_register. rewrite (truthy_Some _ Hne).
  erewrite bind_run; last first.
  { eapply readState_run; [done |]. st_unfold. simpl. reflexivity. }
  rewrite Htruthy. st_unfold. simpl. by rewrite Hb.
Qed.

End identifyUser_more.

(** *** Identifications that overlap with other calls *)

Section overlap.
Context (dateAt : nat → Timestamp) (userIdAt fileIdAt : nat → string).

(** The second job of [identifyUser], run on its own after other calls,
    does what some whole call does there. *)
Lemma identifyUser_register_as_call fuel requestedKey w :
  ∃ requestedKey',
    identifyUser_register dateAt userIdAt fuel requestedKey w
    = identifyUser dateAt userIdAt fuel requestedKey' w.
Proof.
  destruct w as [s m].
  destruct (truthy requestedKey) as [k|] eqn:Hkey; last first.
  { exists requestedKey. unfold identifyUser. by rewrite Hkey. }
  destruct (DataStore._lock s) as [e|] eqn:Hlock.
  { exists requestedKey. unfold identifyUser, identifyUser_register, identifyUser_exists.
    rewrite Hkey.
    rewrite (bind_run_Throw _ _ _ _ _ (rejected_lock_skips_withState _ _ _ _ Hlock)).
    by rewrite (bind_run_Throw _ _ _ _ _ (rejected_lock_skips_readState _ _ _ _ Hlock)). }
  destruct (truthy_at (users (DataStore._read s)) k) eqn:Htaken.
  - exists None. unfold identifyUser. simpl. rewrite bind_eq. simpl.
    unfold identifyUser_register. rewrite !bind_eq.
    unfold DataStore.withState. rewrite Hlock.
    unfold identifyUser_mutator. rewrite Hkey. simpl. rewrite !bind_eq. simpl.
    by rewrite Htaken.
  - exists requestedKey. unfold identifyUser. rewrite Hkey.
    rewrite (bind_run _ _ _ _ _ (identifyUser_exists_run k s m Hlock)).
    by rewrite Htaken.
Qed.

(** So the states the program reaches are the same whether or not
    identifications overlap with other calls. *)
Lemma reachable_identifyUser_register fuel requestedKey w r w' :
  reachable dateAt userIdAt fileIdAt w →
  identifyUser_register dateAt userIdAt fuel requestedKey w = (r, w') →
  r ≠ Stuck →
  reachable dateAt userIdAt fileIdAt w'.
Proof.
  intros Hreach Hrun Hr.
  destruct (identifyUser_register_as_call fuel requestedKey w) as [requestedKey' Heq].
  rewrite Heq in Hrun. destruct r as [identity|e|]; [| | done].
  - apply (reachable_returned _ _ _ w (IdentifyUser fuel requestedKey') (Identified identity));
      [done |]. unfold run, fmap, ST_fmap, bind. by rewrite Hrun.
  - apply (reachable_thrown _ _ _ w (IdentifyUser fuel requestedKey') e); [done |].
    unfold run, fmap, ST_fmap, bind. by rewrite Hrun.
Qed.

End overlap.

Lemma identifyUser_generates_free_key_witness :
  ∃ w' : World,
    identifyUser sampleDate sampleUserId 8 None identified
    = (Ok (Identity.mk (sampleUserId 0) true), w') ∧
    users (DataStore._read identified.1) !! sampleUserId 0 = None ∧
    users (DataStore._read w'.1)
    = <[sampleUserId 0 := UserRecord.mk (sampleUserId 0) (sampleDate 1) ∅ []]>
        (users (DataStore._read identified.1)) ∧
    DataStore._lock w'.1 = None ∧
    is_Some (Manager.ephemeral w'.2 !! sampleUserId 0).
Proof.
  apply (identifyUser_generates_free_key sampleDate sampleUserId 8 0 None identified).
  - reflexivity.
  - reflexivity.
  - lia.
  - intros j Hj. lia.
  - vm_compute. reflexivity.
Defined.

Lemma identifyUser_again_witness :
  identifyUser sampleDate sampleUserId 3 (Some aliceKey) identified
  = (Ok (Identity.mk aliceKey false), identified).
Proof.
  apply (identifyUser_again sampleDate sampleUserId 8 3 (Some aliceKey) initialWorld identified
           (Identity.mk aliceKey true)).
  - vm_compute. reflexivity.
  - discriminate.
Defined.

(** ** recordChunk, when the index is in range *)

Lemma marked_receivedChunks u i now :
  Upload.receivedChunks (marked u i now) = {[i]} ∪ Upload.receivedChunks u.
Proof.
  simpl. case_bool_decide as Hi; [| done].
  apply set_eq. intros j. rewrite elem_of_union, elem_of_singleton.
  split; [by right | by intros [-> | ?]].
Qed.

Lemma no_missingChunks u :
  length (_missingChunks u) = 0%nat ↔
  ∀ j, 0 ≤ j < Upload.totalChunks u → j ∈ Upload.receivedChunks u.
Proof.
  split.
  - intros Hlen j Hj. apply nil_length_inv in Hlen.
    destruct (decide (j ∈ Upload.receivedChunks u)) as [Hin | Hout]; [done |].
    assert (j ∈ _missingChunks u) as Hmiss by (by apply _missingChunks_elem).
    rewrite Hlen in Hmiss. by apply elem_of_nil in Hmiss.
  - intros Hall. destruct (_missingChunks u) as [|j l] eqn:Hm; [done |].
    assert (j ∈ _missingChunks u) as Hj by (rewrite Hm; apply list_elem_of_here).
    apply _missingChunks_elem in Hj as [Hj Hout]. destruct Hout. by apply Hall.
Qed.

(** After [_markChunk], nothing is missing exactly when every index was
    received before, but possibly the one marked. *)
Lemma marked_complete u i now :
  length (_missingChunks (marked u i now)) = 0%nat ↔
  ∀ j, 0 ≤ j < Upload.totalChunks u → j = i ∨ j ∈ Upload.receivedChunks u.
Proof.
  rewrite no_missingChunks, marked_totalChunks.
  split; intros H j Hj; specialize (H j Hj);
    rewrite marked_receivedChunks, elem_of_union, elem_of_singleton in *; exact H.
Qed.

Section recordChunk_more.
Context (dateAt : nat → Timestamp).

(** [recordChunk] with an index of an upload the manager holds. *)
Lemma recordChunk_run (w : World) (userKey uploadId : string) (i : Z) (u : UploadJ) :
  DataStore._lock w.1 = None →
  storedUpload w userKey uploadId = Some u →
  0 ≤ i < Upload.totalChunks u →
  let u' := marked u i (dateAt (Manager.clockReads w.2)) in
  ∃ (r : Recorded.t) (w' : World),
    recordChunk dateAt userKey uploadId i w = (Ok r, w') ∧
    storedUpload w' userKey uploadId = Some u' ∧
    load (Manager.heap w'.2) (Recorded.upload r) = Some (decorated u') ∧
    Recorded.completed r = bool_decide (length (_missingChunks u') = 0%nat) ∧
    DataStore._lock w'.1 = None ∧
    Manager.ephemeral w'.2 = Manager.ephemeral w.2 ∧
    historyOf w' userKey = historyOf w userKey.
Proof.
  intros Hlock Hstored Hin u'. destruct w as [s m]. cbn [fst snd] in *.
  unfold storedUpload in Hstored. cbn [fst snd] in Hstored. fold u'.
  destruct (Manager.ephemeral m !! userKey ≫= (.!! uploadId)) as [l|] eqn:Hmem.
  - pose proof (recordChunk_memory_run dateAt s m _ _ _ _ _ Hmem Hstored Hin)
      as (r & m' & Hrun & Heph & Hl & Hd & Hc).
    exists r, (s, m'). split; [exact Hrun |]. unfold storedUpload. cbn [fst snd].
    rewrite Heph, Hmem. done.
  - destruct (users (DataStore._read s) !! userKey) as [user|] eqn:Huser; [| done].
    simpl in Hstored.
    pose proof (recordChunk_persistent_run dateAt s m _ _ _ _ _ Hmem Hlock Huser Hstored Hin)
      as (r & m' & Hrun & Heph & Hd & Hc).
    exists r. eexists. split; [exact Hrun |]. unfold storedUpload, historyOf. cbn [fst snd].
    rewrite Heph, Hmem. unfold DataStore._read at 1 2. simpl. rewrite !lookup_insert_eq.
    simpl. rewrite lookup_insert_eq, Huser. done.
Qed.

(** [recordChunk] with an index of the upload, for an upload the manager
    holds: it returns; the index is then among the received chunks, which
    are otherwise what they were; [receivedCount] is their number, the
    status is [active] and [updatedAt] the time of the call; the returned
    object is the decorated copy of the metadata; and [completed] is
    reported exactly when every chunk index of the upload has then been
    received. *)
Theorem recordChunk_marks_chunk (w : World) (userKey uploadId : string) (i : Z)
    (u : UploadJ) :
  DataStore._lock w.1 = None →
  storedUpload w userKey uploadId = Some u →
  0 ≤ i < Upload.totalChunks u →
  let u' := marked u i (dateAt (Manager.clockReads w.2)) in
  ∃ (r : Recorded.t) (w' : World),
    recordChunk dateAt userKey uploadId i w = (Ok r, w') ∧
    storedUpload w' userKey uploadId = Some u' ∧
    load (Manager.heap w'.2) (Recorded.upload r) = Some (decorated u') ∧
    Upload.receivedChunks u' = {[i]} ∪ Upload.receivedChunks u ∧
    Upload.receivedCount u' = Some (Z.of_nat (size (Upload.receivedChunks u'))) ∧
    (Recorded.completed r = true ↔
     ∀ j, 0 ≤ j < Upload.totalChunks u → j = i ∨ j ∈ Upload.receivedChunks u).
Proof.
  intros Hlock Hstored Hin u'.
  destruct (recordChunk_run w userKey uploadId i u Hlock Hstored Hin)
    as (r & w' & Hrun & Hstored' & Hload & Hcompleted & _).
  exists r, w'. split; [exact Hrun |]. split; [exact Hstored' |]. split; [exact Hload |].
  split; [apply marked_receivedChunks |]. split; [reflexivity |].
  rewrite Hcompleted, bool_decide_eq_true. apply marked_complete.
Qed.

End recordChunk_more.

(** ** Calls that return

    [returns c Q s]: started in [s], the code [c] returns, with a result
    and a state that satisfy [Q]. *)
Definition returns {S A} (c : ST S A) (Q : A → S → Prop) (s : S) : Prop :=
  match c s with
  | (Ok a, s') => Q a s'
  | _ => False
  end.

Section returns_rules.
Context {S : Type}.
Implicit Types (s : S).

Lemma returns_ret {A} (a : A) (Q : A → S → Prop) s : Q a s → returns (ret a) Q s.
Proof. done. Qed.

Lemma returns_gets {A} (f : S → A) (Q : A → S → Prop) s : Q (f s) s → returns (gets f) Q s.
Proof. done. Qed.

Lemma returns_modify (f : S → S) (Q : unit → S → Prop) s :
  Q tt (f s) → returns (modify f) Q s.
Proof. done. Qed.

Lemma returns_bind {A B} (c : ST S A) (k : A → ST S B) (Q : B → S → Prop) s :
  returns c (λ a s', returns (k a) Q s') s → returns (c ≫= k) Q s.
Proof. unfold returns. rewrite bind_eq. by destruct (c s) as [[a|e|] s']. Qed.

Lemma returns_fmap {A B} (f : A → B) (c : ST S A) (Q : B → S → Prop) s :
  returns c (λ a s', Q (f a) s') s → returns (f <$> c) Q s.
Proof. intros Hc. apply (returns_bind c (λ a, ret (f a))). exact Hc. Qed.

Lemma returns_run {A} (c : ST S A) (Q : A → S → Prop) s a s' :
  c s = (Ok a, s') → Q a s' → returns c Q s.
Proof. unfold returns. by intros ->. Qed.

Lemma returns_mono {A} (c : ST S A) (Q Q' : A → S → Prop) s :
  returns c Q s → (∀ a s', Q a s' → Q' a s') → returns c Q' s.
Proof. unfold returns. destruct (c s) as [[a|e|] s']; eauto. Qed.

Lemma returns_elim {A} (c : ST S A) (Q : A → S → Prop) s :
  returns c Q s → ∃ a s', c s = (Ok a, s') ∧ Q a s'.
Proof. unfold returns. destruct (c s) as [[a|e|] s']; [eauto | done..]. Qed.

End returns_rules.

Lemma returns_lift {D E A} (c : ST E A) (Q : A → D * E → Prop) d e :
  returns c (λ a e', Q a (d, e')) e → returns (lift c) Q (d, e).
Proof. unfold returns. rewrite lift_eq. by destruct (c e) as [[a|err|] e']. Qed.

Lemma returns_withState {E A} (mutator : ST (Doc * E) A) (Q : A → DataStore.t * E → Prop)
    s env :
  DataStore._lock s = None →
  returns mutator (λ r '(state, env'), Q r (DataStore._write state s, env'))
    (DataStore._read s, env) →
  returns (DataStore.withState mutator) Q (s, env).
Proof.
  unfold returns, DataStore.withState. intros -> H.
  by destruct (mutator _) as [[a|e|] [state env']].
Qed.

Lemma returns_readState {E A} (selector : ST (Doc * E) A) (Q : A → DataStore.t * E → Prop)
    s env :
  DataStore._lock s = None →
  returns selector (λ r '(_, env'), Q r (s, env')) (DataStore._read s, env) →
  returns (DataStore.readState selector) Q (s, env).
Proof.
  unfold returns, DataStore.readState. intros -> H.
  by destruct (selector _) as [[a|e|] [state env']].
Qed.

Lemma returns_prop {S V} (obj : gmap string V) k (Q : option V → S → Prop) (s : S) :
  is_Some (obj !! k) ∨ inherited k = false → Q (obj !! k) s → returns (prop obj k) Q s.
Proof.
  intros Hk HQ. unfold returns, prop. destruct (obj !! k) as [v|] eqn:Hv; [done |].
  destruct Hk as [[? ?] | ->]; done.
Qed.

Lemma returns_assign {S V} (obj : gmap string V) k v (Q : gmap string V → S → Prop) (s : S) :
  k ≠ "__proto__"%string → Q (<[k := v]> obj) s → returns (assign obj k v) Q s.
Proof. intros Hk HQ. unfold returns, assign. by rewrite bool_decide_eq_false_2. Qed.

Lemma returns_findUpload userKey uploadId (Q : UserRecord.t * UploadJ → Doc * Manager.t → Prop)
    d e user upload :
  users d !! userKey = Some user →
  UserRecord.uploads user !! uploadId = Some upload →
  Q (user, upload) (d, e) →
  returns (findUpload userKey uploadId) Q (d, e).
Proof.
  intros Hu Hup HQ. eapply returns_run; [by apply findUpload_run | done].
Qed.

Lemma returns_decorateUpload u (Q : loc → Manager.t → Prop) m :
  Q (parse_loc (length (Manager.heap m)) u)
    (Manager.set_heap (Manager.heap m ++ decorate_cells (length (Manager.heap m)) u) m) →
  returns (_decorateUpload u) Q m.
Proof. intros HQ. eapply returns_run; [apply _decorateUpload_run | done]. Qed.

Lemma returns_decorateObject l u (Q : loc → Manager.t → Prop) m :
  load (Manager.heap m) l = Some u →
  Q (parse_loc (length (Manager.heap m)) u)
    (Manager.set_heap (Manager.heap m ++ decorate_cells (length (Manager.heap m)) u) m) →
  returns (decorateObject l) Q m.
Proof. intros Hl HQ. eapply returns_run; [by apply decorateObject_run | done]. Qed.

Lemma returns_stringify l u (Q : UploadJ → Manager.t → Prop) m :
  load (Manager.heap m) l = Some u → Q u m → returns (stringify l) Q m.
Proof. intros Hl HQ. eapply returns_run; [by apply stringify_run | done]. Qed.

(** An assignment to fields of the upload object at [l]. *)
Lemma returns_mutateObject l u u' (f : UploadJ → ST Manager.t UploadJ)
    (Q : unit → Manager.t → Prop) m m1 :
  load (Manager.heap m) l = Some u →
  f u m = (Ok u', m1) →
  Manager.heap m1 = Manager.heap m →
  Upload.missingChunks u' = Upload.missingChunks u →
  (∀ h', length h' = length (Manager.heap m) → load h' l = Some u' →
         (∀ l', l' ∉ footprint (Manager.heap m) l → h' !! l' = Manager.heap m !! l') →
         Q tt (Manager.set_heap h' m1)) →
  returns (mutateObject l f) Q m.
Proof.
  intros Hl Hf Hheap Hmiss HQ. unfold mutateObject.
  apply returns_bind, (returns_stringify l u); [done |].
  apply returns_bind. eapply returns_run; [exact Hf |].
  assert (Hl1 : load (Manager.heap m1) l = Some u) by (by rewrite Hheap).
  destruct (assignFields_run l u u' m1 Hl1 Hmiss) as (h' & Hrun & Hlen & Hload).
  eapply returns_run; [exact Hrun |]. apply HQ; [by rewrite Hlen, Hheap | done |].
  intros l' Hl'. unfold assignFields in Hrun. rewrite Hheap in Hrun.
  unfold footprint in Hl'. unfold load in Hl.
  destruct (Manager.heap m !! l) as [[o| |]|] eqn:Ho; try discriminate.
  destruct (Manager.heap m !! Upload.receivedChunks o) as [[|received|]|] eqn:Hr;
    try discriminate.
  injection Hrun as Hrun. rewrite <- Hrun. simpl in Hl'.
  rewrite !list_lookup_insert_ne; [done | set_solver..].
Qed.

(** ** Creating an upload and finding it again *)

(** The entry of the ephemeral bucket for an upload. *)
Definition bucketEntry (m : Manager.t) (userKey uploadId : string) : option loc :=
  Manager.ephemeral m !! userKey ≫= (.!! uploadId).

Lemma bucketEntry_set m userKey uploadId l :
  bucketEntry (Manager.set_ephemeral
    (<[userKey := <[uploadId := l]> (default ∅ (Manager.ephemeral m !! userKey))]>
       (Manager.ephemeral m)) m) userKey uploadId = Some l.
Proof. unfold bucketEntry. simpl. rewrite lookup_insert_eq. simpl. apply lookup_insert_eq. Qed.

Lemma bucketEntry_set_ne m userKey uploadId l userKey' uploadId' :
  userKey' ≠ userKey ∨ uploadId' ≠ uploadId →
  bucketEntry (Manager.set_ephemeral
    (<[userKey := <[uploadId := l]> (default ∅ (Manager.ephemeral m !! userKey))]>
       (Manager.ephemeral m)) m) userKey' uploadId'
  = bucketEntry m userKey' uploadId'.
Proof.
  intros Hne. unfold bucketEntry. simpl.
  destruct (decide (userKey' = userKey)) as [->|Hk]; [| by rewrite lookup_insert_ne].
  destruct Hne as [|Hid]; [done |]. rewrite lookup_insert_eq. simpl.
  rewrite lookup_insert_ne by done.
  destruct (Manager.ephemeral m !! userKey); [done |]. simpl. apply lookup_empty.
Qed.

Section create_and_find.
Context (dateAt : nat → Timestamp) (fileIdAt : nat → string).

(** [_ensureUserRecord], when it returns. *)
Lemma returns_ensureUserRecord userKey (Q : UserRecord.t → Doc * Manager.t → Prop) d e :
  is_Some (users d !! userKey) ∨ inherited userKey = false →
  (∀ user e',
     users d !! userKey = Some user ∨
       users d !! userKey = None ∧ user = UserRecord.mk userKey (dateAt (Manager.clockReads e)) ∅ [] →
     Manager.heap e' = Manager.heap e → Manager.ephemeral e' = Manager.ephemeral e →
     Manager.uploadDir e' = Manager.uploadDir e → Manager.finalDir e' = Manager.finalDir e →
     Q user (mkDoc (<[userKey := user]> (users d)), e')) →
  returns (_ensureUserRecord dateAt userKey) Q (d, e).
Proof.
  intros Hk HQ. unfold _ensureUserRecord. apply returns_bind, returns_gets. simpl.
  destruct (users d !! userKey) as [user|] eqn:Hu.
  - apply returns_ret. specialize (HQ user e). rewrite insert_id in HQ by done.
    destruct d. apply HQ; auto.
  - destruct Hk as [[? ?] | ->]; [done |].
    apply returns_bind, returns_lift. unfold returns. simpl. apply HQ; auto.
Qed.

(** [createUpload], when it returns. *)
Lemma createUpload_run (w : World) (userKey fileName : string)
    (fileSize chunkSize n : Z) (persist : bool) :
  Math_ceil_div fileSize chunkSize = Some n →
  (persist = true →
   DataStore._lock w.1 = None ∧
   (is_Some (users (DataStore._read w.1) !! userKey) ∨ inherited userKey = false) ∧
   fileIdAt (Manager.fileIdDraws w.2) ≠ "__proto__"%string) →
  let uploadId := fileIdAt (Manager.fileIdDraws w.2) in
  let now := dateAt (Manager.clockReads w.2) in
  let created := Upload.mk uploadId userKey fileName fileSize chunkSize n persist
                   active ∅ (Some 0) now now None None in
  ∃ (upload : loc) (w' : World),
    createUpload dateAt fileIdAt userKey fileName fileSize chunkSize persist w
    = (Ok upload, w') ∧
    metadataIn (if persist then persistent else memory) w' userKey uploadId = Some created ∧
    load (Manager.heap w'.2) upload = Some (decorated created) ∧
    is_Some (Manager.uploadDir w'.2 !! uploadId) ∧
    (if persist then Manager.ephemeral w'.2 = Manager.ephemeral w.2 else w'.1 = w.1) ∧
    DataStore._lock w'.1 = DataStore._lock w.1 ∧
    Manager.uploadDir w'.2 = Manager.uploadDir (ensureScratchDir uploadId w.2).2 ∧
    Manager.finalDir w'.2 = Manager.finalDir w.2.
Proof.
  destruct w as [s m]. simpl. intros Hn Hpersist.
  apply returns_elim. unfold createUpload. rewrite Hn.
  apply returns_bind, returns_lift. unfold returns, _createFileId.
  set (uploadId := fileIdAt _). set (m1 := Manager.set_fileIdDraws _ m).
  apply returns_bind, returns_lift. unfold returns, _now.
  set (now := dateAt _). set (m2 := Manager.set_clockReads _ m1).
  apply returns_bind, returns_lift. unfold returns. rewrite parse_run.
  set (created := Upload.mk _ _ _ _ _ _ _ _ _ _ _ _ _ _).
  set (base := parse_loc _ created).
  set (m3 := Manager.set_heap _ m2).
  assert (Hbase : load (Manager.heap m3) base = Some created) by apply load_parse.
  assert (Htail : ∀ s' m',
    load (Manager.heap m') base = Some created →
    DataStore._lock s' = DataStore._lock s →
    Manager.uploadDir m' = Manager.uploadDir m → Manager.finalDir m' = Manager.finalDir m →
    (∀ m'', extends m' m'' →
       metadataIn (if persist then persistent else memory) (s', m'') userKey uploadId
       = Some created ∧
       (if persist then Manager.ephemeral m'' = Manager.ephemeral m else s' = s)) →
    returns (lift (ensureScratchDir uploadId);; lift (decorateObject base))
      (λ upload w',
         metadataIn (if persist then persistent else memory) w' userKey uploadId
         = Some created ∧
         load (Manager.heap w'.2) upload = Some (decorated created) ∧
         is_Some (Manager.uploadDir w'.2 !! uploadId) ∧
         (if persist then Manager.ephemeral w'.2 = Manager.ephemeral m else w'.1 = s) ∧
         DataStore._lock w'.1 = DataStore._lock s ∧
         Manager.uploadDir w'.2 = Manager.uploadDir (ensureScratchDir uploadId m).2 ∧
         Manager.finalDir w'.2 = Manager.finalDir m)
      (s', m')).
  { intros s' m' Hload Hlock' Hup' Hfinal' Hmeta. apply returns_bind, returns_lift.
    unfold returns, ensureScratchDir, modify.
    set (m4 := match Manager.uploadDir m' !! uploadId with
               | Some _ => m'
               | None => Manager.set_uploadDir (<[uploadId := ∅]> (Manager.uploadDir m')) m'
               end).
    assert (Hheap4 : Manager.heap m4 = Manager.heap m')
      by (unfold m4; by destruct (Manager.uploadDir m' !! uploadId)).
    assert (Heph4 : Manager.ephemeral m4 = Manager.ephemeral m')
      by (unfold m4; by destruct (Manager.uploadDir m' !! uploadId)).
    assert (Hfinal4 : Manager.finalDir m4 = Manager.finalDir m)
      by (unfold m4; by destruct (Manager.uploadDir m' !! uploadId)).
    assert (Hup4 : Manager.uploadDir m4
                   = Manager.uploadDir
                       (match Manager.uploadDir m !! uploadId with
                        | Some _ => m
                        | None => Manager.set_uploadDir
                                    (<[uploadId := ∅]> (Manager.uploadDir m)) m
                        end)).
    { unfold m4. rewrite Hup'. by destruct (Manager.uploadDir m !! uploadId). }
    assert (Hdir4 : is_Some (Manager.uploadDir m4 !! uploadId)).
    { unfold m4. destruct (Manager.uploadDir m' !! uploadId) eqn:Hd; [by rewrite Hd |].
      simpl. rewrite lookup_insert_eq. eauto. }
    apply returns_lift, (returns_decorateObject base created); [by rewrite Hheap4 |].
    destruct (Hmeta (Manager.set_heap
                (Manager.heap m4 ++ decorate_cells (length (Manager.heap m4)) created) m4))
      as [Hm He].
    { split; [done |]. simpl. rewrite Hheap4. by apply prefix_app_r. }
    split; [exact Hm |]. split; [apply load_decorate |]. split; [exact Hdir4 |].
    split; [exact He |]. split; [exact Hlock' |]. split; [exact Hup4 | exact Hfinal4]. }
  apply returns_bind. destruct persist.
  - destruct (Hpersist eq_refl) as (Hlock & Hkey & Hid).
    apply returns_withState; [done |].
    apply returns_bind, returns_ensureUserRecord; [done |].
    intros user e' Huser Hheap Heph Hup Hfinal.
    apply returns_bind, returns_lift, (returns_stringify base created); [by rewrite Hheap |].
    apply returns_bind, returns_assign; [done |]. apply returns_modify.
    apply Htail; [by rewrite Hheap | done | done | done |].
    intros m'' [Heph'' _]. split; [| by rewrite Heph'', Heph].
    simpl. rewrite lookup_insert_eq. simpl. apply lookup_insert_eq.
  - apply returns_lift. unfold returns. simpl.
    apply Htail.
    + by destruct (Manager.ephemeral m !! userKey).
    + done.
    + by destruct (Manager.ephemeral m !! userKey).
    + by destruct (Manager.ephemeral m !! userKey).
    + intros m'' [Heph [cells Hcells]]. split; [| done]. unfold metadataIn. cbn [snd].
      rewrite Heph, Hcells. simpl. rewrite lookup_insert_eq. simpl.
      rewrite lookup_insert_eq. simpl.
      apply load_app. by destruct (Manager.ephemeral m !! userKey).
Qed.


Lemma prop_none {S V} (obj : gmap string V) k (s : S) :
  obj !! k = None → inherited k = false → prop obj k s = (Ok None, s).
Proof. intros H1 H2. unfold prop. by rewrite H1, H2. Qed.

(** [getUpload] on an upload of the bucket. *)
Lemma getUpload_memory_run s m userKey uploadId l u :
  bucketEntry m userKey uploadId = Some l →
  load (Manager.heap m) l = Some u →
  getUpload userKey uploadId (s, m)
  = (Ok (Some (Found.mk memory (parse_loc (length (Manager.heap m)) u))),
     (s, Manager.set_heap (Manager.heap m ++ decorate_cells (length (Manager.heap m)) u) m)).
Proof.
  intros Hmem Hload. unfold bucketEntry in Hmem. unfold getUpload.
  rewrite (bind_run _ _ (s, m) (Some l) (s, m))
    by (unfold ephemeralUpload; st_unfold; by rewrite Hmem).
  erewrite bind_run; [| apply lift_run; by apply decorateObject_run]. reflexivity.
Qed.

(** [getUpload] on an upload of the state file. *)
Lemma getUpload_persistent_run s m userKey uploadId user u :
  bucketEntry m userKey uploadId = None →
  DataStore._lock s = None →
  users (DataStore._read s) !! userKey = Some user →
  UserRecord.uploads user !! uploadId = Some u →
  getUpload userKey uploadId (s, m)
  = (Ok (Some (Found.mk persistent (parse_loc (length (Manager.heap m)) u))),
     (s, Manager.set_heap (Manager.heap m ++ decorate_cells (length (Manager.heap m)) u) m)).
Proof.
  intros Hmem Hlock Huser Hup. unfold bucketEntry in Hmem. unfold getUpload.
  rewrite (bind_run _ _ (s, m) None (s, m))
    by (unfold ephemeralUpload; st_unfold; by rewrite Hmem).
  erewrite bind_run; last first.
  { eapply readState_run; [done |].
    rewrite (bind_run _ _ _ (DataStore._read s) (DataStore._read s, m)) by reflexivity.
    rewrite (bind_run _ _ _ _ _ (prop_own _ _ _ _ Huser)).
    rewrite (bind_run _ _ _ _ _ (prop_own _ _ _ _ Hup)).
    erewrite bind_run; [| apply lift_run; apply _decorateUpload_run]. reflexivity. }
  reflexivity.
Qed.

(** [getUpload] of an upload that is not there. *)
Lemma getUpload_absent_run s m userKey uploadId :
  bucketEntry m userKey uploadId = None →
  DataStore._lock s = None →
  metadataIn persistent (s, m) userKey uploadId = None →
  inherited userKey = false → inherited uploadId = false →
  getUpload userKey uploadId (s, m) = (Ok None, (s, m)).
Proof.
  intros Hmem Hlock Hnone Hk Hid. unfold bucketEntry in Hmem. unfold getUpload.
  rewrite (bind_run _ _ (s, m) None (s, m))
    by (unfold ephemeralUpload; st_unfold; by rewrite Hmem).
  erewrite bind_run; last first.
  { eapply readState_run; [done |].
    rewrite (bind_run _ _ _ (DataStore._read s) (DataStore._read s, m)) by reflexivity.
    unfold metadataIn in Hnone. simpl in Hnone.
    destruct (users (DataStore._read s) !! userKey) as [user|] eqn:Huser.
    - rewrite (bind_run _ _ _ _ _ (prop_own _ _ _ _ Huser)). simpl in Hnone.
      rewrite (bind_run _ _ _ _ _ (prop_none _ _ _ Hnone Hid)). reflexivity.
    - rewrite (bind_run _ _ _ _ _ (prop_none _ _ _ Huser Hk)). reflexivity. }
  reflexivity.
Qed.

(** [getUpload] answers with the decorated copy of the metadata the
    manager holds: that of the ephemeral bucket when the upload is there
    (whatever the state file holds, and whether or not the store still
    accepts calls), else that of the state file; the copy is a new object,
    and neither the store nor any object that existed changes.  When the
    upload is in neither place, the answer is [null]. *)
Theorem getUpload_returns_held_metadata (w : World) (userKey uploadId : string) :
  (∀ u, metadataIn memory w userKey uploadId = Some u →
     ∃ copy m',
       getUpload userKey uploadId w = (Ok (Some (Found.mk memory copy)), (w.1, m')) ∧
       load (Manager.heap m') copy = Some (decorated u) ∧ extends w.2 m') ∧
  (bucketEntry w.2 userKey uploadId = None → DataStore._lock w.1 = None →
   (∀ u, metadataIn persistent w userKey uploadId = Some u →
      ∃ copy m',
        getUpload userKey uploadId w = (Ok (Some (Found.mk persistent copy)), (w.1, m')) ∧
        load (Manager.heap m') copy = Some (decorated u) ∧ extends w.2 m') ∧
   (metadataIn persistent w userKey uploadId = None →
    inherited userKey = false → inherited uploadId = false →
    getUpload userKey uploadId w = (Ok None, w))).
Proof.
  destruct w as [s m]. split; [| intros Hmem Hlock; split].
  - intros u Hu. unfold metadataIn in Hu. cbn [snd] in Hu.
    destruct (Manager.ephemeral m !! userKey ≫= (.!! uploadId)) as [l|] eqn:Hl; [| done].
    simpl in Hu. eexists _, _. split; [by apply (getUpload_memory_run s m _ _ l u) |].
    split; [apply load_decorate |]. split; [done |]. by apply prefix_app_r.
  - intros u Hu. unfold metadataIn in Hu. cbn [fst] in Hu.
    destruct (users (DataStore._read s) !! userKey) as [user|] eqn:Huser; [| done].
    simpl in Hu. eexists _, _.
    split; [by apply (getUpload_persistent_run s m _ _ user u) |].
    split; [apply load_decorate |]. split; [done |]. by apply prefix_app_r.
  - intros Hnone Hk Hid. by apply getUpload_absent_run.
Qed.

(** A step of the manager's memory that only creates objects. *)
Lemma lift_keeps {D A} (c : ST Manager.t A) (Q : A → D * Manager.t → Prop)
    (X : D * Manager.t → Prop) d e :
  Keeps extends c →
  (∀ a e', extends e e' → Q a (d, e')) → (∀ e', extends e e' → X (d, e')) →
  wp (lift c) Q X (d, e).
Proof.
  intros Hc HQ HX. apply wp_lift. specialize (Hc e). unfold wp, mgr, manager_self in *.
  destruct (c e) as [[a|err|] e']; simpl in Hc; eauto.
Qed.

(** A persistent [createUpload] that returns leaves a store that accepts
    calls, and the bucket as it was. *)
Lemma createUpload_persistent_keeps userKey fileName fileSize chunkSize s m :
  wp (createUpload dateAt fileIdAt userKey fileName fileSize chunkSize true)
    (λ _ w', DataStore._lock w'.1 = None ∧ Manager.ephemeral w'.2 = Manager.ephemeral m)
    (λ _, True) (s, m).
Proof.
  unfold createUpload.
  destruct (Math_ceil_div fileSize chunkSize) as [n|]; [| apply wp_stuck].
  apply wp_bind, lift_keeps; [apply Keeps_createFileId | | done]. intros uploadId m1 H1.
  apply wp_bind, lift_keeps; [apply Keeps_now | | done]. intros now m2 H2.
  apply wp_bind, lift_keeps; [apply Keeps_parse | | done]. intros base m3 H3.
  apply wp_bind, wp_withState_returned. intros Hlock.
  apply (wp_keeps extends).
  - solve_keeps.
  - intros [] [d4 m4] H4. unfold mgr, manager_snd in H4. simpl in H4.
    apply wp_bind, lift_keeps; [apply Keeps_ensureScratchDir | | done]. intros [] m5 H5.
    apply lift_keeps; [apply Keeps_decorateObject | | done]. intros r m6 H6.
    split; [done |]. simpl.
    destruct H1 as [E1 _], H2 as [E2 _], H3 as [E3 _], H4 as [E4 _], H5 as [E5 _],
      H6 as [E6 _]. congruence.
  - done.
Qed.

(** A created upload is found: after [createUpload] has returned,
    [getUpload] with the same user key and the generated id answers with
    the place the upload was created in and a copy that holds what the
    object [createUpload] returned holds.  (For a persistent upload, the
    bucket must hold no upload of that id, which would be found first.) *)
Theorem createUpload_then_getUpload (w w1 : World) (userKey fileName : string)
    (fileSize chunkSize : Z) (persist : bool) (upload : loc) :
  createUpload dateAt fileIdAt userKey fileName fileSize chunkSize persist w
  = (Ok upload, w1) →
  (persist = true →
   bucketEntry w.2 userKey (fileIdAt (Manager.fileIdDraws w.2)) = None) →
  ∃ copy w2,
    getUpload userKey (fileIdAt (Manager.fileIdDraws w.2)) w1
    = (Ok (Some (Found.mk (if persist then persistent else memory) copy)), w2) ∧
    load (Manager.heap w2.2) copy = load (Manager.heap w1.2) upload ∧
    is_Some (load (Manager.heap w2.2) copy).
Proof.
  destruct w as [s m]. intros Hrun Hbucket.
  destruct (Math_ceil_div fileSize chunkSize) as [n|] eqn:Hn;
    [| unfold createUpload in Hrun; rewrite Hn in Hrun; discriminate].
  destruct (wp_Ok _ _ _ _ _ _
              (createUpload_creates dateAt fileIdAt userKey fileName fileSize chunkSize
                 persist n s m Hn) Hrun) as (now & Hload & Hmeta).
  destruct w1 as [s1 m1]. simpl in *. destruct persist.
  - destruct (wp_Ok _ _ _ _ _ _
                (createUpload_persistent_keeps userKey fileName fileSize chunkSize s m) Hrun)
      as [Hlock1 Heph1]. simpl in Hlock1, Heph1.
    assert (Hb1 : bucketEntry m1 userKey (fileIdAt (Manager.fileIdDraws m)) = None)
      by (unfold bucketEntry; rewrite Heph1; by apply Hbucket).
    unfold metadataIn in Hmeta. cbn [fst] in Hmeta.
    destruct (users (DataStore._read s1) !! userKey) as [user|] eqn:Huser; [| done].
    simpl in Hmeta.
    eexists _, _. split; [by eapply getUpload_persistent_run |].
    simpl. rewrite load_decorate, Hload. eauto.
  - unfold metadataIn in Hmeta. cbn [snd] in Hmeta.
    destruct (Manager.ephemeral m1 !! userKey ≫= (.!! fileIdAt (Manager.fileIdDraws m)))
      as [l|] eqn:Hl; [| done].
    simpl in Hmeta. eexists _, _. split; [by eapply getUpload_memory_run |].
    simpl. rewrite load_decorate, Hload. eauto.
Qed.

End create_and_find.

(** ** Changing and retiring an upload *)

(** Where the manager finds an upload: in the bucket first. *)
Definition placeOf (w : World) (userKey uploadId : string) : Location :=
  if bucketEntry w.2 userKey uploadId is Some _ then memory else persistent.

Lemma bucketEntry_delete m userKey uploadId :
  bucketEntry (Manager.set_ephemeral
    (<[userKey := delete uploadId (default ∅ (Manager.ephemeral m !! userKey))]>
       (Manager.ephemeral m)) m) userKey uploadId = None.
Proof. unfold bucketEntry. simpl. rewrite lookup_insert_eq. simpl. apply lookup_delete_eq. Qed.

Section change_and_retire.
Context (dateAt : nat → Timestamp).

Lemma returns_now (Q : Timestamp → Manager.t → Prop) m :
  Q (dateAt (Manager.clockReads m)) (Manager.set_clockReads (S (Manager.clockReads m)) m) →
  returns (_now dateAt) Q m.
Proof. done. Qed.

(** [updateStatus] on an upload the manager holds: it returns; the held
    metadata then has the given status and the time of the call as
    [updatedAt], and is otherwise what it was (in particular the received
    chunks are kept); the returned object is the decorated copy of it. *)
Theorem updateStatus_sets_status (w : World) (userKey uploadId : string) (status : Status)
    (u : UploadJ) :
  DataStore._lock w.1 = None →
  storedUpload w userKey uploadId = Some u →
  let u' := Upload.set_updatedAt (dateAt (Manager.clockReads w.2)) (Upload.set_status status u) in
  ∃ (copy : loc) (w' : World),
    updateStatus dateAt userKey uploadId status w = (Ok copy, w') ∧
    storedUpload w' userKey uploadId = Some u' ∧
    load (Manager.heap w'.2) copy = Some (decorated u') ∧
    Manager.ephemeral w'.2 = Manager.ephemeral w.2 ∧
    DataStore._lock w'.1 = None.
Proof.
  destruct w as [s m]. simpl. intros Hlock Hstored.
  apply returns_elim. unfold updateStatus.
  apply returns_bind, returns_lift, returns_gets.
  unfold storedUpload in *. cbn [fst snd] in *.
  destruct (Manager.ephemeral m !! userKey ≫= (.!! uploadId)) as [l|] eqn:Hmem.
  - apply returns_bind, returns_lift.
    eapply (returns_mutateObject l u); [done | reflexivity | done | done |].
    intros h' Hlen Hload _.
    eapply returns_lift, returns_decorateObject; [exact Hload |]. simpl. rewrite Hmem.
    split_and!; [by apply load_app | apply load_decorate | done | done].
  - destruct (users (DataStore._read s) !! userKey) as [user|] eqn:Huser; [| done].
    simpl in Hstored.
    apply returns_withState; [done |].
    apply returns_bind, (returns_findUpload _ _ _ _ _ user u); [done.. |].
    apply returns_bind, returns_lift, returns_now. apply returns_bind, returns_modify.
    apply returns_lift, returns_decorateUpload. simpl. rewrite Hmem.
    rewrite lookup_insert_eq. simpl. rewrite lookup_insert_eq.
    split_and!; [done | apply load_decorate | done | done].
Qed.

(** [_toHistoryEntry] of an upload that has [completedAt]. *)
Lemma returns_toHistoryEntry u (Q : HistoryEntry.t → Manager.t → Prop) m :
  (∀ t, Upload.completedAt u = Some t → Q (entryOf u t) m) →
  (Upload.completedAt u = None →
   Q (entryOf u (dateAt (Manager.clockReads m)))
     (Manager.set_clockReads (S (Manager.clockReads m)) m)) →
  returns (_toHistoryEntry dateAt u) Q m.
Proof.
  intros Hsome Hnone. unfold _toHistoryEntry. apply returns_bind.
  destruct (Upload.completedAt u) as [t|].
  - apply returns_ret, returns_ret. by apply Hsome.
  - apply returns_now, returns_ret. by apply Hnone.
Qed.

(** The mutator that files the history entry of a retired bucket upload. *)
Lemma returns_historyMutator userKey l u (Q : unit → Doc * Manager.t → Prop) d e :
  is_Some (users d !! userKey) ∨ inherited userKey = false →
  load (Manager.heap e) l = Some u →
  (∀ d' e' t,
     from_option UserRecord.history [] (users d' !! userKey)
     = unshiftCapped (entryOf u t) (from_option UserRecord.history [] (users d !! userKey)) →
     (∀ c, Upload.completedAt u = Some c → t = c) →
     Manager.heap e' = Manager.heap e → Manager.ephemeral e' = Manager.ephemeral e →
     Q tt (d', e')) →
  returns (historyMutator dateAt userKey l) Q (d, e).
Proof.
  intros Hk Hl HQ. unfold historyMutator.
  apply returns_bind, returns_ensureUserRecord; [done |].
  intros user e1 Huser Hheap1 Heph1 _ _.
  apply returns_bind, returns_lift, (returns_stringify l u); [by rewrite Hheap1 |].
  apply returns_bind, returns_lift, returns_toHistoryEntry.
  - intros t Ht. apply returns_modify.
    apply (HQ _ _ t); [| by intros c; rewrite Ht; intros [= ->] | done | done].
    simpl. rewrite lookup_insert_eq. simpl.
    destruct Huser as [-> | [-> ->]]; done.
  - intros Hnone. apply returns_modify.
    apply (HQ _ _ (dateAt (Manager.clockReads e1))); [| by rewrite Hnone | done | done].
    simpl. rewrite lookup_insert_eq. simpl.
    destruct Huser as [-> | [-> ->]]; done.
Qed.

(** [finalizeUpload] on an upload the manager holds. *)
Lemma finalizeUpload_run (w : World) (userKey uploadId : string) (u : UploadJ) :
  DataStore._lock w.1 = None →
  storedUpload w userKey uploadId = Some u →
  is_Some (users (DataStore._read w.1) !! userKey) ∨ inherited userKey = false →
  let now := dateAt (Manager.clockReads w.2) in
  let u' := Upload.set_completedAt (Some now) (Upload.set_status completed u) in
  ∃ (copy : loc) (w' : World),
    finalizeUpload dateAt userKey uploadId w = (Ok copy, w') ∧
    metadataIn (placeOf w userKey uploadId) w' userKey uploadId = None ∧
    load (Manager.heap w'.2) copy = Some (decorated u') ∧
    historyOf w' userKey = unshiftCapped (entryOf u now) (historyOf w userKey) ∧
    DataStore._lock w'.1 = None.
Proof.
  destruct w as [s m]. simpl. intros Hlock Hstored Hkey.
  apply returns_elim. unfold finalizeUpload.
  apply returns_bind, returns_lift, returns_gets.
  unfold storedUpload, placeOf, bucketEntry, historyOf in *. cbn [fst snd] in *.
  destruct (Manager.ephemeral m !! userKey ≫= (.!! uploadId)) as [l|] eqn:Hmem.
  - apply returns_bind, returns_lift.
    eapply (returns_mutateObject l u); [done | reflexivity | done | done |].
    intros h' Hlen Hload _.
    apply returns_bind, returns_lift, returns_modify.
    apply returns_bind, returns_withState; [done |].
    eapply (returns_historyMutator userKey l); [done | exact Hload |].
    intros d' e' t Hhist Ht Hheap Heph.
    rewrite (Ht _ eq_refl) in Hhist.
    eapply returns_lift, returns_decorateObject; [by rewrite Hheap |].
    split_and!.
    + unfold metadataIn. cbn [snd]. simpl. rewrite Heph. simpl.
      rewrite lookup_insert_eq. simpl. by rewrite lookup_delete_eq.
    + apply load_decorate.
    + exact Hhist.
    + done.
  - destruct (users (DataStore._read s) !! userKey) as [user|] eqn:Huser; [| done].
    simpl in Hstored.
    apply returns_withState; [done |].
    apply returns_bind, (returns_findUpload _ _ _ _ _ user u); [done.. |].
    apply returns_bind, returns_lift, returns_now.
    apply returns_bind, returns_lift, returns_decorateUpload.
    apply returns_bind, returns_lift, returns_toHistoryEntry; [| done].
    intros t [= <-]. apply returns_bind, returns_modify. apply returns_ret.
    split_and!.
    + simpl. rewrite lookup_insert_eq. simpl. apply lookup_delete_eq.
    + simpl. apply load_decorate.
    + simpl. rewrite lookup_insert_eq. done.
    + done.
Qed.

(** [finalizeUpload] on an upload the manager holds: it returns; the
    upload is no longer held where it was found; the returned object is
    the decorated copy of the metadata with status [completed] and the
    time of the call as [completedAt]; the history entry filed for the
    upload, now the first of the user's history, carries that same time.
    (The store must accept calls, and the user key must be in the state
    file or not be a name inherited from [Object.prototype].) *)
Theorem finalizeUpload_retires (w : World) (userKey uploadId : string) (u : UploadJ) :
  DataStore._lock w.1 = None →
  storedUpload w userKey uploadId = Some u →
  is_Some (users (DataStore._read w.1) !! userKey) ∨ inherited userKey = false →
  let now := dateAt (Manager.clockReads w.2) in
  let u' := Upload.set_completedAt (Some now) (Upload.set_status completed u) in
  ∃ (copy : loc) (w' : World),
    finalizeUpload dateAt userKey uploadId w = (Ok copy, w') ∧
    metadataIn (placeOf w userKey uploadId) w' userKey uploadId = None ∧
    load (Manager.heap w'.2) copy = Some (decorated u') ∧
    historyOf w' userKey = unshiftCapped (entryOf u now) (historyOf w userKey) ∧
    DataStore._lock w'.1 = None.
Proof.
  apply finalizeUpload_run.
Qed.

(** [removeUpload] on an upload the manager holds: it returns, with or
    without [forget]; the upload is no longer held where it was found;
    and the returned object is the decorated copy of the metadata as it
    was.  (The store must accept calls, and the user key must be in the
    state file or not be a name inherited from [Object.prototype].) *)
Theorem removeUpload_retires (w : World) (userKey uploadId : string) (forget : bool)
    (u : UploadJ) :
  DataStore._lock w.1 = None →
  storedUpload w userKey uploadId = Some u →
  is_Some (users (DataStore._read w.1) !! userKey) ∨ inherited userKey = false →
  ∃ (copy : loc) (w' : World),
    removeUpload dateAt userKey uploadId forget w = (Ok copy, w') ∧
    metadataIn (placeOf w userKey uploadId) w' userKey uploadId = None ∧
    load (Manager.heap w'.2) copy = Some (decorated u) ∧
    DataStore._lock w'.1 = None.
Proof.
  destruct w as [s m]. simpl. intros Hlock Hstored Hkey.
  apply returns_elim. unfold removeUpload.
  apply returns_bind, returns_lift, returns_gets.
  unfold storedUpload, placeOf, bucketEntry in *. cbn [fst snd] in *.
  destruct (Manager.ephemeral m !! userKey ≫= (.!! uploadId)) as [l|] eqn:Hmem.
  - apply returns_bind, returns_lift, returns_modify. apply returns_bind.
    destruct forget.
    + apply returns_ret.
      apply returns_lift, (returns_decorateObject l u); [done |].
      split_and!; [| apply load_decorate | done].
      unfold metadataIn. cbn [snd]. simpl. rewrite lookup_insert_eq. simpl.
      by rewrite lookup_delete_eq.
    + apply returns_withState; [done |].
      eapply (returns_historyMutator userKey l); [done | exact Hstored |].
      intros d' e' t Hhist Ht Hheap Heph.
      apply returns_lift, (returns_decorateObject l u); [by rewrite Hheap |].
      split_and!; [| apply load_decorate | done].
      unfold metadataIn. cbn [snd]. simpl. rewrite Heph. simpl.
      rewrite lookup_insert_eq. simpl. by rewrite lookup_delete_eq.
  - destruct (users (DataStore._read s) !! userKey) as [user|] eqn:Huser; [| done].
    simpl in Hstored.
    apply returns_withState; [done |].
    apply returns_bind, (returns_findUpload _ _ _ _ _ user u); [done.. |].
    apply returns_bind, returns_lift, returns_decorateUpload.
    assert (Hset : ∀ history' e1 copy,
      load (Manager.heap e1) copy = Some (decorated u) →
      returns (setUser userKey
                 (UserRecord.set_uploads (delete uploadId (UserRecord.uploads user))
                    (UserRecord.set_history history' user));; ret copy
               : ST (Doc * Manager.t) loc)
        (λ copy '(state, env'),
           metadataIn persistent (DataStore._write state s, env') userKey uploadId = None ∧
           load (Manager.heap env') copy = Some (decorated u) ∧
           DataStore._lock (DataStore._write state s) = None)
        (DataStore._read s, e1)).
    { intros history' e1 copy Hcopy. apply returns_bind, returns_modify. apply returns_ret.
      split_and!; [| done | done].
      simpl. rewrite lookup_insert_eq. simpl. apply lookup_delete_eq. }
    apply returns_bind. destruct forget.
    + apply returns_ret, Hset. simpl. apply load_decorate.
    + apply returns_bind, returns_lift, returns_toHistoryEntry.
      * intros t Ht. apply returns_ret, Hset. simpl. apply load_decorate.
      * intros Hnone. apply returns_ret, Hset. simpl. apply load_decorate.
Qed.

End change_and_retire.

(** ** Calls for an upload or a user that is not there *)

Lemma findUpload_absent userKey uploadId (d : Doc) (e : Manager.t) :
  (users d !! userKey ≫= λ user, UserRecord.uploads user !! uploadId) = None →
  inherited userKey = false → inherited uploadId = false →
  findUpload userKey uploadId (d, e) = (Throw upload_not_found, (d, e)).
Proof.
  intros Hnone Hk Hid. unfold findUpload.
  rewrite (bind_run _ _ _ d (d, e)) by reflexivity.
  destruct (users d !! userKey) as [user|] eqn:Huser.
  - rewrite (bind_run _ _ _ _ _ (prop_own _ _ _ _ Huser)). simpl in Hnone.
    rewrite (bind_run _ _ _ _ _ (prop_none _ _ _ Hnone Hid)). reflexivity.
  - rewrite (bind_run _ _ _ _ _ (prop_none _ _ _ Huser Hk)). reflexivity.
Qed.

Section absent.
Context (dateAt : nat → Timestamp).

(** For an upload that is neither in the bucket nor in the state file,
    [recordChunk], [updateStatus], [finalizeUpload] and [removeUpload] all
    throw [upload_not_found].  They change neither the state file nor the
    manager's memory, but each leaves the store's chain rejected with that
    error.  [getUpload] answers [null] and leaves the chain as it is. *)
Theorem unknown_upload_is_rejected (w : World) (userKey uploadId : string) :
  DataStore._lock w.1 = None →
  bucketEntry w.2 userKey uploadId = None →
  metadataIn persistent w userKey uploadId = None →
  inherited userKey = false → inherited uploadId = false →
  let w' := (DataStore.mk (DataStore.file w.1) (Some upload_not_found), w.2) in
  (∀ i, recordChunk dateAt userKey uploadId i w = (Throw upload_not_found, w')) ∧
  (∀ status, updateStatus dateAt userKey uploadId status w = (Throw upload_not_found, w')) ∧
  finalizeUpload dateAt userKey uploadId w = (Throw upload_not_found, w') ∧
  (∀ forget, removeUpload dateAt userKey uploadId forget w = (Throw upload_not_found, w')) ∧
  getUpload userKey uploadId w = (Ok None, w).
Proof.
  destruct w as [s m]. simpl. intros Hlock Hmem Hnone Hk Hid.
  assert (Hfind : findUpload userKey uploadId (DataStore._read s, m)
                  = (Throw upload_not_found, (DataStore._read s, m)))
    by (by apply findUpload_absent).
  assert (Hbucket : ephemeralUpload userKey uploadId m = (Ok None, m))
    by (unfold ephemeralUpload, bucketEntry in *; st_unfold; by rewrite Hmem).
  split_and!.
  - intros i. unfold recordChunk.
    rewrite (bind_run _ _ _ _ _ (lift_run _ s _ _ _ Hbucket)).
    eapply withState_run_Throw; [done |]. by apply bind_run_Throw.
  - intros status. unfold updateStatus.
    rewrite (bind_run _ _ _ _ _ (lift_run _ s _ _ _ Hbucket)).
    eapply withState_run_Throw; [done |]. by apply bind_run_Throw.
  - unfold finalizeUpload.
    rewrite (bind_run _ _ _ _ _ (lift_run _ s _ _ _ Hbucket)).
    eapply withState_run_Throw; [done |]. by apply bind_run_Throw.
  - intros forget. unfold removeUpload.
    rewrite (bind_run _ _ _ _ _ (lift_run _ s _ _ _ Hbucket)).
    eapply withState_run_Throw; [done |]. by apply bind_run_Throw.
  - by apply getUpload_absent_run.
Qed.

End absent.

(** [clearHistory]: for a user of the state file, the history becomes
    empty; the user's uploads, every other user record and the manager's
    memory stay as they are, and the empty list is returned.  For a key
    that is not in the state file it throws [user_not_found], changes
    neither the file nor the memory, and leaves the store's chain
    rejected. *)
Theorem clearHistory_empties_history (w : World) (userKey : string) :
  DataStore._lock w.1 = None →
  (∀ user, users (DataStore._read w.1) !! userKey = Some user →
     clearHistory userKey w
     = (Ok [], (DataStore.mk
                  (Some (mkDoc (<[userKey := UserRecord.set_history [] user]>
                                  (users (DataStore._read w.1))))) None, w.2))) ∧
  (users (DataStore._read w.1) !! userKey = None → inherited userKey = false →
   clearHistory userKey w
   = (Throw user_not_found, (DataStore.mk (DataStore.file w.1) (Some user_not_found), w.2))).
Proof.
  destruct w as [s m]. cbn [fst snd]. intros Hlock. split.
  - intros user Huser. unfold clearHistory.
    erewrite withState_run; [| done |].
    + unfold DataStore._write. rewrite Hlock. reflexivity.
    + rewrite (bind_run _ _ _ (DataStore._read s) (DataStore._read s, m)) by reflexivity.
      rewrite (bind_run _ _ _ _ _ (prop_own _ _ _ _ Huser)). reflexivity.
  - intros Hnone Hk. unfold clearHistory.
    eapply withState_run_Throw; [done |].
    rewrite (bind_run _ _ _ (DataStore._read s) (DataStore._read s, m)) by reflexivity.
    rewrite (bind_run _ _ _ _ _ (prop_none _ _ _ Hnone Hk)). reflexivity.
Qed.

(** ** Code that leaves the store alone *)

(** [StoreFixed s c]: started with the store [s], the code [c] ends with
    the store [s], however it ends. *)
Definition StoreFixed {A} (s : DataStore.t) (c : ST World A) : Prop :=
  ∀ m, (c (s, m)).2.1 = s.

Section store_fixed.
Context (s : DataStore.t).

Lemma StoreFixed_ret {A} (a : A) : StoreFixed s (ret a).
Proof. done. Qed.

Lemma StoreFixed_lift {A} (c : ST Manager.t A) : StoreFixed s (lift c).
Proof. intros m. by rewrite lift_eq. Qed.

Lemma StoreFixed_bind {A B} (c : ST World A) (k : A → ST World B) :
  StoreFixed s c → (∀ a, StoreFixed s (k a)) → StoreFixed s (c ≫= k).
Proof.
  intros Hc Hk m. rewrite bind_eq. specialize (Hc m).
  destruct (c (s, m)) as [[a|e|] [s' m']]; simpl in *; subst; [apply Hk | done..].
Qed.

Lemma StoreFixed_fmap {A B} (f : A → B) (c : ST World A) :
  StoreFixed s c → StoreFixed s (f <$> c).
Proof. intros Hc. apply (StoreFixed_bind c (λ a, ret (f a))); [done |]. intros a. done. Qed.

Lemma StoreFixed_withState {A} (mutator : ST (Doc * Manager.t) A) e :
  DataStore._lock s = Some e → StoreFixed s (DataStore.withState mutator).
Proof. intros He m. by rewrite (rejected_lock_skips_withState _ _ _ _ He). Qed.

Lemma StoreFixed_readState {A} (selector : ST (Doc * Manager.t) A) e :
  DataStore._lock s = Some e → StoreFixed s (DataStore.readState selector).
Proof. intros He m. by rewrite (rejected_lock_skips_readState _ _ _ _ He). Qed.

Lemma StoreFixed_stuck {A} : StoreFixed s (stuck : ST World A).
Proof. done. Qed.

Lemma StoreFixed_throw {A} e : StoreFixed s (throw e : ST World A).
Proof. done. Qed.

End store_fixed.

Ltac store_fixed :=
  repeat first
    [ apply StoreFixed_ret
    | apply StoreFixed_stuck
    | apply StoreFixed_throw
    | apply StoreFixed_lift
    | eapply StoreFixed_withState; eassumption
    | eapply StoreFixed_readState; eassumption
    | apply StoreFixed_fmap
    | apply StoreFixed_bind; [| intros ?]
    | match goal with
      | |- StoreFixed _ (match ?x with _ => _ end) => destruct x
      | |- StoreFixed _ (match ?x with _ => _ end _) => destruct x
      | |- StoreFixed _ (if ?x then _ else _) => destruct x
      end ].

Section store_fixed_calls.
Context (dateAt : nat → Timestamp) (userIdAt fileIdAt : nat → string).

(** Once the store's chain is rejected, it stays rejected and the state
    file stays as it is, whatever is called: no call of the manager
    changes the store.  [identifyUser], [getUserSnapshot] and
    [clearHistory] do nothing but throw the error the chain is rejected
    with. *)
Theorem rejected_chain_is_final (w : World) (e : Error) :
  DataStore._lock w.1 = Some e →
  (∀ call, (run dateAt userIdAt fileIdAt call w).2.1 = w.1) ∧
  (∀ fuel requestedKey,
     identifyUser dateAt userIdAt fuel requestedKey w = (Throw e, w)) ∧
  (∀ userKey, getUserSnapshot userKey w = (Throw e, w)) ∧
  (∀ userKey, clearHistory userKey w = (Throw e, w)).
Proof.
  destruct w as [s m]. cbn [fst snd]. intros He. split_and!.
  - intros call. revert m. change (StoreFixed s (run dateAt userIdAt fileIdAt call)).
    destruct call; unfold run, identifyUser, getUserSnapshot, createUpload, getUpload,
      recordChunk, updateStatus, finalizeUpload, clearHistory, removeUpload; store_fixed.
  - intros fuel requestedKey. unfold identifyUser, identifyUser_exists, identifyUser_register.
    destruct (truthy requestedKey) as [k|].
    + apply bind_run_Throw. by apply rejected_lock_skips_readState.
    + rewrite (bind_run _ _ (s, m) false (s, m)) by reflexivity.
      apply bind_run_Throw. by apply rejected_lock_skips_withState.
  - intros userKey. unfold getUserSnapshot.
    apply bind_run_Throw. by apply rejected_lock_skips_readState.
  - intros userKey. unfold clearHistory. by apply rejected_lock_skips_withState.
Qed.

(** Work on an upload of the ephemeral bucket does not go through the
    store: [recordChunk], [updateStatus] and [getUpload] on such an upload,
    and [createUpload] without [persist], leave the state file and the
    store's chain exactly as they are, however they end, and whether or
    not the chain is rejected. *)
Theorem bucket_uploads_bypass_store (w : World) (userKey uploadId : string) :
  is_Some (bucketEntry w.2 userKey uploadId) →
  (∀ i, (recordChunk dateAt userKey uploadId i w).2.1 = w.1) ∧
  (∀ status, (updateStatus dateAt userKey uploadId status w).2.1 = w.1) ∧
  (getUpload userKey uploadId w).2.1 = w.1 ∧
  (∀ userKey' fileName fileSize chunkSize,
     (createUpload dateAt fileIdAt userKey' fileName fileSize chunkSize false w).2.1 = w.1).
Proof.
  destruct w as [s m]. cbn [fst snd]. intros [l Hl].
  assert (Hbucket : ephemeralUpload userKey uploadId m = (Ok (Some l), m))
    by (unfold ephemeralUpload, bucketEntry in *; st_unfold; by rewrite Hl).
  split_and!.
  - intros i. unfold recordChunk.
    rewrite (bind_run _ _ _ _ _ (lift_run _ s _ _ _ Hbucket)).
    generalize m. change (StoreFixed s
      (lift (mutateObject l (λ u, _markChunk dateAt u i));;
       decorated ← lift (decorateObject l);
       missing ← lift (missingOf decorated);
       ret (Recorded.mk decorated (bool_decide (length missing = 0%nat))))).
    store_fixed.
  - intros status. unfold updateStatus.
    rewrite (bind_run _ _ _ _ _ (lift_run _ s _ _ _ Hbucket)).
    generalize m. change (StoreFixed s
      (lift (mutateObject l (λ u,
         now ← _now dateAt; ret (Upload.set_updatedAt now (Upload.set_status status u))));;
       lift (decorateObject l))).
    store_fixed.
  - unfold getUpload.
    rewrite (bind_run _ _ _ _ _ (lift_run _ s _ _ _ Hbucket)).
    generalize m. change (StoreFixed s
      (decorated ← lift (decorateObject l); ret (Some (Found.mk memory decorated)))).
    store_fixed.
  - intros userKey' fileName fileSize chunkSize. generalize m.
    change (StoreFixed s
      (createUpload dateAt fileIdAt userKey' fileName fileSize chunkSize false)).
    unfold createUpload. store_fixed.
Qed.

End store_fixed_calls.

(** ** getUserSnapshot *)

(** An upload object together with the status found in it. *)
Definition hasStatus (m : Manager.t) (d : loc * Status) : Prop :=
  ∃ u, load (Manager.heap m) d.1 = Some u ∧ Upload.status u = d.2.

Lemma hasStatus_extends m m' d : extends m m' → hasStatus m d → hasStatus m' d.
Proof. intros Hext (u & Hu & Hs). exists u. split; [by eapply load_extends | done]. Qed.

Lemma wp_forEach_status {X} (f : X → ST Manager.t (loc * Status)) (l : list X) m :
  (∀ x m0, wp (f x) (λ d m1, extends m0 m1 ∧ hasStatus m1 d) (λ _, True) m0) →
  wp (forEach f l)
    (λ res m', extends m m' ∧ length res = length l ∧ Forall (hasStatus m') res)
    (λ _, True) m.
Proof.
  intros Hf. revert m. induction l as [|x l IH]; intros m.
  - apply wp_ret. split; [reflexivity |]. split; [done | constructor].
  - simpl. apply wp_bind. eapply wp_mono; [apply Hf | | done].
    intros d m1 [Hext1 Hd]. apply wp_bind. eapply wp_mono; [apply IH | | done].
    intros res m2 (Hext2 & Hlen & Hres). apply wp_ret.
    split; [by etrans |]. split; [simpl; by rewrite Hlen |].
    constructor; [by eapply hasStatus_extends | done].
Qed.

Lemma wp_decorate_status u m :
  wp (decorated ← _decorateUpload u; s ← statusOf decorated; ret (decorated, s))
    (λ d m1, extends m m1 ∧ hasStatus m1 d) (λ _, True) m.
Proof.
  apply wp_bind. eapply wp_run; [apply _decorateUpload_run |].
  apply wp_bind. unfold statusOf. apply wp_bind.
  eapply wp_run; [apply stringify_run; apply load_decorate |].
  apply wp_ret, wp_ret. split.
  - split; [done |]. by apply prefix_app_r.
  - exists (decorated u). split; [apply load_decorate | done].
Qed.

Lemma wp_decorateObject_status l m :
  wp (decorated ← decorateObject l; s ← statusOf decorated; ret (decorated, s))
    (λ d m1, extends m m1 ∧ hasStatus m1 d) (λ _, True) m.
Proof.
  unfold decorateObject. apply wp_bind, wp_bind.
  unfold wp at 1. unfold stringify. destruct (load (Manager.heap m) l) as [u|]; [| done].
  eapply wp_run; [apply _decorateUpload_run |].
  apply wp_bind. unfold statusOf. apply wp_bind.
  eapply wp_run; [apply stringify_run; apply load_decorate |].
  apply wp_ret, wp_ret. split.
  - split; [done |]. by apply prefix_app_r.
  - exists (decorated u). split; [apply load_decorate | done].
Qed.

(** What [getUserSnapshot] returns.  It is [null] exactly when the user
    has neither a record in the state file nor an ephemeral bucket.
    Otherwise [history] is the history of the record in the state file
    (empty when there is none), every object of [paused] has status
    [paused], no object of [active] has, and the two lists together hold
    as many objects as the user has uploads in the state file and in the
    bucket.  The call does not change the store. *)
Theorem getUserSnapshot_partitions (w w' : World) (userKey : string)
    (r : option Snapshot.t) :
  getUserSnapshot userKey w = (Ok r, w') →
  w'.1 = w.1 ∧
  match r with
  | None =>
      users (DataStore._read w.1) !! userKey = None ∧
      Manager.ephemeral w.2 !! userKey = None
  | Some snapshot =>
      (is_Some (users (DataStore._read w.1) !! userKey) ∨
       is_Some (Manager.ephemeral w.2 !! userKey)) ∧
      Snapshot.history snapshot = historyOf w userKey ∧
      Forall (λ l, ∃ u, load (Manager.heap w'.2) l = Some u ∧ Upload.status u = paused)
        (Snapshot.paused snapshot) ∧
      Forall (λ l, ∃ u, load (Manager.heap w'.2) l = Some u ∧ Upload.status u ≠ paused)
        (Snapshot.active snapshot) ∧
      (length (Snapshot.active snapshot) + length (Snapshot.paused snapshot))%nat
      = (size (from_option UserRecord.uploads ∅ (users (DataStore._read w.1) !! userKey))
         + size (default ∅ (Manager.ephemeral w.2 !! userKey)))%nat
  end.
Proof.
  destruct w as [s m]. cbn [fst snd]. intros Hrun.
  refine (wp_Ok _ (λ r w', w'.1 = s ∧ match r with
            | None => users (DataStore._read s) !! userKey = None ∧
                      Manager.ephemeral m !! userKey = None
            | Some snapshot =>
                (is_Some (users (DataStore._read s) !! userKey) ∨
                 is_Some (Manager.ephemeral m !! userKey)) ∧
                Snapshot.history snapshot = historyOf (s, m) userKey ∧
                Forall (λ l, ∃ u, load (Manager.heap w'.2) l = Some u ∧
                                  Upload.status u = paused) (Snapshot.paused snapshot) ∧
                Forall (λ l, ∃ u, load (Manager.heap w'.2) l = Some u ∧
                                  Upload.status u ≠ paused) (Snapshot.active snapshot) ∧
                (length (Snapshot.active snapshot) + length (Snapshot.paused snapshot))%nat
                = (size (from_option UserRecord.uploads ∅
                           (users (DataStore._read s) !! userKey))
                   + size (default ∅ (Manager.ephemeral m !! userKey)))%nat
            end) (λ _, True) _ _ _ _ Hrun).
  clear Hrun. unfold getUserSnapshot.
  apply wp_bind, wp_readState_returned. intros Hlock.
  apply wp_bind, wp_gets. apply wp_prop. simpl.
  apply wp_bind, wp_lift, wp_gets.
  set (persistentUser := users (DataStore._read s) !! userKey).
  set (ephemeralUser := Manager.ephemeral m !! userKey).
  assert (Hrest : is_Some persistentUser ∨ is_Some ephemeralUser →
    wp (fromState ← lift (forEach (λ upload,
          decorated ← _decorateUpload upload; s ← statusOf decorated; ret (decorated, s))
          (from_option (λ u, (map_to_list (UserRecord.uploads u)).*2) [] persistentUser));
        fromMemory ← lift (forEach (λ upload,
          decorated ← decorateObject upload; s ← statusOf decorated; ret (decorated, s))
          (from_option (λ b, (map_to_list b).*2) [] ephemeralUser));
        let all := fromState ++ fromMemory in
        ret (Some (Snapshot.mk
          (filter (λ d, d.2 ≠ paused) all).*1
          (filter (λ d, d.2 = paused) all).*1
          (from_option UserRecord.history [] persistentUser))))
      (λ r w', w'.1 = s ∧ match r with
         | None => persistentUser = None ∧ ephemeralUser = None
         | Some snapshot =>
             (is_Some persistentUser ∨ is_Some ephemeralUser) ∧
             Snapshot.history snapshot = historyOf (s, m) userKey ∧
             Forall (λ l, ∃ u, load (Manager.heap w'.2) l = Some u ∧
                               Upload.status u = paused) (Snapshot.paused snapshot) ∧
             Forall (λ l, ∃ u, load (Manager.heap w'.2) l = Some u ∧
                               Upload.status u ≠ paused) (Snapshot.active snapshot) ∧
             (length (Snapshot.active snapshot) + length (Snapshot.paused snapshot))%nat
             = (size (from_option UserRecord.uploads ∅ persistentUser)
                + size (default ∅ ephemeralUser))%nat
         end) (λ _ : World, True) (s, m)).
  { intros Hsome. apply wp_bind, wp_lift.
    eapply wp_mono; [apply wp_forEach_status; intros; apply wp_decorate_status | | done].
    intros fromState m1 (Hext1 & Hlen1 & Hres1). apply wp_bind, wp_lift.
    eapply wp_mono; [apply wp_forEach_status; intros; apply wp_decorateObject_status | | done].
    intros fromMemory m2 (Hext2 & Hlen2 & Hres2). apply wp_ret. cbn [fst snd].
    split; [done |]. split; [done |]. split; [done |].
    assert (Hall : Forall (hasStatus m2) (fromState ++ fromMemory)).
    { apply Forall_app. split; [| done].
      eapply Forall_impl; [exact Hres1 |]. intros d. by apply hasStatus_extends. }
    split_and!.
    - apply Forall_fmap, Forall_forall. intros d Hd.
      apply list_elem_of_filter in Hd as [Hp Hd].
      rewrite Forall_forall in Hall. destruct (Hall d Hd) as (u & Hu & Hs).
      exists u. split; [done | congruence].
    - apply Forall_fmap, Forall_forall. intros d Hd.
      apply list_elem_of_filter in Hd as [Hp Hd].
      rewrite Forall_forall in Hall. destruct (Hall d Hd) as (u & Hu & Hs).
      exists u. split; [done | congruence].
    - simpl. rewrite !length_fmap.
      pose proof (filter_app_complement (λ d : loc * Status, d.2 = paused)
                    (fromState ++ fromMemory)) as Hperm.
      apply Permutation_length in Hperm. rewrite !length_app in Hperm.
      rewrite Nat.add_comm, Hperm, Hlen1, Hlen2.
      destruct persistentUser as [user|], ephemeralUser as [b|]; simpl;
        rewrite ?length_fmap, ?length_map_to_list, ?size_empty; done. }
  destruct persistentUser as [user|] eqn:Hp, ephemeralUser as [b|] eqn:He;
    try (apply Hrest; eauto).
  apply wp_ret. done.
Qed.

(** ** The directories on disk *)

(** The scratch directories and the assembled files are what they were. *)
Definition sameDisk (m m' : Manager.t) : Prop :=
  Manager.uploadDir m' = Manager.uploadDir m ∧ Manager.finalDir m' = Manager.finalDir m.

#[global] Instance sameDisk_preorder : PreOrder sameDisk.
Proof.
  split.
  - by intros m.
  - intros m1 m2 m3 [H1 H2] [H3 H4]. split; congruence.
Qed.

Lemma Keeps_sameDisk_now dateAt : Keeps sameDisk (_now dateAt).
Proof. by intros m. Qed.

Lemma Keeps_sameDisk_createUserId userIdAt : Keeps sameDisk (_createUserId userIdAt).
Proof. by intros m. Qed.

Lemma Keeps_sameDisk_createFileId fileIdAt : Keeps sameDisk (_createFileId fileIdAt).
Proof. by intros m. Qed.

Lemma Keeps_sameDisk_parse u : Keeps sameDisk (parse u).
Proof. intros m. by rewrite parse_run. Qed.

Lemma Keeps_sameDisk_stringify l : Keeps sameDisk (stringify l).
Proof. intros m. unfold stringify. by destruct (load _ _). Qed.

Lemma Keeps_sameDisk_decorateUpload u : Keeps sameDisk (_decorateUpload u).
Proof. intros m. by rewrite _decorateUpload_run. Qed.

Lemma Keeps_sameDisk_ephemeralUpload userKey uploadId :
  Keeps sameDisk (ephemeralUpload userKey uploadId).
Proof. by intros m. Qed.

Lemma Keeps_sameDisk_assignFields l u : Keeps sameDisk (assignFields l u).
Proof.
  intros m. unfold assignFields.
  destruct (Manager.heap m !! l) as [[o| |]|]; try done.
  by destruct (Manager.heap m !! Upload.receivedChunks o) as [[|received|]|].
Qed.

Lemma Keeps_sameDisk_ensureEphemeralUser userKey :
  Keeps sameDisk (_ensureEphemeralUser userKey).
Proof. intros m. unfold _ensureEphemeralUser. simpl. by destruct (_ !! _). Qed.

Lemma Keeps_sameDisk_setEphemeralUpload userKey uploadId l :
  Keeps sameDisk (setEphemeralUpload userKey uploadId l).
Proof. by intros m. Qed.

Lemma Keeps_sameDisk_deleteEphemeralUpload userKey uploadId :
  Keeps sameDisk (deleteEphemeralUpload userKey uploadId).
Proof. by intros m. Qed.

#[global] Hint Resolve Keeps_sameDisk_now Keeps_sameDisk_createUserId
  Keeps_sameDisk_createFileId Keeps_sameDisk_parse Keeps_sameDisk_stringify
  Keeps_sameDisk_decorateUpload Keeps_sameDisk_ephemeralUpload Keeps_sameDisk_assignFields
  Keeps_sameDisk_ensureEphemeralUser Keeps_sameDisk_setEphemeralUpload
  Keeps_sameDisk_deleteEphemeralUpload : keeps.

Ltac solve_keeps_more :=
  repeat first
    [ keeps_step
    | match goal with
      | |- Keeps _ (match ?x with _ => _ end _) => destruct x
      end ].

Section disk.
Context (dateAt : nat → Timestamp) (userIdAt fileIdAt : nat → string).

Lemma Keeps_sameDisk_drawUserId fuel usersObj :
  Keeps sameDisk (drawUserId userIdAt fuel usersObj).
Proof.
  induction fuel as [|fuel IH]; simpl; [apply Keeps_stuck; apply _ |].
  apply Keeps_bind; [apply _ | apply Keeps_sameDisk_createUserId |].
  intros candidate. destruct (truthy_at usersObj candidate); [exact IH |].
  apply Keeps_ret; apply _.
Qed.

Lemma Keeps_sameDisk_gets {A} (f : Manager.t → A) :
  Keeps sameDisk (lift (gets f) : ST World A).
Proof. by intros [s m]. Qed.

Lemma Keeps_sameDisk_identifyUser fuel requestedKey :
  Keeps sameDisk (identifyUser dateAt userIdAt fuel requestedKey).
Proof.
  unfold identifyUser, identifyUser_exists, identifyUser_register, identifyUser_mutator.
  solve_keeps_more.
  all: apply Keeps_sameDisk_drawUserId.
Qed.

Lemma Keeps_sameDisk_getUserSnapshot userKey : Keeps sameDisk (getUserSnapshot userKey).
Proof. unfold getUserSnapshot, decorateObject, statusOf. solve_keeps_more. Qed.

Lemma Keeps_sameDisk_getUpload userKey uploadId : Keeps sameDisk (getUpload userKey uploadId).
Proof. unfold getUpload, decorateObject. solve_keeps_more. Qed.

Lemma Keeps_sameDisk_recordChunk userKey uploadId i :
  Keeps sameDisk (recordChunk dateAt userKey uploadId i).
Proof.
  unfold recordChunk, mutateObject, decorateObject, missingOf, findUpload, _markChunk.
  solve_keeps_more.
Qed.

Lemma Keeps_sameDisk_updateStatus userKey uploadId status :
  Keeps sameDisk (updateStatus dateAt userKey uploadId status).
Proof. unfold updateStatus, mutateObject, decorateObject, findUpload. solve_keeps_more. Qed.

Lemma Keeps_sameDisk_finalizeUpload userKey uploadId :
  Keeps sameDisk (finalizeUpload dateAt userKey uploadId).
Proof.
  unfold finalizeUpload, historyMutator, mutateObject, decorateObject, findUpload,
    _ensureUserRecord, _toHistoryEntry. solve_keeps_more.
Qed.

Lemma Keeps_sameDisk_clearHistory userKey : Keeps sameDisk (clearHistory userKey).
Proof. unfold clearHistory. solve_keeps_more. Qed.

Lemma Keeps_sameDisk_removeUpload userKey uploadId forget :
  Keeps sameDisk (removeUpload dateAt userKey uploadId forget).
Proof.
  unfold removeUpload, historyMutator, mutateObject, decorateObject, findUpload,
    _ensureUserRecord, _toHistoryEntry. solve_keeps_more.
Qed.

(** Of the calls of the manager, only [createUpload] (which makes the
    scratch directory), the saving of a chunk and [assembleFile] touch the
    directories on disk: every other call leaves every scratch directory
    and every assembled file as it is, however the call ends.  In
    particular [finalizeUpload] and [removeUpload] do not remove the
    scratch directory of the upload they retire. *)
Theorem manager_calls_keep_disk (call : Call) (w : World) :
  match call with
  | CreateUpload _ _ _ _ _ | SaveChunk _ _ _ | AssembleFile _ => True
  | _ =>
      let w' := (run dateAt userIdAt fileIdAt call w).2 in
      Manager.uploadDir w'.2 = Manager.uploadDir w.2 ∧
      Manager.finalDir w'.2 = Manager.finalDir w.2
  end.
Proof.
  assert (Hkeeps : ∀ {A} (f : A → Reply) (c : ST World A), Keeps sameDisk c →
            Manager.uploadDir ((f <$> c) w).2.2 = Manager.uploadDir w.2 ∧
            Manager.finalDir ((f <$> c) w).2.2 = Manager.finalDir w.2).
  { intros A f c Hc.
    assert (Keeps sameDisk (f <$> c)) as Hfc.
    { apply (Keeps_bind sameDisk c (λ a, ret (f a))); [done |]. intros a.
      apply Keeps_ret; apply _. }
    exact (Hfc w). }
  destruct call; try exact I; unfold run; apply Hkeeps.
  - apply Keeps_sameDisk_identifyUser.
  - apply Keeps_sameDisk_getUserSnapshot.
  - apply Keeps_sameDisk_getUpload.
  - apply Keeps_sameDisk_recordChunk.
  - apply Keeps_sameDisk_updateStatus.
  - apply Keeps_sameDisk_finalizeUpload.
  - apply Keeps_sameDisk_clearHistory.
  - apply Keeps_sameDisk_removeUpload.
Qed.

End disk.

(** ** What the server answers *)

Lemma wp_any {S A} (c : ST S A) (Q : A → S → Prop) (X : S → Prop) s :
  (∀ a s', Q a s') → (∀ s', X s') → wp c Q X s.
Proof. intros HQ HX. unfold wp. destruct (c s) as [[a|e|] s']; eauto. Qed.

Section answers.
Context (production : bool).
Context (dateAt : nat → Timestamp) (userIdAt fileIdAt : nat → string).

(** A response as a client may rely on it: a body other than an error
    comes with status 200; an error comes with status 400, 404 or 500, the
    last exactly for [internal_error]; and [details] are only given with
    [internal_error], outside production. *)
Definition answersWell (response : Response.t) : Prop :=
  match Response.body response with
  | ErrorBody error details =>
      (Response.status response = 400 ∨ Response.status response = 404 ∨
       Response.status response = 500) ∧
      (Response.status response = 500 ↔ error = "internal_error"%string) ∧
      (is_Some details → Response.status response = 500 ∧ production = false)
  | _ => Response.status response = 200
  end.

Lemma answersWell_internal message :
  answersWell (errorMiddleware production (HttpError.mk message None None)).
Proof.
  unfold answersWell, errorMiddleware, sanitizeError. simpl.
  split; [auto |]. split; [done |]. destruct production; [by intros [? ?] | done].
Qed.

Lemma answersWell_raise message statusCode :
  statusCode = 400 ∨ statusCode = 404 → message ≠ "internal_error"%string →
  answersWell (errorMiddleware production (HttpError.mk message (Some statusCode) None)).
Proof.
  intros Hcode Hmsg. unfold answersWell, errorMiddleware, sanitizeError. simpl.
  destruct Hcode as [-> | ->]; simpl; (split; [auto |]); (split; [| by intros [? ?]]);
    split; [discriminate | done | discriminate | done].
Qed.

Lemma wp_try_ (body : ST World Response.t) (Q : Response.t → World → Prop) w :
  wp body Q (λ w', ∀ e, Q (errorMiddleware production (HttpError.mk (messageOf e) None None)) w') w →
  wp (try_ production body) Q (λ _, False) w.
Proof.
  unfold wp, try_. destruct (body w) as [[response|e|] w']; [done | | done].
  intros H. apply H.
Qed.

Lemma wp_raise message statusCode (Q : Response.t → World → Prop) X w :
  Q (errorMiddleware production (HttpError.mk message (Some statusCode) None)) w →
  wp (raise production message statusCode) Q X w.
Proof. done. Qed.

Lemma wp_json body (Q : Response.t → World → Prop) X w :
  Q (Response.mk 200 body) w → wp (json body) Q X w.
Proof. done. Qed.

Ltac answer_step :=
  lazymatch goal with
  | |- wp (raise _ _ _) _ _ _ =>
      apply wp_raise, answersWell_raise; [auto | discriminate]
  | |- wp (json _) _ _ _ => apply wp_json; reflexivity
  | |- wp stuck _ _ _ => apply wp_stuck
  | |- wp (_ ≫= _) _ _ _ =>
      apply wp_bind, wp_any; [intros ? ? | intros ?; intros ?; apply answersWell_internal]
  | |- wp (match ?x with _ => _ end) _ _ _ => destruct x
  | |- wp (if ?x then _ else _) _ _ _ => destruct x
  | |- wp (let _ := _ in _) _ _ _ => cbv zeta
  end.

(** No error escapes a handler: whatever a handler or the manager throws
    is turned into an answer, and every answer is well formed. *)
Lemma serve_wp (request : Request) (w : World) :
  wp (serve production dateAt userIdAt fileIdAt request)
    (λ response _, answersWell response) (λ _, False) w.
Proof.
  destruct request; unfold serve, identifyRoute, listRoute, uploadRoute, createRoute,
    chunkRoute, stateRoute, historyRoute, parseInteger; apply wp_try_.
  all: repeat answer_step.
Qed.

(** [getUserSnapshot] and [getUpload], when they find nothing. *)
Lemma getUserSnapshot_null userKey w :
  wp (getUserSnapshot userKey) (λ r w', r = None → w' = w) (λ _, True) w.
Proof.
  destruct w as [s m]. unfold getUserSnapshot.
  apply wp_bind, wp_readState_returned. intros Hlock.
  apply wp_bind, wp_gets. apply wp_prop. simpl.
  apply wp_bind, wp_lift, wp_gets.
  destruct (users (DataStore._read s) !! userKey), (Manager.ephemeral m !! userKey);
    try (apply wp_bind, wp_any; [| done]; intros fromState w1;
         apply wp_bind, wp_any; [| done]; intros fromMemory w2; by apply wp_ret).
  by apply wp_ret.
Qed.

Lemma getUpload_null userKey uploadId w :
  wp (getUpload userKey uploadId) (λ r w', r = None → w' = w) (λ _, True) w.
Proof.
  destruct w as [s m]. unfold getUpload.
  apply wp_bind, wp_lift, wp_gets.
  destruct (Manager.ephemeral m !! userKey ≫= (.!! uploadId)) as [l|].
  - apply wp_bind, wp_any; [| done]. intros decorated w1. by apply wp_ret.
  - apply wp_bind, wp_readState_returned. intros Hlock.
    apply wp_bind, wp_gets. apply wp_bind, wp_prop. simpl.
    destruct (users (DataStore._read s) !! userKey) as [user|].
    + apply wp_bind, wp_prop. destruct (UserRecord.uploads user !! uploadId) as [u|].
      * apply wp_bind, wp_any; [| done]. intros decorated w1. apply wp_ret.
        destruct w1. by apply wp_ret.
      * apply wp_ret. by apply wp_ret.
    + apply wp_ret. by apply wp_ret.
Qed.

Lemma not_rejected_internal message :
  ¬ (Response.status (errorMiddleware production (HttpError.mk message None None)) = 400 ∨
     Response.status (errorMiddleware production (HttpError.mk message None None)) = 404).
Proof. intros [H | H]; discriminate H. Qed.

Ltac reject_step :=
  lazymatch goal with
  | |- wp (raise _ _ _) _ _ _ => apply wp_raise; intros _; reflexivity
  | |- wp (json _) _ _ _ => apply wp_json; intros [H | H]; discriminate H
  | |- wp stuck _ _ _ => apply wp_stuck
  | |- wp (_ ≫= _) _ _ _ =>
      apply wp_bind, wp_any;
      [intros ? ? | intros ?; intros ?; intros H; by apply not_rejected_internal in H]
  | |- wp (match ?x with _ => _ end) _ _ _ => destruct x
  | |- wp (if ?x then _ else _) _ _ _ => destruct x
  | |- wp (let _ := _ in _) _ _ _ => cbv zeta
  end.

(** A request that is answered with status 400 or 404 has changed
    nothing: neither the state file, nor the store's chain, nor the
    manager's memory, nor the directories on disk. *)
Theorem rejected_request_changes_nothing (request : Request) (w w' : World)
    (response : Response.t) :
  serve production dateAt userIdAt fileIdAt request w = (Ok response, w') →
  Response.status response = 400 ∨ Response.status response = 404 →
  w' = w.
Proof.
  intros Hrun.
  refine (wp_Ok _ (λ response w',
            Response.status response = 400 ∨ Response.status response = 404 → w' = w)
            (λ _, False) _ _ _ _ Hrun).
  clear Hrun.
  destruct request; unfold serve, identifyRoute, listRoute, uploadRoute, createRoute,
    chunkRoute, stateRoute, historyRoute, parseInteger; apply wp_try_.
  - repeat reject_step.
  - destruct (truthy userKey) as [k|]; [| repeat reject_step].
    apply wp_bind. eapply wp_mono; [apply getUserSnapshot_null | |].
    + intros [snapshot|] w1 Hnull; [repeat reject_step |].
      apply wp_raise. intros _. by apply Hnull.
    + intros w1 _ e H. by apply not_rejected_internal in H.
  - destruct (truthy userKey) as [k|]; [| repeat reject_step].
    apply wp_bind. eapply wp_mono; [apply getUpload_null | |].
    + intros [found|] w1 Hnull; [repeat reject_step |].
      apply wp_raise. intros _. by apply Hnull.
    + intros w1 _ e H. by apply not_rejected_internal in H.
  - repeat reject_step.
  - repeat reject_step.
  - repeat reject_step.
  - repeat reject_step.
Qed.

End answers.

(** ** The chunk route *)

Lemma pipeParts_Ok uploadId name (indices : list Z) (m m' : Manager.t) :
  pipeParts uploadId name indices m = (Ok tt, m') →
  ∃ datas, Forall2 (λ i data, partFile m uploadId i = Some data) indices datas.
Proof.
  revert m. induction indices as [|i indices IH]; intros m H.
  - exists []. constructor.
  - simpl in H. apply bind_Ok in H as (chunk & m0 & H0 & H).
    unfold gets in H0. injection H0 as <- <-.
    destruct (Manager.uploadDir m !! uploadId ≫= (.!! i)) as [data|] eqn:Hi; [| discriminate].
    apply bind_Ok in H as ([] & m1 & H1 & H). unfold modify in H1. injection H1 as <-.
    apply IH in H as (datas & Hdatas). exists (data :: datas).
    constructor; [exact Hi | exact Hdatas].
Qed.

(** What a successful [assembleFile] implies, and leaves. *)
Lemma assembleFile_Ok {R A} (upload : Upload.t R A) (m m' : Manager.t) name :
  assembleFile upload m = (Ok name, m') →
  ∃ datas,
    Forall2 (λ i data, partFile m (Upload.id upload) i = Some data)
      (seqZ 0 (Upload.totalChunks upload)) datas ∧
    name = finalName upload ∧
    Manager.finalDir m' = <[finalName upload := mjoin datas]> (Manager.finalDir m) ∧
    Manager.uploadDir m' = delete (Upload.id upload) (Manager.uploadDir m).
Proof.
  unfold assembleFile. fold (finalName upload). intros H.
  set (m0 := Manager.set_finalDir (<[finalName upload := []]> (Manager.finalDir m)) m) in *.
  rewrite (bind_run _ _ m tt m0) in H by reflexivity.
  apply bind_Ok in H as ([] & m1 & H1 & H).
  destruct (pipeParts_Ok _ _ _ _ _ H1) as (datas & Hdatas).
  rewrite (pipeParts_all _ _ _ datas [] m0 Hdatas) in H1 by apply lookup_insert_eq.
  injection H1 as <-. injection H as <- <-.
  exists datas. split; [exact Hdatas |]. split; [done |]. simpl.
  by rewrite insert_insert_eq.
Qed.

Lemma Keeps_run {S A} `{HasManager S} (R : relation Manager.t) (c : ST S A) s r s' :
  Keeps R c → c s = (r, s') → R (mgr s) (mgr s').
Proof. intros Hc Hrun. specialize (Hc s). by rewrite Hrun in Hc. Qed.

Section chunk_route.
Context (production : bool).
Context (dateAt : nat → Timestamp) (userIdAt fileIdAt : nat → string).


(** When the chunk route answers [completed], the file has been
    assembled: the upload the manager held had every chunk received but
    possibly the one of this request; every part file of the upload
    existed once this request's part was saved; the final file
    [<id>-<safe name>] holds the contents of the parts in the order of
    their indices; and the scratch directory of the upload is gone. *)
Theorem chunk_route_completes (w w' : World) (uploadId userKey : string) (buffer : bytes)
    (index status : Z) (upload : loc) (uploads : option Snapshot.t) :
  chunkRoute production dateAt uploadId (Some userKey) (Some buffer) (Some index) w
  = (Ok (Response.mk status (ChunkCompletedBody upload uploads)), w') →
  ∃ (u : UploadJ) (datas : list bytes),
    storedUpload w userKey uploadId = Some u ∧
    (∀ j, 0 ≤ j < Upload.totalChunks u → j = index ∨ j ∈ Upload.receivedChunks u) ∧
    Forall2 (λ j data, partFile (saveChunk uploadId index buffer w.2).2 (Upload.id u) j
                       = Some data)
      (seqZ 0 (Upload.totalChunks u)) datas ∧
    Manager.finalDir w'.2 !! finalName u = Some (mjoin datas) ∧
    Manager.uploadDir w'.2 !! Upload.id u = None ∧
    status = 200.
Proof.
  destruct w as [s m]. cbn [fst snd]. unfold chunkRoute, try_, parseInteger.
  destruct (truthy (Some userKey)) as [k|] eqn:Hk; [| discriminate].
  assert (k = userKey) as ->.
  { unfold truthy in Hk. case_bool_decide; [discriminate |]. by injection Hk as <-. }
  destruct (saveChunk_run uploadId index buffer m)
    as (m1 & Hsave & Hpart & _ & Hfinal & Hheap & Heph).
  rewrite Hsave. cbn [snd].
  rewrite (bind_run _ _ _ _ _ (lift_run _ s _ _ _ Hsave)).
  rewrite bind_eq.
  destruct (recordChunk dateAt userKey uploadId index (s, m1)) as [[record|e|] [s2 m2]] eqn:Hrec;
    [| discriminate..].
  destruct (Recorded.completed record) eqn:Hcompleted; [| discriminate].
  rewrite bind_eq.
  destruct (lift (u ← stringify (Recorded.upload record); assembleFile u) (s2, m2))
    as [[name|e|] [s3 m3]] eqn:Hasm; [| discriminate..].
  apply lift_Ok in Hasm as [-> Hasm].
  apply bind_Ok in Hasm as (d & m2' & Hstr & Hasm). apply stringify_Ok in Hstr as [-> Hd].
  rewrite bind_eq.
  destruct (finalizeUpload dateAt userKey uploadId (s2, m3)) as [[r|e|] [s4 m4]] eqn:Hfin;
    [| discriminate..].
  rewrite bind_eq.
  destruct (getUserSnapshot userKey (s4, m4)) as [[snapshot|e|] [s5 m5]] eqn:Hsnap;
    [| discriminate..].
  intros H. injection H as <- <- <- <-.
  destruct (Keeps_run sameDisk _ _ _ _ (Keeps_sameDisk_finalizeUpload dateAt userKey uploadId)
              Hfin) as [Hup4 Hfin4].
  destruct (Keeps_run sameDisk _ _ _ _ (Keeps_sameDisk_getUserSnapshot userKey) Hsnap)
    as [Hup5 Hfin5].
  destruct (Keeps_run sameDisk _ _ _ _
              (Keeps_sameDisk_recordChunk dateAt userKey uploadId index) Hrec)
    as [Hup2 Hfin2].
  unfold mgr, manager_snd in *. cbn [snd] in *.
  destruct (assembleFile_Ok _ _ _ _ Hasm) as (datas & Hdatas & -> & Hfinal3 & Hdir3).
  assert (Hrecorded : ∃ u, storedUpload (s, m) userKey uploadId = Some u ∧
            0 ≤ index < Upload.totalChunks u ∧
            d = decorated (marked u index (dateAt (Manager.clockReads m1))) ∧
            Recorded.completed record
            = bool_decide (length (_missingChunks
                (marked u index (dateAt (Manager.clockReads m1)))) = 0%nat)).
  { destruct (recordChunk_Ok _ _ _ _ _ _ _ _ Hrec)
      as [(l & u & Hmem & Hload & Hin) | (user & u & Hmem & Hlock & Huser & Hup & Hin)].
    - pose proof (recordChunk_memory_run dateAt s m1 _ _ _ _ _ Hmem Hload Hin)
        as (r' & m' & Hrun & _ & _ & Hd' & Hc').
      rewrite Hrun in Hrec. injection Hrec as <- <- <-.
      exists u. rewrite Hd in Hd'. injection Hd' as ->.
      split; [| split; [exact Hin | split; [reflexivity | exact Hc']]].
      unfold storedUpload. cbn [fst snd]. rewrite <- Heph, Hmem. by rewrite <- Hheap.
    - pose proof (recordChunk_persistent_run dateAt s m1 _ _ _ _ _ Hmem Hlock Huser Hup Hin)
        as (r' & m' & Hrun & _ & Hd' & Hc').
      rewrite Hrun in Hrec. injection Hrec as <- <- <-.
      exists u. rewrite Hd in Hd'. injection Hd' as ->.
      split; [| split; [exact Hin | split; [reflexivity | exact Hc']]].
      unfold storedUpload. cbn [fst snd]. rewrite <- Heph, Hmem. by rewrite Huser. }
  destruct Hrecorded as (u & Hstored & Hin & -> & Hc).
  exists u, datas. split; [exact Hstored |]. split_and!.
  - intros j Hj. rewrite Hcompleted in Hc. symmetry in Hc.
    apply bool_decide_eq_true in Hc. apply nil_length_inv in Hc.
    destruct (decide (j ∈ Upload.receivedChunks
                            (marked u index (dateAt (Manager.clockReads m1))))) as [Hr | Hr].
    + simpl in Hr. case_bool_decide; [by right |].
      apply elem_of_union in Hr as [Hr | Hr]; [left; set_solver | by right].
    + exfalso. assert (j ∈ _missingChunks (marked u index (dateAt (Manager.clockReads m1))))
        as Hmiss by (apply _missingChunks_elem; split; [exact Hj | exact Hr]).
      rewrite Hc in Hmiss. by apply elem_of_nil in Hmiss.
  - eapply Forall2_impl; [exact Hdatas |]. intros j data Hj. simpl in Hj.
    unfold partFile in *. by rewrite <- Hup2.
  - rewrite Hfin5, Hfin4, Hfinal3. apply lookup_insert_eq.
  - rewrite Hup5, Hup4, Hdir3. apply lookup_delete_eq.
  - done.
Qed.

End chunk_route.

(** ** Invariants of the uploads in the state file

    A property [P userKey uploadId upload] that holds of every new
    persistent upload and is kept by [_markChunk] and by a change of
    status holds of every upload of the state file, in every state the
    program can be in. *)

Section file_invariant.
Context (dateAt : nat → Timestamp) (userIdAt fileIdAt : nat → string).
Context (P : string → string → UploadJ → Prop).
Hypothesis P_created : ∀ uploadId userKey fileName fileSize chunkSize n now,
  P userKey uploadId
    (Upload.mk uploadId userKey fileName fileSize chunkSize n true active ∅ (Some 0)
       now now None None).
Hypothesis P_marked : ∀ userKey uploadId u i now,
  P userKey uploadId u → 0 ≤ i < Upload.totalChunks u → P userKey uploadId (marked u i now).
Hypothesis P_status : ∀ userKey uploadId u status now,
  P userKey uploadId u →
  P userKey uploadId (Upload.set_updatedAt now (Upload.set_status status u)).

Definition userAll (userKey : string) (user : UserRecord.t) : Prop :=
  map_Forall (λ uploadId u, P userKey uploadId u) (UserRecord.uploads user).

Definition docAll (d : Doc) : Prop := map_Forall userAll (users d).

Definition fileAll (w : World) : Prop := docAll (DataStore._read w.1).

Lemma docAll_setUser d k user :
  docAll d → userAll k user → docAll (mkDoc (<[k := user]> (users d))).
Proof. intros Hd Hu. by apply map_Forall_insert_2. Qed.

Lemma wp_markChunk_range u i (Q : UploadJ → Manager.t → Prop) X m :
  (∀ t m', 0 ≤ i < Upload.totalChunks u → Q (marked u i t) m') → X m →
  wp (_markChunk dateAt u i) Q X m.
Proof.
  intros HQ HX. unfold wp.
  destruct (decide (0 ≤ i < Upload.totalChunks u)) as [Hin | Hout].
  - rewrite _markChunk_in_range by done. by apply HQ.
  - rewrite _markChunk_out_of_range by lia. done.
Qed.

Lemma wp_ensureUserRecord_all userKey (Q : UserRecord.t → Doc * Manager.t → Prop) X d e :
  docAll d →
  (∀ user d' e', docAll d' → userAll userKey user → extends e e' → Q user (d', e')) →
  wp (_ensureUserRecord dateAt userKey) Q X (d, e).
Proof.
  intros Hd HQ. unfold _ensureUserRecord. apply wp_bind, wp_gets. simpl.
  destruct (users d !! userKey) as [user|] eqn:Hu.
  - apply wp_ret. apply HQ; [done | exact (Hd _ _ Hu) | reflexivity].
  - destruct (inherited userKey); [apply wp_stuck |].
    apply wp_bind, wp_lift. unfold wp. simpl.
    apply HQ.
    + apply docAll_setUser; [done |]. apply map_Forall_empty.
    + apply map_Forall_empty.
    + by apply extends_same.
Qed.

Lemma historyMutator_all userKey upload d e :
  docAll d →
  wp (historyMutator dateAt userKey upload) (λ _ '(d', _), docAll d') (λ _, True) (d, e).
Proof.
  intros Hd. unfold historyMutator. apply wp_bind, wp_ensureUserRecord_all; [done |].
  intros user d' e' Hd' Hu _.
  apply wp_bind, lift_any; [| done]. intros u e1.
  apply wp_bind, lift_any; [| done]. intros entry e2.
  apply wp_modify. by apply docAll_setUser.
Qed.

Lemma withState_all {A} (mutator : ST (Doc * Manager.t) A) (Q : A → World → Prop) s m :
  fileAll (s, m) →
  (∀ a w', fileAll w' → Q a w') →
  (∀ d e, docAll d → wp mutator (λ _ '(d', _), docAll d') (λ _, True) (d, e)) →
  wp (DataStore.withState mutator) Q fileAll (s, m).
Proof.
  intros Hd HQ Hm. apply wp_withState; [done |]. intros _.
  eapply wp_mono; [apply Hm, Hd | |].
  - intros a [d' e'] Hd'. by apply HQ.
  - by intros [d' e'] _ e0.
Qed.

Lemma identifyUser_all fuel requestedKey w :
  fileAll w → wp (identifyUser dateAt userIdAt fuel requestedKey) (λ _, fileAll) fileAll w.
Proof.
  destruct w as [s m]. intros Hd. unfold identifyUser, identifyUser_exists, identifyUser_register.
  apply wp_bind.
  assert (Hrest : ∀ known m1,
    wp (match truthy requestedKey, known with
        | Some k, true => lift (_ensureEphemeralUser k);; ret (Identity.mk k false)
        | _, _ =>
            result ← DataStore.withState (identifyUser_mutator dateAt userIdAt fuel requestedKey);
            lift (_ensureEphemeralUser (Identity.userKey result));;
            ret result
        end) (λ _, fileAll) fileAll (s, m1)).
  { intros known m1.
    assert (Hmut : wp (result ← DataStore.withState
                         (identifyUser_mutator dateAt userIdAt fuel requestedKey);
                       lift (_ensureEphemeralUser (Identity.userKey result));;
                       ret result) (λ _, fileAll) fileAll (s, m1)).
    { apply wp_bind, withState_all; [done | |].
      - intros result [s' m'] Hd'. apply wp_bind, lift_any; [| done]. intros [] m2.
        by apply wp_ret.
      - intros d e Hdoc. unfold identifyUser_mutator. apply wp_bind, wp_gets. simpl.
        apply wp_bind.
        assert (Hput : ∀ candidate e1,
          wp ((if truthy_at (users d) candidate then ret tt
               else now ← lift (_now dateAt);
                    users' ← assign (users d) candidate (UserRecord.mk candidate now ∅ []);
                    putState (mkDoc users'));;
              ret (Identity.mk candidate true) : ST (Doc * Manager.t) Identity.t)
            (λ _ '(d', _), docAll d') (λ _, True) (d, e1)).
        { intros candidate e1. apply wp_bind.
          destruct (truthy_at (users d) candidate).
          - apply wp_ret. by apply wp_ret.
          - apply wp_bind, lift_any; [| done]. intros now e2.
            apply wp_bind, wp_assign. apply wp_modify. apply wp_ret.
            apply (docAll_setUser d); [done |]. apply map_Forall_empty. }
        destruct (truthy requestedKey) as [k|].
        + destruct (truthy_at (users d) k).
          * apply lift_any; [| done]. intros candidate e1. apply Hput.
          * apply wp_ret, Hput.
        + apply lift_any; [| done]. intros candidate e1. apply Hput. }
    destruct (truthy requestedKey) as [k|]; [| exact Hmut].
    destruct known; [| exact Hmut].
    apply wp_bind, lift_any; [| done]. intros [] m2. by apply wp_ret. }
  destruct (truthy requestedKey) as [k|] eqn:Hk.
  - apply readState_any; [| done | done]. intros known m1. apply Hrest.
  - apply wp_ret. exact (Hrest false m).
Qed.

Lemma createUpload_all userKey fileName fileSize chunkSize persist w :
  fileAll w →
  wp (createUpload dateAt fileIdAt userKey fileName fileSize chunkSize persist)
    (λ _, fileAll) fileAll w.
Proof.
  destruct w as [s m]. intros Hd. unfold createUpload.
  destruct (Math_ceil_div fileSize chunkSize) as [totalChunks|]; [| apply wp_stuck].
  apply wp_bind, lift_any; [| done]. intros uploadId m1.
  apply wp_bind, lift_any; [| done]. intros now m2.
  apply wp_bind, wp_lift. unfold wp. rewrite parse_run.
  set (u := Upload.mk _ _ _ _ _ _ _ _ _ _ _ _ _ _).
  set (base := parse_loc _ u).
  set (m3 := Manager.set_heap _ m2).
  assert (Hbase : load (Manager.heap m3) base = Some u) by apply load_parse.
  assert (Htail : ∀ w' : World, fileAll w' →
    wp (lift (ensureScratchDir uploadId);; lift (decorateObject base)) (λ _, fileAll) fileAll w').
  { intros [s' m'] Hd'. apply wp_bind, lift_any; [| done]. intros [] m4.
    by apply lift_any. }
  apply wp_bind. destruct persist.
  - apply wp_withState; [done |]. intros _.
    apply wp_bind, wp_ensureUserRecord_all; [done |]. intros user d' e' Hd' Hu Hext.
    apply wp_bind, wp_lift.
    eapply wp_run; [apply stringify_run; by eapply load_extends |].
    apply wp_bind, wp_assign. apply wp_modify.
    apply Htail. unfold fileAll. simpl.
    apply docAll_setUser; [done |]. apply map_Forall_insert_2; [| done].
    apply P_created.
  - apply lift_any; [| done]. intros [] m4. by apply Htail.
Qed.

Lemma getUpload_all userKey uploadId w :
  fileAll w → wp (getUpload userKey uploadId) (λ _, fileAll) fileAll w.
Proof.
  destruct w as [s m]. intros Hd. unfold getUpload.
  apply wp_bind, lift_any; [| done]. intros [l|] m1.
  - apply wp_bind, lift_any; [| done]. intros r m2. by apply wp_ret.
  - apply wp_bind, readState_any; [| done | done]. intros r m2. by apply wp_ret.
Qed.

Lemma getUserSnapshot_all userKey w :
  fileAll w → wp (getUserSnapshot userKey) (λ _, fileAll) fileAll w.
Proof.
  destruct w as [s m]. intros Hd. unfold getUserSnapshot.
  apply wp_bind, readState_any; [| done | done]. intros persistentUser m1.
  apply wp_bind, lift_any; [| done]. intros ephemeralUser m2.
  assert (Hrest : ∀ history uploads (bucket : list loc) m3,
    wp (fromState ← lift (forEach (λ upload,
          decorated ← _decorateUpload upload; s ← statusOf decorated; ret (decorated, s)) uploads);
        fromMemory ← lift (forEach (λ upload,
          decorated ← decorateObject upload; s ← statusOf decorated; ret (decorated, s)) bucket);
        let all := fromState ++ fromMemory in
        ret (Some (Snapshot.mk
          (filter (λ d, d.2 ≠ paused) all).*1
          (filter (λ d, d.2 = paused) all).*1
          history))) (λ _, fileAll) fileAll (s, m3)).
  { intros history uploads bucket m3.
    apply wp_bind, lift_any; [| done]. intros fromState m4.
    apply wp_bind, lift_any; [| done]. intros fromMemory m5. by apply wp_ret. }
  destruct persistentUser, ephemeralUser; try apply Hrest. by apply wp_ret.
Qed.

Lemma recordChunk_all userKey uploadId chunkIndex w :
  fileAll w → wp (recordChunk dateAt userKey uploadId chunkIndex) (λ _, fileAll) fileAll w.
Proof.
  destruct w as [s m]. intros Hd. unfold recordChunk.
  apply wp_bind, lift_any; [| done]. intros [l|] m1.
  - apply wp_bind, lift_any; [| done]. intros [] m2.
    apply wp_bind, lift_any; [| done]. intros r m3.
    apply wp_bind, lift_any; [| done]. intros missing m4. by apply wp_ret.
  - apply withState_all; [done | done |]. intros d e Hdoc.
    apply wp_bind, wp_findUpload; [| done]. intros user upload Hu Hup.
    apply wp_bind, wp_lift, wp_markChunk_range; [| done]. intros t m2 Hin.
    apply wp_bind, wp_modify.
    apply wp_bind, lift_any; [| done]. intros r m3.
    apply wp_bind, lift_any; [| done]. intros missing m4. apply wp_ret.
    apply docAll_setUser; [done |]. apply map_Forall_insert_2.
    + apply P_marked; [exact (Hdoc _ _ Hu _ _ Hup) | exact Hin].
    + exact (Hdoc _ _ Hu).
Qed.

Lemma updateStatus_all userKey uploadId status w :
  fileAll w → wp (updateStatus dateAt userKey uploadId status) (λ _, fileAll) fileAll w.
Proof.
  destruct w as [s m]. intros Hd. unfold updateStatus.
  apply wp_bind, lift_any; [| done]. intros [l|] m1.
  - apply wp_bind, lift_any; [| done]. intros [] m2. by apply lift_any.
  - apply withState_all; [done | done |]. intros d e Hdoc.
    apply wp_bind, wp_findUpload; [| done]. intros user upload Hu Hup.
    apply wp_bind, lift_any; [| done]. intros now m2.
    apply wp_bind, wp_modify. apply lift_any; [| done]. intros r m3.
    apply docAll_setUser; [done |]. apply map_Forall_insert_2.
    + apply P_status. exact (Hdoc _ _ Hu _ _ Hup).
    + exact (Hdoc _ _ Hu).
Qed.

Lemma finalizeUpload_all userKey uploadId w :
  fileAll w → wp (finalizeUpload dateAt userKey uploadId) (λ _, fileAll) fileAll w.
Proof.
  destruct w as [s m]. intros Hd. unfold finalizeUpload.
  apply wp_bind, lift_any; [| done]. intros [l|] m1.
  - apply wp_bind, lift_any; [| done]. intros [] m2.
    apply wp_bind, lift_any; [| done]. intros [] m3.
    apply wp_bind, withState_all; [done | |].
    + intros [] [s' m'] Hd'. by apply lift_any.
    + intros d e Hdoc. by apply historyMutator_all.
  - apply withState_all; [done | done |]. intros d e Hdoc.
    apply wp_bind, wp_findUpload; [| done]. intros user upload Hu Hup.
    apply wp_bind, lift_any; [| done]. intros now m2.
    apply wp_bind, lift_any; [| done]. intros r m3.
    apply wp_bind, lift_any; [| done]. intros entry m4.
    apply wp_bind, wp_modify. apply wp_ret.
    apply docAll_setUser; [done |]. apply map_Forall_delete. exact (Hdoc _ _ Hu).
Qed.

Lemma clearHistory_all userKey w :
  fileAll w → wp (clearHistory userKey) (λ _, fileAll) fileAll w.
Proof.
  destruct w as [s m]. intros Hd. unfold clearHistory.
  apply withState_all; [done | done |]. intros d e Hdoc.
  apply wp_bind, wp_gets. apply wp_bind, wp_prop. simpl.
  destruct (users d !! userKey) as [user|] eqn:Hu; [| done].
  apply wp_bind, wp_modify. apply wp_ret.
  apply docAll_setUser; [done |]. exact (Hdoc _ _ Hu).
Qed.

Lemma removeUpload_all userKey uploadId forget w :
  fileAll w → wp (removeUpload dateAt userKey uploadId forget) (λ _, fileAll) fileAll w.
Proof.
  destruct w as [s m]. intros Hd. unfold removeUpload.
  apply wp_bind, lift_any; [| done]. intros [l|] m1.
  - apply wp_bind, lift_any; [| done]. intros [] m2.
    apply wp_bind. destruct forget.
    + apply wp_ret. by apply lift_any.
    + apply withState_all; [done | |].
      * intros [] [s' m'] Hd'. by apply lift_any.
      * intros d e Hdoc. by apply historyMutator_all.
  - apply withState_all; [done | done |]. intros d e Hdoc.
    apply wp_bind, wp_findUpload; [| done]. intros user upload Hu Hup.
    apply wp_bind, lift_any; [| done]. intros r m2.
    assert (Hset : ∀ history' e1,
      wp (setUser userKey
            (UserRecord.set_uploads (delete uploadId (UserRecord.uploads user))
               (UserRecord.set_history history' user));; ret r : ST (Doc * Manager.t) loc)
         (λ _ '(d', _), docAll d') (λ _, True) (d, e1)).
    { intros history' e1. apply wp_bind, wp_modify. apply wp_ret.
      apply docAll_setUser; [done |]. apply map_Forall_delete. exact (Hdoc _ _ Hu). }
    apply wp_bind. destruct forget.
    + apply wp_ret, Hset.
    + apply wp_bind, lift_any; [| done]. intros entry m3. apply wp_ret, Hset.
Qed.

Lemma run_all call w :
  fileAll w → wp (run dateAt userIdAt fileIdAt call) (λ _, fileAll) fileAll w.
Proof.
  intros Hd. destruct call; unfold run.
  - by apply wp_fmap, identifyUser_all.
  - by apply wp_fmap, getUserSnapshot_all.
  - by apply wp_fmap, createUpload_all.
  - by apply wp_fmap, getUpload_all.
  - by apply wp_fmap, recordChunk_all.
  - by apply wp_fmap, updateStatus_all.
  - by apply wp_fmap, finalizeUpload_all.
  - by apply wp_fmap, clearHistory_all.
  - by apply wp_fmap, removeUpload_all.
  - destruct w as [s m]. by apply wp_fmap, lift_any.
  - destruct w as [s m]. apply wp_bind, lift_any; [| done]. intros [] m1. by apply wp_ret.
Qed.

Lemma reachable_fileAll w : reachable dateAt userIdAt fileIdAt w → fileAll w.
Proof.
  induction 1 as [| w _ IH | w call reply w' _ IH Hrun | w call e w' _ IH Hrun].
  - apply map_Forall_empty.
  - exact IH.
  - exact (wp_Ok _ _ _ _ _ _ (run_all call w IH) Hrun).
  - exact (wp_Throw _ _ _ _ _ _ (run_all call w IH) Hrun).
Qed.

End file_invariant.

(** What holds of an upload filed under [uploadId] in the record of
    [userKey]. *)
Definition filedWell (userKey uploadId : string) (upload : UploadJ) : Prop :=
  Upload.id upload = uploadId ∧
  Upload.userKey upload = userKey ∧
  Upload.persist upload = true ∧
  Upload.completedAt upload = None ∧
  ∀ i, i ∈ Upload.receivedChunks upload → 0 ≤ i < Upload.totalChunks upload.

Lemma reachable_filedWell dateAt userIdAt fileIdAt w :
  reachable dateAt userIdAt fileIdAt w → fileAll filedWell w.
Proof.
  apply reachable_fileAll.
  - intros. by repeat split.
  - intros k id u i now (Hid & Hk & Hp & Hc & Hr) Hin.
    do 4 (split; [done |]). intros j Hj. rewrite marked_totalChunks.
    rewrite marked_receivedChunks in Hj.
    apply elem_of_union in Hj as [Hj | Hj]; [| by apply Hr].
    by apply elem_of_singleton in Hj as ->.
  - intros k id u status now (Hid & Hk & Hp & Hc & Hr).
    do 4 (split; [done |]). exact Hr.
Qed.

(** When the received indices are all chunk indices, decorating counts
    all of them. *)
Lemma receivedInRange_all (u : UploadJ) :
  (∀ i, i ∈ Upload.receivedChunks u → 0 ≤ i < Upload.totalChunks u) →
  receivedInRange u = Upload.receivedChunks u.
Proof.
  intros Hr. unfold receivedInRange. apply set_eq. intros i. rewrite elem_of_filter.
  split; [by intros [_ ?] | by auto].
Qed.

(** In every state the program can be in, an upload of the state file is
    filed under its own [id], in the record of the user named by its
    [userKey]; it has [persist] set and no [completedAt]; and every key of
    its [receivedChunks] is a chunk index of the upload, from 0 to
    [totalChunks - 1].  So, unless [totalChunks] is negative, the
    [receivedCount] a decorated copy reports is the [receivedCount] that
    is stored. *)
Theorem persisted_uploads_are_consistent (dateAt : nat → Timestamp)
    (userIdAt fileIdAt : nat → string) (w : World) (userKey uploadId : string)
    (user : UserRecord.t) (upload : UploadJ) :
  reachable dateAt userIdAt fileIdAt w →
  users (DataStore._read w.1) !! userKey = Some user →
  UserRecord.uploads user !! uploadId = Some upload →
  Upload.id upload = uploadId ∧
  Upload.userKey upload = userKey ∧
  Upload.persist upload = true ∧
  Upload.completedAt upload = None ∧
  (∀ i, i ∈ Upload.receivedChunks upload → 0 ≤ i < Upload.totalChunks upload) ∧
  (0 ≤ Upload.totalChunks upload →
   Upload.receivedCount (decorated upload) = Upload.receivedCount upload).
Proof.
  intros Hw Hu Hup.
  destruct (reachable_filedWell _ _ _ w Hw _ _ Hu _ _ Hup) as (Hid & Hk & Hp & Hc & Hr).
  destruct (reachable_fileOK _ _ _ w Hw _ _ Hu _ _ Hup) as [_ Hcount].
  do 4 (split; [done |]). split; [exact Hr |].
  intros Hn. rewrite Hcount. unfold decorated. simpl. f_equal.
  pose proof (_missingChunks_length upload Hn) as Hlen.
  rewrite (receivedInRange_all upload Hr) in Hlen. lia.
Qed.

Lemma persisted_uploads_are_consistent_witness :
  Upload.id (reportUpload true) = sampleFileId 0 ∧
  Upload.userKey (reportUpload true) = aliceKey ∧
  Upload.persist (reportUpload true) = true ∧
  Upload.completedAt (reportUpload true) = None ∧
  (∀ i, i ∈ Upload.receivedChunks (reportUpload true) →
        0 ≤ i < Upload.totalChunks (reportUpload true)) ∧
  (0 ≤ Upload.totalChunks (reportUpload true) →
   Upload.receivedCount (decorated (reportUpload true))
   = Upload.receivedCount (reportUpload true)).
Proof.
  apply (persisted_uploads_are_consistent sampleDate sampleUserId sampleFileId
           (withUpload true) aliceKey (sampleFileId 0) (aliceRecord true) (reportUpload true)).
  - apply withUpload_reachable.
  - vm_compute. reflexivity.
  - vm_compute. reflexivity.
Defined.

(** ** The state route *)

Section state_route.
Context (production : bool).
Context (dateAt : nat → Timestamp) (userIdAt fileIdAt : nat → string).

Lemma try_Ok (body : ST World Response.t) w response w' :
  try_ production body w = (Ok response, w') →
  Response.status response = 200 →
  body w = (Ok response, w').
Proof.
  unfold try_. destruct (body w) as [[r|e|] w1]; [done | | done].
  intros [= <- <-]. discriminate.
Qed.

(** [POST /api/uploads/:uploadId/state] with a user key and an action.
    An action other than [pause], [resume], [cancel] and [forget] is
    answered with status 400 and [invalid_action], and changes nothing.
    When the route answers with status 200, no assembled file has
    changed; after [cancel] or [forget] the scratch directory of the
    upload is gone, and no other scratch directory has changed; after
    [pause] or [resume] no scratch directory has changed. *)
Theorem state_route_actions (w : World) (uploadId action userKey : string) :
  userKey ≠ ""%string → action ≠ ""%string →
  (action ∉ ["pause"; "resume"; "cancel"; "forget"]%string →
   stateRoute production dateAt uploadId (Some action) (Some userKey) w
   = (Ok (Response.mk 400 (ErrorBody "invalid_action" None)), w)) ∧
  (∀ response w',
     stateRoute production dateAt uploadId (Some action) (Some userKey) w
     = (Ok response, w') →
     Response.status response = 200 →
     Manager.finalDir w'.2 = Manager.finalDir w.2 ∧
     Manager.uploadDir w'.2
     = (if bool_decide (action ∈ ["cancel"; "forget"]%string)
        then delete uploadId (Manager.uploadDir w.2) else Manager.uploadDir w.2)).
Proof.
  intros Hkey Haction. split.
  - intros Hnot. unfold stateRoute, try_.
    rewrite (truthy_Some _ Hkey), (truthy_Some _ Haction).
    rewrite !bool_decide_eq_false_2; [reflexivity | ..];
      intros ->; apply Hnot; repeat constructor.
  - intros response w' Hrun H200. apply try_Ok in Hrun; [| done].
    rewrite (truthy_Some _ Hkey), (truthy_Some _ Haction) in Hrun.
    assert (Hrespond : ∀ (r : loc) w1,
      (snapshot ← getUserSnapshot userKey; json (StateBody r snapshot)) w1
      = (Ok response, w') → sameDisk w1.2 w'.2).
    { intros r w1 H. apply bind_Ok in H as (snapshot & w2 & Hsnap & H).
      injection H as _ <-.
      exact (Keeps_run sameDisk _ _ _ _ (Keeps_sameDisk_getUserSnapshot userKey) Hsnap). }
    assert (Hremove : ∀ forget,
      (r ← removeUpload dateAt userKey uploadId forget;
       lift (removeScratchDir uploadId);;
       snapshot ← getUserSnapshot userKey; json (StateBody r snapshot)) w
      = (Ok response, w') →
      Manager.finalDir w'.2 = Manager.finalDir w.2 ∧
      Manager.uploadDir w'.2 = delete uploadId (Manager.uploadDir w.2)).
    { intros forget H. apply bind_Ok in H as (r & [s1 m1] & Hrem & H).
      apply bind_Ok in H as ([] & [s2 m2] & Hscratch & H).
      apply lift_Ok in Hscratch as [-> Hscratch]. injection Hscratch as <-.
      destruct (Keeps_run sameDisk _ _ _ _
                  (Keeps_sameDisk_removeUpload dateAt userKey uploadId forget) Hrem)
        as [Hup1 Hfin1].
      destruct (Hrespond _ _ H) as [Hup2 Hfin2].
      unfold mgr, manager_snd in *. cbn [snd] in *. simpl in *.
      split; congruence. }
    assert (Hupdate : ∀ status,
      (r ← updateStatus dateAt userKey uploadId status;
       snapshot ← getUserSnapshot userKey; json (StateBody r snapshot)) w
      = (Ok response, w') →
      Manager.finalDir w'.2 = Manager.finalDir w.2 ∧
      Manager.uploadDir w'.2 = Manager.uploadDir w.2).
    { intros status H. apply bind_Ok in H as (r & w1 & Hupd & H).
      destruct (Keeps_run sameDisk _ _ _ _
                  (Keeps_sameDisk_updateStatus dateAt userKey uploadId status) Hupd)
        as [Hup1 Hfin1].
      destruct (Hrespond _ _ H) as [Hup2 Hfin2].
      unfold mgr, manager_snd in *. split; congruence. }
    destruct (decide (action = "pause"%string)) as [-> | Hpause].
    { exact (Hupdate paused Hrun). }
    rewrite (bool_decide_eq_false_2 (action = "pause"%string)) in Hrun by done.
    destruct (decide (action = "resume"%string)) as [-> | Hresume].
    { exact (Hupdate active Hrun). }
    rewrite (bool_decide_eq_false_2 (action = "resume"%string)) in Hrun by done.
    destruct (decide (action = "cancel"%string)) as [-> | Hcancel].
    { exact (Hremove false Hrun). }
    rewrite (bool_decide_eq_false_2 (action = "cancel"%string)) in Hrun by done.
    destruct (decide (action = "forget"%string)) as [-> | Hforget].
    { exact (Hremove true Hrun). }
    rewrite (bool_decide_eq_false_2 (action = "forget"%string)) in Hrun by done.
    injection Hrun as <- _. discriminate.
Qed.

End state_route.

(** ** The bucket stays well formed under requests *)

(** Code that keeps the bucket well formed, however it ends. *)
Definition keepsWf {A} (c : ST World A) : Prop :=
  ∀ w, wf w.2 → wp c (λ _ w', wf w'.2) (λ w', wf w'.2) w.

Lemma keepsWf_ret {A} (a : A) : keepsWf (ret a : ST World A).
Proof. intros w Hwf. by apply wp_ret. Qed.

Lemma keepsWf_stuck {A} : keepsWf (stuck : ST World A).
Proof. intros w Hwf. apply wp_stuck. Qed.

Lemma keepsWf_bind {A B} (c : ST World A) (k : A → ST World B) :
  keepsWf c → (∀ a, keepsWf (k a)) → keepsWf (c ≫= k).
Proof.
  intros Hc Hk w Hwf. apply wp_bind. eapply wp_mono; [by apply Hc | | done].
  intros a w' Hwf'. by apply Hk.
Qed.

Lemma keepsWf_mwp {A} (c : ST World A) (Q : A → Manager.t → Prop) :
  (∀ s m, wf m → mwp c Q wf (s, m)) → (∀ a m, Q a m → wf m) → keepsWf c.
Proof.
  intros Hc HQ [s m] Hwf. pose proof (Hc s m Hwf) as H. unfold mwp in H.
  eapply wp_mono; [exact H | |].
  - intros a w' Ha. exact (HQ a _ Ha).
  - done.
Qed.

Lemma keepsWf_isolated {A} (c : ST World A) (f : A → list loc) :
  (∀ s m, wf m → mwp c (λ r, isolated (f r)) wf (s, m)) → keepsWf c.
Proof. intros Hc. apply (keepsWf_mwp c _ Hc). by intros a m [Hwf _]. Qed.

Lemma keepsWf_grows {A} (c : ST World A) : Keeps grows c → keepsWf c.
Proof.
  intros Hc [s m] Hwf. apply (wp_keeps grows); [exact Hc | |];
    intros; eapply wf_grows; eauto.
Qed.

Lemma keepsWf_disk {A} (c : ST Manager.t A) :
  (∀ m, Manager.ephemeral (c m).2 = Manager.ephemeral m ∧
        Manager.heap (c m).2 = Manager.heap m) →
  keepsWf (lift c).
Proof.
  intros Hc [s m] Hwf. unfold wp, lift. specialize (Hc m).
  destruct (c m) as [[a|e|] m']; simpl in *; try done;
    destruct Hc as [He Hh]; intros k b id l; rewrite He, Hh; apply Hwf.
Qed.

Section serve_wf.
Context (production : bool).
Context (dateAt : nat → Timestamp) (userIdAt fileIdAt : nat → string).

Lemma keepsWf_try_ (body : ST World Response.t) :
  keepsWf body → keepsWf (try_ production body).
Proof.
  intros Hb w Hwf. specialize (Hb w Hwf). unfold wp, try_ in *.
  by destruct (body w) as [[response|e|] w'].
Qed.

Lemma keepsWf_raise message statusCode : keepsWf (raise production message statusCode).
Proof. apply keepsWf_ret. Qed.

Lemma keepsWf_json body : keepsWf (json body).
Proof. apply keepsWf_ret. Qed.

Lemma keepsWf_identifyUser fuel requestedKey :
  keepsWf (identifyUser dateAt userIdAt fuel requestedKey).
Proof. apply (keepsWf_mwp _ (λ _, wf)); [apply identifyUser_wf | done]. Qed.

Lemma keepsWf_getUserSnapshot userKey : keepsWf (getUserSnapshot userKey).
Proof. eapply keepsWf_isolated, getUserSnapshot_isolated. Qed.

Lemma keepsWf_getUpload userKey uploadId : keepsWf (getUpload userKey uploadId).
Proof. eapply keepsWf_isolated, getUpload_isolated. Qed.

Lemma keepsWf_createUpload userKey fileName fileSize chunkSize persist :
  keepsWf (createUpload dateAt fileIdAt userKey fileName fileSize chunkSize persist).
Proof. eapply keepsWf_isolated, createUpload_isolated. Qed.

Lemma keepsWf_recordChunk userKey uploadId i :
  keepsWf (recordChunk dateAt userKey uploadId i).
Proof. eapply keepsWf_isolated, recordChunk_isolated. Qed.

Lemma keepsWf_updateStatus userKey uploadId status :
  keepsWf (updateStatus dateAt userKey uploadId status).
Proof. eapply keepsWf_isolated, updateStatus_isolated. Qed.

Lemma keepsWf_finalizeUpload userKey uploadId :
  keepsWf (finalizeUpload dateAt userKey uploadId).
Proof. eapply keepsWf_isolated, finalizeUpload_isolated. Qed.

Lemma keepsWf_removeUpload userKey uploadId forget :
  keepsWf (removeUpload dateAt userKey uploadId forget).
Proof. eapply keepsWf_isolated, removeUpload_isolated. Qed.

Lemma keepsWf_clearHistory userKey : keepsWf (clearHistory userKey).
Proof. apply keepsWf_grows, Keeps_clearHistory. Qed.

Lemma keepsWf_saveChunk uploadId index data :
  keepsWf (lift (saveChunk uploadId index data)).
Proof. apply keepsWf_grows. keeps_apply Keeps_lift. apply Keeps_saveChunk. Qed.

Lemma keepsWf_assemble upload :
  keepsWf (lift (u ← stringify upload; assembleFile u)).
Proof. apply keepsWf_grows. solve_keeps. Qed.

Lemma keepsWf_removeScratchDir uploadId : keepsWf (lift (removeScratchDir uploadId)).
Proof. by apply keepsWf_disk. Qed.

Ltac wf_step :=
  lazymatch goal with
  | |- keepsWf (try_ _ _) => apply keepsWf_try_
  | |- keepsWf (raise _ _ _) => apply keepsWf_raise
  | |- keepsWf (json _) => apply keepsWf_json
  | |- keepsWf stuck => apply keepsWf_stuck
  | |- keepsWf (_ ≫= _) => apply keepsWf_bind; [| intros ?]
  | |- keepsWf (identifyUser _ _ _ _) => apply keepsWf_identifyUser
  | |- keepsWf (getUserSnapshot _) => apply keepsWf_getUserSnapshot
  | |- keepsWf (getUpload _ _) => apply keepsWf_getUpload
  | |- keepsWf (createUpload _ _ _ _ _ _ _) => apply keepsWf_createUpload
  | |- keepsWf (recordChunk _ _ _ _) => apply keepsWf_recordChunk
  | |- keepsWf (updateStatus _ _ _ _) => apply keepsWf_updateStatus
  | |- keepsWf (finalizeUpload _ _ _) => apply keepsWf_finalizeUpload
  | |- keepsWf (removeUpload _ _ _ _) => apply keepsWf_removeUpload
  | |- keepsWf (clearHistory _) => apply keepsWf_clearHistory
  | |- keepsWf (lift (saveChunk _ _ _)) => apply keepsWf_saveChunk
  | |- keepsWf (lift (removeScratchDir _)) => apply keepsWf_removeScratchDir
  | |- keepsWf (lift (_ ≫= _)) => apply keepsWf_assemble
  | |- keepsWf (match ?x with _ => _ end) => destruct x
  | |- keepsWf (if ?x then _ else _) => destruct x
  | |- keepsWf (let _ := _ in _) => cbv zeta
  end.

(** Every request keeps the bucket well formed. *)
Lemma serve_wf request : keepsWf (serve production dateAt userIdAt fileIdAt request).
Proof.
  destruct request; unfold serve, identifyRoute, listRoute, uploadRoute, createRoute,
    chunkRoute, stateRoute, historyRoute, parseInteger; repeat wf_step.
Qed.

Lemma served_wf w : served production dateAt userIdAt fileIdAt w → wf w.2.
Proof.
  induction 1 as [| w _ IH | w request response w' _ IH Hrun].
  - intros k b id l Hk. simpl in Hk. by rewrite lookup_empty in Hk.
  - intros k b id l Hk. simpl in Hk. by rewrite lookup_empty in Hk.
  - exact (wp_Ok _ _ _ _ _ _ (serve_wf request w IH) Hrun).
Qed.

End serve_wf.

(** ** A whole upload *)

(** A loop whose body always returns and keeps [I] returns. *)
Lemma returns_forEach {S A B} (f : A → ST S B) (l : list A) (I : S → Prop)
    (Q : list B → S → Prop) s :
  I s →
  (∀ x s0, x ∈ l → I s0 → returns (f x) (λ _ s', I s') s0) →
  (∀ ys s', I s' → Q ys s') →
  returns (forEach f l) Q s.
Proof.
  revert s Q. induction l as [|x l IH]; intros s Q Hs Hf HQ; simpl.
  - apply returns_ret. by apply HQ.
  - apply returns_bind.
    eapply returns_mono; [apply (Hf x s); [apply list_elem_of_here | exact Hs] |].
    intros y s1 Hs1. simpl in Hs1. apply returns_bind.
    apply IH; [exact Hs1 | |].
    + intros x' s0 Hx'. apply Hf. by apply list_elem_of_further.
    + intros ys s2 Hs2. apply returns_ret. by apply HQ.
Qed.

Lemma extends_append m m' cells :
  extends m m' → extends m (Manager.set_heap (Manager.heap m' ++ cells) m').
Proof.
  intros [Heph Hheap]. split; [done |]. simpl. by apply prefix_app_r.
Qed.

(** [getUserSnapshot] returns whenever the store accepts calls and the
    bucket is well formed; it only creates objects, and its result is not
    [null] when the user has a bucket. *)
Lemma returns_getUserSnapshot userKey (Q : option Snapshot.t → World → Prop) s m :
  DataStore._lock s = None → wf m →
  is_Some (users (DataStore._read s) !! userKey) ∨ inherited userKey = false →
  (∀ r m', extends m m' → sameDisk m m' →
           (is_Some (Manager.ephemeral m !! userKey) → is_Some r) → Q r (s, m')) →
  returns (getUserSnapshot userKey) Q (s, m).
Proof.
  intros Hlock Hwf Hkey HQ.
  assert (Hrun : returns (getUserSnapshot userKey)
            (λ r w', w'.1 = s ∧ extends m w'.2 ∧
                     (is_Some (Manager.ephemeral m !! userKey) → is_Some r)) (s, m)).
  { unfold getUserSnapshot.
    apply returns_bind, returns_readState; [done |].
    apply returns_bind. unfold getState. apply returns_gets. simpl.
    apply returns_prop; [done |].
    apply returns_bind, returns_lift, returns_gets.
    set (persistentUser := users (DataStore._read s) !! userKey).
    assert (Hall : ∀ history,
      returns
        (fromState ← lift (forEach (λ upload,
           decorated ← _decorateUpload upload; st ← statusOf decorated; ret (decorated, st))
           (from_option (λ u, (map_to_list (UserRecord.uploads u)).*2) [] persistentUser));
         fromMemory ← lift (forEach (λ upload,
           decorated ← decorateObject upload; st ← statusOf decorated; ret (decorated, st))
           (from_option (λ b, (map_to_list b).*2) [] (Manager.ephemeral m !! userKey)));
         let all := fromState ++ fromMemory in
         ret (Some (Snapshot.mk
           (filter (λ d, d.2 ≠ paused) all).*1
           (filter (λ d, d.2 = paused) all).*1
           history)) : ST World (option Snapshot.t))
        (λ r w', w'.1 = s ∧ extends m w'.2 ∧
                 (is_Some (Manager.ephemeral m !! userKey) → is_Some r)) (s, m)).
    { intros history.
      apply returns_bind, returns_lift.
      apply (returns_forEach _ _ (extends m)); [done | |].
      { intros u m0 _ Hm0. apply returns_bind, returns_decorateUpload.
        apply returns_bind. unfold statusOf. apply returns_bind.
        eapply returns_stringify; [apply load_decorate |].
        apply returns_ret, returns_ret. by apply extends_append. }
      intros fromState m1 Hm1.
      apply returns_bind, returns_lift.
      apply (returns_forEach _ _ (extends m)); [done | |].
      { intros l m0 Hl Hm0.
        assert (is_Some (load (Manager.heap m) l)) as [u Hu].
        { destruct (Manager.ephemeral m !! userKey) as [b|] eqn:Hb; simpl in Hl;
            [| by apply elem_of_nil in Hl].
          apply list_elem_of_fmap in Hl as ([id l'] & -> & Hl).
          apply elem_of_map_to_list in Hl. by eapply Hwf. }
        apply returns_bind. eapply returns_decorateObject; [by eapply load_extends |].
        apply returns_bind. unfold statusOf. apply returns_bind.
        eapply returns_stringify; [apply load_decorate |].
        apply returns_ret, returns_ret. by apply extends_append. }
      intros fromMemory m2 Hm2. apply returns_ret. split; [done |]. split; [done |]. eauto. }
    destruct persistentUser as [user|] eqn:Hp, (Manager.ephemeral m !! userKey) as [b|] eqn:Hb;
      [apply Hall | apply Hall | apply Hall |].
    apply returns_ret. split; [done |]. split; [done |]. by intros [? ?]. }
  apply returns_elim in Hrun as (r & [s' m'] & Hrun & Hs & Hext & Hsome).
  simpl in Hs, Hext. subst s'.
  eapply returns_run; [exact Hrun |]. apply HQ; [exact Hext | | exact Hsome].
  exact (Keeps_run sameDisk _ _ _ _ (Keeps_sameDisk_getUserSnapshot userKey) Hrun).
Qed.

Lemma saveChunk_clockReads uploadId index data m :
  Manager.clockReads (saveChunk uploadId index data m).2 = Manager.clockReads m.
Proof.
  unfold saveChunk, ensureScratchDir. st_unfold. simpl.
  destruct (Manager.uploadDir m !! uploadId) as [dir|] eqn:Hdir; simpl.
  - rewrite Hdir. simpl. by destruct (dir !! index).
  - rewrite lookup_insert_eq. simpl. by rewrite lookup_empty.
Qed.

(** Saving a chunk changes the scratch directory of its upload only. *)
Lemma saveChunk_delete uploadId index data m :
  delete uploadId (Manager.uploadDir (saveChunk uploadId index data m).2)
  = delete uploadId (Manager.uploadDir m).
Proof.
  unfold saveChunk, ensureScratchDir. st_unfold. simpl.
  destruct (Manager.uploadDir m !! uploadId) as [dir|] eqn:Hdir; simpl.
  - rewrite Hdir. simpl. destruct (dir !! index); simpl; [done |].
    apply delete_insert_eq.
  - rewrite lookup_insert_eq. simpl. rewrite lookup_empty. simpl.
    by rewrite !delete_insert_eq.
Qed.

Section whole_upload.
Context (production : bool).
Context (dateAt : nat → Timestamp) (userIdAt fileIdAt : nat → string).

Lemma try_run (body : ST World Response.t) w response w' :
  body w = (Ok response, w') → try_ production body w = (Ok response, w').
Proof. intros H. unfold try_. by rewrite H. Qed.

(** What the memory holds for an upload does not depend on the disk. *)
Lemma storedUpload_memory_eq s s' m m' userKey uploadId :
  s' = s → Manager.ephemeral m' = Manager.ephemeral m → Manager.heap m' = Manager.heap m →
  storedUpload (s', m') userKey uploadId = storedUpload (s, m) userKey uploadId.
Proof. intros -> He Hh. unfold storedUpload. cbn [fst snd]. by rewrite He, Hh. Qed.

Lemma wf_memory_eq m m' :
  Manager.ephemeral m' = Manager.ephemeral m → Manager.heap m' = Manager.heap m →
  wf m → wf m'.
Proof. intros He Hh Hwf k b id l. rewrite He, Hh. apply Hwf. Qed.

(** A chunk that is not the last one missing. *)
Lemma chunkRoute_more (w : World) (userKey uploadId : string) (buffer : bytes) (i : Z)
    (u : UploadJ) :
  userKey ≠ ""%string →
  DataStore._lock w.1 = None → wf w.2 →
  storedUpload w userKey uploadId = Some u →
  0 ≤ i < Upload.totalChunks u →
  ¬ (∀ j, 0 ≤ j < Upload.totalChunks u → j = i ∨ j ∈ Upload.receivedChunks u) →
  ∃ (l : loc) (w' : World),
    chunkRoute production dateAt uploadId (Some userKey) (Some buffer) (Some i) w
    = (Ok (Response.mk 200 (ChunkOkBody l)), w') ∧
    storedUpload w' userKey uploadId = Some (marked u i (dateAt (Manager.clockReads w.2))) ∧
    DataStore._lock w'.1 = None ∧ wf w'.2 ∧
    Manager.ephemeral w'.2 = Manager.ephemeral w.2 ∧
    historyOf w' userKey = historyOf w userKey ∧
    Manager.uploadDir w'.2 = Manager.uploadDir (saveChunk uploadId i buffer w.2).2 ∧
    Manager.finalDir w'.2 = Manager.finalDir w.2.
Proof.
  destruct w as [s m]. cbn [fst snd]. intros Hkey Hlock Hwf Hstored Hin Hmore.
  pose proof (saveChunk_clockReads uploadId i buffer m) as Hclock.
  destruct (saveChunk_run uploadId i buffer m)
    as (m1 & Hsave & _ & _ & Hfinal1 & Hheap1 & Heph1).
  rewrite Hsave in Hclock |- *. cbn [snd] in Hclock |- *.
  assert (Hstored1 : storedUpload (s, m1) userKey uploadId = Some u)
    by (by rewrite (storedUpload_memory_eq s s m m1)).
  destruct (recordChunk_run dateAt (s, m1) userKey uploadId i u Hlock Hstored1 Hin)
    as (r & [s2 m2] & Hrec & Hstored2 & Hload2 & Hcompleted & Hlock2 & Heph2 & Hhist2).
  cbn [fst snd] in *. rewrite Hclock in *.
  assert (Recorded.completed r = false) as Hnot.
  { rewrite Hcompleted. apply bool_decide_eq_false. by rewrite marked_complete. }
  destruct (Keeps_run sameDisk _ _ _ _
              (Keeps_sameDisk_recordChunk dateAt userKey uploadId i) Hrec) as [Hup2 Hfinal2].
  unfold mgr, manager_snd in *. cbn [snd] in *.
  exists (Recorded.upload r), (s2, m2). cbn [fst snd]. split_and!; try done.
  - unfold chunkRoute, parseInteger. rewrite (truthy_Some _ Hkey). apply try_run.
    rewrite (bind_run _ _ _ _ _ (lift_run _ s _ _ _ Hsave)).
    rewrite (bind_run _ _ _ _ _ Hrec). by rewrite Hnot.
  - exact (proj1 (mwp_Ok _ _ _ _ _ _
             (recordChunk_isolated dateAt userKey uploadId i s m1
                (wf_memory_eq m m1 Heph1 Hheap1 Hwf)) Hrec)).
  - congruence.
  - congruence.
Qed.

(** The chunk that completes the upload. *)
Lemma chunkRoute_last (w : World) (userKey uploadId : string) (buffer : bytes) (i : Z)
    (u : UploadJ) (datas : list bytes) :
  userKey ≠ ""%string → inherited userKey = false →
  DataStore._lock w.1 = None → wf w.2 →
  storedUpload w userKey uploadId = Some u →
  Upload.id u = uploadId →
  0 ≤ i < Upload.totalChunks u →
  (∀ j, 0 ≤ j < Upload.totalChunks u → j = i ∨ j ∈ Upload.receivedChunks u) →
  Forall2 (λ j data, partFile (saveChunk uploadId i buffer w.2).2 uploadId j = Some data)
    (seqZ 0 (Upload.totalChunks u)) datas →
  ∃ (l : loc) (snapshot : option Snapshot.t) (t : Timestamp) (w' : World),
    chunkRoute production dateAt uploadId (Some userKey) (Some buffer) (Some i) w
    = (Ok (Response.mk 200 (ChunkCompletedBody l snapshot)), w') ∧
    metadataIn (placeOf w userKey uploadId) w' userKey uploadId = None ∧
    DataStore._lock w'.1 = None ∧ wf w'.2 ∧
    historyOf w' userKey = unshiftCapped (entryOf u t) (historyOf w userKey) ∧
    Manager.finalDir w'.2 = <[finalName u := mjoin datas]> (Manager.finalDir w.2) ∧
    Manager.uploadDir w'.2
    = delete uploadId (Manager.uploadDir (saveChunk uploadId i buffer w.2).2).
Proof.
  destruct w as [s m]. cbn [fst snd].
  intros Hkey Hinh Hlock Hwf Hstored Hid Hin Hall Hparts.
  pose proof (saveChunk_clockReads uploadId i buffer m) as Hclock.
  destruct (saveChunk_run uploadId i buffer m)
    as (m1 & Hsave & _ & _ & Hfinal1 & Hheap1 & Heph1).
  rewrite Hsave in Hclock, Hparts |- *. cbn [snd] in Hclock, Hparts |- *.
  assert (Hstored1 : storedUpload (s, m1) userKey uploadId = Some u)
    by (by rewrite (storedUpload_memory_eq s s m m1)).
  pose proof (wf_memory_eq m m1 Heph1 Hheap1 Hwf) as Hwf1.
  (* recordChunk *)
  destruct (recordChunk_run dateAt (s, m1) userKey uploadId i u Hlock Hstored1 Hin)
    as (r & [s2 m2] & Hrec & Hstored2 & Hload2 & Hcompleted & Hlock2 & Heph2 & Hhist2).
  cbn [fst snd] in *. rewrite Hclock in *.
  set (u1 := marked u i (dateAt (Manager.clockReads m))) in *.
  assert (Recorded.completed r = true) as Hdone.
  { rewrite Hcompleted. apply bool_decide_eq_true. by apply marked_complete. }
  destruct (Keeps_run sameDisk _ _ _ _
              (Keeps_sameDisk_recordChunk dateAt userKey uploadId i) Hrec) as [Hup2 Hfinal2].
  pose proof (proj1 (mwp_Ok _ _ _ _ _ _
                (recordChunk_isolated dateAt userKey uploadId i s m1 Hwf1) Hrec)) as Hwf2.
  unfold mgr, manager_snd in *. cbn [snd] in *.
  (* assembleFile *)
  assert (Hparts2 : Forall2 (λ j data, partFile m2 (Upload.id (decorated u1)) j = Some data)
                      (seqZ 0 (Upload.totalChunks (decorated u1))) datas).
  { eapply Forall2_impl; [exact Hparts |]. intros j data Hj. simpl.
    unfold partFile in *. by rewrite Hup2, Hid. }
  pose proof (assembleFile_run (decorated u1) m2 datas Hparts2) as Hasm.
  set (m3 := Manager.set_uploadDir _ _) in Hasm.
  (* finalizeUpload *)
  assert (Hstored3 : storedUpload (s2, m3) userKey uploadId = Some u1)
    by (by rewrite (storedUpload_memory_eq s2 s2 m2 m3)).
  destruct (finalizeUpload_run dateAt (s2, m3) userKey uploadId u1 Hlock2 Hstored3
              (or_intror Hinh))
    as (copy & [s4 m4] & Hfin & Hgone & _ & Hhist4 & Hlock4).
  cbn [fst snd] in *.
  destruct (Keeps_run sameDisk _ _ _ _
              (Keeps_sameDisk_finalizeUpload dateAt userKey uploadId) Hfin) as [Hup4 Hfinal4].
  pose proof (proj1 (mwp_Ok _ _ _ _ _ _
                (finalizeUpload_isolated dateAt userKey uploadId s2 m3
                   (wf_memory_eq m2 m3 eq_refl eq_refl Hwf2)) Hfin)) as Hwf4.
  unfold mgr, manager_snd in *. cbn [snd] in *.
  (* getUserSnapshot *)
  assert (Hsnap : returns (getUserSnapshot userKey)
            (λ _ w', w'.1 = s4 ∧ extends m4 w'.2 ∧ sameDisk m4 w'.2) (s4, m4)).
  { apply returns_getUserSnapshot; [done | done | by right |]. done. }
  apply returns_elim in Hsnap as (snapshot & [s5 m5] & Hsnap & Hs5 & Hext5 & Hup5 & Hfinal5).
  cbn [fst snd] in *. subst s5.
  exists (Recorded.upload r), snapshot, (dateAt (Manager.clockReads m3)), (s4, m5).
  cbn [fst snd]. split_and!.
  - unfold chunkRoute, parseInteger. rewrite (truthy_Some _ Hkey). apply try_run.
    rewrite (bind_run _ _ _ _ _ (lift_run _ s _ _ _ Hsave)).
    rewrite (bind_run _ _ _ _ _ Hrec). rewrite Hdone.
    erewrite bind_run; last first.
    { apply lift_run. rewrite (bind_run _ _ _ _ _ (stringify_run _ _ _ Hload2)). exact Hasm. }
    rewrite (bind_run _ _ _ _ _ Hfin). rewrite (bind_run _ _ _ _ _ Hsnap). reflexivity.
  - assert (placeOf (s2, m3) userKey uploadId = placeOf (s, m) userKey uploadId) as Hplace.
    { unfold placeOf, bucketEntry. cbn [snd]. simpl. by rewrite Heph2, Heph1. }
    rewrite Hplace in Hgone. destruct (placeOf (s, m) userKey uploadId); [| exact Hgone].
    unfold metadataIn in *. cbn [fst snd] in *. destruct Hext5 as [Heph5 Hheap5].
    rewrite Heph5.
    destruct (Manager.ephemeral m4 !! userKey ≫= (.!! uploadId)) as [l|] eqn:Hl; [| done].
    exfalso. simpl in Hgone.
    destruct (Manager.ephemeral m4 !! userKey) as [b|] eqn:Hb; [| done]. simpl in Hl.
    destruct (Hwf4 _ _ _ _ Hb Hl) as [x Hx]. by rewrite Hx in Hgone.
  - done.
  - eapply wf_grows; [exact Hwf4 |]. by apply extends_grows.
  - unfold historyOf in *. cbn [fst] in *. rewrite Hhist4, Hhist2. done.
  - rewrite Hfinal5, Hfinal4. unfold m3. simpl. rewrite Hfinal2, Hfinal1. done.
  - rewrite Hup5, Hup4. unfold m3. simpl. by rewrite Hup2, Hid.
Qed.

(** The requests of a client that sends the chunks [order] of an upload;
    [chunkOf i] is the content of chunk [i]. *)
Definition chunkRequests (userKey uploadId : string) (chunkOf : Z → bytes) (order : list Z)
  : list Request :=
  (λ i, PostChunk uploadId (Some userKey) (Some (chunkOf i)) (Some i)) <$> order.

(** The parts on disk are the chunks that were received. *)
Definition partsMatch (chunkOf : Z → bytes) (uploadId : string) (u : UploadJ) (m : Manager.t)
  : Prop :=
  ∀ j, 0 ≤ j < Upload.totalChunks u →
       partFile m uploadId j
       = if decide (j ∈ Upload.receivedChunks u) then Some (chunkOf j) else None.

Lemma serveAll_chunks (userKey uploadId : string) (chunkOf : Z → bytes) (order : list Z) :
  userKey ≠ ""%string → inherited userKey = false →
  ∀ (w : World) (u : UploadJ),
    DataStore._lock w.1 = None → wf w.2 →
    storedUpload w userKey uploadId = Some u →
    Upload.id u = uploadId →
    partsMatch chunkOf uploadId u w.2 →
    NoDup order →
    (∀ j, j ∈ order ↔ 0 ≤ j < Upload.totalChunks u ∧ j ∉ Upload.receivedChunks u) →
    order ≠ [] →
    ∃ (front : list Response.t) (l : loc) (snapshot : option Snapshot.t) (t : Timestamp)
      (w' : World),
      serveAll production dateAt userIdAt fileIdAt
        (chunkRequests userKey uploadId chunkOf order) w
      = (Ok (front ++ [Response.mk 200 (ChunkCompletedBody l snapshot)]), w') ∧
      Forall (λ r, ∃ l', r = Response.mk 200 (ChunkOkBody l')) front ∧
      Manager.finalDir w'.2
      = <[finalName u := mjoin (chunkOf <$> seqZ 0 (Upload.totalChunks u))]>
          (Manager.finalDir w.2) ∧
      Manager.uploadDir w'.2 = delete uploadId (Manager.uploadDir w.2) ∧
      metadataIn (placeOf w userKey uploadId) w' userKey uploadId = None ∧
      historyOf w' userKey = unshiftCapped (entryOf u t) (historyOf w userKey) ∧
      DataStore._lock w'.1 = None.
Proof.
  intros Hkey Hinh. induction order as [|i rest IH]; [done |].
  intros w u Hlock Hwf Hstored Hid Hparts Hnodup Horder _.
  apply NoDup_cons in Hnodup as [Hi Hnodup].
  assert (0 ≤ i < Upload.totalChunks u ∧ i ∉ Upload.receivedChunks u) as [Hin Hnew]
    by (apply Horder, list_elem_of_here).
  (* the parts once this chunk is saved *)
  assert (Hsaved : ∀ j, 0 ≤ j < Upload.totalChunks u →
            partFile (saveChunk uploadId i (chunkOf i) w.2).2 uploadId j
            = if decide (j = i ∨ j ∈ Upload.receivedChunks u) then Some (chunkOf j) else None).
  { intros j Hj.
    destruct (saveChunk_run uploadId i (chunkOf i) w.2) as (m1 & Hsave & Hpart & Hother & _).
    rewrite Hsave. cbn [snd]. destruct (decide (j = i)) as [-> | Hji].
    - rewrite Hpart, (Hparts i Hin). rewrite decide_False by done. simpl.
      by rewrite decide_True by auto.
    - rewrite Hother by auto. rewrite (Hparts j Hj).
      destruct (decide (j ∈ Upload.receivedChunks u)) as [Hr | Hr].
      + by rewrite decide_True by auto.
      + by rewrite decide_False by (intros [? | ?]; done). }
  destruct rest as [|i' rest'].
  - (* the last chunk *)
    assert (Hall : ∀ j, 0 ≤ j < Upload.totalChunks u → j = i ∨ j ∈ Upload.receivedChunks u).
    { intros j Hj. destruct (decide (j ∈ Upload.receivedChunks u)) as [Hr | Hr]; [by right |].
      left. assert (j ∈ [i]) as Hji by (by apply Horder).
      by apply list_elem_of_singleton in Hji. }
    assert (Hdatas : Forall2 (λ j data,
              partFile (saveChunk uploadId i (chunkOf i) w.2).2 uploadId j = Some data)
              (seqZ 0 (Upload.totalChunks u)) (chunkOf <$> seqZ 0 (Upload.totalChunks u))).
    { apply Forall2_fmap_r, Forall_Forall2_diag, Forall_forall. intros j Hj.
      apply elem_of_seqZ in Hj. rewrite (Hsaved j) by lia.
      by rewrite decide_True by (apply Hall; lia). }
    destruct (chunkRoute_last w userKey uploadId (chunkOf i) i u _
                Hkey Hinh Hlock Hwf Hstored Hid Hin Hall Hdatas)
      as (l & snapshot & t & w' & Hrun & Hgone & Hlock' & Hwf' & Hhist & Hfinal & Hup).
    exists [], l, snapshot, t, w'. split_and!; try done.
    + unfold serveAll, chunkRequests. simpl.
      rewrite (bind_run _ _ _ _ _ Hrun). reflexivity.
    + rewrite Hup. apply saveChunk_delete.
  - (* a chunk with more to come *)
    assert (Hmore : ¬ ∀ j, 0 ≤ j < Upload.totalChunks u →
                           j = i ∨ j ∈ Upload.receivedChunks u).
    { intros Hall.
      assert (0 ≤ i' < Upload.totalChunks u ∧ i' ∉ Upload.receivedChunks u) as [Hin' Hnew']
        by (apply Horder, list_elem_of_further, list_elem_of_here).
      destruct (Hall i' Hin') as [-> | Hr]; [| done].
      apply Hi, list_elem_of_here. }
    destruct (chunkRoute_more w userKey uploadId (chunkOf i) i u
                Hkey Hlock Hwf Hstored Hin Hmore)
      as (l1 & w1 & Hrun1 & Hstored1 & Hlock1 & Hwf1 & Heph1 & Hhist1 & Hup1 & Hfinal1).
    set (u1 := marked u i (dateAt (Manager.clockReads w.2))) in *.
    destruct (IH w1 u1) as (front & l & snapshot & t & w' & Hrun & Hfront & Hfinal & Hup
                            & Hgone & Hhist & Hlock'); try done.
    + intros j Hj. unfold u1 in Hj |- *. rewrite marked_totalChunks in Hj.
      unfold partFile in *. rewrite Hup1, (Hsaved j Hj), marked_receivedChunks.
      destruct (decide (j = i ∨ j ∈ Upload.receivedChunks u)) as [Hr | Hr].
      * rewrite decide_True; [done |]. apply elem_of_union.
        destruct Hr as [-> | Hr]; [left; by apply elem_of_singleton | by right].
      * rewrite decide_False; [done |]. intros Hr'. apply Hr.
        apply elem_of_union in Hr' as [Hr' | Hr']; [left; by apply elem_of_singleton in Hr' |
                                                     by right].
    + intros j. unfold u1. rewrite marked_totalChunks, marked_receivedChunks.
      rewrite elem_of_union, elem_of_singleton. split.
      * intros Hj. assert (j ∈ i :: i' :: rest') as Hj' by (by apply list_elem_of_further).
        apply Horder in Hj' as [Hjn Hjr]. split; [done |].
        intros [-> | Hr]; [by apply Hi | done].
      * intros [Hjn Hjr].
        assert (j ∈ i :: i' :: rest') as Hj' by (apply Horder; split; [done | auto]).
        apply elem_of_cons in Hj' as [-> | Hj']; [| done]. destruct Hjr. by left.
    + exists (Response.mk 200 (ChunkOkBody l1) :: front), l, snapshot, t, w'.
      split_and!.
      * unfold serveAll, chunkRequests in *. rewrite fmap_cons.
        change (forEach ?f (?x :: ?l)) with (y ← f x; ys ← forEach f l; ret (y :: ys)).
        rewrite (bind_run _ _ _ _ _ Hrun1). rewrite (bind_run _ _ _ _ _ Hrun). reflexivity.
      * constructor; [by eexists | exact Hfront].
      * rewrite Hfinal, Hfinal1. unfold u1. by rewrite marked_totalChunks.
      * rewrite Hup, Hup1. apply saveChunk_delete.
      * assert (placeOf w1 userKey uploadId = placeOf w userKey uploadId) as <-
          by (unfold placeOf, bucketEntry; by rewrite Heph1).
        exact Hgone.
      * rewrite Hhist, Hhist1. done.
      * done.
Qed.


End whole_upload.

Section new_upload.
Context (production : bool).
Context (dateAt : nat → Timestamp) (userIdAt fileIdAt : nat → string).

(** [POST /api/uploads] with valid fields. *)
Lemma createRoute_run (w : World) (userKey fileName : string) (fileSize chunkSize : Z)
    (persist : bool) (upload : loc) (w' : World) :
  userKey ≠ ""%string → fileName ≠ ""%string → 0 < fileSize → 0 < chunkSize →
  createUpload dateAt fileIdAt userKey fileName fileSize chunkSize persist w = (Ok upload, w') →
  createRoute production dateAt fileIdAt (Some userKey) (Some fileName) (Finite fileSize)
    (Finite chunkSize) persist w
  = (Ok (Response.mk 200 (CreatedBody upload)), w').
Proof.
  intros Hkey Hname Hsize Hchunk Hrun. unfold createRoute.
  rewrite (truthy_Some _ Hkey), (truthy_Some _ Hname). simpl.
  replace (fileSize <=? 0) with false by lia. replace (chunkSize <=? 0) with false by lia.
  apply try_run. simpl. by rewrite (bind_run _ _ _ _ _ Hrun).
Qed.


End new_upload.

(** ** Identifying, then listing *)

(** A [getUserSnapshot] that returned has read the user's record. *)
Lemma getUserSnapshot_Ok_key userKey w r w' :
  getUserSnapshot userKey w = (Ok r, w') →
  is_Some (users (DataStore._read w.1) !! userKey) ∨ inherited userKey = false.
Proof.
  destruct w as [s m]. unfold getUserSnapshot. intros H.
  apply bind_Ok in H as (persistentUser & [s1 m1] & Hread & _).
  apply readState_Ok in Hread as (_ & _ & state & Hsel).
  apply bind_Ok in Hsel as (d & [d1 m2] & Hget & Hprop).
  unfold getState, gets in Hget. injection Hget as <- <- <-. simpl in Hprop.
  unfold prop in Hprop. simpl.
  destruct (users (DataStore._read s) !! userKey); [left; eauto |].
  destruct (inherited userKey); [discriminate | by right].
Qed.

Section identify_then_list.
Context (production : bool).
Context (dateAt : nat → Timestamp) (userIdAt fileIdAt : nat → string).

(** The key that [POST /api/users/identify] answers with is accepted by
    [GET /api/uploads]: in any state the server can be in, listing the
    uploads with that key right away is answered with status 200 and a
    snapshot, never with [user_not_found], and leaves the store as it
    is. *)
Theorem identified_key_is_known (w w' : World) (fuel : nat)
    (bodyUserKey queryUserKey : option string) (status : Z) (userKey : string)
    (created : bool) (uploads : Snapshot.t) :
  served production dateAt userIdAt fileIdAt w →
  identifyRoute production dateAt userIdAt fuel bodyUserKey queryUserKey w
  = (Ok (Response.mk status (IdentifyBody userKey created uploads)), w') →
  userKey ≠ ""%string →
  ∃ (snapshot : Snapshot.t) (w'' : World),
    listRoute production (Some userKey) w'
    = (Ok (Response.mk 200 (SnapshotBody (Some snapshot))), w'') ∧
    w''.1 = w'.1.
Proof.
  intros Hreach Hrun Hkey. apply served_wf in Hreach.
  destruct w as [s m]. cbn [snd] in Hreach.
  unfold identifyRoute, try_ in Hrun.
  destruct ((result ← identifyUser dateAt userIdAt fuel (orElse bodyUserKey queryUserKey);
             snapshot ← getUserSnapshot (Identity.userKey result);
             json (IdentifyBody (Identity.userKey result) (Identity.created result)
                     (default (Snapshot.mk [] [] []) snapshot))) (s, m))
    as [[response|e|] w0] eqn:Hbody; [| discriminate..].
  injection Hrun as -> ->.
  apply bind_Ok in Hbody as (result & [s1 m1] & Hid & Hbody).
  apply bind_Ok in Hbody as (snap & [s2 m2] & Hsnap & Hjson).
  unfold json, ret in Hjson. injection Hjson as <- <- <- <- <-.
  destruct (identifyUser_Ok _ _ _ _ _ _ _ Hid) as (Hlock1 & _ & Hbucket1).
  pose proof (mwp_Ok _ _ _ _ _ _ (identifyUser_wf dateAt userIdAt fuel _ s m Hreach) Hid)
    as Hwf1.
  unfold mgr, manager_snd in Hwf1. cbn [fst snd] in *.
  pose proof (getUserSnapshot_Ok_key _ _ _ _ Hsnap) as Hknown. cbn [fst] in Hknown.
  (* the state after the route's own snapshot *)
  assert (Hfirst : returns (getUserSnapshot (Identity.userKey result))
            (λ _ w2, w2.1 = s1 ∧ extends m1 w2.2) (s1, m1)).
  { apply returns_getUserSnapshot; [done | done | done |]. done. }
  apply returns_elim in Hfirst as (r1 & w1' & Hfirst & Hs2 & Hext2).
  rewrite Hsnap in Hfirst. injection Hfirst as <- <-. cbn [fst snd] in *. subst s2.
  (* listing *)
  assert (Hlist : returns (getUserSnapshot (Identity.userKey result))
            (λ r w3, w3.1 = s1 ∧ is_Some r) (s1, m2)).
  { apply returns_getUserSnapshot; [done | | done |].
    - eapply wf_grows; [exact Hwf1 | by apply extends_grows].
    - intros r m3 _ _ Hsome. split; [done |]. apply Hsome.
      destruct Hext2 as [-> _]. exact Hbucket1. }
  apply returns_elim in Hlist as (r & w3 & Hlist & Hs3 & [snapshot ->]).
  exists snapshot, w3. split; [| exact Hs3].
  unfold listRoute. rewrite (truthy_Some _ Hkey). apply try_run.
  by rewrite (bind_run _ _ _ _ _ Hlist).
Qed.

End identify_then_list.

(** ** Requests that are answered

    The properties above say what holds when a call returns or throws.
    This part shows that the calls do return or throw: on a well-formed
    bucket, and for keys that are no names inherited from
    [Object.prototype], no call leaves the embedding. *)

(** Every earlier cell of the heap has the shape it had. *)
Definition shapes (m m' : Manager.t) : Prop :=
  (shape <$> Manager.heap m) `prefix_of` (shape <$> Manager.heap m').

#[global] Instance shapes_preorder : PreOrder shapes.
Proof.
  split.
  - intros m. unfold shapes. reflexivity.
  - intros m1 m2 m3 H1 H2. unfold shapes in *. by etransitivity.
Qed.

Lemma grows_shapes m m' : grows m m' → shapes m m'.
Proof. by intros [_ H]. Qed.

Lemma extends_shapes m m' : extends m m' → shapes m m'.
Proof. intros H. by apply grows_shapes, extends_grows. Qed.

Lemma shapes_same m m' : Manager.heap m' = Manager.heap m → shapes m m'.
Proof. intros H. unfold shapes. by rewrite H. Qed.

Lemma load_shapes m m' l :
  shapes m m' → is_Some (load (Manager.heap m) l) → is_Some (load (Manager.heap m') l).
Proof.
  intros Hs Hl. apply load_loadable. eapply loadable_prefix; [| exact Hs].
  by apply load_loadable.
Qed.

(** [safe c Q s]: started in [s], the code [c] returns or throws, and
    when it returns, the result and the manager's memory satisfy [Q]. *)
Definition safe {S A} `{HasManager S} (c : ST S A) (Q : A → Manager.t → Prop) (s : S)
  : Prop :=
  match c s with
  | (Ok a, s') => Q a (mgr s')
  | (Throw _, _) => True
  | (Stuck, _) => False
  end.

Section safe_rules.
Context {S : Type} `{HasManager S}.
Implicit Types (s : S).

Lemma safe_ret {A} (a : A) (Q : A → Manager.t → Prop) s : Q a (mgr s) → safe (ret a) Q s.
Proof. done. Qed.

Lemma safe_throw {A} e (Q : A → Manager.t → Prop) s : safe (throw e) Q s.
Proof. done. Qed.

Lemma safe_gets {A} (f : S → A) (Q : A → Manager.t → Prop) s :
  Q (f s) (mgr s) → safe (gets f) Q s.
Proof. done. Qed.

Lemma safe_bind {A B} (c : ST S A) (k : A → ST S B) (Q : B → Manager.t → Prop) s :
  safe c (λ a m', ∀ s', mgr s' = m' → safe (k a) Q s') s → safe (c ≫= k) Q s.
Proof.
  unfold safe. rewrite bind_eq. destruct (c s) as [[a|e|] s']; [| done..].
  intros Hk. by apply Hk.
Qed.

Lemma safe_mono {A} (c : ST S A) (Q Q' : A → Manager.t → Prop) s :
  safe c Q s → (∀ a m', Q a m' → Q' a m') → safe c Q' s.
Proof. unfold safe. destruct (c s) as [[a|e|] s']; eauto. Qed.

Lemma safe_prop {V} (obj : gmap string V) k (Q : option V → Manager.t → Prop) s :
  inherited k = false → (∀ v, Q v (mgr s)) → safe (prop obj k) Q s.
Proof.
  intros Hk HQ. unfold safe, prop. destruct (obj !! k); [apply HQ |].
  rewrite Hk. apply HQ.
Qed.

Lemma safe_assign {V} (obj : gmap string V) k v (Q : gmap string V → Manager.t → Prop) s :
  inherited k = false → (∀ obj', Q obj' (mgr s)) → safe (assign obj k v) Q s.
Proof.
  intros Hk HQ. unfold safe, assign. rewrite (inherited_proto _ Hk). apply HQ.
Qed.

(** Code that never leaves the embedding, whatever the state. *)
Lemma safe_keeps {A} (R : relation Manager.t) (c : ST S A) (Q : A → Manager.t → Prop) s :
  Keeps R c → (c s).1 ≠ Stuck → (∀ a m', R (mgr s) m' → Q a m') → safe c Q s.
Proof.
  intros Hc Hs HQ. unfold safe. specialize (Hc s).
  destruct (c s) as [[a|e|] s']; simpl in *; [by apply HQ | done | done].
Qed.

Lemma safe_elim {A} (c : ST S A) (Q : A → Manager.t → Prop) s :
  safe c Q s → (c s).1 ≠ Stuck.
Proof. unfold safe. by destruct (c s) as [[a|e|] s']. Qed.

Lemma safe_Ok {A} (c : ST S A) (Q : A → Manager.t → Prop) s a s' :
  safe c Q s → c s = (Ok a, s') → Q a (mgr s').
Proof. unfold safe. intros Hc Heq. by rewrite Heq in Hc. Qed.

End safe_rules.

Lemma safe_lift {D A} (c : ST Manager.t A) (Q : A → Manager.t → Prop) (d : D) m :
  safe c Q m → safe (lift c) Q (d, m).
Proof. unfold safe. rewrite lift_eq. by destruct (c m) as [[a|e|] m']. Qed.

Lemma safe_modify (f : Manager.t → Manager.t) (Q : unit → Manager.t → Prop) m :
  Q tt (f m) → safe (modify f) Q m.
Proof. done. Qed.

Lemma safe_getState (Q : Doc → Manager.t → Prop) (d : Doc) m :
  Q d m → safe (getState : ST (Doc * Manager.t) Doc) Q (d, m).
Proof. done. Qed.

Lemma safe_setUser userKey user (Q : unit → Manager.t → Prop) (d : Doc) m :
  Q tt m → safe (setUser userKey user : ST (Doc * Manager.t) unit) Q (d, m).
Proof. done. Qed.

Lemma safe_putState state (Q : unit → Manager.t → Prop) (d : Doc) m :
  Q tt m → safe (putState state : ST (Doc * Manager.t) unit) Q (d, m).
Proof. done. Qed.

Lemma safe_withState {A} (mutator : ST (Doc * Manager.t) A) (Q : A → Manager.t → Prop) s m :
  (DataStore._lock s = None → safe mutator Q (DataStore._read s, m)) →
  safe (DataStore.withState mutator) Q (s, m).
Proof.
  unfold safe, DataStore.withState. destruct (DataStore._lock s); [done |].
  intros Hm. specialize (Hm eq_refl).
  by destruct (mutator _) as [[a|e|] [state m']].
Qed.

Lemma safe_readState {A} (selector : ST (Doc * Manager.t) A) (Q : A → Manager.t → Prop) s m :
  (DataStore._lock s = None → safe selector Q (DataStore._read s, m)) →
  safe (DataStore.readState selector) Q (s, m).
Proof.
  unfold safe, DataStore.readState. destruct (DataStore._lock s); [done |].
  intros Hm. specialize (Hm eq_refl).
  by destruct (selector _) as [[a|e|] [state m']].
Qed.

(** *** The heap *)

Lemma safe_stringify l (Q : UploadJ → Manager.t → Prop) m :
  is_Some (load (Manager.heap m) l) → (∀ u, Q u m) → safe (stringify l) Q m.
Proof. intros [u Hu] HQ. unfold safe. rewrite (stringify_run _ _ _ Hu). apply HQ. Qed.

Lemma safe_decorateUpload u (Q : loc → Manager.t → Prop) m :
  (∀ r m', shapes m m' → is_Some (load (Manager.heap m') r) → Q r m') →
  safe (_decorateUpload u) Q m.
Proof.
  intros HQ. unfold safe. rewrite _decorateUpload_run. apply HQ.
  - unfold shapes. simpl. rewrite fmap_app. by apply prefix_app_r.
  - simpl. rewrite load_decorate. eauto.
Qed.

Lemma safe_decorateObject l (Q : loc → Manager.t → Prop) m :
  is_Some (load (Manager.heap m) l) →
  (∀ r m', shapes m m' → is_Some (load (Manager.heap m') r) → Q r m') →
  safe (decorateObject l) Q m.
Proof.
  intros Hl HQ. unfold decorateObject. apply safe_bind, safe_stringify; [done |].
  intros u. mgr_intro. by apply safe_decorateUpload.
Qed.

Lemma safe_assignFields l u (Q : unit → Manager.t → Prop) m :
  is_Some (load (Manager.heap m) l) →
  (∀ m', shapes m m' → Q tt m') →
  safe (assignFields l u) Q m.
Proof.
  intros Hl HQ. apply (safe_keeps grows); [apply Keeps_assignFields | |].
  - apply load_loadable in Hl as (lr & lm & Hl & Hr & _).
    rewrite list_lookup_fmap in Hl, Hr. unfold assignFields.
    destruct (Manager.heap m !! l) as [[o| |]|]; try discriminate.
    simpl in Hl. injection Hl as <- <-.
    by destruct (Manager.heap m !! Upload.receivedChunks o) as [[|received|]|].
  - intros [] m' Hg. by apply HQ, grows_shapes.
Qed.

Lemma safe_missingOf l (Q : list Z → Manager.t → Prop) m :
  is_Some (load (Manager.heap m) l) → (∀ missing, Q missing m) → safe (missingOf l) Q m.
Proof.
  intros Hl HQ. unfold missingOf. apply safe_bind, safe_stringify; [done |].
  intros u. mgr_intro. apply safe_ret, HQ.
Qed.

Lemma safe_statusOf l (Q : Status → Manager.t → Prop) m :
  is_Some (load (Manager.heap m) l) → (∀ status, Q status m) → safe (statusOf l) Q m.
Proof.
  intros Hl HQ. unfold statusOf. apply safe_bind, safe_stringify; [done |].
  intros u. mgr_intro. apply safe_ret, HQ.
Qed.

(** An assignment to fields of an upload object, by code that itself
    stays within the embedding and changes no object. *)
Lemma safe_mutateObject l (f : UploadJ → ST Manager.t UploadJ)
    (Q : unit → Manager.t → Prop) m :
  is_Some (load (Manager.heap m) l) →
  (∀ u m0, safe (f u) (λ _ m', Manager.heap m' = Manager.heap m0) m0) →
  (∀ m', shapes m m' → Q tt m') →
  safe (mutateObject l f) Q m.
Proof.
  intros Hl Hf HQ. unfold mutateObject. apply safe_bind, safe_stringify; [done |].
  intros u. mgr_intro. apply safe_bind. eapply safe_mono; [apply Hf |].
  intros u' m1 Hheap. mgr_intro. apply safe_assignFields; [by rewrite Hheap |].
  intros m2 Hs. apply HQ. etransitivity; [| exact Hs]. by apply shapes_same.
Qed.

Lemma safe_returns {S A} `{HasManager S} (c : ST S A) (Q : A → Manager.t → Prop) (s : S) :
  returns c (λ a s', Q a (mgr s')) s → safe c Q s.
Proof. unfold returns, safe. by destruct (c s) as [[a|e|] s']. Qed.

Lemma wf_bucket m userKey uploadId l :
  wf m → Manager.ephemeral m !! userKey ≫= (.!! uploadId) = Some l →
  is_Some (load (Manager.heap m) l).
Proof.
  intros Hwf Hl. destruct (Manager.ephemeral m !! userKey) as [b|] eqn:Hb; [| done].
  simpl in Hl. by eapply Hwf.
Qed.

Section safe_manager.
Context (dateAt : nat → Timestamp) (userIdAt fileIdAt : nat → string).

Lemma safe_now (Q : Timestamp → Manager.t → Prop) m :
  (∀ now m', Manager.heap m' = Manager.heap m → Q now m') → safe (_now dateAt) Q m.
Proof. intros HQ. unfold safe. simpl. by apply HQ. Qed.

Lemma safe_markChunk u i (Q : UploadJ → Manager.t → Prop) m :
  (∀ u' m', Manager.heap m' = Manager.heap m → Q u' m') → safe (_markChunk dateAt u i) Q m.
Proof.
  intros HQ. unfold _markChunk. destruct (_ || _); [apply safe_throw |].
  apply safe_bind, safe_now. intros now m' Hheap. mgr_intro. apply safe_ret. by apply HQ.
Qed.

Lemma safe_toHistoryEntry u (Q : HistoryEntry.t → Manager.t → Prop) m :
  (∀ entry m', Manager.heap m' = Manager.heap m → Q entry m') →
  safe (_toHistoryEntry dateAt u) Q m.
Proof.
  intros HQ. unfold _toHistoryEntry. apply safe_bind.
  destruct (Upload.completedAt u).
  - apply safe_ret. mgr_intro. apply safe_ret. by apply HQ.
  - apply safe_now. intros now m' Hheap. mgr_intro. apply safe_ret. by apply HQ.
Qed.

Lemma safe_ensureUserRecord userKey (Q : UserRecord.t → Manager.t → Prop) (d : Doc) m :
  inherited userKey = false →
  (∀ user m', Manager.heap m' = Manager.heap m → Q user m') →
  safe (_ensureUserRecord dateAt userKey) Q (d, m).
Proof.
  intros Hk HQ. unfold _ensureUserRecord. apply safe_bind, safe_getState.
  mgr_intro. destruct (users d !! userKey); [apply safe_ret; by apply HQ |].
  rewrite Hk. apply safe_bind, safe_lift, safe_now. intros now m' Hheap. mgr_intro.
  apply safe_bind, safe_setUser. mgr_intro. apply safe_ret. by apply HQ.
Qed.

Lemma safe_findUpload userKey uploadId (Q : UserRecord.t * UploadJ → Manager.t → Prop)
    (d : Doc) m :
  inherited userKey = false → inherited uploadId = false →
  (∀ r, Q r m) →
  safe (findUpload userKey uploadId) Q (d, m).
Proof.
  intros Hk Hid HQ. unfold findUpload. apply safe_bind, safe_getState. mgr_intro.
  apply safe_bind, safe_prop; [done |]. intros [user|]; mgr_intro; [| apply safe_throw].
  apply safe_bind, safe_prop; [done |]. intros [upload|]; mgr_intro; [| apply safe_throw].
  apply safe_ret, HQ.
Qed.

Lemma safe_historyMutator userKey l (Q : unit → Manager.t → Prop) (d : Doc) m :
  inherited userKey = false →
  is_Some (load (Manager.heap m) l) →
  (∀ m', Manager.heap m' = Manager.heap m → Q tt m') →
  safe (historyMutator dateAt userKey l) Q (d, m).
Proof.
  intros Hk Hl HQ. unfold historyMutator.
  apply safe_bind, safe_ensureUserRecord; [done |]. intros user m1 Hheap1. mgr_intro.
  apply safe_bind, safe_lift, safe_stringify; [by rewrite Hheap1 |]. intros u. mgr_intro.
  apply safe_bind, safe_lift, safe_toHistoryEntry. intros entry m2 Hheap2. mgr_intro.
  apply safe_setUser, HQ. congruence.
Qed.

(** The manager's calls, on a well-formed bucket and with keys that are no
    names inherited from [Object.prototype]. *)
Lemma safe_getUpload userKey uploadId s m :
  wf m → inherited userKey = false → inherited uploadId = false →
  safe (getUpload userKey uploadId) (λ _ _, True) (s, m).
Proof.
  intros Hwf Hk Hid. unfold getUpload, ephemeralUpload.
  apply safe_bind, safe_lift, safe_gets. mgr_intro.
  destruct (Manager.ephemeral m !! userKey ≫= _) as [l|] eqn:Hmem.
  - apply safe_bind, safe_lift, safe_decorateObject; [by eapply wf_bucket |].
    intros r m' _ _. mgr_intro. by apply safe_ret.
  - apply safe_bind, safe_readState. intros _.
    + apply safe_bind, safe_getState. mgr_intro.
      apply safe_bind, safe_prop; [done |]. intros [user|]; mgr_intro; [| by apply safe_ret].
      apply safe_bind, safe_prop; [done |].
      intros [upload|]; mgr_intro; [| by apply safe_ret].
      apply safe_bind, safe_lift, safe_decorateUpload. intros r m' _ _. mgr_intro.
      apply safe_ret. mgr_intro. by apply safe_ret.
Qed.

Lemma safe_recordChunk userKey uploadId i s m :
  wf m → inherited userKey = false → inherited uploadId = false →
  safe (recordChunk dateAt userKey uploadId i)
    (λ r m', is_Some (load (Manager.heap m') (Recorded.upload r))) (s, m).
Proof.
  intros Hwf Hk Hid. unfold recordChunk, ephemeralUpload.
  apply safe_bind, safe_lift, safe_gets. mgr_intro.
  destruct (Manager.ephemeral m !! userKey ≫= _) as [l|] eqn:Hmem.
  - pose proof (wf_bucket _ _ _ _ Hwf Hmem) as Hl.
    apply safe_bind, safe_lift, safe_mutateObject; [done | |].
    { intros u m0. apply safe_markChunk. auto. }
    intros m1 Hs1. mgr_intro.
    apply safe_bind, safe_lift, safe_decorateObject; [by eapply load_shapes |].
    intros r m2 Hs2 Hr. mgr_intro.
    apply safe_bind, safe_lift, safe_missingOf; [done |]. intros missing. mgr_intro.
    by apply safe_ret.
  - apply safe_withState. intros _.
    apply safe_bind, safe_findUpload; [done.. |]. intros [user upload]. mgr_intro.
    apply safe_bind, safe_lift, safe_markChunk. intros u' m1 _. mgr_intro.
    apply safe_bind, safe_setUser. mgr_intro.
    apply safe_bind, safe_lift, safe_decorateUpload. intros r m2 _ Hr. mgr_intro.
    apply safe_bind, safe_lift, safe_missingOf; [done |]. intros missing. mgr_intro.
    by apply safe_ret.
Qed.

Lemma safe_updateStatus userKey uploadId status s m :
  wf m → inherited userKey = false → inherited uploadId = false →
  safe (updateStatus dateAt userKey uploadId status) (λ _ _, True) (s, m).
Proof.
  intros Hwf Hk Hid. unfold updateStatus, ephemeralUpload.
  apply safe_bind, safe_lift, safe_gets. mgr_intro.
  destruct (Manager.ephemeral m !! userKey ≫= _) as [l|] eqn:Hmem.
  - pose proof (wf_bucket _ _ _ _ Hwf Hmem) as Hl.
    apply safe_bind, safe_lift, safe_mutateObject; [done | |].
    { intros u m0. apply safe_bind, safe_now. intros now m' Hheap. mgr_intro.
      by apply safe_ret. }
    intros m1 Hs1. mgr_intro.
    apply safe_lift, safe_decorateObject; [by eapply load_shapes | done].
  - apply safe_withState. intros _.
    apply safe_bind, safe_findUpload; [done.. |]. intros [user upload]. mgr_intro.
    apply safe_bind, safe_lift, safe_now. intros now m1 _. mgr_intro.
    apply safe_bind, safe_setUser. mgr_intro.
    by apply safe_lift, safe_decorateUpload.
Qed.

Lemma safe_finalizeUpload userKey uploadId s m :
  wf m → inherited userKey = false → inherited uploadId = false →
  safe (finalizeUpload dateAt userKey uploadId) (λ _ _, True) (s, m).
Proof.
  intros Hwf Hk Hid. unfold finalizeUpload, ephemeralUpload.
  apply safe_bind, safe_lift, safe_gets. mgr_intro.
  destruct (Manager.ephemeral m !! userKey ≫= _) as [l|] eqn:Hmem.
  - pose proof (wf_bucket _ _ _ _ Hwf Hmem) as Hl.
    apply safe_bind, safe_lift, safe_mutateObject; [done | |].
    { intros u m0. apply safe_bind, safe_now. intros now m' Hheap. mgr_intro.
      by apply safe_ret. }
    intros m1 Hs1. mgr_intro.
    pose proof (load_shapes _ _ _ Hs1 Hl) as Hl1.
    apply safe_bind, safe_lift, safe_modify. mgr_intro.
    apply safe_bind, safe_withState. intros _.
    apply safe_historyMutator; [done | done |]. intros m2 Hheap2. mgr_intro.
    apply safe_lift, safe_decorateObject; [| done]. by rewrite Hheap2.
  - apply safe_withState. intros _.
    apply safe_bind, safe_findUpload; [done.. |]. intros [user upload]. mgr_intro.
    apply safe_bind, safe_lift, safe_now. intros now m1 _. mgr_intro.
    apply safe_bind, safe_lift, safe_decorateUpload. intros r m2 _ _. mgr_intro.
    apply safe_bind, safe_lift, safe_toHistoryEntry. intros entry m3 _. mgr_intro.
    apply safe_bind, safe_setUser. mgr_intro. by apply safe_ret.
Qed.

Lemma safe_removeUpload userKey uploadId forget s m :
  wf m → inherited userKey = false → inherited uploadId = false →
  safe (removeUpload dateAt userKey uploadId forget) (λ _ _, True) (s, m).
Proof.
  intros Hwf Hk Hid. unfold removeUpload, ephemeralUpload.
  apply safe_bind, safe_lift, safe_gets. mgr_intro.
  destruct (Manager.ephemeral m !! userKey ≫= _) as [l|] eqn:Hmem.
  - pose proof (wf_bucket _ _ _ _ Hwf Hmem) as Hl.
    apply safe_bind, safe_lift, safe_modify. mgr_intro.
    apply safe_bind.
    assert (Hrest : ∀ m2, Manager.heap m2 = Manager.heap m →
              ∀ s', mgr s' = m2 →
              safe (lift (decorateObject l) : ST World loc) (λ _ _, True) s').
    { intros m2 Hheap2. mgr_intro.
      apply safe_lift, safe_decorateObject; [| done]. by rewrite Hheap2. }
    destruct forget.
    + apply safe_ret. by apply Hrest.
    + apply safe_withState. intros _. apply safe_historyMutator; [done | done |].
      intros m2 Hheap2. by apply Hrest.
  - apply safe_withState. intros _.
    apply safe_bind, safe_findUpload; [done.. |]. intros [user upload]. mgr_intro.
    apply safe_bind, safe_lift, safe_decorateUpload. intros r m1 _ _. mgr_intro.
    apply safe_bind.
    assert (Hrest : ∀ (history' : list HistoryEntry.t) s',
              safe (setUser userKey
                      (UserRecord.set_uploads (delete uploadId (UserRecord.uploads user))
                         (UserRecord.set_history history' user));; ret r
                    : ST (Doc * Manager.t) loc) (λ _ _, True) s').
    { intros history' [d' m']. apply safe_bind, safe_setUser. mgr_intro. by apply safe_ret. }
    destruct forget.
    + apply safe_ret. intros s' _. apply Hrest.
    + apply safe_bind, safe_lift, safe_toHistoryEntry. intros entry m2 _. mgr_intro.
      apply safe_ret. intros s' _. apply Hrest.
Qed.

Lemma safe_clearHistory userKey s m :
  inherited userKey = false → safe (clearHistory userKey) (λ _ _, True) (s, m).
Proof.
  intros Hk. unfold clearHistory. apply safe_withState. intros _.
  apply safe_bind, safe_getState. mgr_intro.
  apply safe_bind, safe_prop; [done |]. intros [user|]; mgr_intro; [| apply safe_throw].
  apply safe_bind, safe_setUser. mgr_intro. by apply safe_ret.
Qed.

Lemma safe_getUserSnapshot userKey s m :
  wf m → inherited userKey = false → safe (getUserSnapshot userKey) (λ _ _, True) (s, m).
Proof.
  intros Hwf Hk. destruct (DataStore._lock s) as [e|] eqn:Hlock.
  - unfold safe, getUserSnapshot.
    by rewrite (bind_run_Throw _ _ _ _ _ (rejected_lock_skips_readState _ _ _ _ Hlock)).
  - apply safe_returns. apply returns_getUserSnapshot; [done | done | by right | done].
Qed.

Lemma safe_assembleFile {R A} (upload : Upload.t R A) m :
  safe (assembleFile upload) (λ _ _, True) m.
Proof.
  apply (safe_keeps extends); [apply Keeps_assembleFile | | done].
  assert (Hpipe : ∀ uploadId name indices m1,
            (pipeParts uploadId name indices m1).1 ≠ Stuck).
  { intros uploadId name indices. induction indices as [|i indices IH]; intros m1; simpl;
      [done |].
    rewrite bind_eq. simpl.
    destruct (Manager.uploadDir m1 !! uploadId ≫= _); [| done].
    rewrite bind_eq. simpl. apply IH. }
  unfold assembleFile. rewrite bind_eq. simpl. rewrite bind_eq.
  match goal with |- context [pipeParts ?a ?b ?c ?d] => specialize (Hpipe a b c d) end.
  by destruct (pipeParts _ _ _ _) as [[[]|e|] m1].
Qed.

Lemma safe_createUpload userKey fileName fileSize chunkSize persist s m :
  inherited userKey = false →
  inherited (fileIdAt (Manager.fileIdDraws m)) = false →
  chunkSize ≠ 0 →
  Z.abs fileSize ≤ MAX_EXACT_INTEGER → Z.abs chunkSize ≤ MAX_EXACT_INTEGER →
  safe (createUpload dateAt fileIdAt userKey fileName fileSize chunkSize persist)
    (λ _ _, True) (s, m).
Proof.
  intros Hk Hid Hchunk Hsize Hchunk'. unfold createUpload.
  rewrite (Math_ceil_div_exact _ _ Hchunk Hsize Hchunk').
  apply safe_bind, safe_lift. unfold safe at 1. simpl. mgr_intro.
  apply safe_bind, safe_lift, safe_now. intros now m1 _. mgr_intro.
  apply safe_bind, safe_lift. unfold safe at 1. rewrite parse_run.
  set (u := Upload.mk _ _ _ _ _ _ _ _ _ _ _ _ _ _). simpl.
  set (base := parse_loc _ u). set (m2 := Manager.set_heap _ m1).
  assert (Hbase : is_Some (load (Manager.heap m2) base)).
  { unfold m2, base. simpl. rewrite load_parse. eauto. }
  clearbody m2 base. mgr_intro.
  assert (Hrest : ∀ m3, Manager.heap m3 = Manager.heap m2 →
            ∀ s', mgr s' = m3 →
            safe (lift (ensureScratchDir (fileIdAt (Manager.fileIdDraws m)));;
                  lift (decorateObject base) : ST World loc) (λ _ _, True) s').
  { intros m3 Hheap3. mgr_intro. apply safe_bind, safe_lift, safe_modify. mgr_intro.
    apply safe_lift, safe_decorateObject; [| done].
    simpl. destruct (Manager.uploadDir m3 !! _); simpl; by rewrite Hheap3. }
  apply safe_bind. destruct persist.
  - apply safe_withState. intros _.
    apply safe_bind, safe_ensureUserRecord; [done |]. intros user m3 Hheap3. mgr_intro.
    apply safe_bind, safe_lift, safe_stringify; [by rewrite Hheap3 |]. intros value. mgr_intro.
    apply safe_bind, safe_assign; [done |]. intros uploads'. mgr_intro.
    apply safe_setUser. by apply Hrest.
  - apply safe_lift, safe_bind, safe_modify. mgr_intro. apply safe_modify.
    apply Hrest. simpl. by destruct (Manager.ephemeral m2 !! userKey).
Qed.

End safe_manager.

(** *** identifyUser *)

Lemma first_free (f : nat → bool) (n : nat) :
  f n = false →
  ∃ n0 : nat, (n0 ≤ n)%nat ∧ f n0 = false ∧ ∀ j, (j < n0)%nat → f j = true.
Proof.
  revert f. induction n as [|n IH]; intros f Hn.
  - exists 0%nat. split; [lia |]. split; [done |]. intros j Hj. lia.
  - destruct (f 0%nat) eqn:H0.
    + destruct (IH (λ j, f (S j)) Hn) as (n0 & Hle & Hf & Hlt).
      exists (S n0). split; [lia |]. split; [done |].
      intros [|j] Hj; [done |]. apply Hlt. lia.
    + exists 0%nat. split; [lia |]. split; [done |]. intros j Hj. lia.
Qed.

Lemma truthy_Some_inv v k : truthy v = Some k → v = Some k ∧ k ≠ ""%string.
Proof.
  unfold truthy. destruct v as [s|]; [| done]. case_bool_decide; [done |].
  by intros [= <-].
Qed.

Section safe_identify.
Context (dateAt : nat → Timestamp) (userIdAt : nat → string).

(** [identifyUser] returns or throws when the requested key is no
    inherited name, and, when it has to generate a key, the generator
    yields a free one while the fuel lasts. *)
Lemma safe_identifyUser fuel requestedKey s m :
  match truthy requestedKey with
  | Some k => inherited k = false
  | None =>
      ∃ n : nat, (n < fuel)%nat ∧
        truthy_at (users (DataStore._read s)) (userIdAt (Manager.userIdDraws m + n)%nat) = false
  end →
  safe (identifyUser dateAt userIdAt fuel requestedKey)
    (λ r _, inherited (Identity.userKey r) = false) (s, m).
Proof.
  intros Hcov. destruct (truthy requestedKey) as [k|] eqn:Hkey.
  - apply truthy_Some_inv in Hkey as [-> Hne].
    destruct (DataStore._lock s) as [e|] eqn:Hlock.
    { unfold safe, identifyUser, identifyUser_exists. rewrite (truthy_Some k Hne).
      by rewrite (bind_run_Throw _ _ _ _ _ (rejected_lock_skips_readState _ _ _ _ Hlock)). }
    destruct (truthy_at (users (DataStore._read s)) k) eqn:Htaken.
    + unfold safe, identifyUser. rewrite (truthy_Some k Hne).
      rewrite (bind_run _ _ _ _ _ (identifyUser_exists_run k s m Hlock)).
      rewrite Htaken. rewrite bind_eq, lift_eq. simpl. exact Hcov.
    + destruct (identifyUser_register_free dateAt userIdAt fuel k s m Hne Hlock Htaken)
        as (w' & Hrun & _).
      unfold safe, identifyUser. rewrite (truthy_Some k Hne).
      rewrite (bind_run _ _ _ _ _ (identifyUser_exists_run k s m Hlock)).
      rewrite Htaken, Hrun. exact Hcov.
  - destruct (DataStore._lock s) as [e|] eqn:Hlock.
    { unfold safe, identifyUser, identifyUser_register. rewrite Hkey.
      rewrite bind_eq. simpl.
      by rewrite (bind_run_Throw _ _ _ _ _ (rejected_lock_skips_withState _ _ _ _ Hlock)). }
    destruct Hcov as (n & Hn & Hfree).
    destruct (first_free
                (λ j, truthy_at (users (DataStore._read s))
                        (userIdAt (Manager.userIdDraws m + j)%nat)) n Hfree)
      as (n0 & Hle & Hfree0 & Htaken0).
    destruct (identifyUser_register_drawn dateAt userIdAt fuel n0 requestedKey s m)
      as (w' & Hrun & _); try done; [by rewrite Hkey | lia |].
    unfold safe, identifyUser. rewrite Hkey. rewrite bind_eq. simpl. rewrite Hrun.
    simpl. by apply truthy_at_free in Hfree0 as [_ ?].
Qed.

End safe_identify.

(** ** Every covered request is answered *)

(** A key of a request, when given, is no name inherited from
    [Object.prototype]. *)
Definition ownKey (key : option string) : Prop :=
  match truthy key with
  | Some k => inherited k = false
  | None => True
  end.

(** A size the embedding covers: an integer of at most [2^53], a number
    that is not above zero, or one that is not finite. *)
Definition coveredNumber (x : Number) : Prop :=
  match x with
  | Finite z => z ≤ MAX_EXACT_INTEGER
  | Fraction aboveZero => aboveZero = false
  | NonFinite => True
  end.

Section covered.
Context (production : bool).
Context (dateAt : nat → Timestamp) (userIdAt fileIdAt : nat → string).

(** The requests the embedding covers, in a given state: the keys and
    upload ids are no inherited names; an upload id that names a scratch
    directory is a plain name; the sizes are covered; the id a new
    upload would get is no inherited name; and an identification that has
    to generate a key is given a free one while the fuel lasts. *)
Definition covered (request : Request) (w : World) : Prop :=
  match request with
  | PostIdentify fuel bodyUserKey queryUserKey =>
      match truthy (orElse bodyUserKey queryUserKey) with
      | Some k => inherited k = false
      | None =>
          ∃ n : nat, (n < fuel)%nat ∧
            truthy_at (users (DataStore._read w.1))
              (userIdAt (Manager.userIdDraws w.2 + n)%nat) = false
      end
  | GetUploads userKey => ownKey userKey
  | GetUpload_ uploadId userKey => inherited uploadId = false ∧ ownKey userKey
  | PostUploads userKey fileName fileSize chunkSize persist =>
      ownKey userKey ∧ coveredNumber fileSize ∧ coveredNumber chunkSize ∧
      inherited (fileIdAt (Manager.fileIdDraws w.2)) = false
  | PostChunk uploadId userKey file chunkIndex =>
      plainName uploadId = true ∧ inherited uploadId = false ∧ ownKey userKey
  | PostState uploadId action userKey =>
      plainName uploadId = true ∧ inherited uploadId = false ∧ ownKey userKey
  | DeleteHistory bodyUserKey queryUserKey => ownKey (orElse bodyUserKey queryUserKey)
  end.

Lemma safe_try_ (body : ST World Response.t) w :
  safe body (λ _ _, True) w → safe (try_ production body) (λ _ _, True) w.
Proof. unfold safe, try_. by destruct (body w) as [[response|e|] w']. Qed.

Lemma safe_raise message statusCode (Q : Response.t → Manager.t → Prop) (w : World) :
  (∀ response, Q response w.2) → safe (raise production message statusCode) Q w.
Proof. intros HQ. apply safe_ret, HQ. Qed.

Lemma safe_json body (Q : Response.t → Manager.t → Prop) (w : World) :
  (∀ response, Q response w.2) → safe (json body) Q w.
Proof. intros HQ. apply safe_ret, HQ. Qed.

(** A call that stays within the embedding and keeps the bucket well
    formed. *)
Lemma safe_wf {A} (c : ST World A) (Q : A → Manager.t → Prop) w :
  keepsWf c → wf w.2 → safe c Q w → safe c (λ a m', wf m' ∧ Q a m') w.
Proof.
  intros Hc Hwf Hs. specialize (Hc w Hwf). unfold wp in Hc. unfold safe in *.
  by destruct (c w) as [[a|e|] w'].
Qed.

Lemma safe_snapshot userKey (k : option Snapshot.t → ST World Response.t) w :
  wf w.2 → inherited userKey = false →
  (∀ snapshot w', safe (k snapshot) (λ _ _, True) w') →
  safe (getUserSnapshot userKey ≫= k) (λ _ _, True) w.
Proof.
  intros Hwf Hk Hrest. destruct w as [s m]. apply safe_bind.
  eapply safe_mono; [by apply safe_getUserSnapshot |].
  intros snapshot m' _ w' _. apply Hrest.
Qed.

Lemma serve_safe request w :
  wf w.2 → covered request w →
  safe (serve production dateAt userIdAt fileIdAt request) (λ _ _, True) w.
Proof.
  intros Hwf Hcov. destruct w as [s m]. simpl in Hwf.
  destruct request; simpl in Hcov; unfold serve.
  - (* identify *)
    unfold identifyRoute. apply safe_try_. cbv zeta. apply safe_bind.
    eapply safe_mono.
    { apply safe_wf; [apply keepsWf_identifyUser | done |].
      apply safe_identifyUser. exact Hcov. }
    intros result m' [Hwf' Hkey] w' <-.
    apply safe_snapshot; [done | done |]. intros snapshot w''. by apply safe_json.
  - (* list *)
    unfold listRoute, ownKey in *. apply safe_try_.
    destruct (truthy userKey) as [k|]; [| by apply safe_raise].
    apply safe_snapshot; [done | done |].
    intros [snapshot|] w'; [by apply safe_json | by apply safe_raise].
  - (* one upload *)
    unfold uploadRoute, ownKey in *. destruct Hcov as [Hid Hkey]. apply safe_try_.
    destruct (truthy userKey) as [k|]; [| by apply safe_raise].
    apply safe_bind. eapply safe_mono; [by apply safe_getUpload |].
    intros [found|] m' _ w' _; [by apply safe_json | by apply safe_raise].
  - (* create *)
    unfold createRoute, ownKey in *. destruct Hcov as (Hkey & Hsize & Hchunk & Hid).
    apply safe_try_.
    destruct (truthy userKey) as [k|]; [| by apply safe_raise].
    destruct (truthy fileName) as [name|]; [| by apply safe_raise].
    destruct (negb (isFinite fileSize) || negb (isFinite chunkSize)
              || atMostZero fileSize || atMostZero chunkSize) eqn:Hbad;
      [by apply safe_raise |].
    destruct fileSize as [size|[]|], chunkSize as [chunk|[]|]; simpl in *; try done;
      try (by rewrite orb_true_r in Hbad).
    apply safe_bind. eapply safe_mono.
    { apply (safe_createUpload dateAt fileIdAt); [done | done | lia..]. }
    intros upload m' _ w' _. by apply safe_json.
  - (* chunk *)
    unfold chunkRoute, parseInteger, ownKey in *. destruct Hcov as (_ & Hid & Hkey).
    apply safe_try_.
    destruct (truthy userKey) as [k|]; [| by apply safe_raise].
    destruct file as [buffer|]; [| by apply safe_raise].
    destruct chunkIndex as [index|]; [| by apply safe_raise].
    apply safe_bind. eapply safe_mono.
    { apply (safe_wf _ (λ _ _, True)); [apply keepsWf_saveChunk | done |].
      apply safe_lift. unfold saveChunk. apply safe_bind, safe_modify. mgr_intro.
      by apply safe_modify. }
    intros [] m1 [Hwf1 _] [s1 ?] <-. simpl in Hwf1.
    apply safe_bind. eapply safe_mono.
    { apply safe_wf; [apply keepsWf_recordChunk | done |].
      by apply (safe_recordChunk dateAt). }
    intros record m2 [Hwf2 Hrecord] [s2 ?] <-. simpl in Hwf2, Hrecord.
    destruct (Recorded.completed record); [| by apply safe_json]. cbv zeta.
    apply safe_bind. eapply safe_mono.
    { apply (safe_wf _ (λ _ _, True)); [apply keepsWf_assemble | done |].
      apply safe_lift, safe_bind, safe_stringify; [done |]. intros u. mgr_intro.
      apply safe_assembleFile. }
    intros name m3 [Hwf3 _] [s3 ?] <-. simpl in Hwf3.
    apply safe_bind. eapply safe_mono.
    { apply safe_wf; [apply keepsWf_finalizeUpload | done |].
      by apply (safe_finalizeUpload dateAt). }
    intros copy m4 [Hwf4 _] w4 <-.
    apply safe_snapshot; [done | done |]. intros snapshot w'. by apply safe_json.
  - (* state *)
    unfold stateRoute, ownKey in *. destruct Hcov as (_ & Hid & Hkey). apply safe_try_.
    destruct (truthy userKey) as [k|]; [| by apply safe_raise].
    destruct (truthy action) as [act|]; [| by apply safe_raise]. cbv zeta.
    assert (Hrespond : ∀ response w', wf w'.2 →
              safe (snapshot ← getUserSnapshot k; json (StateBody response snapshot))
                (λ _ _, True) w').
    { intros response w' Hwf'. apply safe_snapshot; [done | done |].
      intros snapshot w''. by apply safe_json. }
    assert (Hstatus : ∀ status,
              safe (response ← updateStatus dateAt k uploadId status;
                    snapshot ← getUserSnapshot k; json (StateBody response snapshot))
                (λ _ _, True) (s, m)).
    { intros status. apply safe_bind. eapply safe_mono.
      { apply safe_wf; [apply keepsWf_updateStatus | done |].
        by apply (safe_updateStatus dateAt). }
      intros response m' [Hwf' _] w' <-. by apply Hrespond. }
    assert (Hremove : ∀ forget,
              safe (response ← removeUpload dateAt k uploadId forget;
                    lift (removeScratchDir uploadId);;
                    snapshot ← getUserSnapshot k; json (StateBody response snapshot))
                (λ _ _, True) (s, m)).
    { intros forget. apply safe_bind. eapply safe_mono.
      { apply safe_wf; [apply keepsWf_removeUpload | done |].
        by apply (safe_removeUpload dateAt). }
      intros response m' [Hwf' _] [s' ?] <-. simpl in Hwf'.
      apply safe_bind, safe_lift, safe_modify. mgr_intro. by apply Hrespond. }
    repeat case_bool_decide; [apply Hstatus | apply Hstatus | apply Hremove | apply Hremove |].
    by apply safe_raise.
  - (* history *)
    unfold historyRoute, ownKey in *. apply safe_try_.
    destruct (truthy (orElse bodyUserKey queryUserKey)) as [k|]; [| by apply safe_raise].
    apply safe_bind. eapply safe_mono.
    { apply safe_wf; [apply keepsWf_clearHistory | done |]. by apply safe_clearHistory. }
    intros history m' [Hwf' _] w' <-.
    apply safe_snapshot; [done | done |]. intros snapshot w''. by apply safe_json.
Qed.


End covered.

(** ** Closed examples *)



Lemma createUpload_then_getUpload_witness :
  ∃ (copy : loc) (w2 : World),
    getUpload aliceKey (sampleFileId 0) (withUpload false)
    = (Ok (Some (Found.mk memory copy)), w2) ∧
    load (Manager.heap w2.2) copy = load (Manager.heap (withUpload false).2) 3%nat ∧
    is_Some (load (Manager.heap w2.2) copy).
Proof.
  apply (createUpload_then_getUpload sampleDate sampleFileId identified (withUpload false)
           aliceKey "report.pdf" 10 6 false 3%nat).
  - vm_compute. reflexivity.
  - discriminate.
Defined.

Lemma getUpload_returns_held_metadata_witness :
  ∃ (copy : loc) (m' : Manager.t),
    getUpload aliceKey (sampleFileId 0) (withUpload false)
    = (Ok (Some (Found.mk memory copy)), ((withUpload false).1, m')) ∧
    load (Manager.heap m') copy = Some (decorated (reportUpload false)) ∧
    extends (withUpload false).2 m'.
Proof.
  apply (proj1 (getUpload_returns_held_metadata (withUpload false) aliceKey (sampleFileId 0))
           (reportUpload false)).
  vm_compute. reflexivity.
Defined.

Lemma recordChunk_marks_chunk_witness :
  ∃ (r : Recorded.t) (w' : World),
    recordChunk sampleDate aliceKey (sampleFileId 0) 1 (withUpload true) = (Ok r, w') ∧
    storedUpload w' aliceKey (sampleFileId 0)
    = Some (marked (reportUpload true) 1 (sampleDate 2)) ∧
    load (Manager.heap w'.2) (Recorded.upload r)
    = Some (decorated (marked (reportUpload true) 1 (sampleDate 2))) ∧
    Upload.receivedChunks (marked (reportUpload true) 1 (sampleDate 2))
    = {[1]} ∪ Upload.receivedChunks (reportUpload true) ∧
    Upload.receivedCount (marked (reportUpload true) 1 (sampleDate 2))
    = Some (Z.of_nat (size (Upload.receivedChunks
                              (marked (reportUpload true) 1 (sampleDate 2))))) ∧
    (Recorded.completed r = true ↔
     ∀ j, 0 ≤ j < 2 → j = 1 ∨ j ∈ Upload.receivedChunks (reportUpload true)).
Proof.
  apply (recordChunk_marks_chunk sampleDate (withUpload true) aliceKey (sampleFileId 0) 1
           (reportUpload true)).
  - vm_compute. reflexivity.
  - vm_compute. reflexivity.
  - simpl. lia.
Defined.

Lemma updateStatus_sets_status_witness :
  ∃ (copy : loc) (w' : World),
    updateStatus sampleDate aliceKey (sampleFileId 0) paused (withUpload true)
    = (Ok copy, w') ∧
    storedUpload w' aliceKey (sampleFileId 0)
    = Some (Upload.set_updatedAt (sampleDate 2)
              (Upload.set_status paused (reportUpload true))) ∧
    load (Manager.heap w'.2) copy
    = Some (decorated (Upload.set_updatedAt (sampleDate 2)
                         (Upload.set_status paused (reportUpload true)))) ∧
    Manager.ephemeral w'.2 = Manager.ephemeral (withUpload true).2 ∧
    DataStore._lock w'.1 = None.
Proof.
  apply (updateStatus_sets_status sampleDate (withUpload true) aliceKey (sampleFileId 0)
           paused (reportUpload true)).
  - vm_compute. reflexivity.
  - vm_compute. reflexivity.
Defined.

Lemma finalizeUpload_retires_witness :
  ∃ (copy : loc) (w' : World),
    finalizeUpload sampleDate aliceKey (sampleFileId 0) (withUpload true) = (Ok copy, w') ∧
    metadataIn (placeOf (withUpload true) aliceKey (sampleFileId 0)) w' aliceKey
      (sampleFileId 0) = None ∧
    load (Manager.heap w'.2) copy
    = Some (decorated (Upload.set_completedAt (Some (sampleDate 2))
                         (Upload.set_status completed (reportUpload true)))) ∧
    historyOf w' aliceKey
    = unshiftCapped (entryOf (reportUpload true) (sampleDate 2))
        (historyOf (withUpload true) aliceKey) ∧
    DataStore._lock w'.1 = None.
Proof.
  apply (finalizeUpload_retires sampleDate (withUpload true) aliceKey (sampleFileId 0)
           (reportUpload true)).
  - vm_compute. reflexivity.
  - vm_compute. reflexivity.
  - left. vm_compute. eauto.
Defined.

Lemma removeUpload_retires_witness :
  ∃ (copy : loc) (w' : World),
    removeUpload sampleDate aliceKey (sampleFileId 0) true (withUpload false)
    = (Ok copy, w') ∧
    metadataIn (placeOf (withUpload false) aliceKey (sampleFileId 0)) w' aliceKey
      (sampleFileId 0) = None ∧
    load (Manager.heap w'.2) copy = Some (decorated (reportUpload false)) ∧
    DataStore._lock w'.1 = None.
Proof.
  apply (removeUpload_retires sampleDate (withUpload false) aliceKey (sampleFileId 0) true
           (reportUpload false)).
  - vm_compute. reflexivity.
  - vm_compute. reflexivity.
  - left. vm_compute. eauto.
Defined.

(** The state after a chunk of an upload nobody created was reported:
    the chain of the store is rejected. *)
Definition rejectedWorld : World :=
  (recordChunk sampleDate aliceKey (sampleFileId 1) 0 identified).2.

Lemma unknown_upload_is_rejected_witness :
  (∀ i, recordChunk sampleDate aliceKey (sampleFileId 1) i identified
        = (Throw upload_not_found, rejectedWorld)) ∧
  (∀ status, updateStatus sampleDate aliceKey (sampleFileId 1) status identified
             = (Throw upload_not_found, rejectedWorld)) ∧
  finalizeUpload sampleDate aliceKey (sampleFileId 1) identified
  = (Throw upload_not_found, rejectedWorld) ∧
  (∀ forget, removeUpload sampleDate aliceKey (sampleFileId 1) forget identified
             = (Throw upload_not_found, rejectedWorld)) ∧
  getUpload aliceKey (sampleFileId 1) identified = (Ok None, identified).
Proof.
  apply (unknown_upload_is_rejected sampleDate identified aliceKey (sampleFileId 1));
    vm_compute; reflexivity.
Defined.

Lemma clearHistory_empties_history_witness :
  (∀ user, users (DataStore._read identified.1) !! aliceKey = Some user →
     clearHistory aliceKey identified
     = (Ok [], (DataStore.mk
                  (Some (mkDoc (<[aliceKey := UserRecord.set_history [] user]>
                                  (users (DataStore._read identified.1))))) None,
                identified.2))) ∧
  (users (DataStore._read identified.1) !! aliceKey = None → inherited aliceKey = false →
   clearHistory aliceKey identified
   = (Throw user_not_found,
      (DataStore.mk (DataStore.file identified.1) (Some user_not_found), identified.2))).
Proof.
  apply (clearHistory_empties_history identified aliceKey). vm_compute. reflexivity.
Defined.

Lemma rejected_chain_is_final_witness :
  (∀ call, (run sampleDate sampleUserId sampleFileId call rejectedWorld).2.1
           = rejectedWorld.1) ∧
  (∀ fuel requestedKey,
     identifyUser sampleDate sampleUserId fuel requestedKey rejectedWorld
     = (Throw upload_not_found, rejectedWorld)) ∧
  (∀ userKey, getUserSnapshot userKey rejectedWorld = (Throw upload_not_found, rejectedWorld)) ∧
  (∀ userKey, clearHistory userKey rejectedWorld = (Throw upload_not_found, rejectedWorld)).
Proof.
  apply (rejected_chain_is_final sampleDate sampleUserId sampleFileId rejectedWorld
           upload_not_found).
  vm_compute. reflexivity.
Defined.

Lemma bucket_uploads_bypass_store_witness :
  (∀ i, (recordChunk sampleDate aliceKey (sampleFileId 0) i (withUpload false)).2.1
        = (withUpload false).1) ∧
  (∀ status, (updateStatus sampleDate aliceKey (sampleFileId 0) status (withUpload false)).2.1
             = (withUpload false).1) ∧
  (getUpload aliceKey (sampleFileId 0) (withUpload false)).2.1 = (withUpload false).1 ∧
  (∀ userKey' fileName fileSize chunkSize,
     (createUpload sampleDate sampleFileId userKey' fileName fileSize chunkSize false
        (withUpload false)).2.1 = (withUpload false).1).
Proof.
  apply (bucket_uploads_bypass_store sampleDate sampleFileId (withUpload false) aliceKey
           (sampleFileId 0)).
  vm_compute. eauto.
Defined.

Lemma getUserSnapshot_partitions_witness :
  (getUserSnapshot aliceKey (withUpload true)).2.1 = (withUpload true).1 ∧
  (is_Some (users (DataStore._read (withUpload true).1) !! aliceKey) ∨
   is_Some (Manager.ephemeral (withUpload true).2 !! aliceKey)) ∧
  Snapshot.history (Snapshot.mk [6%nat] [] []) = historyOf (withUpload true) aliceKey ∧
  Forall (λ l, ∃ u, load (Manager.heap (getUserSnapshot aliceKey (withUpload true)).2.2) l
                    = Some u ∧ Upload.status u = paused)
    (Snapshot.paused (Snapshot.mk [6%nat] [] [])) ∧
  Forall (λ l, ∃ u, load (Manager.heap (getUserSnapshot aliceKey (withUpload true)).2.2) l
                    = Some u ∧ Upload.status u ≠ paused)
    (Snapshot.active (Snapshot.mk [6%nat] [] [])) ∧
  (length (Snapshot.active (Snapshot.mk [6%nat] [] []))
   + length (Snapshot.paused (Snapshot.mk [6%nat] [] [])))%nat
  = (size (from_option UserRecord.uploads ∅
             (users (DataStore._read (withUpload true).1) !! aliceKey))
     + size (default ∅ (Manager.ephemeral (withUpload true).2 !! aliceKey)))%nat.
Proof.
  apply (getUserSnapshot_partitions (withUpload true)
           (getUserSnapshot aliceKey (withUpload true)).2 aliceKey
           (Some (Snapshot.mk [6%nat] [] []))).
  vm_compute. reflexivity.
Defined.

Lemma rejected_request_changes_nothing_witness :
  (serve false sampleDate sampleUserId sampleFileId
     (GetUpload_ (sampleFileId 1) (Some aliceKey)) identified).2 = identified.
Proof.
  apply (rejected_request_changes_nothing false sampleDate sampleUserId sampleFileId
           (GetUpload_ (sampleFileId 1) (Some aliceKey)) identified _
           (Response.mk 404 (ErrorBody "upload_not_found" None))).
  - vm_compute. reflexivity.
  - right. reflexivity.
Defined.


(** The sample memory-only upload after its chunk 0 has been sent. *)
Definition afterFirstChunk : World :=
  (chunkRoute false sampleDate (sampleFileId 0) (Some aliceKey) (Some [Byte.x41]) (Some 0)
     (withUpload false)).2.

(** ... and what sending chunk 1 then gives. *)
Definition afterLastChunk : World :=
  (chunkRoute false sampleDate (sampleFileId 0) (Some aliceKey) (Some [Byte.x42]) (Some 1)
     afterFirstChunk).2.

Lemma chunk_route_completes_witness :
  ∃ (u : UploadJ) (datas : list bytes),
    storedUpload afterFirstChunk aliceKey (sampleFileId 0) = Some u ∧
    (∀ j, 0 ≤ j < Upload.totalChunks u → j = 1 ∨ j ∈ Upload.receivedChunks u) ∧
    Forall2 (λ j data,
               partFile (saveChunk (sampleFileId 0) 1 [Byte.x42] afterFirstChunk.2).2
                 (Upload.id u) j = Some data)
      (seqZ 0 (Upload.totalChunks u)) datas ∧
    Manager.finalDir afterLastChunk.2 !! finalName u = Some (mjoin datas) ∧
    Manager.uploadDir afterLastChunk.2 !! Upload.id u = None ∧
    200 = 200.
Proof.
  apply (chunk_route_completes false sampleDate afterFirstChunk afterLastChunk
           (sampleFileId 0) aliceKey [Byte.x42] 1 200 9%nat
           (Some (Snapshot.mk [] []
                    [HistoryEntry.mk (sampleFileId 0) "report.pdf" 10 (sampleDate 4) 6 2
                       false]))).
  vm_compute. reflexivity.
Defined.

Lemma state_route_actions_witness :
  Manager.finalDir
    (stateRoute false sampleDate (sampleFileId 0) (Some "cancel"%string) (Some aliceKey)
       (withUpload true)).2.2
  = Manager.finalDir (withUpload true).2 ∧
  Manager.uploadDir
    (stateRoute false sampleDate (sampleFileId 0) (Some "cancel"%string) (Some aliceKey)
       (withUpload true)).2.2
  = delete (sampleFileId 0) (Manager.uploadDir (withUpload true).2).
Proof.
  assert (Hkey : aliceKey ≠ ""%string) by discriminate.
  assert (Haction : "cancel"%string ≠ ""%string) by discriminate.
  apply (proj2 (state_route_actions false sampleDate (withUpload true) (sampleFileId 0)
                  "cancel" aliceKey Hkey Haction)
           (Response.mk 200
              (StateBody 6%nat
                 (Some (Snapshot.mk [] []
                          [HistoryEntry.mk (sampleFileId 0) "report.pdf" 10 (sampleDate 2) 6 2
                             true]))))).
  - vm_compute. reflexivity.
  - reflexivity.
Defined.

(** The sample states are states of the server. *)
Lemma identified_served : served false sampleDate sampleUserId sampleFileId identified.
Proof.
  apply (served_answered _ _ _ _ initialWorld (PostIdentify 8 (Some aliceKey) None)
           (Response.mk 200 (IdentifyBody aliceKey true (Snapshot.mk [] [] [])))).
  - apply served_start.
  - vm_compute. reflexivity.
Qed.

Lemma withUpload_served persist :
  served false sampleDate sampleUserId sampleFileId (withUpload persist).
Proof.
  apply (served_answered _ _ _ _ identified
           (PostUploads (Some aliceKey) (Some "report.pdf"%string) (Finite 10) (Finite 6)
              persist)
           (Response.mk 200 (CreatedBody 3%nat))).
  - apply identified_served.
  - destruct persist; vm_compute; reflexivity.
Qed.


(** The two chunks of the sample upload. *)
Definition sampleChunk (i : Z) : bytes :=
  if i =? 0 then [Byte.x41; Byte.x42] else [Byte.x43].




Lemma identified_key_is_known_witness :
  ∃ (snapshot : Snapshot.t) (w'' : World),
    listRoute false (Some aliceKey) identified
    = (Ok (Response.mk 200 (SnapshotBody (Some snapshot))), w'') ∧
    w''.1 = identified.1.
Proof.
  apply (identified_key_is_known false sampleDate sampleUserId sampleFileId initialWorld
           identified 8 (Some aliceKey) None 200 aliceKey true (Snapshot.mk [] [] [])).
  - apply served_start.
  - vm_compute. reflexivity.
  - discriminate.
Defined.
